(** * The regenny template preprocessor: a shallow embedding

    The development follows [TemplatePreprocessor.cpp]: the lexical
    primitives, the constant-expression evaluator, bracket reduction, the
    sanitizer, the definition parser, the specialization cache, the file
    transformer and the tree driver.

    Conventions of the embedding.
    - A [std::string] is a [list ascii]; a [char] is an [ascii] (one byte),
      classified as the "C" locale of [<cctype>] does.
    - A [size_t] cursor is a [nat]; [std::string::npos] is [None].
    - An [int64_t] is a [Z] kept in the range [-2^63, 2^63) by [wrap64].
    - Every [while] loop whose trip count is not the length of a list is
      written with an iteration bound ([fuel]).
    - A call that does not return to its caller has the result [None]:
      its iteration bound was exhausted, or the process was stopped by a
      division that overflows (see [ConstantExpressionParser.overflows]),
      or an exception left [process_tree].  The lemmas about the bounds
      show that those used by the callers are never exhausted. *)

From Stdlib Require Import String Ascii NArith ZArith Bool Arith Lia List.
Import ListNotations.

Local Open Scope char_scope.
Local Open Scope nat_scope.
Local Open Scope list_scope.

(** ** Strings and characters *)

Abbreviation text := (list ascii).

(** A string literal of the source, as a list of bytes. *)
Definition str (s : string) : text := list_ascii_of_string s.

Definition code (c : ascii) : nat := nat_of_ascii c.

Definition in_range (lo hi : nat) (c : ascii) : bool :=
  (lo <=? code c) && (code c <=? hi).

(** [std::isspace]: space, and the controls from tab to carriage return. *)
Definition is_space (c : ascii) : bool := (code c =? 32) || in_range 9 13 c.
(** [std::isdigit] *)
Definition is_digit (c : ascii) : bool := in_range 48 57 c.
Definition is_upper (c : ascii) : bool := in_range 65 90 c.
Definition is_lower (c : ascii) : bool := in_range 97 122 c.
(** [std::isalpha] *)
Definition is_alpha (c : ascii) : bool := is_upper c || is_lower c.
(** [std::isalnum] *)
Definition is_alnum (c : ascii) : bool := is_alpha c || is_digit c.
(** [std::isxdigit] *)
Definition is_xdigit (c : ascii) : bool :=
  is_digit c || in_range 65 70 c || in_range 97 102 c.
(** [std::tolower] *)
Definition to_lower (c : ascii) : ascii :=
  if is_upper c then ascii_of_nat (code c + 32) else c.

Definition is_identifier_start (c : ascii) : bool := is_alpha c || Ascii.eqb c "_".
Definition is_identifier_char (c : ascii) : bool := is_alnum c || Ascii.eqb c "_".
Definition is_type_char (c : ascii) : bool :=
  is_alnum c || Ascii.eqb c "_" || Ascii.eqb c "." || Ascii.eqb c ":".

Definition text_eqb (a b : text) : bool :=
  if list_eq_dec ascii_dec a b then true else false.

(** [text[pos]], for a position the source has checked to be in range. *)
Definition at_ (t : text) (pos : nat) : ascii := nth pos t zero.

(** [text.substr(pos, n)] *)
Definition substr (t : text) (pos n : nat) : text := firstn n (skipn pos t).

(** [text.replace(pos, n, r)] *)
Definition replace (t : text) (pos n : nat) (r : text) : text :=
  firstn pos t ++ r ++ skipn (pos + n) t.

(** [a] is a prefix of [b]: [b.substr(0, a.size()) == a]. *)
Fixpoint prefixb (a b : text) : bool :=
  match a, b with
  | [], _ => true
  | x :: a', y :: b' => Ascii.eqb y x && prefixb a' b'
  | _ :: _, [] => false
  end.

(** Number of leading characters that satisfy [P]: the trip count of
    [while (pos < size && P(text[pos])) ++pos]. *)
Fixpoint span_len (P : ascii -> bool) (s : text) : nat :=
  match s with
  | c :: r => if P c then S (span_len P r) else 0
  | [] => 0
  end.

Definition advance_while (P : ascii -> bool) (t : text) (pos : nat) : nat :=
  pos + span_len P (skipn pos t).

Fixpoint drop_while (P : ascii -> bool) (s : text) : text :=
  match s with
  | c :: r => if P c then drop_while P r else s
  | [] => []
  end.

(** [text.find(c, from)] *)
Fixpoint index_from (P : ascii -> bool) (s : text) : option nat :=
  match s with
  | [] => None
  | c :: r => if P c then Some 0 else option_map S (index_from P r)
  end.

Definition find_char (c : ascii) (t : text) (from : nat) : option nat :=
  option_map (Nat.add from) (index_from (Ascii.eqb c) (skipn from t)).

(** [text.find(token, from)]: the first position at or after [from] where
    [token] starts; [npos] when [from] is past the end. *)
Fixpoint find_sub (token s : text) : option nat :=
  if prefixb token s then Some 0
  else match s with
       | [] => None
       | _ :: r => option_map S (find_sub token r)
       end.

Definition find_str (token t : text) (from : nat) : option nat :=
  if length t <? from then None
  else option_map (Nat.add from) (find_sub token (skipn from t)).

(** [text.rfind(c, pos)]: the last position at or before [pos] holding [c]. *)
Fixpoint rindex_upto (c : ascii) (t : text) (n : nat) : option nat :=
  match n with
  | 0 => None
  | S k => if (k <? length t) && Ascii.eqb (at_ t k) c then Some k
           else rindex_upto c t k
  end.

Definition rfind_char (c : ascii) (t : text) (pos : nat) : option nat :=
  rindex_upto c t (S pos).

(** [text.rfind(c)] over the whole string. *)
Definition rfind_char_all (c : ascii) (t : text) : option nat :=
  rindex_upto c t (length t).

(** [text.rfind(token)]: the last position where [token] starts. *)
Fixpoint rfind_sub_upto (token t : text) (n : nat) : option nat :=
  match n with
  | 0 => None
  | S k => if prefixb token (skipn k t) then Some k else rfind_sub_upto token t k
  end.

Definition rfind_str (token t : text) : option nat :=
  if length t <? length token then None
  else rfind_sub_upto token t (S (length t - length token)).

(** [trim]: strip [isspace] characters at both ends. *)
Definition trim (sv : text) : text :=
  rev (drop_while is_space (rev (drop_while is_space sv))).

(** ** 64-bit integers *)

Local Open Scope Z_scope.

Definition INT64_MAX : Z := 2 ^ 63 - 1.
Definition INT64_MIN : Z := - 2 ^ 63.

(** Reduction modulo [2^64] into the signed range. *)
Definition wrap64 (z : Z) : Z := (z + 2 ^ 63) mod 2 ^ 64 - 2 ^ 63.

Definition in_int64 (z : Z) : Prop := INT64_MIN <= z <= INT64_MAX.

(** Value of one digit in a base up to 16. *)
Definition digit_value (c : ascii) : Z :=
  let n := Z.of_nat (code c) in
  if is_digit c then n - 48
  else if in_range 97 102 c then n - 87
  else n - 55.

Definition digits_value (base : Z) (ds : text) : Z :=
  fold_left (fun acc c => acc * base + digit_value c) ds 0.

(** [std::stoll(digits, nullptr, base)] on a non-empty run of digits of the
    base: the value, or [None] for the [std::out_of_range] it throws when
    the value exceeds [LLONG_MAX]. *)
Definition stoll (ds : text) (base : Z) : option Z :=
  let v := digits_value base ds in
  if v <=? INT64_MAX then Some v else None.

Fixpoint dec_digits (fuel : nat) (n : Z) (acc : text) : text :=
  match fuel with
  | O => acc
  | S f =>
      let d := ascii_of_nat (Z.to_nat (48 + n mod 10)) in
      if n <? 10 then d :: acc else dec_digits f (n / 10) (d :: acc)
  end.

(** [std::to_string] of an [int64_t]. *)
Definition to_string (v : Z) : text :=
  if v <? 0 then "-"%char :: dec_digits 20 (- v) [] else dec_digits 20 v [].

Local Close Scope Z_scope.

(** ** The constant-expression evaluator *)

Module ConstantExpressionParser.

(** The parser object.  [m_expr] holds the unread part of the expression,
    that is [m_expr.substr(m_pos)] of the source: the cursor [m_pos] only
    moves forward and the source reads nothing before it.  [stopped] is
    not a member of the source: it records that the process was stopped
    by a division, after which nothing the parser computes is returned to
    anyone. *)
Record t := mk { m_expr : text; m_valid : bool; stopped : bool }.

Definition invalidate (p : t) : t := mk (m_expr p) false (stopped p).

(** The process stops here. *)
Definition stop (p : t) : t := mk (m_expr p) false true.

Definition skip_ws (p : t) : t :=
  mk (drop_while is_space (m_expr p)) (m_valid p) (stopped p).

Definition match_char (ch : ascii) (p : t) : bool * t :=
  let p := skip_ws p in
  match m_expr p with
  | c :: r => if Ascii.eqb c ch then (true, mk r (m_valid p) (stopped p)) else (false, p)
  | [] => (false, p)
  end.

Definition match_token (token : text) (p : t) : bool * t :=
  let p := skip_ws p in
  if prefixb token (m_expr p)
  then (true, mk (skipn (length token) (m_expr p)) (m_valid p) (stopped p))
  else (false, p).

Definition starts_with (token : text) (p : t) : bool * t :=
  let p := skip_ws p in (prefixb token (m_expr p), p).

(** [m_pos < m_expr.size() && m_expr[m_pos] == ch] *)
Definition peek_is (ch : ascii) (p : t) : bool :=
  match m_expr p with
  | c :: _ => Ascii.eqb c ch
  | [] => false
  end.

Definition is_suffix_letter (ch : ascii) : bool :=
  Ascii.eqb ch "u" || Ascii.eqb ch "U" || Ascii.eqb ch "l" || Ascii.eqb ch "L".

Definition consume_numeric_suffix (p : t) : t :=
  mk (drop_while is_suffix_letter (m_expr p)) (m_valid p) (stopped p).

(** The digits are read, converted with [stoll], and the suffix letters
    are consumed only when the conversion did not throw. *)
Definition read_digits (P : ascii -> bool) (base : Z) (s : text) (valid halted : bool)
  : Z * t :=
  let n := span_len P s in
  if n =? 0 then (0%Z, mk s false halted)
  else match stoll (firstn n s) base with
       | Some v => (v, consume_numeric_suffix (mk (skipn n s) valid halted))
       | None => (0%Z, mk (skipn n s) false halted)
       end.

Definition parse_number (p : t) : Z * t :=
  let p := skip_ws p in
  match m_expr p with
  | [] => (0%Z, invalidate p)
  | c :: r =>
      match r with
      | x :: r' =>
          if Ascii.eqb c "0" && (Ascii.eqb x "x" || Ascii.eqb x "X")
          then read_digits is_xdigit 16 r' (m_valid p) (stopped p)
          else read_digits is_digit 10 (m_expr p) (m_valid p) (stopped p)
      | [] => read_digits is_digit 10 (m_expr p) (m_valid p) (stopped p)
      end
  end.

(** [value /= rhs] and [value %= rhs] on [INT64_MIN] and [-1]: the
    quotient is not an [int64_t], the division instruction faults and the
    process is stopped.  The source tests [rhs == 0] before it divides
    and nothing else. *)
Definition overflows (a b : Z) : bool := ((a =? INT64_MIN) && (b =? -1))%Z.

(** What one trip through the [while (m_valid)] loop of a binary level
    decides after its [skip_ws].  In [Operand division f p], [division]
    says that the operator is [/] or [%]. *)
Inductive action :=
| Break (p : t)                              (* [break] *)
| Reject (p : t)                             (* [m_valid = false; break] *)
| Operand (division : bool) (f : Z -> Z -> option Z) (p : t).
                                             (* [value = f value sub()];
                                                [None]: [m_valid = false; return 0] *)

Definition parser := t -> option (Z * t).

(** [auto value = sub(); while (m_valid) { skip_ws(); ... }] *)
Fixpoint level_loop (step : t -> action) (sub : parser) (fuel : nat)
    (value : Z) (p : t) : option (Z * t) :=
  if negb (m_valid p) then Some (value, p)
  else match fuel with
       | O => None
       | S fuel' =>
           match step (skip_ws p) with
           | Break p' => Some (value, p')
           | Reject p' => Some (value, invalidate p')
           | Operand division f p' =>
               match sub p' with
               | None => None
               | Some (rhs, p'') =>
                   if division && overflows value rhs then Some (0%Z, stop p'')
                   else
                     match f value rhs with
                     | Some value' => level_loop step sub fuel' value' p''
                     | None => Some (0%Z, invalidate p'')
                     end
               end
           end
       end.

Definition level (step : t -> action) (sub : parser) (fuel : nat) : parser :=
  fun p => match sub p with
           | None => None
           | Some (value, p') => level_loop step sub fuel value p'
           end.

Definition total_op (f : Z -> Z -> Z) : Z -> Z -> option Z := fun a b => Some (f a b).

(** The shift count of a 64-bit shift instruction: the low six bits. *)
Definition shift_count (rhs : Z) : Z := Z.land rhs 63.

Definition op_or : Z -> Z -> Z := Z.lor.
Definition op_xor : Z -> Z -> Z := Z.lxor.
Definition op_and : Z -> Z -> Z := Z.land.
Definition op_shl (a b : Z) : Z := wrap64 (Z.shiftl a (shift_count b)).
Definition op_shr (a b : Z) : Z := Z.shiftr a (shift_count b).
Definition op_add (a b : Z) : Z := wrap64 (a + b).
Definition op_sub (a b : Z) : Z := wrap64 (a - b).
Definition op_mul (a b : Z) : Z := wrap64 (a * b).
(** [/] and [%] on operands that do not overflow: [None] for the divisor
    [0], which the source rejects. *)
Definition op_div (a b : Z) : option Z :=
  if (b =? 0)%Z then None else Some (wrap64 (Z.quot a b)).
Definition op_rem (a b : Z) : option Z :=
  if (b =? 0)%Z then None else Some (wrap64 (Z.rem a b)).

Definition bitwise_or_step (p : t) : action :=
  let '(b, p) := starts_with (str "||") p in
  if b then Reject p
  else let '(b, p) := match_char "|" p in
       if b then (if peek_is "|" p then Reject p else Operand false (total_op op_or) p)
       else Break p.

Definition bitwise_xor_step (p : t) : action :=
  let '(b, p) := match_char "^" p in
  if b then Operand false (total_op op_xor) p else Break p.

Definition bitwise_and_step (p : t) : action :=
  let '(b, p) := starts_with (str "&&") p in
  if b then Reject p
  else let '(b, p) := match_char "&" p in
       if b then (if peek_is "&" p then Reject p else Operand false (total_op op_and) p)
       else Break p.

Definition shift_step (p : t) : action :=
  let '(b, p) := match_token (str "<<") p in
  if b then Operand false (total_op op_shl) p
  else let '(b, p) := match_token (str ">>") p in
       if b then Operand false (total_op op_shr) p else Break p.

Definition additive_step (p : t) : action :=
  let '(b, p) := match_char "+" p in
  if b then Operand false (total_op op_add) p
  else let '(b, p) := match_char "-" p in
       if b then Operand false (total_op op_sub) p else Break p.

Definition multiplicative_step (p : t) : action :=
  let '(b, p) := match_char "*" p in
  if b then Operand false (total_op op_mul) p
  else let '(b, p) := match_char "/" p in
       if b then Operand true op_div p
       else let '(b, p) := match_char "%" p in
            if b then Operand true op_rem p else Break p.

(** The binary levels, over the parser of unary expressions. *)
Section Levels.
Variable unary : parser.
Variable fuel : nat.

Definition parse_multiplicative_with : parser := level multiplicative_step unary fuel.
Definition parse_additive_with : parser := level additive_step parse_multiplicative_with fuel.
Definition parse_shift_with : parser := level shift_step parse_additive_with fuel.
Definition parse_bitwise_and_with : parser := level bitwise_and_step parse_shift_with fuel.
Definition parse_bitwise_xor_with : parser := level bitwise_xor_step parse_bitwise_and_with fuel.
Definition parse_bitwise_or_with : parser := level bitwise_or_step parse_bitwise_xor_with fuel.

Definition parse_primary_with (p : t) : option (Z * t) :=
    let p := skip_ws p in
    let '(b, p) := match_char "(" p in
    if b then
      match parse_bitwise_or_with p with
      | None => None
      | Some (value, p) =>
          let '(b, p) := match_char ")" p in
          Some (value, if b then p else invalidate p)
      end
    else Some (parse_number p).
End Levels.

Definition map_value (f : Z -> Z) (r : option (Z * t)) : option (Z * t) :=
  match r with
  | Some (v, p) => Some (f v, p)
  | None => None
  end.

Definition op_neg (v : Z) : Z := wrap64 (- v).
Definition op_not (v : Z) : Z := Z.lnot v.

Fixpoint parse_unary (fuel : nat) (p : t) : option (Z * t) :=
  match fuel with
  | O => None
  | S fuel' =>
      let p := skip_ws p in
      let '(b, p) := match_char "+" p in
      if b then parse_unary fuel' p
      else let '(b, p) := match_char "-" p in
           if b then map_value op_neg (parse_unary fuel' p)
           else let '(b, p) := match_char "~" p in
                if b then map_value op_not (parse_unary fuel' p)
                else parse_primary_with (parse_unary fuel') fuel' p
  end.

Definition parse_bitwise_or (fuel : nat) : parser :=
  parse_bitwise_or_with (parse_unary fuel) fuel.

(** [parse]: the value when the whole text was consumed and stayed valid;
    no result at all when the process was stopped. *)
Definition parse (fuel : nat) (p : t) : option (option Z) :=
  match parse_bitwise_or fuel p with
  | None => None
  | Some (value, p) =>
      let p := skip_ws p in
      if stopped p then None
      else Some (if negb (m_valid p) || negb (length (m_expr p) =? 0) then None
                 else Some value)
  end.

End ConstantExpressionParser.

Module CEP := ConstantExpressionParser.

(** [evaluate_constant_expression]: the outer [option] is [None] when the
    call does not return, the inner one is the [std::optional] of the
    source. *)
Definition evaluate_constant_expression (expression : text) : option (option Z) :=
  CEP.parse (S (length expression)) (CEP.mk expression true false).


(** ** Loops with a cursor

    [while] loops are written with [loop]: the body either goes on with a
    new state ([Next]) or leaves with a result ([Exit]); a body that itself
    runs out of its bound passes [None] on. *)

Inductive ctl (A R : Type) : Type :=
| Next (a : A)
| Exit (r : R).
Arguments Next {A R} a.
Arguments Exit {A R} r.

Fixpoint loop {A R : Type} (body : A -> option (ctl A R)) (fuel : nat) (a : A) : option R :=
  match fuel with
  | O => None
  | S fuel' =>
      match body a with
      | None => None
      | Some (Exit r) => Some r
      | Some (Next a') => loop body fuel' a'
      end
  end.

Definition bind {A B : Type} (x : option A) (f : A -> option B) : option B :=
  match x with
  | Some a => f a
  | None => None
  end.

Notation "x <- e ;; k" := (bind e (fun x => k))
  (at level 61, e at next level, right associativity).
Notation "' p <- e ;; k" := (bind e (fun p => k))
  (at level 61, p pattern, e at next level, right associativity).

(** ** Lexical primitives *)

Definition NL : ascii := "010".
Definition QUOTE : ascii := "034".
Definition APOSTROPHE : ascii := "039".
Definition BACKSLASH : ascii := "092".

(** The end of a [//] comment: [while (pos < size && text[pos] != '\n') ++pos]. *)
Definition skip_line (t : text) (pos : nat) : nat :=
  advance_while (fun c => negb (Ascii.eqb c NL)) t pos.

(** Trip count of
    [while (pos + 1 < size && !(text[pos] == '*' && text[pos + 1] == '/')) ++pos]. *)
Fixpoint block_comment_len (s : text) : nat :=
  match s with
  | c :: ((d :: _) as r) =>
      if Ascii.eqb c "*" && Ascii.eqb d "/" then 0 else S (block_comment_len r)
  | _ => 0
  end.

(** The end of a block comment whose body starts at [pos]:
    the loop above and [pos = std::min(pos + 2, size)]. *)
Definition skip_block (t : text) (pos : nat) : nat :=
  Nat.min (pos + block_comment_len (skipn pos t) + 2) (length t).

Definition skip_whitespace_and_comments (t : text) (pos : nat) : option nat :=
  loop (fun pos =>
          if length t <=? pos then Some (Exit pos)
          else
            let c := at_ t pos in
            if is_space c then Some (Next (pos + 1))
            else if Ascii.eqb c "/" && (pos + 1 <? length t) then
              if Ascii.eqb (at_ t (pos + 1)) "/" then Some (Next (skip_line t (pos + 2)))
              else if Ascii.eqb (at_ t (pos + 1)) "*" then Some (Next (skip_block t (pos + 2)))
              else Some (Exit pos)
            else Some (Exit pos))
       (S (length t)) pos.

(** The number of characters the loop of [skip_string_literal] passes,
    from the character after the opening delimiter: a backslash takes the
    next character with it (and may step one past the end), the closing
    delimiter ends the literal. *)
Fixpoint string_body_len (delimiter : ascii) (s : text) : nat :=
  match s with
  | [] => 0
  | c :: r =>
      if Ascii.eqb c BACKSLASH then
        match r with
        | [] => 2
        | _ :: r' => 2 + string_body_len delimiter r'
        end
      else if Ascii.eqb c delimiter then 1
      else 1 + string_body_len delimiter r
  end.

Definition skip_string_literal (t : text) (pos : nat) (delimiter : ascii) : nat :=
  pos + 1 + string_body_len delimiter (skipn (pos + 1) t).

Definition match_keyword (t : text) (pos : nat) (keyword : text) : bool :=
  if length t <? pos + length keyword then false
  else if ((0 <? pos) && is_identifier_char (at_ t (pos - 1)))
          || ((pos + length keyword <? length t)
              && is_identifier_char (at_ t (pos + length keyword)))
       then false
       else text_eqb (substr t pos (length keyword)) keyword.

(** The test that opens the scanning loops: a string or character literal,
    a [//] comment (whose skipping loop starts [line_skip] characters
    after the cursor) or a block comment at the cursor.  [Some p]: the
    cursor moves to [p] and the loop continues. *)
Definition skip_quoted_or_comment (line_skip : nat) (t : text) (pos : nat) : option nat :=
  let c := at_ t pos in
  if Ascii.eqb c QUOTE then Some (skip_string_literal t pos QUOTE)
  else if Ascii.eqb c APOSTROPHE then Some (skip_string_literal t pos APOSTROPHE)
  else if Ascii.eqb c "/" && (pos + 1 <? length t) then
    if Ascii.eqb (at_ t (pos + 1)) "/" then Some (skip_line t (pos + line_skip))
    else if Ascii.eqb (at_ t (pos + 1)) "*" then Some (skip_block t (pos + 2))
    else None
  else None.

(** ** Template definitions *)

Inductive TemplateParameterKind := Type_ | NonType.

Record TemplateParameter := mkParam {
  p_name : text;
  p_kind : TemplateParameterKind
}.

Record Specialization := mkSpec {
  s_arguments : list text;
  s_sanitized_name : text;
  s_between : text;
  s_body : text;
  s_closing : text
}.

Record TemplateDefinition := mkDef {
  m_keyword : text;
  m_name : text;
  m_parameters : list TemplateParameter;
  m_between : text;
  m_body : text;
  m_closing : text;
  m_indentation : text;
  m_scope_path : text;
  m_start : nat;
  m_end : nat;
  m_placeholder_generated : bool;
  m_specializations : list Specialization;
  (** [std::unordered_map<std::string, size_t>], as an association list *)
  m_specialization_index : list (text * nat)
}.

Definition full_name (d : TemplateDefinition) : text :=
  match m_scope_path d with
  | [] => m_name d
  | _ => m_scope_path d ++ str "." ++ m_name d
  end.

(** [while (end > 0 && P(s[end - 1])) --end] *)
Fixpoint retreat_while (P : ascii -> bool) (s : text) (pos : nat) : nat :=
  match pos with
  | O => O
  | S k => if P (at_ s k) then retreat_while P s k else pos
  end.

(** The first [=] outside angle brackets: the [for (j ...)] loop. *)
Fixpoint find_assign (s : text) (assign_depth j : nat) : option nat :=
  match s with
  | [] => None
  | ch :: r =>
      if Ascii.eqb ch "<" then find_assign r (S assign_depth) (S j)
      else if Ascii.eqb ch ">" then find_assign r (Nat.pred assign_depth) (S j)
      else if Ascii.eqb ch "=" && (assign_depth =? 0) then Some j
      else find_assign r assign_depth (S j)
  end.

Definition contains (token s : text) : bool :=
  match find_sub token s with Some _ => true | None => false end.

Definition ends_with (s suffix : text) : bool :=
  (length suffix <=? length s)
  && text_eqb (skipn (length s - length suffix) s) suffix.

(** What [split_template_parameters] does with one trimmed, non-empty
    token (the source has this block twice: in the loop, and for the
    tail). *)
Definition parameter_of_token (token : text) : option TemplateParameter :=
  let cleaned := token in
  let cleaned :=
    match find_assign cleaned 0 0 with
    | Some assign_pos => trim (substr cleaned 0 assign_pos)
    | None => cleaned
    end in
  match cleaned with
  | [] => None
  | _ =>
      let cleaned :=
        if (3 <=? length cleaned) && ends_with cleaned (str "...")
        then trim (substr cleaned 0 (length cleaned - 3))
        else cleaned in
      let end_ := retreat_while is_space cleaned (length cleaned) in
      let begin := retreat_while is_identifier_char cleaned end_ in
      if begin <? end_ then
        let prefix := trim (substr cleaned 0 begin) in
        let prefix_lower := map to_lower prefix in
        Some (mkParam (substr cleaned begin (end_ - begin))
                (if contains (str "typename") prefix_lower
                    || contains (str "class") prefix_lower
                    || contains (str "struct") prefix_lower
                    || contains (str "template") prefix_lower
                 then Type_ else NonType))
      else None
  end.

Definition add_parameter (token : text) (result : list TemplateParameter)
  : list TemplateParameter :=
  match token with
  | [] => result
  | _ => match parameter_of_token token with
         | Some p => result ++ [p]
         | None => result
         end
  end.

(** The [for (i ...)] loop over [params], at [s = params.substr(i)]. *)
Fixpoint split_loop (params s : text) (i depth token_start : nat)
    (result : list TemplateParameter) : list TemplateParameter :=
  match s with
  | [] => add_parameter (trim (skipn token_start params)) result
  | c :: r =>
      if Ascii.eqb c "<" then split_loop params r (S i) (S depth) token_start result
      else if Ascii.eqb c ">" then split_loop params r (S i) (Nat.pred depth) token_start result
      else if Ascii.eqb c "," && (depth =? 0) then
        split_loop params r (S i) depth (S i)
          (add_parameter (trim (substr params token_start (i - token_start))) result)
      else split_loop params r (S i) depth token_start result
  end.

Definition split_template_parameters (params : text) : list TemplateParameter :=
  split_loop params params 0 0 0 [].

(** A loop that scans to the bracket that closes the one just opened,
    passing over literals and comments: [open] and [close] are the two
    brackets, the state is the cursor and the depth.  It leaves at the
    end of the text or on the closing bracket of depth 0. *)
Definition scan_balanced (open close : ascii) (t : text) (pos depth : nat)
  : option (nat * nat) :=
  loop (fun '(consumed, depth) =>
          if (length t <=? consumed) || (depth =? 0) then Some (Exit (consumed, depth))
          else
            match skip_quoted_or_comment 0 t consumed with
            | Some p => Some (Next (p, depth))
            | None =>
                let c := at_ t consumed in
                if Ascii.eqb c open then Some (Next (consumed + 1, depth + 1))
                else if Ascii.eqb c close then
                  if depth - 1 =? 0 then Some (Exit (consumed, 0))
                  else Some (Next (consumed + 1, depth - 1))
                else Some (Next (consumed + 1, depth))
            end)
       (S (length t)) (pos, depth).

(** The loop that looks for the opening brace of the body. *)
Definition scan_to_brace (t : text) (pos : nat) : option nat :=
  loop (fun consumed =>
          if length t <=? consumed then Some (Exit consumed)
          else
            match skip_quoted_or_comment 0 t consumed with
            | Some p => Some (Next p)
            | None =>
                if Ascii.eqb (at_ t consumed) "{" then Some (Exit consumed)
                else Some (Next (consumed + 1))
            end)
       (S (length t)) pos.

(** White space up to and including one newline. *)
Fixpoint space_run_len (s : text) : nat :=
  match s with
  | c :: r =>
      if is_space c then (if Ascii.eqb c NL then 1 else S (space_run_len r)) else 0
  | [] => 0
  end.

Definition skip_space_run (t : text) (pos : nat) : nat :=
  pos + space_run_len (skipn pos t).

(** [parse_template_definition]: [Some None] is the [false] of the source,
    [Some (Some d)] its [true] with the definition filled in; [consumed]
    is [m_end d]. *)
Definition parse_template_definition (t : text) (pos : nat)
  : option (option TemplateDefinition) :=
  let size := length t in
  consumed <- skip_whitespace_and_comments t pos ;;
  if negb (match_keyword t consumed (str "struct"))
     && negb (match_keyword t consumed (str "class"))
  then Some None
  else
    let keyword := substr t consumed (if Ascii.eqb (at_ t consumed) "s" then 6 else 5) in
    let consumed := consumed + length keyword in
    consumed <- skip_whitespace_and_comments t consumed ;;
    if (size <=? consumed) || negb (is_identifier_start (at_ t consumed)) then Some None
    else
      let name_start := consumed in
      let consumed := advance_while is_identifier_char t consumed in
      let name := substr t name_start (consumed - name_start) in
      consumed <- skip_whitespace_and_comments t consumed ;;
      if (size <=? consumed) || negb (Ascii.eqb (at_ t consumed) "<") then Some None
      else
        let params_start := consumed + 1 in
        '(consumed, angle_depth) <- scan_balanced "<" ">" t params_start 1 ;;
        if negb (angle_depth =? 0) || (size <=? consumed)
           || negb (Ascii.eqb (at_ t consumed) ">")
        then Some None
        else
          let parameters :=
            split_template_parameters (substr t params_start (consumed - params_start)) in
          match parameters with
          | [] => Some None
          | _ =>
              let consumed := consumed + 1 in
              let between_start := consumed in
              consumed <- scan_to_brace t consumed ;;
              if (size <=? consumed) || negb (Ascii.eqb (at_ t consumed) "{") then Some None
              else
                let between := substr t between_start (consumed - between_start) in
                let body_start := consumed + 1 in
                '(consumed, brace_depth) <- scan_balanced "{" "}" t (consumed + 1) 1 ;;
                if negb (brace_depth =? 0) || (size <=? consumed) then Some None
                else
                  let body_end := consumed in
                  let closing_start := consumed in
                  let closing_start :=
                    if (closing_start <? size) && Ascii.eqb (at_ t closing_start) "}"
                    then closing_start + 1 else closing_start in
                  let closing_start := skip_space_run t closing_start in
                  let closing_start :=
                    if (closing_start <? size) && Ascii.eqb (at_ t closing_start) ";"
                    then skip_space_run t (closing_start + 1) else closing_start in
                  let indentation_pos :=
                    match rfind_char NL t pos with
                    | None => 0
                    | Some indentation_start => indentation_start + 1
                    end in
                  Some (Some {|
                    m_keyword := keyword;
                    m_name := name;
                    m_parameters := parameters;
                    m_between := between;
                    m_body := substr t body_start (body_end - body_start);
                    m_closing := substr t body_end (closing_start - body_end);
                    m_indentation :=
                      (* [pos - indentation_pos] wraps when [text[pos]] is the
                         newline found, and [substr] then takes the rest *)
                      if pos <? indentation_pos then skipn indentation_pos t
                      else substr t indentation_pos (pos - indentation_pos);
                    m_scope_path := [];
                    m_start := pos;
                    m_end := closing_start;
                    m_placeholder_generated := false;
                    m_specializations := [];
                    m_specialization_index := []
                  |})
          end.

Definition push_token (token : text) (result : list text) : list text :=
  match token with
  | [] => result
  | _ => result ++ [token]
  end.

(** [parse_template_arguments]: the arguments and [out_pos]. *)
Definition parse_template_arguments (t : text) (lt_pos : nat)
  : option (list text * nat) :=
  let size := length t in
  if (size <=? lt_pos) || negb (Ascii.eqb (at_ t lt_pos) "<") then Some ([], lt_pos)
  else
    loop (fun '(pos, depth, token_start, result) =>
            if (size <=? pos) || (depth =? 0) then Some (Exit (result, pos))
            else
              match skip_quoted_or_comment 0 t pos with
              | Some p => Some (Next (p, depth, token_start, result))
              | None =>
                  let c := at_ t pos in
                  if Ascii.eqb c "<" then Some (Next (pos + 1, depth + 1, token_start, result))
                  else if Ascii.eqb c ">" then
                    if depth - 1 =? 0 then
                      Some (Exit (push_token (trim (substr t token_start (pos - token_start))) result,
                                  pos + 1))
                    else Some (Next (pos + 1, depth - 1, token_start, result))
                  else if Ascii.eqb c "," && (depth =? 1) then
                    Some (Next (pos + 1, depth, pos + 1,
                                push_token (trim (substr t token_start (pos - token_start))) result))
                  else Some (Next (pos + 1, depth, token_start, result))
              end)
         (S size) (lt_pos + 1, 1, lt_pos + 1, []).

(** ** Sanitizer *)

Definition is_empty {A : Type} (s : list A) : bool :=
  match s with [] => true | _ => false end.

(** [!result.empty() && result.back() == c] *)
Definition back_is (c : ascii) (result : text) : bool :=
  match rev result with
  | x :: _ => Ascii.eqb x c
  | [] => false
  end.

(** [!result.empty() && result.front() == c] *)
Definition front_is (c : ascii) (result : text) : bool :=
  match result with
  | x :: _ => Ascii.eqb x c
  | [] => false
  end.

(** The lambda [push_sep]. *)
Definition push_sep (result : text) : text :=
  if negb (is_empty result) && negb (back_is "_" result) then result ++ ["_"] else result.

(** One trip through [for (auto c : token)]. *)
Definition sanitize_char (result : text) (c : ascii) : text :=
  if is_alnum c || Ascii.eqb c "_" then result ++ [c]
  else if Ascii.eqb c "*" then push_sep (push_sep result ++ str "ptr")
  else if Ascii.eqb c "&" then push_sep (push_sep result ++ str "ref")
  else if Ascii.eqb c "[" || Ascii.eqb c "]" then push_sep (push_sep result ++ str "arr")
  else if Ascii.eqb c ":" then push_sep result
  else if Ascii.eqb c "<" then push_sep (push_sep result ++ str "lt")
  else if Ascii.eqb c ">" then push_sep (push_sep result ++ str "gt")
  else if Ascii.eqb c "," then push_sep result
  else if Ascii.eqb c "." then push_sep (push_sep result ++ ["."])
  else if is_space c then push_sep result
  else push_sep result.

Definition sanitize_token (token : text) : text :=
  let result := fold_left sanitize_char token [] in
  let result := if front_is "_" result then tl result else result in
  let result :=
    match result with
    | c :: _ => if is_digit c then "_" :: result else result
    | [] => result
    end in
  let result := if is_empty result then str "T" else result in
  map (fun c => if Ascii.eqb c "." then "_" else c) result.

Definition sanitize_scope_name (path : text) : text :=
  map (fun c => if is_alnum c || Ascii.eqb c "_" then c
                else if Ascii.eqb c "." then "_" else "_") path.

(** ** Identifier substitution *)

(** [find_identifier]: [Some None] is [npos]. *)
Definition find_identifier (t token : text) (position : nat) : option (option nat) :=
  loop (fun position =>
          match find_str token t position with
          | None => Some (Exit None)
          | Some found =>
              let before := if found =? 0 then zero else at_ t (found - 1) in
              let after := if length t <=? found + length token then zero
                           else at_ t (found + length token) in
              if negb (is_identifier_char before) && negb (is_identifier_char after)
              then Some (Exit (Some found))
              else Some (Next (found + length token))
          end)
       (S (length t)) position.

Definition SEP : ascii := "031".

Fixpoint make_signature (args : list text) : text :=
  match args with
  | [] => []
  | [a] => a
  | a :: rest => a ++ SEP :: make_signature rest
  end.

(** The [while] loop of [replace_parameters] for one parameter. *)
Definition replace_identifier (t param replacement : text) : option text :=
  loop (fun '(t, pos) =>
          found <- find_identifier t param pos ;;
          match found with
          | None => Some (Exit t)
          | Some pos => Some (Next (replace t pos (length param) replacement,
                                    pos + length replacement))
          end)
       (S (length t)) (t, 0).

Fixpoint replace_each (t : text) (params : list TemplateParameter) (args : list text)
  : option text :=
  match params, args with
  | p :: params', a :: args' =>
      t' <- replace_identifier t (p_name p) a ;; replace_each t' params' args'
  | _, _ => Some t
  end.

Definition replace_parameters (t : text) (params : list TemplateParameter)
    (args : list text) : option text :=
  if negb (length params =? length args) then Some t
  else replace_each t params args.

(** ** Bracket reduction *)

(** The inner loop of [evaluate_bracket_expressions], from the character
    after the opening bracket: the distance to the bracket that brings
    the depth to zero. *)
Fixpoint close_offset (s : text) (depth : nat) : option nat :=
  match s with
  | [] => None
  | ch :: r =>
      if Ascii.eqb ch "[" then option_map S (close_offset r (S depth))
      else if Ascii.eqb ch "]" then
        if depth - 1 =? 0 then Some 0 else option_map S (close_offset r (depth - 1))
      else option_map S (close_offset r depth)
  end.

(** One trip through the loop of [evaluate_bracket_expressions]. *)
Definition bracket_step (st : text * nat) : option (ctl (text * nat) text) :=
  let '(t, search_pos) := st in
  if length t <=? search_pos then Some (Exit t)
  else
    match find_char "[" t search_pos with
    | None => Some (Exit t)
    | Some open =>
        if ((0 <? open) && Ascii.eqb (at_ t (open - 1)) "[")
           || ((open + 1 <? length t) && Ascii.eqb (at_ t (open + 1)) "[")
        then Some (Next (t, open + 1))
        else
          match close_offset (skipn (open + 1) t) 1 with
          | None => Some (Next (t, open + 1))
          | Some k =>
              let pos := open + 1 + k in
              let expression := substr t (open + 1) (pos - open - 1) in
              if is_empty expression then Some (Next (t, pos + 1))
              else
                maybe_value <- evaluate_constant_expression expression ;;
                match maybe_value with
                | Some value =>
                    let replacement := to_string value in
                    Some (Next (replace t (open + 1) (length expression) replacement,
                                open + 1 + length replacement))
                | None => Some (Next (t, pos + 1))
                end
          end
    end.

Definition evaluate_bracket_expressions (t : text) : option text :=
  loop bracket_step (S (length t)) (t, 0).

(** ** Placeholders *)

Definition qualifier_at (result : text) (idx : nat) (q : text) : bool :=
  text_eqb (substr result idx (length q)) q
  && ((length result <=? idx + length q)
      || negb (is_identifier_char (at_ result (idx + length q)))).

(** The lambda [skip_qualifiers]. *)
Definition skip_qualifiers (result : text) (idx : nat) : option nat :=
  loop (fun idx =>
          if length result <=? idx then Some (Exit idx)
          else
            let '(idx, advanced) :=
              if qualifier_at result idx (str "const")
              then (advance_while is_space result (idx + 5), true)
              else (idx, false) in
            let '(idx, advanced) :=
              if qualifier_at result idx (str "volatile")
              then (advance_while is_space result (idx + 8), true)
              else (idx, advanced) in
            if advanced then Some (Next idx) else Some (Exit idx))
       (S (length result)) idx.

(** The [while] loop of [convert_template_body_placeholder] for one
    parameter. *)
Definition placeholder_parameter (result : text) (param : TemplateParameter) : option text :=
  loop (fun '(result, search_pos) =>
          if length result <=? search_pos then Some (Exit result)
          else
            found <- find_identifier result (p_name param) search_pos ;;
            match found with
            | None => Some (Exit result)
            | Some match_pos =>
                match p_kind param with
                | Type_ =>
                    let replace_start := match_pos in
                    let lookahead := match_pos + length (p_name param) in
                    let lookahead := advance_while is_space result lookahead in
                    lookahead <- skip_qualifiers result lookahead ;;
                    let pointer_check := advance_while is_space result lookahead in
                    let pointer_after :=
                      (pointer_check <? length result)
                      && Ascii.eqb (at_ result pointer_check) "*" in
                    let replacement := if pointer_after then str "void" else str "void*" in
                    Some (Next (replace result replace_start (length (p_name param)) replacement,
                                replace_start + length replacement))
                | NonType =>
                    Some (Next (replace result match_pos (length (p_name param)) (str "1"),
                                match_pos + 1))
                end
            end)
       (S (length result)) (result, 0).

Fixpoint placeholder_each (result : text) (params : list TemplateParameter) : option text :=
  match params with
  | [] => Some result
  | p :: params' =>
      result' <- placeholder_parameter result p ;; placeholder_each result' params'
  end.

Definition convert_template_body_placeholder (def : TemplateDefinition) : option text :=
  result <- placeholder_each (m_body def) (m_parameters def) ;;
  evaluate_bracket_expressions result.

Definition generate_placeholder_definition (def : TemplateDefinition) : option text :=
  converted_body <- convert_template_body_placeholder def ;;
  Some (m_indentation def ++ m_keyword def ++ " " :: m_name def ++ m_between def
        ++ "{" :: converted_body ++ m_closing def
        ++ (if negb (is_empty converted_body) && negb (back_is NL converted_body)
               && (is_empty (m_closing def) || negb (front_is NL (m_closing def)))
            then [NL] else [])).

(** ** Definition lookup

    The [TemplateDefinition*] of the source are positions in the vector of
    definitions of the file.  A position stands for the address of an
    element as long as the vector does not move its elements, that is
    while it holds at most the 16 definitions [process_file_content]
    reserves room for; past that the source reads and writes through
    addresses of storage the vector has left, which no position models.
    The theorems about the lookup are stated within that bound. *)

Fixpoint assoc_find {V : Type} (k : text) (m : list (text * V)) : option V :=
  match m with
  | [] => None
  | (k', v) :: m' => if text_eqb k k' then Some v else assoc_find k m'
  end.

(** [m[k] = v] *)
Fixpoint assoc_set {V : Type} (k : text) (v : V) (m : list (text * V)) : list (text * V) :=
  match m with
  | [] => [(k, v)]
  | (k', v') :: m' => if text_eqb k k' then (k, v) :: m' else (k', v') :: assoc_set k v m'
  end.

Record DefinitionLookup := mkLookup {
  m_by_full : list (text * nat);
  m_by_name : list (text * list nat)
}.

Definition register_definition (lookup : DefinitionLookup) (def : TemplateDefinition)
    (index : nat) : DefinitionLookup :=
  {| m_by_full := assoc_set (full_name def) index (m_by_full lookup);
     m_by_name :=
       assoc_set (m_name def)
         (match assoc_find (m_name def) (m_by_name lookup) with
          | Some l => l ++ [index]
          | None => [index]
          end)
         (m_by_name lookup) |}.

(** The lambda [score_candidate]. *)
Definition score_candidate (prefix current_scope : text) (def : TemplateDefinition) : nat :=
  let scope_path := m_scope_path def in
  let by_prefix :=
    if is_empty prefix then None
    else if text_eqb scope_path prefix then Some (1000 + length scope_path)
    else if length prefix <=? length scope_path then
      match rfind_str prefix scope_path with
      | Some pos =>
          let at_end := pos + length prefix =? length scope_path in
          let boundary_ok := (pos =? 0) || Ascii.eqb (at_ scope_path (pos - 1)) "." in
          if at_end && boundary_ok then Some (700 + length prefix) else None
      | None => None
      end
    else None in
  match by_prefix with
  | Some score => score
  | None =>
      if text_eqb scope_path current_scope then 800 + length scope_path
      else if negb (is_empty scope_path) && negb (is_empty current_scope)
              && prefixb scope_path current_scope
              && ((length current_scope =? length scope_path)
                  || Ascii.eqb (at_ current_scope (length scope_path)) ".")
           then 400 + length scope_path
           else if is_empty scope_path then 100
           else 0
  end.

Fixpoint resolve_loop (definitions : list TemplateDefinition) (prefix current_scope : text)
    (candidates : list nat) (best : option nat) (best_score : nat) : option nat :=
  match candidates with
  | [] => best
  | i :: rest =>
      let score :=
        match nth_error definitions i with
        | Some def => score_candidate prefix current_scope def
        | None => 0
        end in
      let '(best, best_score) :=
        if best_score <? score then (Some i, score) else (best, best_score) in
      if 1000 <=? score then best
      else resolve_loop definitions prefix current_scope rest best best_score
  end.

Definition token_prefix (token : text) : text :=
  match rfind_char_all "." token with
  | None => []
  | Some dot => substr token 0 dot
  end.

Definition resolve (lookup : DefinitionLookup) (definitions : list TemplateDefinition)
    (token current_scope : text) : option nat :=
  let dot := rfind_char_all "." token in
  let prefix := token_prefix token in
  let base := match dot with None => token | Some dot => skipn (dot + 1) token end in
  match (match dot with
         | Some _ => assoc_find token (m_by_full lookup)
         | None => None
         end) with
  | Some i => Some i
  | None =>
      match assoc_find base (m_by_name lookup) with
      | None => None
      | Some candidates =>
          resolve_loop definitions prefix current_scope candidates None 0
      end
  end.

(** ** Specialization cache *)

Definition scope_hint_of (def : TemplateDefinition) (prefix current_scope : text) : text :=
  if negb (is_empty prefix) then sanitize_scope_name prefix
  else if negb (is_empty (m_scope_path def)) then sanitize_scope_name (m_scope_path def)
  else sanitize_scope_name current_scope.

Definition default_spec : Specialization := mkSpec [] [] [] [] [].

Definition with_specialization (def : TemplateDefinition) (signature : text)
    (spec : Specialization) : TemplateDefinition :=
  {| m_keyword := m_keyword def;
     m_name := m_name def;
     m_parameters := m_parameters def;
     m_between := m_between def;
     m_body := m_body def;
     m_closing := m_closing def;
     m_indentation := m_indentation def;
     m_scope_path := m_scope_path def;
     m_start := m_start def;
     m_end := m_end def;
     m_placeholder_generated := m_placeholder_generated def;
     m_specializations := m_specializations def ++ [spec];
     m_specialization_index :=
       m_specialization_index def ++ [(signature, length (m_specializations def))] |}.

(** [register_specialization]: the definition after the call and the
    specialization it returns a reference to. *)
Definition register_specialization (def : TemplateDefinition) (args : list text)
    (prefix current_scope : text) : option (TemplateDefinition * Specialization) :=
  let scope_hint := scope_hint_of def prefix current_scope in
  let scope_token := scope_hint in
  let signature := scope_token ++ str "|" ++ make_signature args in
  match assoc_find signature (m_specialization_index def) with
  | Some i => Some (def, nth i (m_specializations def) default_spec)
  | None =>
      let sanitized_name :=
        fold_left (fun name arg => name ++ str "_" ++ sanitize_token arg) args
          (m_name def ++ (if negb (is_empty scope_token) then str "_" ++ scope_token else [])) in
      between <- replace_parameters (m_between def) (m_parameters def) args ;;
      body <- replace_parameters (m_body def) (m_parameters def) args ;;
      body <- evaluate_bracket_expressions body ;;
      closing <- replace_parameters (m_closing def) (m_parameters def) args ;;
      let spec := {| s_arguments := args;
                     s_sanitized_name := sanitized_name;
                     s_between := between;
                     s_body := body;
                     s_closing := closing |} in
      Some (with_specialization def signature spec, spec)
  end.

(** ** Paths

    A [std::filesystem::path] of the driver is absolute; it is kept as the
    list of its components, the root directory being [[]].  A path that
    ends with a separator has an empty last component, as when the source
    iterates over it.  File systems in this model have no symbolic links,
    so that [weakly_canonical] is lexical normalization. *)

Definition path := list text.

Definition DOT : text := str ".".
Definition DOTDOT : text := str "..".

(** The components of a path in text form, split at [/]. *)
Fixpoint split_path_from (s current : text) : list text :=
  match s with
  | [] => match current with [] => [] | _ => [current] end
  | c :: r =>
      if Ascii.eqb c "/"
      then match current with
           | [] => split_path_from r []
           | _ => current :: split_path_from r []
           end
      else split_path_from r (current ++ [c])
  end.

(** The components of a path in text form.  A text that ends with a
    separator, or with a component [.] or [..], names a directory: its
    normal form ends with a separator, kept as an empty last component
    ([/p/b.h/], [/p/b.h/.] and [/p/d/..] give [/p/b.h/], [/p/b.h/] and
    [/p/]), and is not the path of a file.  (Where the directory exists
    [weakly_canonical] drops that separator; directories are no files of
    the model either way.) *)
Definition split_path (s : text) : list text :=
  let components := split_path_from s [] in
  match rev components with
  | [] => components
  | last :: _ =>
      if back_is "/" s || text_eqb last (str ".") || text_eqb last (str "..")
      then components ++ [[]]
      else components
  end.

Definition is_absolute (s : text) : bool := front_is "/" s.

(** [lexically_normal] of an absolute path: [.] is dropped, [..] removes
    the component before it, and is dropped at the root directory. *)
Definition normal_step (acc : path) (component : text) : path :=
  if text_eqb component DOT then acc
  else if text_eqb component DOTDOT then removelast acc
  else acc ++ [component].

Definition lexically_normal (p : list text) : path := fold_left normal_step p [].

Definition parent_path (p : path) : path := removelast p.

(** [base / s] followed by [absolute] and [weakly_canonical]. *)
Definition resolve_path (base : path) (s : text) : path :=
  lexically_normal (if is_absolute s then split_path s else base ++ split_path s).

(** [std::filesystem::relative(p, base)] for two canonical paths:
    [..] for each component of [base] after the common prefix, then the
    rest of [p]; [.] when they are equal. *)
Fixpoint lexically_relative (p base : path) : list text :=
  match p, base with
  | x :: p', y :: base' =>
      if text_eqb x y then lexically_relative p' base'
      else map (fun _ => DOTDOT) base ++ p
  | _, _ => map (fun _ => DOTDOT) base ++ p
  end.

Definition relative (p base : path) : list text :=
  match lexically_relative p base with
  | [] => [DOT]
  | r => r
  end.

(** ** Import extraction *)

(** The loop over the body of the quoted path:
    [while (pos < size && text[pos] != QUOTE)], a backslash taking the
    next character along when there is one. *)
Fixpoint import_body_len (s : text) : nat :=
  match s with
  | [] => 0
  | c :: r =>
      if Ascii.eqb c QUOTE then 0
      else if Ascii.eqb c BACKSLASH then
        match r with
        | [] => 1
        | _ :: r' => 2 + import_body_len r'
        end
      else 1 + import_body_len r
  end.

Definition extract_imports (t : text) (file_path : path) : option (list path) :=
  let size := length t in
  loop (fun '(pos, imports) =>
          if size <=? pos then Some (Exit imports)
          else
            match skip_quoted_or_comment 2 t pos with
            | Some p => Some (Next (p, imports))
            | None =>
                let c := at_ t pos in
                if negb (is_identifier_start c) then Some (Next (pos + 1, imports))
                else
                  let id_start := pos in
                  let pos := advance_while is_identifier_char t pos in
                  let identifier := substr t id_start (pos - id_start) in
                  if negb (text_eqb identifier (str "import")) then Some (Next (pos, imports))
                  else
                    pos <- skip_whitespace_and_comments t pos ;;
                    if (size <=? pos) || negb (Ascii.eqb (at_ t pos) QUOTE)
                    then Some (Next (pos, imports))
                    else
                      let pos := pos + 1 in
                      let path_start := pos in
                      let pos := pos + import_body_len (skipn pos t) in
                      let imports :=
                        if path_start <? pos then
                          imports ++ [resolve_path (parent_path file_path)
                                        (substr t path_start (pos - path_start))]
                        else imports in
                      let pos :=
                        if (pos <? size) && Ascii.eqb (at_ t pos) QUOTE then pos + 1 else pos in
                      Some (Next (pos, imports))
            end)
       (S size) (0, []).

(** ** The file transformer *)

Record ScopeFrame := mkFrame {
  f_name : text;
  f_path : text;
  f_depth : nat;
  (** [std::unordered_set<std::string>] *)
  f_emitted_specializations : list text
}.

Record PendingScope := mkPending {
  m_expect_name : bool;
  m_expect_brace : bool;
  ps_keyword : text;
  ps_name : text
}.

Definition no_pending : PendingScope := mkPending false false [] [].

Record FileProcessResult := mkFileResult {
  m_processed_content : text;
  m_had_templates : bool;
  m_imports : list path
}.

(** The local variables of [process_file_content].  The scope stack is
    kept with its [back()] first; it is never empty. *)
Record State := mkState {
  output : text;
  pos : nat;
  brace_depth : nat;
  scope_stack : list ScopeFrame;
  pending_scope : PendingScope;
  definitions : list TemplateDefinition;
  lookup : DefinitionLookup;
  had_templates : bool
}.

Definition root_frame : ScopeFrame := mkFrame [] [] 0 [].

Definition initial_state : State :=
  mkState [] 0 0 [root_frame] no_pending [] (mkLookup [] []) false.

Definition back (stack : list ScopeFrame) : ScopeFrame := hd root_frame stack.

Definition current_indent (t : text) : text :=
  match rfind_char_all NL t with
  | None => []
  | Some newline =>
      let idx := newline + 1 in
      substr t idx
        (span_len (fun c => Ascii.eqb c " " || Ascii.eqb c "009") (skipn idx t))
  end.

Definition mem (x : text) (l : list text) : bool := existsb (text_eqb x) l.

Fixpoint set_nth {A : Type} (n : nat) (x : A) (l : list A) : list A :=
  match l, n with
  | [], _ => []
  | _ :: l', O => x :: l'
  | y :: l', S n' => y :: set_nth n' x l'
  end.

Definition with_output_pos (s : State) (out : text) (p : nat) : State :=
  mkState out p (brace_depth s) (scope_stack s) (pending_scope s)
    (definitions s) (lookup s) (had_templates s).

Definition with_pending (s : State) (ps : PendingScope) : State :=
  mkState (output s) (pos s) (brace_depth s) (scope_stack s) ps
    (definitions s) (lookup s) (had_templates s).

(** Copy [text[start, p)] to the output and move the cursor to [p]:
    [output.append(text, start, pos - start)]. *)
Definition copy_to (t : text) (s : State) (p : nat) : State :=
  with_output_pos s (output s ++ substr t (pos s) (p - pos s)) p.

(** A template definition was parsed at the cursor. *)
Definition on_definition (s : State) (def : TemplateDefinition) : option State :=
  let def := {| m_keyword := m_keyword def;
                m_name := m_name def;
                m_parameters := m_parameters def;
                m_between := m_between def;
                m_body := m_body def;
                m_closing := m_closing def;
                m_indentation := m_indentation def;
                m_scope_path := f_path (back (scope_stack s));
                m_start := m_start def;
                m_end := m_end def;
                m_placeholder_generated := true;
                m_specializations := m_specializations def;
                m_specialization_index := m_specialization_index def |} in
  placeholder <- generate_placeholder_definition def ;;
  let out := output s ++ placeholder in
  let out := if negb (is_empty placeholder) && negb (back_is NL out)
             then out ++ [NL] else out in
  Some (mkState out (m_end def) (brace_depth s) (scope_stack s) no_pending
          (definitions s ++ [def])
          (register_definition (lookup s) def (length (definitions s)))
          true).

Definition on_open_brace (s : State) : State :=
  let depth := brace_depth s + 1 in
  let ps := pending_scope s in
  if m_expect_brace ps then
    let new_path := f_path (back (scope_stack s)) in
    let new_path :=
      if negb (is_empty (ps_name ps))
      then (if negb (is_empty new_path) then new_path ++ ["."] else new_path) ++ ps_name ps
      else new_path in
    mkState (output s ++ ["{"]) (pos s + 1) depth
      (mkFrame (ps_name ps) new_path depth [] :: scope_stack s) no_pending
      (definitions s) (lookup s) (had_templates s)
  else
    mkState (output s ++ ["{"]) (pos s + 1) depth (scope_stack s) ps
      (definitions s) (lookup s) (had_templates s).

(** [while (scope_stack.size() > 1 && scope_stack.back().m_depth > brace_depth)
    scope_stack.pop_back()] *)
Fixpoint pop_frames (stack : list ScopeFrame) (depth : nat) : list ScopeFrame :=
  match stack with
  | f :: ((_ :: _) as rest) => if depth <? f_depth f then pop_frames rest depth else stack
  | _ => stack
  end.

Definition on_close_brace (s : State) : State :=
  let depth := if 0 <? brace_depth s then brace_depth s - 1 else brace_depth s in
  mkState (output s ++ ["}"]) (pos s + 1) depth (pop_frames (scope_stack s) depth)
    no_pending (definitions s) (lookup s) (had_templates s).

(** The declaration of a specialization, written before its first use in
    the scope frame. *)
Definition emit_specialization (out : text) (keyword : text) (spec : Specialization) : text :=
  let indent := current_indent out in
  let out := if negb (is_empty out) && negb (back_is NL out) then out ++ [NL] else out in
  let out := out ++ indent ++ keyword ++ " " :: s_sanitized_name spec
                 ++ s_between spec ++ "{" :: s_body spec in
  let out :=
    match drop_while is_space (s_closing spec) with
    | c :: _ => if Ascii.eqb c "}" then out else out ++ ["}"]
    | [] => out ++ ["}"]
    end in
  let out := out ++ s_closing spec in
  let out := if is_empty out || negb (back_is NL out) then out ++ [NL] else out in
  out ++ indent.

(** A token followed by [<]: [Some s'] when the token resolved to a
    definition and the use site was rewritten. *)
Definition on_use_site (s : State) (token : text) (args : list text) (args_end : nat)
  : option (option State) :=
  match args with
  | [] => Some None
  | _ =>
      let current_scope := f_path (back (scope_stack s)) in
      match resolve (lookup s) (definitions s) token current_scope with
      | None => Some None
      | Some i =>
          match nth_error (definitions s) i with
          | None => Some None
          | Some def =>
              '(def, specialization) <-
                register_specialization def args (token_prefix token) current_scope ;;
              let scope := back (scope_stack s) in
              let name := s_sanitized_name specialization in
              let fresh := negb (mem name (f_emitted_specializations scope)) in
              let scope :=
                if fresh
                then mkFrame (f_name scope) (f_path scope) (f_depth scope)
                       (name :: f_emitted_specializations scope)
                else scope in
              let out :=
                if fresh then emit_specialization (output s) (m_keyword def) specialization
                else output s in
              Some (Some (mkState (out ++ name) args_end (brace_depth s)
                            (scope :: tl (scope_stack s)) no_pending
                            (set_nth i def (definitions s)) (lookup s) true))
          end
      end
  end.

(** A maximal run of type characters at the cursor. *)
Definition on_token (t : text) (s : State) : option State :=
  let token_start := pos s in
  let p := advance_while is_type_char t (pos s) in
  let token := substr t token_start (p - token_start) in
  let ps := pending_scope s in
  let ps := if m_expect_name ps then mkPending false true (ps_keyword ps) token else ps in
  if text_eqb token (str "namespace") || text_eqb token (str "struct")
     || text_eqb token (str "class")
  then Some (mkState (output s ++ token) p (brace_depth s) (scope_stack s)
               (mkPending true false token []) (definitions s) (lookup s) (had_templates s))
  else
    let s := with_pending s ps in
    lookahead <- skip_whitespace_and_comments t p ;;
    if (lookahead <? length t) && Ascii.eqb (at_ t lookahead) "<" then
      '(args, args_end) <- parse_template_arguments t lookahead ;;
      rewritten <- on_use_site s token args args_end ;;
      match rewritten with
      | Some s' => Some s'
      | None =>
          (* No specialization emitted, emit original text. *)
          Some (with_output_pos s
                  (output s ++ substr t token_start (args_end - token_start)) args_end)
      end
    else Some (with_output_pos s (output s ++ token) p).

(** What follows the attempt to parse a definition. *)
Definition on_other (t : text) (s : State) : option State :=
  let c := at_ t (pos s) in
  if Ascii.eqb c "{" then Some (on_open_brace s)
  else if Ascii.eqb c "}" then Some (on_close_brace s)
  else if Ascii.eqb c ";" then
    Some (with_pending (with_output_pos s (output s ++ [";"]) (pos s + 1)) no_pending)
  else if is_space c then Some (with_output_pos s (output s ++ [c]) (pos s + 1))
  else if is_type_char c then on_token t s
  else Some (with_output_pos s (output s ++ [c]) (pos s + 1)).

(** One trip through the main loop, at a cursor inside the text. *)
Definition process_step (t : text) (s : State) : option State :=
  let c := at_ t (pos s) in
  match skip_quoted_or_comment 2 t (pos s) with
  | Some p => Some (copy_to t s p)
  | None =>
      if is_alpha c || Ascii.eqb c "_" then
        parsed <- parse_template_definition t (pos s) ;;
        match parsed with
        | Some def => on_definition s def
        | None => on_other t s
        end
      else on_other t s
  end.

Definition process_loop (t : text) (fuel : nat) (s : State) : option State :=
  loop (fun s => if length t <=? pos s then Some (Exit s)
                 else option_map Next (process_step t s))
       fuel s.

Definition process_file_content (file_path : path) (t : text) : option FileProcessResult :=
  s <- process_loop t (S (length t)) initial_state ;;
  imports <- extract_imports (output s) file_path ;;
  Some {| m_processed_content := output s;
          m_had_templates := had_templates s;
          m_imports := imports |}.

(** ** The tree driver *)

Definition path_eqb (a b : path) : bool :=
  if list_eq_dec (list_eq_dec ascii_dec) a b then true else false.

(** [std::map<path, path>]: an association list in which a key occurs
    once. *)
Definition path_map := list (path * path).

Fixpoint map_find (k : path) (m : path_map) : option path :=
  match m with
  | [] => None
  | (k', v) :: m' => if path_eqb k k' then Some v else map_find k m'
  end.

(** [m.emplace(k, v)]: nothing happens when the key is present. *)
Definition emplace (k v : path) (m : path_map) : path_map :=
  match map_find k m with
  | Some _ => m
  | None => m ++ [(k, v)]
  end.

Record PreprocessResult := mkResult {
  m_original_root : path;
  m_processed_root : path;
  m_temp_directory : path;
  m_original_to_processed : path_map;
  m_processed_to_original : path_map;
  r_had_templates : bool
}.

(** What the driver sees of its environment.  The source files are a
    snapshot that the traversal reads; what it writes is recorded as
    events. *)
Record World := mkWorld {
  w_cwd : path;                        (* the current directory *)
  w_temp : path;                       (* [temp_directory_path()] *)
  w_temp_fails : bool;                 (* [temp_directory_path()] throws *)
  w_random : N;                        (* the value drawn by [random_suffix] *)
  w_files : list (path * text);        (* the files that can be opened *)
  w_mkdir_fails : path -> bool;        (* [create_directories] sets [ec] *)
  w_open_fails : path -> bool;         (* the output file is not open *)
  w_relative_fails : path -> bool      (* [relative] sets [ec] *)
}.

Inductive event :=
| ReadFile (p : path) (content : text)
| CreateDirectories (p : path)
| WriteFile (p : path) (content : text)
| RemoveAll (p : path).

Fixpoint file_find (k : path) (m : list (path * text)) : option text :=
  match m with
  | [] => None
  | (k', v) :: m' => if path_eqb k k' then Some v else file_find k m'
  end.

Definition hex_digit (n : N) : ascii :=
  ascii_of_N (if (n <? 10)%N then 48 + n else 87 + n)%N.

Fixpoint hex_digits (fuel : nat) (n : N) (acc : text) : text :=
  match fuel with
  | O => acc
  | S f =>
      let d := hex_digit (n mod 16)%N in
      if (n <? 16)%N then d :: acc else hex_digits f (n / 16)%N (d :: acc)
  end.

(** [oss << std::hex << value] for a 64-bit value. *)
Definition to_hex (n : N) : text := hex_digits 16 n [].

(** [random_suffix], the generator yielding [value]. *)
Definition random_suffix (value : N) : text := to_hex (value mod 2 ^ 64)%N.

(** [canonicalize_path] of a path in text form. *)
Definition canonicalize_path (w : World) (s : text) : path := resolve_path (w_cwd w) s.

Definition staging_directory (w : World) : path :=
  w_temp w ++ [str "regenny_tmpl_" ++ random_suffix (w_random w)].

Definition filename (p : path) : list text :=
  match rev p with
  | x :: _ => [x]
  | [] => []
  end.

(** The local variables of the traversal.  The queue is kept with its
    [back()] first. *)
Record Traversal := mkTraversal {
  queue : list path;
  visited : list path;
  original_to_processed : path_map;
  processed_to_original : path_map;
  t_had_templates : bool;
  events : list event
}.

Definition in_paths (p : path) (l : list path) : bool := existsb (path_eqb p) l.

(** One trip through [while (!queue.empty())]. *)
Definition tree_step (w : World) (temp_dir base_dir : path) (s : Traversal)
  : option (ctl Traversal Traversal) :=
  match queue s with
  | [] => Some (Exit s)
  | current :: rest =>
      let canonical_current := lexically_normal current in
      if in_paths canonical_current (visited s) then
        Some (Next (mkTraversal rest (visited s) (original_to_processed s)
                      (processed_to_original s) (t_had_templates s) (events s)))
      else
        let visited' := canonical_current :: visited s in
        match file_find canonical_current (w_files w) with
        | None =>
            Some (Next (mkTraversal rest visited' (original_to_processed s)
                          (processed_to_original s) (t_had_templates s) (events s)))
        | Some content =>
            processed <- process_file_content canonical_current content ;;
            let events0 := events s ++ [ReadFile canonical_current content] in
            let had := t_had_templates s || m_had_templates processed in
            let rel :=
              if w_relative_fails w canonical_current then filename canonical_current
              else relative canonical_current base_dir in
            let processed_path := lexically_normal (temp_dir ++ rel) in
            if w_mkdir_fails w (parent_path processed_path) then
              Some (Next (mkTraversal rest visited' (original_to_processed s)
                            (processed_to_original s) had events0))
            else
              let events' := events0 ++ [CreateDirectories (parent_path processed_path)] in
              if w_open_fails w processed_path then
                Some (Next (mkTraversal rest visited' (original_to_processed s)
                              (processed_to_original s) had events'))
              else
                Some (Next (mkTraversal
                              (fold_left (fun q import => lexically_normal import :: q)
                                 (m_imports processed) rest)
                              visited'
                              (emplace canonical_current processed_path
                                 (original_to_processed s))
                              (emplace processed_path canonical_current
                                 (processed_to_original s))
                              had
                              (events' ++ [WriteFile processed_path
                                             (m_processed_content processed)])))
        end
  end.

(** A bound on the trips of the traversal: one for the root and one for
    each import of each file that can be opened. *)
Definition import_count (p : path) (content : text) : nat :=
  match process_file_content p content with
  | Some r => length (m_imports r)
  | None => 0
  end.

Definition visible_import_count (w : World) (p : path) : nat :=
  match file_find p (w_files w) with
  | Some content => import_count p content
  | None => 0
  end.

Definition traversal_bound (w : World) : nat :=
  2 + fold_right (fun entry n => visible_import_count w (fst entry) + n) 0 (w_files w).

(** [process_tree]: the outer [option] is [None] when the call does not
    return; then the [std::optional] the source returns and the events it
    caused.  [std::filesystem::temp_directory_path()] is called in its
    throwing form and outside any [try]: when it throws, the exception
    leaves [process_tree]. *)
Definition process_tree (w : World) (root_path : text)
  : option (option PreprocessResult * list event) :=
  if is_empty root_path then Some (None, [])
  else
    let canonical_root := canonicalize_path w root_path in
    if w_temp_fails w then None
    else
      let temp_dir := staging_directory w in
      if w_mkdir_fails w temp_dir then Some (None, [])
      else
      let base_dir := parent_path canonical_root in
      s <- loop (tree_step w temp_dir base_dir) (traversal_bound w)
             (mkTraversal [canonical_root] [] [] [] false [CreateDirectories temp_dir]) ;;
      if negb (t_had_templates s) then
        Some (None, events s ++ (if is_empty temp_dir then [] else [RemoveAll temp_dir]))
      else
        Some (Some {| m_original_root := canonical_root;
                      m_processed_root :=
                        match map_find canonical_root (original_to_processed s) with
                        | Some p => p
                        | None => canonical_root
                        end;
                      m_temp_directory := temp_dir;
                      m_original_to_processed := original_to_processed s;
                      m_processed_to_original := processed_to_original s;
                      r_had_templates := t_had_templates s |},
              events s).


(** The directories that exist after a sequence of events, among those
    the events created. *)
Definition is_prefix (a b : path) : bool := path_eqb a (firstn (length a) b).



(** * Properties *)

(** ** Characters *)

(** A fact about all 256 characters holds when it holds of each. *)
Definition all_ascii : list ascii := map ascii_of_nat (seq 0 256).

Lemma ascii_forall (P : ascii -> bool) :
  forallb P all_ascii = true -> forall c, P c = true.
Proof.
  intros H c. rewrite forallb_forall in H. apply H.
  rewrite <- (ascii_nat_embedding c). apply in_map. apply in_seq.
  pose proof (nat_ascii_bounded c). lia.
Qed.

(** Proves [H1 -> ... -> concl] about the classes of one character from
    the boolean formula [P] that states it. *)
Ltac char_fact P c :=
  let F := fresh "F" in
  pose proof (ascii_forall P ltac:(vm_compute; reflexivity) c) as F;
  cbv beta in F; intros;
  repeat match type of F with
         | context [Ascii.eqb c ?x] => destruct (Ascii.eqb c x)
         | context [?g c] => match type of (g c) with bool => destruct (g c) end
         end;
  simpl in *; repeat split; congruence.

(** *** Progress of the evaluator *)

Module CepFacts.
Import ConstantExpressionParser.

Definition len (p : t) : nat := length (m_expr p).

Lemma drop_while_length P s : length (drop_while P s) <= length s.
Proof.
  induction s as [|c r IH]; simpl; [lia|].
  destruct (P c); simpl; lia.
Qed.

Lemma skip_ws_len p : len (skip_ws p) <= len p.
Proof. apply drop_while_length. Qed.

Lemma match_char_true ch p p' :
  match_char ch p = (true, p') ->
  m_expr (skip_ws p) = ch :: m_expr p' /\ m_valid p' = m_valid p.
Proof.
  unfold match_char. destruct (m_expr (skip_ws p)) as [|c r] eqn:E; [discriminate|].
  destruct (Ascii.eqb c ch) eqn:Ec; [|discriminate].
  apply Ascii.eqb_eq in Ec. subst c. intros H. injection H as <-. simpl. auto.
Qed.

Lemma match_char_false ch p p' : match_char ch p = (false, p') -> p' = skip_ws p.
Proof.
  unfold match_char. destruct (m_expr (skip_ws p)) as [|c r]; [congruence|].
  destruct (Ascii.eqb c ch); congruence.
Qed.

Lemma match_char_len ch p b p' :
  match_char ch p = (b, p') -> len p' + (if b then 1 else 0) <= len p.
Proof.
  destruct b; intros H.
  - apply match_char_true in H as [H _]. pose proof (skip_ws_len p) as L.
    unfold len in *. rewrite H in L. simpl in L. lia.
  - apply match_char_false in H as ->. pose proof (skip_ws_len p). lia.
Qed.

Lemma match_token_len token p b p' :
  match_token token p = (b, p') ->
  len p' + (if b then Nat.min 1 (length token) else 0) <= len p.
Proof.
  unfold match_token. pose proof (skip_ws_len p) as L.
  destruct (prefixb token (m_expr (skip_ws p))) eqn:E; intros H; injection H as <- <-.
  - unfold len in *. simpl in *. rewrite length_skipn.
    destruct token as [|x token]; simpl; [lia|].
    destruct (drop_while is_space (m_expr p)); simpl in *; [discriminate|lia].
  - lia.
Qed.

Lemma starts_with_snd token p : snd (starts_with token p) = skip_ws p.
Proof. reflexivity. Qed.

(** A step never moves the cursor back, and consumes an operator when it
    asks for an operand. *)
Definition step_ok (step : t -> action) : Prop :=
  forall p, match step p with
            | Break p' | Reject p' => len p' <= len p
            | Operand _ _ p' => len p' < len p
            end.

Ltac step_tac :=
  match goal with |- step_ok ?f => intros p; unfold f; pose proof (skip_ws_len p) end;
  repeat match goal with
    | |- context [starts_with ?k ?p] =>
        let b := fresh "b" in let q := fresh "q" in let H := fresh "H" in
        destruct (starts_with k p) as [b q] eqn:H;
        apply (f_equal snd) in H; rewrite starts_with_snd in H; simpl in H; subst q;
        destruct b
    | |- context [match_char ?c ?p] =>
        let b := fresh "b" in let H := fresh "H" in
        destruct (match_char c p) as [b ?] eqn:H; apply match_char_len in H; destruct b
    | |- context [match_token ?k ?p] =>
        let b := fresh "b" in let H := fresh "H" in
        destruct (match_token k p) as [b ?] eqn:H; apply match_token_len in H; destruct b
    | |- context [peek_is ?c ?p] => destruct (peek_is c p)
    end;
  simpl in *; lia.

Lemma bitwise_or_step_ok : step_ok bitwise_or_step.
Proof. step_tac. Qed.
Lemma bitwise_xor_step_ok : step_ok bitwise_xor_step.
Proof. step_tac. Qed.
Lemma bitwise_and_step_ok : step_ok bitwise_and_step.
Proof. step_tac. Qed.
Lemma shift_step_ok : step_ok shift_step.
Proof. step_tac. Qed.
Lemma additive_step_ok : step_ok additive_step.
Proof. step_tac. Qed.
Lemma multiplicative_step_ok : step_ok multiplicative_step.
Proof. step_tac. Qed.


(** [q] returns on every input shorter than [N] and does not move the
    cursor back. *)
Definition good (N : nat) (q : parser) : Prop :=
  forall p, len p < N -> exists v p', q p = Some (v, p') /\ len p' <= len p.

(** Two parsers that cannot be told apart on inputs shorter than [N]. *)
Definition agree (N : nat) (q1 q2 : parser) : Prop :=
  forall p, len p < N -> q1 p = q2 p.

Lemma good_weaken N M q : M <= N -> good N q -> good M q.
Proof. intros HM Hg p Hp. apply Hg. lia. Qed.

Lemma agree_weaken N M q1 q2 : M <= N -> agree N q1 q2 -> agree M q1 q2.
Proof. intros HM Hg p Hp. apply Hg. lia. Qed.

Lemma level_loop_good step sub N :
  step_ok step -> good N sub ->
  forall fuel value p, len p < N -> len p < fuel ->
    exists v p', level_loop step sub fuel value p = Some (v, p') /\ len p' <= len p.
Proof.
  intros Hs Hg. induction fuel as [|fuel IH]; intros value p HN Hf; [lia|].
  simpl. destruct (negb (m_valid p)); [eauto|].
  pose proof (skip_ws_len p) as Hw. specialize (Hs (skip_ws p)).
  destruct (step (skip_ws p)) as [q|q|d f q].
  - exists value, q. split; [reflexivity|lia].
  - exists value, (invalidate q). split; [reflexivity|]. unfold len in *. simpl. lia.
  - destruct (Hg q) as (rhs & q' & -> & Hq'); [lia|].
    destruct (d && overflows value rhs).
    { exists 0%Z, (stop q'). split; [reflexivity|]. unfold len in *. simpl. lia. }
    destruct (f value rhs) as [value'|].
    + destruct (IH value' q') as (v & r & -> & Hr); [lia|lia|].
      exists v, r. split; [reflexivity|lia].
    + exists 0%Z, (invalidate q'). split; [reflexivity|]. unfold len in *. simpl. lia.
Qed.

Lemma level_good step sub N fuel :
  step_ok step -> good N sub -> N <= fuel -> good N (level step sub fuel).
Proof.
  intros Hs Hg Hle p Hp. unfold level.
  destruct (Hg p Hp) as (v & q & -> & Hq).
  destruct (level_loop_good step sub N Hs Hg fuel v q) as (v' & r & -> & Hr); [lia|lia|].
  exists v', r. split; [reflexivity|lia].
Qed.

Lemma level_loop_agree step sub1 sub2 N :
  step_ok step -> good N sub1 -> agree N sub1 sub2 ->
  forall k1 k2 value p, len p < N -> len p < k1 -> len p < k2 ->
    level_loop step sub1 k1 value p = level_loop step sub2 k2 value p.
Proof.
  intros Hs Hg Ha. induction k1 as [|k1 IH]; intros k2 value p HN H1 H2; [lia|].
  destruct k2 as [|k2]; [lia|]. simpl.
  destruct (negb (m_valid p)); [reflexivity|].
  pose proof (skip_ws_len p) as Hw. specialize (Hs (skip_ws p)).
  destruct (step (skip_ws p)) as [q|q|d f q]; try reflexivity.
  rewrite <- (Ha q) by lia.
  destruct (Hg q) as (rhs & q' & -> & Hq'); [lia|].
  destruct (d && overflows value rhs); [reflexivity|].
  destruct (f value rhs); [|reflexivity]. apply IH; lia.
Qed.

Lemma level_agree step sub1 sub2 N k1 k2 :
  step_ok step -> good N sub1 -> agree N sub1 sub2 -> N <= k1 -> N <= k2 ->
  agree N (level step sub1 k1) (level step sub2 k2).
Proof.
  intros Hs Hg Ha H1 H2 p Hp. unfold level. rewrite <- (Ha p Hp).
  destruct (Hg p Hp) as (v & q & -> & Hq).
  apply (level_loop_agree step sub1 sub2 N); auto; lia.
Qed.

Lemma read_digits_len P base s valid halted :
  len (snd (read_digits P base s valid halted)) <= length s.
Proof.
  unfold read_digits. destruct (span_len P s =? 0); [simpl; unfold len; simpl; lia|].
  destruct (stoll _ _); unfold len; simpl.
  - pose proof (drop_while_length is_suffix_letter (skipn (span_len P s) s)).
    rewrite length_skipn in *. lia.
  - rewrite length_skipn. lia.
Qed.

Lemma parse_number_len p : len (snd (parse_number p)) <= len p.
Proof.
  unfold parse_number. pose proof (skip_ws_len p) as Hw. unfold len in Hw.
  remember (skip_ws p) as q eqn:Eq. clear Eq.
  destruct q as [s valid halted]. simpl in *.
  destruct s as [|c r].
  - unfold len. simpl. lia.
  - assert (Hd : len (snd (read_digits is_digit 10 (c :: r) valid halted)) <= len p).
    { etransitivity; [apply read_digits_len|]. exact Hw. }
    destruct r as [|x r']; [exact Hd|].
    destruct (Ascii.eqb c "0" && (Ascii.eqb x "x" || Ascii.eqb x "X")); [|exact Hd].
    etransitivity; [apply read_digits_len|]. simpl in Hw. unfold len. lia.
Qed.

Section LevelsFacts.
Variables (unary1 unary2 : parser) (N k1 k2 : nat).
Hypothesis Hgood : good N unary1.
Hypothesis Hagree : agree N unary1 unary2.
Hypothesis Hk1 : N <= k1.
Hypothesis Hk2 : N <= k2.

Lemma multiplicative_good : good N (parse_multiplicative_with unary1 k1).
Proof. apply level_good; auto using multiplicative_step_ok. Qed.
Lemma additive_good : good N (parse_additive_with unary1 k1).
Proof. apply level_good; auto using additive_step_ok, multiplicative_good. Qed.
Lemma shift_good : good N (parse_shift_with unary1 k1).
Proof. apply level_good; auto using shift_step_ok, additive_good. Qed.
Lemma bitwise_and_good : good N (parse_bitwise_and_with unary1 k1).
Proof. apply level_good; auto using bitwise_and_step_ok, shift_good. Qed.
Lemma bitwise_xor_good : good N (parse_bitwise_xor_with unary1 k1).
Proof. apply level_good; auto using bitwise_xor_step_ok, bitwise_and_good. Qed.
Lemma bitwise_or_good : good N (parse_bitwise_or_with unary1 k1).
Proof. apply level_good; auto using bitwise_or_step_ok, bitwise_xor_good. Qed.

Lemma multiplicative_agree :
    agree N (parse_multiplicative_with unary1 k1) (parse_multiplicative_with unary2 k2).
Proof. apply level_agree; auto using multiplicative_step_ok. Qed.
Lemma additive_agree :
    agree N (parse_additive_with unary1 k1) (parse_additive_with unary2 k2).
Proof. apply level_agree; auto using additive_step_ok, multiplicative_good, multiplicative_agree. Qed.
Lemma shift_agree :
    agree N (parse_shift_with unary1 k1) (parse_shift_with unary2 k2).
Proof. apply level_agree; auto using shift_step_ok, additive_good, additive_agree. Qed.
Lemma bitwise_and_agree :
    agree N (parse_bitwise_and_with unary1 k1) (parse_bitwise_and_with unary2 k2).
Proof. apply level_agree; auto using bitwise_and_step_ok, shift_good, shift_agree. Qed.
Lemma bitwise_xor_agree :
    agree N (parse_bitwise_xor_with unary1 k1) (parse_bitwise_xor_with unary2 k2).
Proof. apply level_agree; auto using bitwise_xor_step_ok, bitwise_and_good, bitwise_and_agree. Qed.
Lemma bitwise_or_agree :
    agree N (parse_bitwise_or_with unary1 k1) (parse_bitwise_or_with unary2 k2).
Proof. apply level_agree; auto using bitwise_or_step_ok, bitwise_xor_good, bitwise_xor_agree. Qed.
End LevelsFacts.

Lemma map_value_good (f : Z -> Z) (r : option (Z * t)) n :
  (exists v p', r = Some (v, p') /\ len p' <= n) ->
  exists v p', map_value f r = Some (v, p') /\ len p' <= n.
Proof. intros (v & p' & -> & H). simpl. eauto. Qed.

(** The parser comes to the end of its run on every input: a bound above
    the length of the unread text is never exhausted. *)
Lemma parse_unary_good fuel : good fuel (parse_unary fuel).
Proof.
  induction fuel as [|fuel IH]; intros p Hp; [lia|].
  simpl. pose proof (skip_ws_len p) as Hw.
  destruct (match_char "+" (skip_ws p)) as [b1 p1] eqn:E1.
  apply match_char_len in E1. destruct b1.
  { destruct (IH p1) as (v & q & -> & Hq); [lia|]. exists v, q. split; [reflexivity|lia]. }
  destruct (match_char "-" p1) as [b2 p2] eqn:E2.
  apply match_char_len in E2. destruct b2.
  { apply map_value_good. destruct (IH p2) as (v & q & -> & Hq); [lia|].
    exists v, q. split; [reflexivity|lia]. }
  destruct (match_char "~" p2) as [b3 p3] eqn:E3.
  apply match_char_len in E3. destruct b3.
  { apply map_value_good. destruct (IH p3) as (v & q & -> & Hq); [lia|].
    exists v, q. split; [reflexivity|lia]. }
  unfold parse_primary_with. pose proof (skip_ws_len p3) as Hw3.
  destruct (match_char "(" (skip_ws p3)) as [b4 p4] eqn:E4.
  apply match_char_len in E4. destruct b4.
  - destruct (bitwise_or_good (parse_unary fuel) fuel fuel IH (le_n _) p4)
      as (v & q & -> & Hq); [lia|].
    destruct (match_char ")" q) as [b5 p5] eqn:E5. apply match_char_len in E5.
    exists v, (if b5 then p5 else invalidate p5). split; [reflexivity|].
    destruct b5; unfold len in *; simpl in *; lia.
  - pose proof (parse_number_len p4).
    exists (fst (parse_number p4)), (snd (parse_number p4)).
    split; [destruct (parse_number p4); reflexivity|]. simpl in *. lia.
Qed.

Lemma parse_unary_agree n : forall m, agree (Nat.min n m) (parse_unary n) (parse_unary m).
Proof.
  induction n as [|n IH]; intros m p Hp; [simpl in Hp; lia|].
  destruct m as [|m]; [rewrite Nat.min_0_r in Hp; lia|].
  simpl in Hp. simpl. pose proof (skip_ws_len p) as Hw.
  destruct (match_char "+" (skip_ws p)) as [b1 p1] eqn:E1.
  apply match_char_len in E1. destruct b1.
  { apply IH. lia. }
  destruct (match_char "-" p1) as [b2 p2] eqn:E2.
  apply match_char_len in E2. destruct b2.
  { f_equal. apply IH. lia. }
  destruct (match_char "~" p2) as [b3 p3] eqn:E3.
  apply match_char_len in E3. destruct b3.
  { f_equal. apply IH. lia. }
  unfold parse_primary_with. pose proof (skip_ws_len p3) as Hw3.
  destruct (match_char "(" (skip_ws p3)) as [b4 p4] eqn:E4.
  apply match_char_len in E4. destruct b4; [|reflexivity].
  rewrite (bitwise_or_agree (parse_unary n) (parse_unary m) (Nat.min n m) n m); auto; try lia.
  apply (good_weaken n); [lia|apply parse_unary_good].
Qed.

Lemma parse_bitwise_or_good fuel : good fuel (parse_bitwise_or fuel).
Proof. apply bitwise_or_good; auto using parse_unary_good. Qed.

(** When [parse] has no result, the bound was not exhausted: the parser
    went through the expression and met the division that stopped the
    process. *)
Lemma parse_stopped fuel p :
  len p < fuel ->
  exists v q,
    parse_bitwise_or fuel p = Some (v, q) /\
    (parse fuel p = None <-> stopped q = true).
Proof.
  intros H. unfold parse.
  destruct (parse_bitwise_or_good fuel p H) as (v & q & -> & _).
  exists v, q. split; [reflexivity|].
  cbn [skip_ws stopped]. destruct (stopped q); split; congruence.
Qed.

End CepFacts.

Lemma evaluate_constant_expression_stopped expression :
  exists v q,
    CEP.parse_bitwise_or (S (length expression)) (CEP.mk expression true false)
      = Some (v, q) /\
    (evaluate_constant_expression expression = None <-> CEP.stopped q = true).
Proof. apply CepFacts.parse_stopped. unfold CepFacts.len. simpl. lia. Qed.

(** *** The grammar of constant expressions

    Expressions as the grammar of the evaluator generates them, with the
    white space that may precede each token.  [EBin] is left associative:
    its left operand is of its own level or tighter, its right operand is
    strictly tighter. *)

Module Grammar.

Inductive unop := UPlus | UNeg | UNot.

Inductive binop := BOr | BXor | BAnd | BShl | BShr | BAdd | BSub | BMul | BDiv | BRem.

(** A literal: [lit_hex] is the [x] or [X] of a hexadecimal prefix. *)
Record literal := mkLit { lit_hex : option ascii; lit_digits : text; lit_suffix : text }.

Inductive expr :=
| ELit (ws : text) (l : literal)
| EParen (ws1 : text) (e : expr) (ws2 : text)
| EUn (ws : text) (op : unop) (e : expr)
| EBin (op : binop) (l : expr) (ws : text) (r : expr).

Definition unop_char (op : unop) : ascii :=
  match op with UPlus => "+" | UNeg => "-" | UNot => "~" end.

Definition binop_text (op : binop) : text :=
  match op with
  | BOr => str "|" | BXor => str "^" | BAnd => str "&"
  | BShl => str "<<" | BShr => str ">>"
  | BAdd => str "+" | BSub => str "-"
  | BMul => str "*" | BDiv => str "/" | BRem => str "%"
  end.

(** Precedence levels, loosest first. *)
Definition lvl (op : binop) : nat :=
  match op with
  | BOr => 0 | BXor => 1 | BAnd => 2
  | BShl | BShr => 3
  | BAdd | BSub => 4
  | BMul | BDiv | BRem => 5
  end.

Definition prec (e : expr) : nat :=
  match e with
  | EBin op _ _ _ => lvl op
  | EUn _ _ _ => 6
  | ELit _ _ | EParen _ _ _ => 7
  end.

Definition literal_text (l : literal) : text :=
  match lit_hex l with
  | Some x => "0" :: x :: lit_digits l
  | None => lit_digits l
  end ++ lit_suffix l.

Fixpoint print (e : expr) : text :=
  match e with
  | ELit ws l => ws ++ literal_text l
  | EParen ws1 e ws2 => ws1 ++ "(" :: print e ++ ws2 ++ [")"]
  | EUn ws op e => ws ++ unop_char op :: print e
  | EBin op l ws r => print l ++ ws ++ binop_text op ++ print r
  end.

Definition nonempty (s : text) : bool := match s with [] => false | _ => true end.

Definition wf_literal (l : literal) : bool :=
  nonempty (lit_digits l) &&
  forallb CEP.is_suffix_letter (lit_suffix l) &&
  match lit_hex l with
  | Some x => (Ascii.eqb x "x" || Ascii.eqb x "X") && forallb is_xdigit (lit_digits l)
  | None => forallb is_digit (lit_digits l)
  end.

(** Membership in the grammar. *)
Fixpoint wf (e : expr) : bool :=
  match e with
  | ELit ws l => forallb is_space ws && wf_literal l
  | EParen ws1 e ws2 => forallb is_space ws1 && wf e && forallb is_space ws2
  | EUn ws _ e => forallb is_space ws && wf e && (6 <=? prec e)
  | EBin op l ws r =>
      wf l && forallb is_space ws && wf r && (lvl op <=? prec l) && (lvl op <? prec r)
  end.

Definition literal_value (l : literal) : Z :=
  digits_value (match lit_hex l with Some _ => 16 | None => 10 end)%Z (lit_digits l).

(** The function a binary operator applies to two 64-bit values. *)
Definition binop_fun (op : binop) : Z -> Z -> option Z :=
  match op with
  | BOr => CEP.total_op CEP.op_or
  | BXor => CEP.total_op CEP.op_xor
  | BAnd => CEP.total_op CEP.op_and
  | BShl => CEP.total_op CEP.op_shl
  | BShr => CEP.total_op CEP.op_shr
  | BAdd => CEP.total_op CEP.op_add
  | BSub => CEP.total_op CEP.op_sub
  | BMul => CEP.total_op CEP.op_mul
  | BDiv => CEP.op_div
  | BRem => CEP.op_rem
  end.

(** Operand pairs on which C++ defines the result of the operator whatever
    the target: a shift count within the width, and no division of
    [INT64_MIN] by [-1]. *)
Definition defined (op : binop) (a b : Z) : bool :=
  match op with
  | BShl | BShr => ((0 <=? b) && (b <? 64))%Z
  | BDiv | BRem => negb ((a =? INT64_MIN) && (b =? -1))%Z
  | _ => true
  end.

Definition unop_fun (op : unop) (v : Z) : Z :=
  match op with
  | UPlus => v
  | UNeg => CEP.op_neg v
  | UNot => CEP.op_not v
  end.

(** The value of an expression in 64-bit two's-complement arithmetic:
    every operation is reduced modulo [2^64] into the signed range,
    division truncates toward zero and [>>] is arithmetic.  [None] for a
    literal above [INT64_MAX], a zero divisor, and the operand pairs
    excluded by [defined]. *)
Fixpoint denote (e : expr) : option Z :=
  match e with
  | ELit _ l =>
      if (literal_value l <=? INT64_MAX)%Z then Some (literal_value l) else None
  | EParen _ e _ => denote e
  | EUn _ op e => option_map (unop_fun op) (denote e)
  | EBin op l _ r =>
      match denote l, denote r with
      | Some a, Some b => if defined op a b then binop_fun op a b else None
      | _, _ => None
      end
  end.

End Grammar.

(** *** The evaluator on the expressions of the grammar *)

Module GrammarFacts.
Import ConstantExpressionParser CepFacts Grammar.

Definition st (s : text) : t := mk s true false.

(** The operators that divide. *)
Definition division (op : binop) : bool :=
  match op with
  | BDiv | BRem => true
  | _ => false
  end.

Lemma defined_division op a b :
  defined op a b = true -> division op && overflows a b = false.
Proof.
  destruct op; try reflexivity; unfold defined, overflows; cbn [division andb];
    intros H; apply negb_true_iff in H; exact H.
Qed.

Lemma drop_while_spaces ws s :
  forallb is_space ws = true ->
  drop_while is_space (ws ++ s) = drop_while is_space s.
Proof.
  induction ws as [|c ws IH]; simpl; intros H; [reflexivity|].
  apply andb_true_iff in H as [-> H]. auto.
Qed.

Lemma drop_while_idem P s : drop_while P (drop_while P s) = drop_while P s.
Proof.
  induction s as [|c r IH]; simpl; [reflexivity|].
  destruct (P c) eqn:E; [exact IH|]. simpl. rewrite E. reflexivity.
Qed.

Lemma drop_while_head P c s : P c = false -> drop_while P (c :: s) = c :: s.
Proof. intros H. simpl. rewrite H. reflexivity. Qed.

Lemma skip_ws_idem p : skip_ws (skip_ws p) = skip_ws p.
Proof. unfold skip_ws. simpl. rewrite drop_while_idem. reflexivity. Qed.

Lemma level_loop_skip_ws step sub k v p :
  m_valid p = true ->
  level_loop step sub k v (skip_ws p) = level_loop step sub k v p.
Proof. intros H. destruct k; simpl; rewrite H, ?skip_ws_idem; reflexivity. Qed.

(** The first character of an operand: white space, a unary operator, an
    opening parenthesis or a digit. *)
Definition start_char (c : ascii) : bool :=
  is_space c || is_digit c || Ascii.eqb c "+" || Ascii.eqb c "-" ||
  Ascii.eqb c "~" || Ascii.eqb c "(".

Definition start_ok (s : text) : Prop :=
  match s with
  | c :: _ => start_char c = true
  | [] => False
  end.

(** The characters that open a binary operator of level [L] or tighter. *)
Definition op_chars_from (L : nat) : text :=
  match L with
  | 0 => str "|^&<>+-*/%"
  | 1 => str "^&<>+-*/%"
  | 2 => str "&<>+-*/%"
  | 3 => str "<>+-*/%"
  | 4 => str "+-*/%"
  | 5 => str "*/%"
  | _ => []
  end.

Definition stop_char (L : nat) (c : ascii) : bool :=
  negb (existsb (Ascii.eqb c) (op_chars_from L)).

(** What may follow an operand parsed at level [L]: no letter or digit
    directly after it, and then no operator of level [L] or tighter. *)
Definition follow (L : nat) (rest : text) : Prop :=
  match rest with [] => True | c :: _ => is_alnum c = false end /\
  match drop_while is_space rest with [] => True | c :: _ => stop_char L c = true end.

Lemma stop_char_mono L c : stop_char L c = true -> stop_char (S L) c = true.
Proof.
  unfold stop_char.
  do 6 (destruct L as [|L]; [simpl; rewrite !negb_true_iff, !orb_false_iff; tauto|]).
  reflexivity.
Qed.

Lemma follow_mono L rest : follow L rest -> follow (S L) rest.
Proof.
  intros [H1 H2]. split; [exact H1|].
  destruct (drop_while is_space rest); [exact I|]. apply stop_char_mono, H2.
Qed.

Lemma follow_le L L' rest : L <= L' -> follow L rest -> follow L' rest.
Proof. induction 1; auto using follow_mono. Qed.

Lemma space_not_alnum c : is_space c = true -> is_alnum c = false.
Proof. char_fact (fun c => implb (is_space c) (negb (is_alnum c))) c. Qed.

Lemma start_char_not_bar c : start_char c = true -> Ascii.eqb c "|" = false.
Proof. char_fact (fun c => implb (start_char c) (negb (Ascii.eqb c "|"))) c. Qed.

Lemma start_char_not_amp c : start_char c = true -> Ascii.eqb c "&" = false.
Proof. char_fact (fun c => implb (start_char c) (negb (Ascii.eqb c "&"))) c. Qed.

Section Canonical.
Variable N : nat.

Definition U : parser := parse_unary N.

Definition step_of (L : nat) : t -> action :=
    match L with
    | 0 => bitwise_or_step
    | 1 => bitwise_xor_step
    | 2 => bitwise_and_step
    | 3 => shift_step
    | 4 => additive_step
    | _ => multiplicative_step
    end.

  (** The parser of level [L]; from 6 on, the parser of unary expressions. *)
Definition lev (L : nat) : parser :=
    match L with
    | 0 => parse_bitwise_or_with U N
    | 1 => parse_bitwise_xor_with U N
    | 2 => parse_bitwise_and_with U N
    | 3 => parse_shift_with U N
    | 4 => parse_additive_with U N
    | 5 => parse_multiplicative_with U N
    | _ => U
    end.

  (** The loop of level [L], entered with the value of the first operand. *)
Definition cont (L : nat) (v : Z) (p : t) : option (Z * t) :=
    level_loop (step_of L) (lev (S L)) N v p.

Lemma step_of_ok L : step_ok (step_of L).
Proof.
    do 5 (destruct L as [|L];
          [auto using bitwise_or_step_ok, bitwise_xor_step_ok, bitwise_and_step_ok,
             shift_step_ok, additive_step_ok|]).
    apply multiplicative_step_ok.
Qed.

Lemma U_good : good N U.
Proof. apply parse_unary_good. Qed.

Lemma lev_good L : good N (lev L).
Proof.
    pose proof U_good as HU.
    destruct L as [|[|[|[|[|[|L]]]]]]; simpl;
      first [ exact HU
            | apply bitwise_or_good; [exact HU|lia]
            | apply bitwise_xor_good; [exact HU|lia]
            | apply bitwise_and_good; [exact HU|lia]
            | apply shift_good; [exact HU|lia]
            | apply additive_good; [exact HU|lia]
            | apply multiplicative_good; [exact HU|lia] ].
Qed.

Lemma lev_bind L p :
    L < 6 ->
    lev L p = match lev (S L) p with
              | Some (v, p') => cont L v p'
              | None => None
              end.
Proof.
    intros HL. do 6 (destruct L as [|L]; [reflexivity|]). lia.
Qed.

Lemma cont_skip_ws L v p : m_valid p = true -> cont L v (skip_ws p) = cont L v p.
Proof. apply level_loop_skip_ws. Qed.

Lemma cont_unfold L v p :
    len p < N ->
    cont L v p =
      if negb (m_valid p) then Some (v, p)
      else match step_of L (skip_ws p) with
           | Break p' => Some (v, p')
           | Reject p' => Some (v, invalidate p')
           | Operand d f p' =>
               match lev (S L) p' with
               | None => None
               | Some (rhs, p'') =>
                   if d && overflows v rhs then Some (0%Z, stop p'')
                   else
                     match f v rhs with
                     | Some v' => cont L v' p''
                     | None => Some (0%Z, invalidate p'')
                     end
               end
           end.
Proof.
    intros Hp. unfold cont at 1. destruct N as [|n] eqn:EN; [lia|].
    cbn [level_loop].
    destruct (negb (m_valid p)); [reflexivity|].
    pose proof (skip_ws_len p) as Hw. pose proof (step_of_ok L (skip_ws p)) as Hs.
    destruct (step_of L (skip_ws p)) as [q|q|d f q]; try reflexivity.
    destruct (lev_good (S L) q) as (rhs & q' & -> & Hq'); [lia|].
    destruct (d && overflows v rhs); [reflexivity|].
    destruct (f v rhs); [|reflexivity].
    unfold cont.
    apply (level_loop_agree (step_of L) (lev (S L)) (lev (S L)) N);
      auto using step_of_ok, lev_good; try lia.
    intros ? ?; reflexivity.
Qed.

  (** The three prefix operators and the primary expressions, with the
      recursive calls brought back to the bound [N]. *)
Lemma U_unfold p :
    len p < N ->
    U p =
      let p := skip_ws p in
      let '(b, p) := match_char "+" p in
      if b then U p
      else let '(b, p) := match_char "-" p in
           if b then map_value op_neg (U p)
           else let '(b, p) := match_char "~" p in
                if b then map_value op_not (U p)
                else let p := skip_ws p in
                     let '(b, p) := match_char "(" p in
                     if b then
                       match lev 0 p with
                       | None => None
                       | Some (value, p) =>
                           let '(b, p) := match_char ")" p in
                           Some (value, if b then p else invalidate p)
                       end
                     else Some (parse_number p).
Proof.
    intros Hp. unfold U at 1. destruct N as [|n] eqn:EN; [lia|].
    cbn [parse_unary]. cbv zeta. pose proof (skip_ws_len p) as Hw.
    assert (HU : forall q, len q < len p -> parse_unary n q = U q).
    { intros q Hq. unfold U. apply (parse_unary_agree n N). lia. }
    destruct (match_char "+" (skip_ws p)) as [b1 p1] eqn:E1.
    apply match_char_len in E1. destruct b1; [apply HU; lia|].
    destruct (match_char "-" p1) as [b2 p2] eqn:E2.
    apply match_char_len in E2. destruct b2; [f_equal; apply HU; lia|].
    destruct (match_char "~" p2) as [b3 p3] eqn:E3.
    apply match_char_len in E3. destruct b3; [f_equal; apply HU; lia|].
    unfold parse_primary_with. pose proof (skip_ws_len p3) as Hw3.
    destruct (match_char "(" (skip_ws p3)) as [b4 p4] eqn:E4.
    apply match_char_len in E4. destruct b4; [|reflexivity].
    unfold lev.
    rewrite (bitwise_or_agree (parse_unary n) U n n N);
      auto using parse_unary_good; try lia.
    intros q Hq. unfold U. apply (parse_unary_agree n N). lia.
Qed.

  (** **** What the steps do on the tokens of the grammar *)

Lemma step_op op r :
    start_ok r ->
    step_of (lvl op) (st (binop_text op ++ r))
      = Operand (division op) (binop_fun op) (st r).
Proof.
    destruct r as [|c r]; [contradiction|]. simpl. intros Hc.
    destruct op; try reflexivity.
    - unfold step_of, lvl, bitwise_or_step, starts_with, match_char, peek_is, skip_ws.
      simpl. rewrite (start_char_not_bar c Hc). reflexivity.
    - unfold step_of, lvl, bitwise_and_step, starts_with, match_char, peek_is, skip_ws.
      simpl. rewrite (start_char_not_amp c Hc). reflexivity.
Qed.

Lemma starts_with_here token c r :
    is_space c = false ->
    starts_with token (st (c :: r)) = (prefixb token (c :: r), st (c :: r)).
Proof.
    intros H. unfold starts_with, skip_ws. cbn [m_expr m_valid stopped st].
    rewrite drop_while_head by exact H. reflexivity.
Qed.

Lemma match_char_miss ch c r :
    is_space c = false -> Ascii.eqb c ch = false ->
    match_char ch (st (c :: r)) = (false, st (c :: r)).
Proof.
    intros H E. unfold match_char, skip_ws. cbn [m_expr m_valid stopped st].
    rewrite drop_while_head by exact H. rewrite E. reflexivity.
Qed.

Lemma match_token_miss x token c r :
    is_space c = false -> Ascii.eqb c x = false ->
    match_token (x :: token) (st (c :: r)) = (false, st (c :: r)).
Proof.
    intros H E. unfold match_token, skip_ws. cbn [m_expr m_valid stopped st].
    rewrite drop_while_head by exact H. cbn [prefixb]. rewrite E. reflexivity.
Qed.

Lemma step_break L c r :
    L < 6 -> is_space c = false -> stop_char L c = true ->
    step_of L (st (c :: r)) = Break (st (c :: r)).
Proof.
    intros HL Hs Hc. unfold stop_char in Hc. apply negb_true_iff in Hc.
    do 6 (destruct L as [|L];
          [cbn [op_chars_from str list_ascii_of_string existsb] in Hc;
           repeat (apply orb_false_iff in Hc; destruct Hc as [? Hc]);
           cbn [step_of];
           unfold bitwise_or_step, bitwise_xor_step, bitwise_and_step, shift_step,
             additive_step, multiplicative_step;
           cbn [str list_ascii_of_string];
           rewrite ?starts_with_here by assumption; cbn [prefixb];
           repeat match goal with
                  | H : Ascii.eqb c ?x = false |- context [Ascii.eqb c ?x] => rewrite H
                  end;
           cbn [andb];
           repeat first [rewrite match_char_miss by assumption
                        | rewrite match_token_miss by assumption];
           reflexivity|]).
    lia.
Qed.

Lemma step_end L : step_of L (st []) = Break (st []).
Proof. do 5 (destruct L as [|L]; [reflexivity|]). reflexivity. Qed.

Lemma drop_while_stops P s c r : drop_while P s = c :: r -> P c = false.
Proof.
    induction s as [|x s IH]; simpl; [discriminate|].
    destruct (P x) eqn:E; [exact IH|]. intros H. injection H as <- _. exact E.
Qed.

  (** The loop of a level leaves at once when no operator of the level
      follows. *)
Lemma cont_break L v rest :
    L < 6 -> length rest < N -> follow L rest ->
    cont L v (st rest) = Some (v, st (drop_while is_space rest)).
Proof.
    intros HL Hlen [_ Hf]. rewrite cont_unfold by exact Hlen.
    cbn [m_valid stopped st negb]. unfold skip_ws. cbn [m_expr m_valid stopped st].
    destruct (drop_while is_space rest) as [|c r] eqn:E.
    - fold (st []). rewrite step_end. reflexivity.
    - fold (st (c :: r)). rewrite step_break; auto.
      apply (drop_while_stops _ _ _ _ E).
Qed.

Lemma descend p v rest k :
    forall L, L + k <= 6 -> len p < N -> length rest <= len p ->
      follow (S L) rest ->
      lev (L + k) p = (if L + k <? 6 then cont (L + k) v (st rest) else Some (v, st rest)) ->
      lev L p = (if L <? 6 then cont L v (st rest) else Some (v, st rest)).
Proof.
    induction k as [|k IH]; intros L HL Hp Hr Hf H.
    - rewrite Nat.add_0_r in H. exact H.
    - replace (L + S k) with (S L + k) in H by lia.
      apply IH in H; auto using follow_mono; try lia.
      assert (HL6 : L < 6) by lia.
      rewrite lev_bind by exact HL6. rewrite H.
      apply Nat.ltb_lt in HL6 as HL6'. rewrite HL6'.
      destruct (S L <? 6) eqn:E; [|reflexivity].
      apply Nat.ltb_lt in E. rewrite cont_break; auto; try lia.
      apply (cont_skip_ws L v (st rest)). reflexivity.
Qed.

End Canonical.

(** **** Tokens *)

Lemma match_char_skip ch ws d s :
  forallb is_space ws = true -> is_space d = false ->
  match_char ch (st (ws ++ d :: s)) =
    if Ascii.eqb d ch then (true, st s) else (false, st (d :: s)).
Proof.
  intros Hws Hd. unfold match_char, skip_ws. cbn [m_expr m_valid stopped st].
  rewrite drop_while_spaces by exact Hws. rewrite drop_while_head by exact Hd.
  destruct (Ascii.eqb d ch); reflexivity.
Qed.

Lemma match_char_here ch d s :
  is_space d = false ->
  match_char ch (st (d :: s)) =
    if Ascii.eqb d ch then (true, st s) else (false, st (d :: s)).
Proof. apply (match_char_skip ch [] d s). reflexivity. Qed.

Lemma skip_ws_here d s : is_space d = false -> skip_ws (st (d :: s)) = st (d :: s).
Proof. intros H. unfold skip_ws. cbn [m_expr m_valid stopped st]. rewrite drop_while_head; auto. Qed.

Definition hd_fails (P : ascii -> bool) (s : text) : Prop :=
  match s with [] => True | c :: _ => P c = false end.

Lemma span_len_app P a b :
  forallb P a = true -> hd_fails P b -> span_len P (a ++ b) = length a.
Proof.
  induction a as [|c a IH]; simpl; intros Ha Hb.
  - destruct b as [|c b]; [reflexivity|]. simpl in *. rewrite Hb. reflexivity.
  - apply andb_true_iff in Ha as [-> Ha]. rewrite IH; auto.
Qed.

Lemma drop_while_app P a b :
  forallb P a = true -> hd_fails P b -> drop_while P (a ++ b) = b.
Proof.
  induction a as [|c a IH]; simpl; intros Ha Hb.
  - destruct b as [|c b]; [reflexivity|]. simpl in *. rewrite Hb. reflexivity.
  - apply andb_true_iff in Ha as [-> Ha]. auto.
Qed.

Lemma hd_fails_app P Q a b :
  (forall c, Q c = true -> P c = false) ->
  forallb Q a = true -> hd_fails P b -> hd_fails P (a ++ b).
Proof.
  intros HQ Ha Hb. destruct a as [|c a]; [exact Hb|].
  simpl in *. apply andb_true_iff in Ha as [Hc _]. auto.
Qed.

Lemma suffix_not_digit c : is_suffix_letter c = true -> is_digit c = false.
Proof. char_fact (fun c => implb (is_suffix_letter c) (negb (is_digit c))) c. Qed.
Lemma suffix_not_xdigit c : is_suffix_letter c = true -> is_xdigit c = false.
Proof. char_fact (fun c => implb (is_suffix_letter c) (negb (is_xdigit c))) c. Qed.
Lemma not_alnum_not_digit c : is_alnum c = false -> is_digit c = false.
Proof. char_fact (fun c => implb (negb (is_alnum c)) (negb (is_digit c))) c. Qed.
Lemma not_alnum_not_xdigit c : is_alnum c = false -> is_xdigit c = false.
Proof. char_fact (fun c => implb (negb (is_alnum c)) (negb (is_xdigit c))) c. Qed.
Lemma not_alnum_not_suffix c : is_alnum c = false -> is_suffix_letter c = false.
Proof. char_fact (fun c => implb (negb (is_alnum c)) (negb (is_suffix_letter c))) c. Qed.
Lemma digit_not_space c : is_digit c = true -> is_space c = false.
Proof. char_fact (fun c => implb (is_digit c) (negb (is_space c))) c. Qed.
Lemma digit_not_x c : is_digit c = true -> Ascii.eqb c "x" || Ascii.eqb c "X" = false.
Proof. char_fact (fun c => implb (is_digit c) (negb (Ascii.eqb c "x" || Ascii.eqb c "X"))) c. Qed.
Lemma suffix_not_x c : is_suffix_letter c = true -> Ascii.eqb c "x" || Ascii.eqb c "X" = false.
Proof. char_fact (fun c => implb (is_suffix_letter c) (negb (Ascii.eqb c "x" || Ascii.eqb c "X"))) c. Qed.
Lemma not_alnum_not_x c : is_alnum c = false -> Ascii.eqb c "x" || Ascii.eqb c "X" = false.
Proof. char_fact (fun c => implb (negb (is_alnum c)) (negb (Ascii.eqb c "x" || Ascii.eqb c "X"))) c. Qed.
Lemma digit_not_token c :
  is_digit c = true ->
  Ascii.eqb c "+" = false /\ Ascii.eqb c "-" = false /\
  Ascii.eqb c "~" = false /\ Ascii.eqb c "(" = false.
Proof.
  char_fact (fun c => implb (is_digit c)
    (negb (Ascii.eqb c "+") && (negb (Ascii.eqb c "-") &&
      (negb (Ascii.eqb c "~") && negb (Ascii.eqb c "("))))) c.
Qed.

Lemma space_start c : is_space c = true -> start_char c = true.
Proof. intros H. unfold start_char. rewrite H. reflexivity. Qed.

Lemma digit_start c : is_digit c = true -> start_char c = true.
Proof. intros H. unfold start_char. rewrite H, orb_true_r. reflexivity. Qed.

Lemma xdigit_digits_head ds :
  nonempty ds = true -> forallb is_digit ds = true ->
  exists d r, ds = d :: r /\ is_digit d = true /\ forallb is_digit r = true.
Proof.
  destruct ds as [|d r]; [discriminate|]. simpl. intros _ H.
  apply andb_true_iff in H as [H1 H2]. eauto.
Qed.

Lemma spaces_then ws (s : text) (Q : ascii -> Prop) :
  forallb is_space ws = true ->
  (forall c, is_space c = true -> Q c) ->
  match s with c :: _ => Q c | [] => False end ->
  match ws ++ s with c :: _ => Q c | [] => False end.
Proof.
  intros Hws Hsp Hs. destruct ws as [|w ws]; [exact Hs|].
  simpl in *. apply andb_true_iff in Hws as [Hw _]. auto.
Qed.

(** Every expression of the grammar opens with an operand character. *)
Lemma print_start e rest : wf e = true -> start_ok (print e ++ rest).
Proof.
  revert rest. induction e as [ws l|ws1 e IH ws2|ws op e IH|op l IHl ws r IHr];
    intros rest H; simpl in H; repeat (apply andb_true_iff in H as [H ?]).
  - simpl. rewrite <- app_assoc. apply spaces_then; auto using space_start.
    unfold wf_literal in *. repeat (apply andb_true_iff in H0 as [H0 ?]).
    unfold literal_text. destruct (lit_hex l); [reflexivity|].
    destruct (xdigit_digits_head _ H0 H1) as (d & r & -> & Hd & _).
    simpl. apply digit_start, Hd.
  - simpl. rewrite <- app_assoc. apply spaces_then; auto using space_start.
    reflexivity.
  - simpl. rewrite <- app_assoc. apply spaces_then; auto using space_start.
    destruct op; reflexivity.
  - simpl. rewrite <- app_assoc. apply IHl. assumption.
Qed.

Lemma binop_text_head op :
  exists c r, binop_text op = c :: r /\ is_space c = false /\ is_alnum c = false /\
              stop_char (S (lvl op)) c = true.
Proof. destruct op; eexists _, _; repeat split. Qed.

Lemma follow_spaces L ws c s :
  forallb is_space ws = true -> is_space c = false -> is_alnum c = false ->
  stop_char L c = true -> follow L (ws ++ c :: s).
Proof.
  intros Hws Hc Ha Hs. split.
  - destruct ws as [|w ws]; [exact Ha|]. simpl in *.
    apply andb_true_iff in Hws as [Hw _]. apply space_not_alnum, Hw.
  - rewrite drop_while_spaces by exact Hws. rewrite drop_while_head by exact Hc.
    exact Hs.
Qed.

Lemma follow_op op ws s :
  forallb is_space ws = true -> follow (S (lvl op)) (ws ++ binop_text op ++ s).
Proof.
  intros Hws. destruct (binop_text_head op) as (c & r & -> & Hc & Ha & Hs).
  simpl. apply follow_spaces; auto.
Qed.

Lemma follow_close L ws s :
  forallb is_space ws = true -> follow L (ws ++ ")" :: s).
Proof.
  intros Hws. apply follow_spaces; auto.
  unfold stop_char. do 6 (destruct L as [|L]; [reflexivity|]). reflexivity.
Qed.

Lemma follow_end L ws : forallb is_space ws = true -> follow L ws.
Proof.
  intros Hws. split.
  - destruct ws as [|w ws]; [exact I|]. simpl in *.
    apply andb_true_iff in Hws as [Hw _]. apply space_not_alnum, Hw.
  - rewrite <- (app_nil_r ws). rewrite drop_while_spaces by exact Hws. exact I.
Qed.

(** **** Literals *)

Lemma read_digits_literal P base ds suffix rest :
  nonempty ds = true -> forallb P ds = true ->
  (forall c, is_suffix_letter c = true -> P c = false) ->
  (forall c, is_alnum c = false -> P c = false) ->
  forallb is_suffix_letter suffix = true ->
  hd_fails is_alnum rest ->
  (digits_value base ds <=? INT64_MAX)%Z = true ->
  read_digits P base (ds ++ suffix ++ rest) true false = (digits_value base ds, st rest).
Proof.
  intros Hne Hds HsP HaP Hsuf Hrest Hmax. unfold read_digits.
  assert (Hf : hd_fails P (suffix ++ rest)).
  { apply (hd_fails_app P is_suffix_letter); auto.
    destruct rest; simpl in *; auto. }
  rewrite span_len_app by assumption.
  destruct ds as [|d ds']; [discriminate|].
  replace (length (d :: ds') =? 0) with false by reflexivity.
  rewrite firstn_app, Nat.sub_diag, firstn_all. cbn [firstn]. rewrite app_nil_r.
  unfold stoll. rewrite Hmax.
  rewrite skipn_app, Nat.sub_diag, skipn_all. cbn [skipn app].
  unfold consume_numeric_suffix. cbn [m_expr m_valid stopped].
  rewrite drop_while_app; auto.
  destruct rest; simpl in *; auto using not_alnum_not_suffix.
Qed.

Lemma hd_not_x (s : text) :
  match s with
  | c :: _ => is_digit c = true \/ is_suffix_letter c = true \/ is_alnum c = false
  | [] => True
  end ->
  match s with c :: _ => Ascii.eqb c "x" || Ascii.eqb c "X" = false | [] => True end.
Proof.
  destruct s as [|c s]; [auto|].
  intros [H|[H|H]]; auto using digit_not_x, suffix_not_x, not_alnum_not_x.
Qed.

Lemma parse_number_literal l rest :
  wf_literal l = true -> hd_fails is_alnum rest ->
  (literal_value l <=? INT64_MAX)%Z = true ->
  parse_number (st (literal_text l ++ rest)) = (literal_value l, st rest).
Proof.
  unfold wf_literal, literal_text, literal_value. intros H Hrest Hmax.
  apply andb_true_iff in H as [H Hk]. apply andb_true_iff in H as [Hne Hsuf].
  destruct (lit_hex l) as [x|].
  - apply andb_true_iff in Hk as [Hx Hds].
    rewrite <- !app_assoc. cbn [app].
    unfold parse_number. rewrite skip_ws_here by reflexivity.
    cbn [m_expr m_valid stopped st]. rewrite Hx.
    replace (Ascii.eqb "0" "0") with true by reflexivity. cbn [andb].
    apply read_digits_literal; auto using suffix_not_xdigit, not_alnum_not_xdigit.
  - destruct (xdigit_digits_head _ Hne Hk) as (d & r & E & Hd & Hr).
    rewrite E in *. unfold parse_number.
    rewrite <- !app_assoc. cbn [app].
    rewrite skip_ws_here by (apply digit_not_space, Hd).
    cbn [m_expr m_valid stopped st].
    assert (R : read_digits is_digit 10 (d :: r ++ lit_suffix l ++ rest) true false
                = (digits_value 10 (d :: r), st rest)).
    { apply (read_digits_literal is_digit 10%Z (d :: r));
        auto using suffix_not_digit, not_alnum_not_digit. }
    assert (Hh : match r ++ lit_suffix l ++ rest with
                 | c :: _ => Ascii.eqb c "x" || Ascii.eqb c "X" = false
                 | [] => True
                 end).
    { apply hd_not_x. destruct r as [|y r].
      - destruct (lit_suffix l) as [|y k].
        + simpl. destruct rest; simpl in *; auto.
        + simpl in *. apply andb_true_iff in Hsuf as [Hy _]. auto.
      - simpl in *. apply andb_true_iff in Hr as [Hy _]. auto. }
    destruct (r ++ lit_suffix l ++ rest) as [|x r'] eqn:Er; [exact R|].
    rewrite Hh, andb_false_r. exact R.
Qed.

Lemma U_literal N ws l rest :
  length (ws ++ literal_text l ++ rest) < N ->
  forallb is_space ws = true -> wf_literal l = true -> hd_fails is_alnum rest ->
  (literal_value l <=? INT64_MAX)%Z = true ->
  U N (st (ws ++ literal_text l ++ rest)) = Some (literal_value l, st rest).
Proof.
  intros Hlen Hws Hl Hrest Hmax. rewrite U_unfold by exact Hlen. cbv zeta.
  assert (Hd : exists d r, literal_text l = d :: r /\ is_digit d = true).
  { unfold wf_literal, literal_text in *.
    apply andb_true_iff in Hl as [H Hk]. apply andb_true_iff in H as [Hne Hsuf].
    destruct (lit_hex l); [eexists _, _; split; reflexivity|].
    destruct (xdigit_digits_head _ Hne Hk) as (d & r & -> & Hd & _).
    simpl. eauto. }
  destruct Hd as (d & r & E & Hd).
  pose proof (parse_number_literal l rest Hl Hrest Hmax) as Hnum.
  rewrite E in *. cbn [app] in *.
  destruct (digit_not_token d Hd) as (E1 & E2 & E3 & E4).
  pose proof (digit_not_space d Hd) as Hsp.
  replace (skip_ws (st (ws ++ d :: r ++ rest))) with (st (d :: r ++ rest)).
  2:{ unfold skip_ws. cbn [m_expr m_valid stopped st].
      rewrite drop_while_spaces by exact Hws. rewrite drop_while_head by exact Hsp.
      reflexivity. }
  rewrite match_char_here, E1 by exact Hsp.
  rewrite match_char_here, E2 by exact Hsp.
  rewrite match_char_here, E3 by exact Hsp.
  rewrite skip_ws_here by exact Hsp.
  rewrite match_char_here, E4 by exact Hsp.
  rewrite Hnum. reflexivity.
Qed.

Ltac len_tac :=
  unfold len in *; cbn [m_expr st] in *;
  repeat first [rewrite length_app in * | progress cbn [length app] in *];
  lia.

Section Main.
Variable N : nat.

Lemma U_prefix ws (c : ascii) s :
    length (ws ++ c :: s) < N -> forallb is_space ws = true -> is_space c = false ->
    skip_ws (st (ws ++ c :: s)) = st (c :: s).
Proof.
    intros _ Hws Hc. unfold skip_ws. cbn [m_expr m_valid stopped st].
    rewrite drop_while_spaces by exact Hws. rewrite drop_while_head by exact Hc.
    reflexivity.
Qed.

  (** The parser of level [L] on the text of an expression of level [L] or
      tighter: its value, and the loop of level [L] goes on with what
      follows. *)
Theorem lev_print e :
    wf e = true -> forall v, denote e = Some v ->
    forall L rest, L <= prec e -> L <= 6 ->
      length (print e ++ rest) < N -> follow (S L) rest ->
      lev N L (st (print e ++ rest)) =
        if L <? 6 then cont N L v (st rest) else Some (v, st rest).
Proof.
    induction e as [ws l|ws1 e IH ws2|ws op e IH|op l IHl ws r IHr];
      intros Hwf v Hv L rest HL HL6 Hlen Hf; cbn [wf] in Hwf.
    - (* literal *)
      apply andb_true_iff in Hwf as [Hws Hl].
      simpl in Hv. destruct (literal_value l <=? INT64_MAX)%Z eqn:Hmax; [|discriminate].
      injection Hv as <-.
      apply (descend N _ _ _ (6 - L)); try lia; auto.
      { len_tac. }
      replace (L + (6 - L)) with 6 by lia. cbn [lev Nat.ltb Nat.leb].
      simpl print. rewrite <- app_assoc.
      apply U_literal; auto.
      + simpl in Hlen. rewrite <- app_assoc in Hlen. exact Hlen.
      + destruct Hf as [Hf _]. exact Hf.
    - (* parentheses *)
      apply andb_true_iff in Hwf as [Hwf Hws2]. apply andb_true_iff in Hwf as [Hws1 Hwf].
      simpl in Hv.
      apply (descend N _ _ _ (6 - L)); try lia; auto.
      { len_tac. }
      replace (L + (6 - L)) with 6 by lia. cbn [lev Nat.ltb Nat.leb].
      simpl print. simpl print in Hlen.
      rewrite <- !app_assoc in *. cbn [app] in *. rewrite <- !app_assoc in *. cbn [app] in *.
      rewrite U_unfold by exact Hlen. cbv zeta.
      rewrite U_prefix by auto.
      repeat (first [rewrite match_char_here by reflexivity
                    |rewrite skip_ws_here by reflexivity];
              cbn [Ascii.eqb Bool.eqb]).
      rewrite (IH Hwf v Hv 0 (ws2 ++ ")" :: rest)); try lia; auto using follow_close.
      2:{ len_tac. }
      cbn [Nat.ltb Nat.leb].
      rewrite cont_break; try lia; auto using follow_close.
      2:{ len_tac. }
      rewrite drop_while_spaces, drop_while_head by auto.
      rewrite match_char_here by reflexivity. reflexivity.
    - (* prefix operators *)
      simpl in Hv. destruct (denote e) as [v1|] eqn:Hv1; [|discriminate].
      apply andb_true_iff in Hwf as [Hwf Hp]. apply andb_true_iff in Hwf as [Hws Hwf].
      injection Hv as <-. apply Nat.leb_le in Hp.
      apply (descend N _ _ _ (6 - L)); try lia; auto.
      { len_tac. }
      replace (L + (6 - L)) with 6 by lia. cbn [lev Nat.ltb Nat.leb].
      simpl print. simpl print in Hlen.
      rewrite <- !app_assoc in *. cbn [app] in *.
      rewrite U_unfold by exact Hlen. cbv zeta.
      assert (Hrec : U N (st (print e ++ rest)) = Some (v1, st rest)).
      { apply (IH Hwf v1 eq_refl 6 rest); try lia.
        - len_tac.
        - apply (follow_le (S L)); [lia|exact Hf]. }
      rewrite U_prefix by (destruct op; auto).
      destruct op; cbn [unop_char unop_fun];
        repeat (rewrite match_char_here by reflexivity; cbn [Ascii.eqb Bool.eqb]);
        rewrite Hrec; reflexivity.
    - (* binary operators *)
      apply andb_true_iff in Hwf as [Hwf Hpr]. apply andb_true_iff in Hwf as [Hwf Hpl].
      apply andb_true_iff in Hwf as [Hwf Hwr]. apply andb_true_iff in Hwf as [Hwl Hws].
      apply Nat.ltb_lt in Hpr. apply Nat.leb_le in Hpl.
      simpl in Hv. destruct (denote l) as [a|] eqn:Ha; [|discriminate].
      destruct (denote r) as [b|] eqn:Hb; [|discriminate].
      destruct (defined op a b) eqn:Hdef; [|discriminate].
      simpl in HL.
      assert (Hop : lvl op < 6) by (destruct op; simpl; lia).
      apply (descend N _ _ _ (lvl op - L)); try lia; auto.
      { len_tac. }
      replace (L + (lvl op - L)) with (lvl op) by lia.
      apply Nat.ltb_lt in Hop as Hop'. rewrite Hop'.
      simpl print. simpl print in Hlen. rewrite <- !app_assoc in *.
      rewrite (IHl Hwl a eq_refl (lvl op)); auto using follow_op; try lia.
      rewrite Hop'.
      rewrite cont_unfold by len_tac.
      cbn [m_valid stopped st negb].
      destruct (binop_text_head op) as (c & k & Ec & Hc & _ & _).
      replace (skip_ws (st (ws ++ binop_text op ++ print r ++ rest)))
        with (st (binop_text op ++ print r ++ rest)).
      2:{ rewrite Ec. cbn [app]. symmetry. apply U_prefix; auto.
          rewrite Ec in Hlen. len_tac. }
      rewrite step_op by (apply print_start; exact Hwr).
      assert (Hlr : length (print r ++ rest) < N).
      { len_tac. }
      rewrite (IHr Hwr b eq_refl (S (lvl op))); auto using follow_mono; try lia.
      2:{ apply (follow_le (S L)); [lia|exact Hf]. }
      pose proof (defined_division op a b Hdef) as Hdiv.
      assert (Hfl : follow (S (lvl op)) rest).
      { apply (follow_le (S L)); [lia|exact Hf]. }
      assert (Hrest : length rest < N) by len_tac.
      destruct (S (lvl op) <? 6) eqn:E6.
      + apply Nat.ltb_lt in E6. rewrite cont_break by auto.
        rewrite Hdiv, Hv. apply (cont_skip_ws N (lvl op) v (st rest)). reflexivity.
      + rewrite Hdiv, Hv. reflexivity.
Qed.

End Main.

(** The evaluator on a whole expression of the grammar, with white space
    after it. *)
Lemma evaluate_print e ws v :
  wf e = true -> forallb is_space ws = true -> denote e = Some v ->
  evaluate_constant_expression (print e ++ ws) = Some (Some v).
Proof.
  intros Hwf Hws Hv. unfold evaluate_constant_expression, parse, parse_bitwise_or.
  set (N := S (length (print e ++ ws))).
  change (parse_bitwise_or_with (parse_unary N) N) with (lev N 0).
  fold (st (print e ++ ws)).
  rewrite (lev_print N e Hwf v Hv 0 ws); auto using follow_end; try lia.
  cbn [Nat.ltb Nat.leb].
  rewrite cont_break; auto using follow_end; try lia.
  2:{ subst N. len_tac. }
  rewrite <- (app_nil_r ws). rewrite drop_while_spaces by exact Hws.
  reflexivity.
Qed.

End GrammarFacts.

(** ** Termination of the scanners *)

Lemma loop_inv {A R : Type} (body : A -> option (ctl A R)) (measure : A -> nat)
    (Inv : A -> Prop) (Q : R -> Prop) :
  (forall a, Inv a ->
     exists c, body a = Some c /\
       match c with
       | Next a' => Inv a' /\ measure a' < measure a
       | Exit r => Q r
       end) ->
  forall fuel a, Inv a -> measure a < fuel ->
    exists r, loop body fuel a = Some r /\ Q r.
Proof.
  intros Hbody. induction fuel as [|fuel IH]; intros a Ha Hm; [lia|].
  simpl. destruct (Hbody a Ha) as (c & -> & Hc).
  destruct c as [a'|r].
  - destruct Hc as [Ha' Hlt]. apply IH; [exact Ha'|lia].
  - eauto.
Qed.

Lemma substr_length (t : text) pos n :
  pos + n <= length t -> length (substr t pos n) = n.
Proof.
  intros H. unfold substr. rewrite length_firstn, length_skipn. lia.
Qed.

Lemma span_len_le P s : span_len P s <= length s.
Proof.
  induction s as [|c r IH]; simpl; [lia|]. destruct (P c); simpl; lia.
Qed.

Lemma advance_while_ge P t pos : pos <= advance_while P t pos.
Proof. unfold advance_while. lia. Qed.

Lemma advance_while_le P t pos : pos <= length t -> advance_while P t pos <= length t.
Proof.
  intros H. unfold advance_while. pose proof (span_len_le P (skipn pos t)) as L.
  rewrite length_skipn in L. lia.
Qed.

Lemma skipn_at (t : text) pos :
  pos < length t -> skipn pos t = at_ t pos :: skipn (S pos) t.
Proof.
  revert pos. induction t as [|c t IH]; intros pos H; simpl in H; [lia|].
  destruct pos as [|pos]; [reflexivity|]. simpl. apply IH. lia.
Qed.

Lemma advance_while_gt P t pos :
  pos < length t -> P (at_ t pos) = true -> pos < advance_while P t pos.
Proof.
  intros H HP. unfold advance_while. rewrite skipn_at by exact H.
  simpl. rewrite HP. lia.
Qed.

Lemma skip_line_ge t pos : pos <= skip_line t pos.
Proof. apply advance_while_ge. Qed.

Lemma skip_block_ge t pos : pos <= length t -> pos <= skip_block t pos.
Proof. intros H. unfold skip_block. lia. Qed.

Lemma skip_string_literal_gt t pos d : pos < skip_string_literal t pos d.
Proof. unfold skip_string_literal. lia. Qed.

Lemma skip_space_run_ge t pos : pos <= skip_space_run t pos.
Proof. unfold skip_space_run. lia. Qed.

(** A literal or a comment at the cursor moves the cursor forward. *)
Lemma skip_quoted_or_comment_gt k t pos p :
  pos < length t -> skip_quoted_or_comment k t pos = Some p -> pos < p.
Proof.
  intros Hpos. unfold skip_quoted_or_comment.
  destruct (Ascii.eqb (at_ t pos) QUOTE).
  { intros H. injection H as <-. apply skip_string_literal_gt. }
  destruct (Ascii.eqb (at_ t pos) APOSTROPHE).
  { intros H. injection H as <-. apply skip_string_literal_gt. }
  destruct (Ascii.eqb (at_ t pos) "/") eqn:Ec; [|discriminate].
  destruct (pos + 1 <? length t) eqn:El; [|discriminate]. simpl.
  apply Nat.ltb_lt in El. apply Ascii.eqb_eq in Ec.
  destruct (Ascii.eqb (at_ t (pos + 1)) "/") eqn:E1.
  - intros H. injection H as <-. apply Ascii.eqb_eq in E1.
    destruct k as [|k].
    + rewrite Nat.add_0_r. apply advance_while_gt; [exact Hpos|]. rewrite Ec. reflexivity.
    + pose proof (skip_line_ge t (pos + S k)). lia.
  - destruct (Ascii.eqb (at_ t (pos + 1)) "*"); [|discriminate].
    intros H. injection H as <-. pose proof (skip_block_ge t (pos + 2)). lia.
Qed.

Ltac exit_now := eexists; split; [reflexivity|]; cbv beta iota; try lia.
Ltac next_now := eexists; split; [reflexivity|]; cbv beta iota; split; try lia.

Lemma skip_whitespace_and_comments_total t pos :
  exists p, skip_whitespace_and_comments t pos = Some p /\ pos <= p.
Proof.
  unfold skip_whitespace_and_comments.
  apply (loop_inv _ (fun p => length t - p) (fun p => pos <= p) (fun p => pos <= p));
    [|lia|lia].
  intros a Ha. destruct (length t <=? a) eqn:E; [exit_now|].
  apply Nat.leb_gt in E.
  destruct (is_space (at_ t a)); [next_now|].
  destruct (Ascii.eqb (at_ t a) "/" && (a + 1 <? length t)) eqn:E1; [|exit_now].
  apply andb_true_iff in E1 as [_ E1]. apply Nat.ltb_lt in E1.
  destruct (Ascii.eqb (at_ t (a + 1)) "/").
  { pose proof (skip_line_ge t (a + 2)). next_now. }
  destruct (Ascii.eqb (at_ t (a + 1)) "*"); [|exit_now].
  pose proof (skip_block_ge t (a + 2)). next_now.
Qed.

Lemma scan_balanced_total open close t pos depth :
  exists p d, scan_balanced open close t pos depth = Some (p, d) /\ pos <= p.
Proof.
  unfold scan_balanced.
  destruct (loop_inv
    (fun '(consumed, depth) =>
       if (length t <=? consumed) || (depth =? 0) then Some (Exit (consumed, depth))
       else match skip_quoted_or_comment 0 t consumed with
            | Some p => Some (Next (p, depth))
            | None =>
                let c := at_ t consumed in
                if Ascii.eqb c open then Some (Next (consumed + 1, depth + 1))
                else if Ascii.eqb c close then
                  if depth - 1 =? 0 then Some (Exit (consumed, 0))
                  else Some (Next (consumed + 1, depth - 1))
                else Some (Next (consumed + 1, depth))
            end)
    (fun a => length t - fst a) (fun a => pos <= fst a) (fun r => pos <= fst r))
    with (fuel := S (length t)) (a := (pos, depth)) as (r & Hr & Hq); simpl; try lia.
  - intros [a d] Ha. simpl in Ha.
    destruct ((length t <=? a) || (d =? 0)) eqn:E; [exit_now; simpl; lia|].
    apply orb_false_iff in E as [E _]. apply Nat.leb_gt in E.
    destruct (skip_quoted_or_comment 0 t a) as [p|] eqn:Es.
    { apply skip_quoted_or_comment_gt in Es; [|exact E]. next_now; simpl; lia. }
    cbv zeta. destruct (Ascii.eqb (at_ t a) open); [next_now; simpl; lia|].
    destruct (Ascii.eqb (at_ t a) close); [|next_now; simpl; lia].
    destruct (d - 1 =? 0); [exit_now; simpl; lia|next_now; simpl; lia].
  - destruct r as [p d]. exists p, d. split; [exact Hr|exact Hq].
Qed.

Lemma scan_to_brace_total t pos :
  exists p, scan_to_brace t pos = Some p /\ pos <= p.
Proof.
  unfold scan_to_brace.
  apply (loop_inv _ (fun p => length t - p) (fun p => pos <= p) (fun p => pos <= p));
    [|lia|lia].
  intros a Ha. destruct (length t <=? a) eqn:E; [exit_now|].
  apply Nat.leb_gt in E.
  destruct (skip_quoted_or_comment 0 t a) as [p|] eqn:Es.
  { apply skip_quoted_or_comment_gt in Es; [|exact E]. next_now. }
  destruct (Ascii.eqb (at_ t a) "{"); [exit_now|next_now].
Qed.

Definition named (params : list TemplateParameter) : Prop :=
  Forall (fun p => p_name p <> []) params.

Lemma retreat_while_le P s pos : retreat_while P s pos <= pos.
Proof.
  induction pos as [|k IH]; simpl; [lia|]. destruct (P (at_ s k)); lia.
Qed.

Lemma parameter_of_token_named token p :
  parameter_of_token token = Some p -> p_name p <> [].
Proof.
  unfold parameter_of_token. cbv zeta.
  match goal with |- context [match ?c with [] => None | _ => _ end] =>
    destruct c as [|x c']; [discriminate|] end.
  match goal with |- context [retreat_while is_space ?c (length ?c)] =>
    set (cleaned := c) end.
  pose proof (retreat_while_le is_space cleaned (length cleaned)) as He.
  set (end_ := retreat_while is_space cleaned (length cleaned)) in *.
  pose proof (retreat_while_le is_identifier_char cleaned end_) as Hb.
  set (begin := retreat_while is_identifier_char cleaned end_) in *.
  destruct (begin <? end_) eqn:E; [|discriminate].
  apply Nat.ltb_lt in E. intros H. injection H as <-. simpl.
  intros Hn. apply (f_equal (@length ascii)) in Hn.
  rewrite substr_length in Hn by lia. simpl in Hn. lia.
Qed.

Lemma add_parameter_named token result :
  named result -> named (add_parameter token result).
Proof.
  intros Hn. unfold add_parameter. destruct token as [|c token]; [exact Hn|].
  destruct (parameter_of_token (c :: token)) as [p|] eqn:E; [|exact Hn].
  apply Forall_app. split; [exact Hn|]. constructor; [|constructor].
  apply (parameter_of_token_named _ _ E).
Qed.

Lemma split_loop_named params s : forall i depth token_start result,
  named result -> named (split_loop params s i depth token_start result).
Proof.
  induction s as [|c r IH]; intros i depth token_start result Hn; simpl.
  - apply add_parameter_named, Hn.
  - destruct (Ascii.eqb c "<"); [apply IH, Hn|].
    destruct (Ascii.eqb c ">"); [apply IH, Hn|].
    destruct (Ascii.eqb c "," && (depth =? 0)); apply IH; auto using add_parameter_named.
Qed.

Lemma split_template_parameters_named params : named (split_template_parameters params).
Proof. apply split_loop_named. constructor. Qed.

(** [parse_template_definition] returns, and a definition it finds ends
    after the cursor. *)
Lemma parse_template_definition_total t pos :
  exists r, parse_template_definition t pos = Some r /\
    match r with
    | Some d => pos < m_end d /\ named (m_parameters d)
    | None => True
    end.
Proof.
  unfold parse_template_definition. cbv zeta.
  destruct (skip_whitespace_and_comments_total t pos) as (c0 & -> & H0). simpl.
  match goal with |- context [if ?b then Some None else _] => destruct b end;
    [eexists; split; [reflexivity|exact I]|].
  set (c1 := c0 + length _).
  destruct (skip_whitespace_and_comments_total t c1) as (c2 & -> & H2). simpl.
  match goal with |- context [if ?b then Some None else _] => destruct b end;
    [eexists; split; [reflexivity|exact I]|].
  pose proof (advance_while_ge is_identifier_char t c2) as H3.
  set (c3 := advance_while is_identifier_char t c2) in *.
  destruct (skip_whitespace_and_comments_total t c3) as (c4 & -> & H4). simpl.
  match goal with |- context [if ?b then Some None else _] => destruct b end;
    [eexists; split; [reflexivity|exact I]|].
  destruct (scan_balanced_total "<" ">" t (c4 + 1) 1) as (c5 & d5 & -> & H5). simpl.
  match goal with |- context [if ?b then Some None else _] => destruct b end;
    [eexists; split; [reflexivity|exact I]|].
  pose proof (split_template_parameters_named
                (substr t (c4 + 1) (c5 - (c4 + 1)))) as Hnamed.
  destruct (split_template_parameters _) as [|param params];
    [eexists; split; [reflexivity|exact I]|].
  destruct (scan_to_brace_total t (c5 + 1)) as (c6 & -> & H6). simpl.
  match goal with |- context [if ?b then Some None else _] => destruct b end;
    [eexists; split; [reflexivity|exact I]|].
  destruct (scan_balanced_total "{" "}" t (c6 + 1) 1) as (c7 & d7 & -> & H7). simpl.
  match goal with |- context [if ?b then Some None else _] => destruct b end;
    [eexists; split; [reflexivity|exact I]|].
  eexists; split; [reflexivity|]. simpl. split; [|exact Hnamed].
  assert (Hc1 : c0 <= c1) by (unfold c1; lia).
  set (e1 := if (c7 <? length t) && Ascii.eqb (at_ t c7) "}" then c7 + 1 else c7).
  assert (He1 : c7 <= e1) by (unfold e1; destruct (_ && _); lia).
  pose proof (skip_space_run_ge t e1) as He2.
  set (e2 := skip_space_run t e1) in *.
  pose proof (skip_space_run_ge t (e2 + 1)) as He3.
  clearbody e1 e2.
  match goal with |- context [if ?b then _ else _] => destruct b end; lia.
Qed.

Lemma parse_template_arguments_total t lt_pos :
  exists args out_pos, parse_template_arguments t lt_pos = Some (args, out_pos) /\
    (lt_pos < length t -> at_ t lt_pos = "<" -> lt_pos < out_pos).
Proof.
  unfold parse_template_arguments. cbv zeta.
  destruct ((length t <=? lt_pos) || negb (Ascii.eqb (at_ t lt_pos) "<")) eqn:E.
  { exists [], lt_pos. split; [reflexivity|]. intros Hl Hc.
    apply orb_true_iff in E as [E|E].
    - apply Nat.leb_le in E. lia.
    - rewrite Hc in E. discriminate. }
  match goal with |- context [loop ?b0 ?f0 ?a0] =>
    destruct (loop_inv b0 (fun a => length t - fst (fst (fst a)))
                (fun a => lt_pos < fst (fst (fst a))) (fun r => lt_pos < snd r)) 
      with (fuel := f0) (a := a0) as (r & Hr & Hq) end; simpl; try lia.
  - intros [[[p d] ts] res] Ha. simpl in Ha.
    destruct ((length t <=? p) || (d =? 0)) eqn:E1; [exit_now; simpl; lia|].
    apply orb_false_iff in E1 as [E1 _]. apply Nat.leb_gt in E1.
    destruct (skip_quoted_or_comment 0 t p) as [q|] eqn:Es.
    { apply skip_quoted_or_comment_gt in Es; [|exact E1]. next_now; simpl; lia. }
    cbv zeta. destruct (Ascii.eqb (at_ t p) "<"); [next_now; simpl; lia|].
    destruct (Ascii.eqb (at_ t p) ">").
    { destruct (d - 1 =? 0); [exit_now; simpl; lia|next_now; simpl; lia]. }
    destruct (Ascii.eqb (at_ t p) "," && (d =? 1)); next_now; simpl; lia.
  - destruct r as [args out]. exists args, out. split; [exact Hr|]. intros _ _. exact Hq.
Qed.

(** ** Progress of substitution and bracket reduction *)

Lemma prefixb_length a b : prefixb a b = true -> length a <= length b.
Proof.
  revert b. induction a as [|x a IH]; intros b H; simpl; [lia|].
  destruct b as [|y b]; simpl in *; [discriminate|].
  apply andb_true_iff in H as [_ H]. apply IH in H. lia.
Qed.

Lemma find_sub_bound token s k :
  find_sub token s = Some k -> k + length token <= length s.
Proof.
  revert k. induction s as [|c s IH]; intros k; simpl.
  - destruct (prefixb token []) eqn:E; [|discriminate].
    intros H. injection H as <-. apply prefixb_length in E. simpl in *. lia.
  - destruct (prefixb token (c :: s)) eqn:E.
    + intros H. injection H as <-. apply prefixb_length in E. simpl in *. lia.
    + destruct (find_sub token s) as [j|]; [|discriminate].
      intros H. injection H as <-. specialize (IH j eq_refl). simpl. lia.
Qed.

Lemma find_str_bound token t from found :
  find_str token t from = Some found ->
  from <= found /\ found + length token <= length t.
Proof.
  unfold find_str. destruct (length t <? from) eqn:E; [discriminate|].
  apply Nat.ltb_ge in E.
  destruct (find_sub token (skipn from t)) as [k|] eqn:Ek; [|discriminate].
  intros H. injection H as <-. apply find_sub_bound in Ek.
  rewrite length_skipn in Ek. lia.
Qed.

Lemma find_identifier_total t token position :
  token <> [] ->
  exists r, find_identifier t token position = Some r /\
    match r with
    | Some found => position <= found /\ found + length token <= length t
    | None => True
    end.
Proof.
  intros Htok. unfold find_identifier.
  assert (Hlen : 0 < length token) by (destruct token; [congruence|simpl; lia]).
  apply (loop_inv _ (fun p => length t - p) (fun p => position <= p)); [|lia|lia].
  intros a Ha. destruct (find_str token t a) as [found|] eqn:E; [|exit_now].
  apply find_str_bound in E as [E1 E2]. cbv zeta.
  match goal with |- context [if ?b then _ else _] => destruct b end;
    [exit_now|next_now].
Qed.

Lemma replace_length (t : text) pos n r :
  pos + n <= length t -> length (replace t pos n r) = length t - n + length r.
Proof.
  intros H. unfold replace. rewrite !length_app, length_firstn, length_skipn. lia.
Qed.

Lemma replace_identifier_total t param replacement :
  param <> [] -> exists r, replace_identifier t param replacement = Some r.
Proof.
  intros Hp. unfold replace_identifier.
  assert (Hlen : 0 < length param) by (destruct param; [congruence|simpl; lia]).
  destruct (loop_inv
    (fun '(t, pos) =>
       found <- find_identifier t param pos ;;
       match found with
       | None => Some (Exit t)
       | Some pos => Some (Next (replace t pos (length param) replacement,
                                 pos + length replacement))
       end)
    (fun a => length (fst a) - snd a) (fun _ => True) (fun _ : text => True))
    with (fuel := S (length t)) (a := (t, 0)) as (r & Hr & _); simpl; auto; try lia.
  - intros [u pos] _.
    destruct (find_identifier_total u param pos Hp) as (f & -> & Hf). simpl.
    destruct f as [found|]; [|exit_now; exact I].
    next_now; simpl; try exact I. rewrite replace_length by lia. lia.
  - eauto.
Qed.

Lemma replace_each_total params : forall t args,
  named params -> exists r, replace_each t params args = Some r.
Proof.
  induction params as [|p params IH]; intros t args Hn; simpl; [eauto|].
  destruct args as [|a args]; [eauto|].
  inversion Hn as [|? ? Hp Hn']; subst.
  destruct (replace_identifier_total t (p_name p) a Hp) as (t' & ->). simpl.
  apply IH. exact Hn'.
Qed.

Lemma replace_parameters_total t params args :
  named params -> exists r, replace_parameters t params args = Some r.
Proof.
  intros Hn. unfold replace_parameters.
  destruct (negb (length params =? length args)); [eauto|].
  apply replace_each_total. exact Hn.
Qed.

Lemma close_offset_lt s : forall depth k, close_offset s depth = Some k -> k < length s.
Proof.
  induction s as [|ch r IH]; intros depth k; simpl; [discriminate|].
  destruct (Ascii.eqb ch "[").
  { destruct (close_offset r (S depth)) as [j|] eqn:E; [|discriminate].
    intros H. injection H as <-. apply IH in E. lia. }
  destruct (Ascii.eqb ch "]").
  { destruct (depth - 1 =? 0).
    - intros H. injection H as <-. lia.
    - destruct (close_offset r (depth - 1)) as [j|] eqn:E; [|discriminate].
      intros H. injection H as <-. apply IH in E. lia. }
  destruct (close_offset r depth) as [j|] eqn:E; [|discriminate].
  intros H. injection H as <-. apply IH in E. lia.
Qed.

Lemma index_from_lt P s k : index_from P s = Some k -> k < length s.
Proof.
  revert k. induction s as [|c r IH]; intros k; simpl; [discriminate|].
  destruct (P c).
  - intros H. injection H as <-. lia.
  - destruct (index_from P r) as [j|]; [|discriminate].
    intros H. injection H as <-. specialize (IH j eq_refl). lia.
Qed.

Lemma find_char_bound c t from open :
  find_char c t from = Some open -> from <= open /\ open < length t.
Proof.
  unfold find_char. destruct (index_from _ _) as [k|] eqn:E; [|discriminate].
  intros H. injection H as <-. apply index_from_lt in E.
  rewrite length_skipn in E. lia.
Qed.

(** A loop whose trips, when they return, keep an invariant and decrease
    a measure below the bound: when the loop has no result, one of its
    trips had none.  The bound is not the reason. *)
Lemma loop_stops {A R : Type} (body : A -> option (ctl A R)) (measure : A -> nat)
    (Inv : A -> Prop) :
  (forall a a', Inv a -> body a = Some (Next a') -> Inv a' /\ measure a' < measure a) ->
  forall fuel a, Inv a -> measure a < fuel -> loop body fuel a = None ->
    exists a', Inv a' /\ body a' = None.
Proof.
  intros Hbody. induction fuel as [|fuel IH]; intros a Ha Hm; [lia|].
  simpl. destruct (body a) as [[a'|r]|] eqn:E.
  - destruct (Hbody a a' Ha E) as [Ha' Hlt]. intros H. apply (IH a'); [exact Ha'|lia|exact H].
  - discriminate.
  - intros _. exists a. split; [exact Ha|exact E].
Qed.

(** One trip of bracket reduction, when it goes on, brings the cursor
    nearer to the end of the text. *)
Lemma bracket_step_nearer t search_pos t' search_pos' :
  bracket_step (t, search_pos) = Some (Next (t', search_pos')) ->
  length t' - search_pos' < length t - search_pos.
Proof.
  unfold bracket_step.
  destruct (length t <=? search_pos) eqn:E; [discriminate|].
  apply Nat.leb_gt in E.
  destruct (find_char "[" t search_pos) as [open|] eqn:Eo; [|discriminate].
  apply find_char_bound in Eo as [Ho1 Ho2].
  match goal with |- context [if ?b then _ else _] => destruct b end.
  { intros H. injection H as <- <-. lia. }
  destruct (close_offset (skipn (open + 1) t) 1) as [k|] eqn:Ek.
  2:{ intros H. injection H as <- <-. lia. }
  apply close_offset_lt in Ek. rewrite length_skipn in Ek. cbv zeta.
  destruct (is_empty _).
  { intros H. injection H as <- <-. lia. }
  destruct (evaluate_constant_expression _) as [[value|]|]; cbn [bind]; [| |discriminate].
  - intros H. injection H as <- <-.
    rewrite substr_length by lia. rewrite replace_length by lia. lia.
  - intros H. injection H as <- <-. lia.
Qed.

(** Bracket reduction has no result only when the evaluator had none for
    the content of a bracket pair: its bound is never exhausted. *)
Lemma evaluate_bracket_expressions_stops t :
  evaluate_bracket_expressions t = None ->
  exists u open k,
    close_offset (skipn (open + 1) u) 1 = Some k /\
    evaluate_constant_expression (substr u (open + 1) k) = None.
Proof.
  unfold evaluate_bracket_expressions. intros H.
  apply (loop_stops bracket_step (fun a => length (fst a) - snd a) (fun _ => True))
    in H; simpl; auto; try lia.
  2:{ intros [u p] [u' p'] _ E. split; [exact I|]. exact (bracket_step_nearer _ _ _ _ E). }
  destruct H as ([u p] & _ & E). unfold bracket_step in E.
  destruct (length u <=? p); [discriminate|].
  destruct (find_char "[" u p) as [open|]; [|discriminate].
  match type of E with (if ?b then _ else _) = _ => destruct b end; [discriminate|].
  destruct (close_offset (skipn (open + 1) u) 1) as [k|] eqn:Ek; [|discriminate].
  cbv zeta in E. destruct (is_empty _); [discriminate|].
  replace (open + 1 + k - open - 1) with k in E by lia.
  destruct (evaluate_constant_expression (substr u (open + 1) k)) as [[value|]|] eqn:Ev;
    [discriminate|discriminate|].
  exists u, open, k. split; [exact Ek|exact Ev].
Qed.

(** ** Termination of placeholder generation *)

Lemma skip_qualifiers_total result idx :
  exists p, skip_qualifiers result idx = Some p.
Proof.
  unfold skip_qualifiers.
  destruct (loop_inv
    (fun idx =>
       if length result <=? idx then Some (Exit idx)
       else
         let '(idx, advanced) :=
           if qualifier_at result idx (str "const")
           then (advance_while is_space result (idx + 5), true)
           else (idx, false) in
         let '(idx, advanced) :=
           if qualifier_at result idx (str "volatile")
           then (advance_while is_space result (idx + 8), true)
           else (idx, advanced) in
         if advanced then Some (Next idx) else Some (Exit idx))
    (fun a => length result - a) (fun _ => True) (fun _ : nat => True))
    with (fuel := S (length result)) (a := idx) as (r & Hr & _); auto; try lia.
  - intros a _. destruct (length result <=? a) eqn:E; [exit_now; exact I|].
    apply Nat.leb_gt in E.
    pose proof (advance_while_ge is_space result (a + 5)) as H5.
    destruct (qualifier_at result a (str "const")).
    + pose proof (advance_while_ge is_space result
                    (advance_while is_space result (a + 5) + 8)) as H8.
      destruct (qualifier_at result _ (str "volatile")); next_now; auto.
    + pose proof (advance_while_ge is_space result (a + 8)) as H8.
      destruct (qualifier_at result a (str "volatile")); [next_now; auto|exit_now; exact I].
  - eauto.
Qed.

Lemma placeholder_parameter_total result param :
  p_name param <> [] -> exists r, placeholder_parameter result param = Some r.
Proof.
  intros Hp. unfold placeholder_parameter.
  assert (Hlen : 0 < length (p_name param)) by (destruct (p_name param); [congruence|simpl; lia]).
  match goal with |- context [loop ?b0 ?f0 ?a0] =>
    destruct (loop_inv b0 (fun a => length (fst a) - snd a)
                (fun _ => True) (fun _ : text => True))
      with (fuel := f0) (a := a0) as (r & Hr & _) end; simpl; auto; try lia.
  - intros [u sp] _. destruct (length u <=? sp) eqn:E; [exit_now; exact I|].
    destruct (find_identifier_total u (p_name param) sp Hp) as (f & -> & Hf). simpl.
    destruct f as [found|]; [|exit_now; exact I].
    destruct (p_kind param).
    + destruct (skip_qualifiers_total u
                  (advance_while is_space u (found + length (p_name param)))) as (q & ->).
      simpl. eexists; split; [reflexivity|]. simpl. split; [exact I|].
      rewrite replace_length by lia.
      destruct (_ && _); simpl; lia.
    + eexists; split; [reflexivity|]. simpl. split; [exact I|].
      rewrite replace_length by lia. simpl. lia.
  - eauto.
Qed.

Lemma placeholder_each_total params : forall result,
  named params -> exists r, placeholder_each result params = Some r.
Proof.
  induction params as [|p params IH]; intros result Hn; simpl; [eauto|].
  inversion Hn as [|? ? Hp Hn']; subst.
  destruct (placeholder_parameter_total result p Hp) as (r & ->). simpl. auto.
Qed.

(** A specialization is made whenever bracket reduction of its body
    returns. *)
Lemma register_specialization_returns def args prefix current_scope :
  named (m_parameters def) ->
  (forall body, replace_parameters (m_body def) (m_parameters def) args = Some body ->
                evaluate_bracket_expressions body <> None) ->
  exists def' spec,
    register_specialization def args prefix current_scope = Some (def', spec).
Proof.
  intros Hn Hb. unfold register_specialization. cbv zeta.
  destruct (assoc_find _ _); [eauto|].
  destruct (replace_parameters_total (m_between def) (m_parameters def) args Hn) as (b & ->).
  destruct (replace_parameters_total (m_body def) (m_parameters def) args Hn) as (c & Hc).
  rewrite Hc. cbn [bind]. specialize (Hb c Hc).
  destruct (evaluate_bracket_expressions c) as [c'|]; [|congruence].
  destruct (replace_parameters_total (m_closing def) (m_parameters def) args Hn) as (d & ->).
  cbn [bind]. eauto.
Qed.

(** ** Termination of import extraction *)

Lemma identifier_start_char c : is_identifier_start c = true -> is_identifier_char c = true.
Proof.
  unfold is_identifier_start, is_identifier_char, is_alnum. intros H.
  apply orb_true_iff in H as [H|H]; rewrite H; rewrite ?orb_true_r; reflexivity.
Qed.

Lemma extract_imports_total t file_path :
  exists r, extract_imports t file_path = Some r.
Proof.
  unfold extract_imports. cbv zeta.
  match goal with |- context [loop ?b0 ?f0 ?a0] =>
    destruct (loop_inv b0 (fun a => length t - fst a)
                (fun _ => True) (fun _ : list path => True))
      with (fuel := f0) (a := a0) as (r & Hr & _) end; simpl; auto; try lia.
  - intros [p imports] _. destruct (length t <=? p) eqn:E; [exit_now; exact I|].
    apply Nat.leb_gt in E.
    destruct (skip_quoted_or_comment 2 t p) as [q|] eqn:Es.
    { apply skip_quoted_or_comment_gt in Es; [|exact E]. next_now; simpl; auto; lia. }
    destruct (is_identifier_start (at_ t p)) eqn:Ei; simpl; [|next_now; simpl; auto; lia].
    pose proof (advance_while_gt is_identifier_char t p E (identifier_start_char _ Ei)) as Ha.
    set (p1 := advance_while is_identifier_char t p) in *.
    destruct (negb (text_eqb _ _)); [next_now; simpl; auto; lia|].
    destruct (skip_whitespace_and_comments_total t p1) as (p2 & -> & H2). simpl.
    destruct ((length t <=? p2) || negb (Ascii.eqb (at_ t p2) QUOTE));
      [next_now; simpl; auto; lia|].
    eexists; split; [reflexivity|]. split; [exact I|]. simpl.
    match goal with |- context [if ?b then _ + 1 else _] => destruct b end; lia.
  - eauto.
Qed.

(** ** Progress of the file transformer *)

Lemma set_nth_Forall {A : Type} (P : A -> Prop) x : forall n l,
  P x -> Forall P l -> Forall P (set_nth n x l).
Proof.
  intros n l Hx. revert n. induction l as [|y l IH]; intros n Hl; simpl.
  - destruct n; constructor.
  - inversion Hl; subst. destruct n; constructor; auto.
Qed.

Lemma on_definition_pos s def s' : on_definition s def = Some s' -> pos s' = m_end def.
Proof.
  unfold on_definition.
  match goal with |- context [generate_placeholder_definition ?d] =>
    destruct (generate_placeholder_definition d) as [ph|] end; [|discriminate].
  cbn [bind]. intros H. injection H as <-. reflexivity.
Qed.

Lemma on_use_site_pos s token args args_end s' :
  on_use_site s token args args_end = Some (Some s') -> pos s' = args_end.
Proof.
  unfold on_use_site. destruct args as [|a args]; [discriminate|].
  cbv beta iota zeta.
  destruct (resolve _ _ _ _) as [i|]; [|discriminate].
  destruct (nth_error (definitions s) i) as [def|]; [|discriminate].
  destruct (register_specialization _ _ _ _) as [[def' spec]|]; [|discriminate].
  cbn [bind]. intros H. injection H as <-. reflexivity.
Qed.

Lemma type_char_at t p :
  p < length t -> is_type_char (at_ t p) = true ->
  p < advance_while is_type_char t p.
Proof. intros. apply advance_while_gt; assumption. Qed.

Lemma on_token_advances t s s' :
  pos s < length t -> is_type_char (at_ t (pos s)) = true ->
  on_token t s = Some s' -> pos s < pos s'.
Proof.
  intros Hp Hc. unfold on_token. cbv zeta.
  pose proof (type_char_at t (pos s) Hp Hc) as Ha.
  set (p := advance_while is_type_char t (pos s)) in *.
  match goal with |- context [if ?b then Some (mkState _ _ _ _ _ _ _ _) else _] =>
    destruct b end.
  { intros H. injection H as <-. exact Ha. }
  destruct (skip_whitespace_and_comments_total t p) as (la & -> & Hla). cbn [bind].
  destruct ((la <? length t) && Ascii.eqb (at_ t la) "<") eqn:E.
  - apply andb_true_iff in E as [E1 E2]. apply Nat.ltb_lt in E1. apply Ascii.eqb_eq in E2.
    destruct (parse_template_arguments_total t la) as (args & args_end & -> & Hargs).
    specialize (Hargs E1 E2). cbn [bind].
    destruct (on_use_site _ _ args args_end) as [[s1|]|] eqn:Eu; cbn [bind];
      [| |discriminate].
    + intros H. injection H as <-. rewrite (on_use_site_pos _ _ _ _ _ Eu). lia.
    + intros H. injection H as <-. simpl. lia.
  - intros H. injection H as <-. exact Ha.
Qed.

Lemma on_other_advances t s s' :
  pos s < length t -> on_other t s = Some s' -> pos s < pos s'.
Proof.
  intros Hp. unfold on_other. cbv zeta.
  destruct (Ascii.eqb (at_ t (pos s)) "{").
  { intros H. injection H as <-. unfold on_open_brace. cbv zeta.
    destruct (m_expect_brace _); simpl; lia. }
  destruct (Ascii.eqb (at_ t (pos s)) "}").
  { intros H. injection H as <-. simpl. lia. }
  destruct (Ascii.eqb (at_ t (pos s)) ";").
  { intros H. injection H as <-. simpl. lia. }
  destruct (is_space (at_ t (pos s))).
  { intros H. injection H as <-. simpl. lia. }
  destruct (is_type_char (at_ t (pos s))) eqn:E.
  { apply on_token_advances; assumption. }
  intros H. injection H as <-. simpl. lia.
Qed.

(** Every trip through the main loop that returns moves the cursor
    forward. *)
Lemma process_step_advances t s s' :
  pos s < length t -> process_step t s = Some s' -> pos s < pos s'.
Proof.
  intros Hp. unfold process_step. cbv zeta.
  destruct (skip_quoted_or_comment 2 t (pos s)) as [p|] eqn:Eq.
  { apply skip_quoted_or_comment_gt in Eq; [|exact Hp].
    intros H. injection H as <-. exact Eq. }
  destruct (is_alpha (at_ t (pos s)) || Ascii.eqb (at_ t (pos s)) "_");
    [|apply on_other_advances; exact Hp].
  destruct (parse_template_definition_total t (pos s)) as (r & -> & Hr). cbn [bind].
  destruct r as [def|]; [|apply on_other_advances; exact Hp].
  destruct Hr as [Hend _]. intros H. rewrite (on_definition_pos _ _ _ H). exact Hend.
Qed.

(** The bound of the main loop is never exhausted: when the loop has no
    result, a trip from a state of the run had none. *)
Lemma process_loop_stops t (Inv : State -> Prop) s :
  (forall a a', Inv a -> pos a < length t -> process_step t a = Some a' -> Inv a') ->
  Inv s -> process_loop t (S (length t)) s = None ->
  exists a, Inv a /\ pos a < length t /\ process_step t a = None.
Proof.
  intros Hstep Hs H. unfold process_loop in H.
  apply (loop_stops _ (fun s => length t - pos s) Inv) in H; [|..|exact Hs|lia].
  - destruct H as (a & Ha & E). exists a. split; [exact Ha|].
    destruct (length t <=? pos a) eqn:El; [discriminate|].
    apply Nat.leb_gt in El. split; [exact El|].
    destruct (process_step t a); [discriminate|reflexivity].
  - intros a a' Ha E. destruct (length t <=? pos a) eqn:El; [discriminate|].
    apply Nat.leb_gt in El.
    destruct (process_step t a) as [a1|] eqn:Ea; [|discriminate].
    injection E as <-. split; [exact (Hstep a a1 Ha El Ea)|].
    pose proof (process_step_advances t a a1 El Ea). lia.
Qed.

(** * The claims *)

(** ** Progress of the file transformer *)

(** The states of a run of the main loop on [t]. *)
Inductive reachable (t : text) : State -> Prop :=
| reach_initial : reachable t initial_state
| reach_step s s' :
    reachable t s -> pos s < length t -> process_step t s = Some s' ->
    reachable t s'.

(** The bound of the main loop is never exhausted: when the transformer
    has no result, a trip through the main loop, from a state of the run
    and with the cursor inside the text, had none. *)
Lemma transformer_stops (file_path : path) (t : text) :
  process_file_content file_path t = None ->
  exists s, reachable t s /\ pos s < length t /\ process_step t s = None.
Proof.
  unfold process_file_content. intros H.
  destruct (process_loop t (S (length t)) initial_state) as [s|] eqn:E.
  - cbn [bind] in H. destruct (extract_imports_total (output s) file_path) as (i & Hi).
    rewrite Hi in H. discriminate.
  - apply (process_loop_stops t (reachable t)) in E; [exact E| |constructor].
    intros a a' Ha Hp Hs. exact (reach_step t a a' Ha Hp Hs).
Qed.

(** A definition whose body holds the quotient of [INT64_MIN] by [-1]. *)
Definition overflowing_division : text := str "(0-9223372036854775807-1)/-1".

Definition overflowing_definition : text :=
  str "struct A<typename T> { char x[(0-9223372036854775807-1)/-1]; };".

(** C10.  The transformer does not return on a definition whose body has
    [[(0-9223372036854775807-1)/-1]]: the left operand evaluates to
    [INT64_MIN], the divisor is not zero, and the division that follows
    stops the process (the parser went through the expression: its bound
    was not exhausted).  The placeholder is never written and neither the
    first trip of the main loop nor [process_file_content] has a
    result. *)
Theorem transformer_stopped_by_division :
  evaluate_constant_expression (str "0-9223372036854775807-1") = Some (Some INT64_MIN) /\
  CEP.overflows INT64_MIN (-1) = true /\
  (exists v q,
     CEP.parse_bitwise_or (S (length overflowing_division))
       (CEP.mk overflowing_division true false) = Some (v, q) /\
     CEP.stopped q = true) /\
  evaluate_constant_expression overflowing_division = None /\
  process_step overflowing_definition initial_state = None /\
  process_file_content [] overflowing_definition = None.
Proof.
  split; [vm_compute; reflexivity|]. split; [reflexivity|].
  split; [eexists _, _; split; vm_compute; reflexivity|].
  repeat split; vm_compute; reflexivity.
Qed.

Definition unterminated_string : text := str "x = " ++ QUOTE :: str "abc".
Definition unterminated_comment : text := str "x /* abc".
Definition trailing_backslash : text := str "x = " ++ QUOTE :: str "abc" ++ [BACKSLASH].

(** The three inputs that end inside a literal or a comment are copied
    through. *)
Example transformer_on_open_ends :
  option_map m_processed_content (process_file_content [] unterminated_string)
    = Some unterminated_string /\
  option_map m_processed_content (process_file_content [] unterminated_comment)
    = Some unterminated_comment /\
  option_map m_processed_content (process_file_content [] trailing_backslash)
    = Some trailing_backslash.
Proof. vm_compute. repeat split. Qed.

(** ** Scenario S1 *)

Definition scenario_S1 : text :=
  str "template<typename T> struct Box { T value; };
Box<int> b; Box<int> c;".

(** The same declarations in the syntax the definition parser accepts:
    the keyword, the name, then the parameter list. *)
Definition scenario_S1_regenny : text :=
  str "struct Box<typename T> { T value; };
Box<int> b; Box<int> c;".

Definition scenario_S1_output : text :=
  str "struct Box { void* value; };

struct Box_int { int value; };
Box_int b; Box_int c;".

(** All the positions at which [token] occurs in [s]. *)
Fixpoint occurrences_from (token s : text) (i : nat) : list nat :=
  match s with
  | [] => []
  | _ :: r =>
      (if prefixb token s then [i] else []) ++ occurrences_from token r (S i)
  end.

Definition occurrences (token s : text) : list nat := occurrences_from token s 0.

(** On the text of scenario S1 as the specification writes it, nothing is
    recognized: [template] is not a keyword of the definition parser,
    [struct Box] is not followed by a parameter list, and [Box<int>]
    resolves to no definition.  The output is the input, and it has no
    [Box_int]. *)
Lemma scenario_S1_unchanged :
  process_file_content [] scenario_S1
    = Some {| m_processed_content := scenario_S1;
              m_had_templates := false;
              m_imports := [] |} /\
  occurrences (str "Box_int") scenario_S1 = [].
Proof. vm_compute. split; reflexivity. Qed.

(** C1 (amended).  With the definition written [struct Box<typename T>],
    the output is the placeholder with [value] retyped as [void*], one
    declaration of [Box_int] before the first use, and the two uses
    rewritten. *)
Theorem scenario_S1_regenny_output :
  process_file_content [] scenario_S1_regenny
    = Some {| m_processed_content := scenario_S1_output;
              m_had_templates := true;
              m_imports := [] |} /\
  occurrences (str "struct Box { void* value; };") scenario_S1_output = [0] /\
  occurrences (str "struct Box_int { int value; };") scenario_S1_output = [30] /\
  occurrences (str "Box_int b; Box_int c;") scenario_S1_output = [61] /\
  occurrences (str "<") scenario_S1_output = [].
Proof. vm_compute. repeat split. Qed.

(** ** The constant-expression evaluator *)

Definition too_large_literal : Grammar.expr :=
  Grammar.ELit [] (Grammar.mkLit None (str "9223372036854775808") []).

Definition division_by_zero : Grammar.expr :=
  Grammar.EBin Grammar.BDiv
    (Grammar.ELit [] (Grammar.mkLit None (str "1") [])) []
    (Grammar.ELit [] (Grammar.mkLit None (str "0") [])).

(** The literal [2^63] is an expression of the grammar whose value modulo
    [2^64], read as a signed number, is [-2^63]; the evaluator returns
    nothing for it, because [std::stoll] throws.  So does it for [1/0]. *)
Lemma evaluator_rejects_large_literal :
  Grammar.wf too_large_literal = true /\
  Grammar.print too_large_literal = str "9223372036854775808" /\
  wrap64 (Grammar.literal_value (Grammar.mkLit None (str "9223372036854775808") []))
    = INT64_MIN /\
  evaluate_constant_expression (Grammar.print too_large_literal) = Some None /\
  Grammar.wf division_by_zero = true /\
  evaluate_constant_expression (Grammar.print division_by_zero) = Some None.
Proof. vm_compute. repeat split. Qed.

(** C2 (amended).  For every expression of the grammar, with any white
    space before its tokens and after it, whose literals are at most
    [2^63 - 1], whose divisors are not zero, whose shift counts are within
    [0, 63] (and which does not divide [INT64_MIN] by [-1]), the evaluator
    returns the value of the expression in 64-bit two's-complement
    arithmetic. *)
Theorem evaluator_correct (e : Grammar.expr) (ws : text) (v : Z) :
  Grammar.wf e = true -> forallb is_space ws = true ->
  Grammar.denote e = Some v ->
  evaluate_constant_expression (Grammar.print e ++ ws) = Some (Some v).
Proof. apply GrammarFacts.evaluate_print. Qed.

Definition sample_expression : Grammar.expr :=
  Grammar.EBin Grammar.BAdd
    (Grammar.ELit [] (Grammar.mkLit None (str "1") []))
    (str " ")
    (Grammar.EBin Grammar.BMul
       (Grammar.ELit (str " ") (Grammar.mkLit (Some "x") (str "1f") (str "uL")))
       []
       (Grammar.EParen []
          (Grammar.EUn [] Grammar.UNeg (Grammar.ELit [] (Grammar.mkLit None (str "3") [])))
          (str " "))).

Lemma evaluator_correct_witness :
  Grammar.print sample_expression = str "1 + 0x1fuL*(-3 )" /\
  evaluate_constant_expression (Grammar.print sample_expression ++ str " ")
    = Some (Some (-92)%Z).
Proof.
  split; [reflexivity|].
  apply (evaluator_correct sample_expression (str " ") (-92)%Z); reflexivity.
Defined.

(** ** The specialization cache on a wrong number of arguments *)

Definition signature_of (def : TemplateDefinition) (args : list text)
    (prefix current_scope : text) : text :=
  scope_hint_of def prefix current_scope ++ str "|" ++ make_signature args.

Lemma text_eqb_refl a : text_eqb a a = true.
Proof. unfold text_eqb. destruct (list_eq_dec ascii_dec a a); congruence. Qed.

Lemma text_eqb_eq a b : text_eqb a b = true <-> a = b.
Proof. unfold text_eqb. destruct (list_eq_dec ascii_dec a b); split; congruence. Qed.

Lemma assoc_find_app_new {V : Type} k (v : V) m :
  assoc_find k m = None -> assoc_find k (m ++ [(k, v)]) = Some v.
Proof.
  induction m as [|[k' v'] m IH]; simpl.
  - intros _. rewrite text_eqb_refl. reflexivity.
  - destruct (text_eqb k k'); [discriminate|exact IH].
Qed.

Lemma nth_middle_default {A : Type} (l : list A) x d : nth (length l) (l ++ [x]) d = x.
Proof. rewrite app_nth2 by lia. rewrite Nat.sub_diag. reflexivity. Qed.

Definition box_definition : TemplateDefinition :=
  {| m_keyword := str "struct";
     m_name := str "Box";
     m_parameters := [mkParam (str "T") Type_];
     m_between := str " ";
     m_body := str " T value; char pad[2 * 4]; ";
     m_closing := str "};";
     m_indentation := [];
     m_scope_path := [];
     m_start := 0;
     m_end := 50;
     m_placeholder_generated := true;
     m_specializations := [];
     m_specialization_index := [] |}.

(** ** The sanitizer *)

Module Sanitizer.

(** What the sanitizer makes of one character of the token. *)
Inductive piece :=
| Keep (c : ascii)      (* passes through *)
| Word (w : text)       (* replaced by a word *)
| Sep                   (* a separator *)
| Dot.                  (* the character [.] *)

Definition classify (c : ascii) : piece :=
  if is_alnum c || Ascii.eqb c "_" then Keep c
  else if Ascii.eqb c "*" then Word (str "ptr")
  else if Ascii.eqb c "&" then Word (str "ref")
  else if Ascii.eqb c "[" || Ascii.eqb c "]" then Word (str "arr")
  else if Ascii.eqb c "<" then Word (str "lt")
  else if Ascii.eqb c ">" then Word (str "gt")
  else if Ascii.eqb c "." then Dot
  else Sep.

(** The reading of the specification: [.] is punctuation like any other. *)
Definition classify_claimed (c : ascii) : piece :=
  match classify c with
  | Dot => Sep
  | p => p
  end.

(** A separator is one [_], and none at the start or after a [_]. *)
Definition sep (at_sep : bool) : text := if at_sep then [] else ["_"].

(** The pieces in order.  [at_sep] holds at the start of the result and
    after a [_]; a word and a dot stand between two separators. *)
Fixpoint render (at_sep : bool) (ps : list piece) : text :=
  match ps with
  | [] => []
  | Keep c :: r => c :: render (Ascii.eqb c "_") r
  | Word w :: r => sep at_sep ++ w ++ "_" :: render true r
  | Sep :: r => sep at_sep ++ render true r
  | Dot :: r => sep at_sep ++ "." :: "_" :: render true r
  end.

(** The end of the sanitizer: a leading [_] is stripped, a leading digit
    gets a [_] before it, the empty result becomes [T]; every dot then
    becomes [_]. *)
Definition finish (result : text) : text :=
  let result := if front_is "_" result then tl result else result in
  let result :=
    match result with
    | c :: _ => if is_digit c then "_" :: result else result
    | [] => result
    end in
  let result := if is_empty result then str "T" else result in
  map (fun c => if Ascii.eqb c "." then "_" else c) result.

Definition sanitize_spec (token : text) : text :=
  finish (render true (map classify token)).

Definition sanitize_claimed (token : text) : text :=
  finish (render true (map classify_claimed token)).

Definition at_sep_of (result : text) : bool := is_empty result || back_is "_" result.

Lemma back_is_snoc c result x : back_is c (result ++ [x]) = Ascii.eqb x c.
Proof. unfold back_is. rewrite rev_app_distr. reflexivity. Qed.

Lemma is_empty_snoc (result : text) x : is_empty (result ++ [x]) = false.
Proof. destruct result; reflexivity. Qed.

Lemma at_sep_of_snoc result x : at_sep_of (result ++ [x]) = Ascii.eqb x "_".
Proof. unfold at_sep_of. rewrite is_empty_snoc, back_is_snoc. reflexivity. Qed.

Lemma push_sep_spec result : push_sep result = result ++ sep (at_sep_of result).
Proof.
  unfold push_sep, sep, at_sep_of.
  destruct (is_empty result); simpl; [rewrite app_nil_r; reflexivity|].
  destruct (back_is "_" result); simpl; [rewrite app_nil_r|]; reflexivity.
Qed.

Lemma at_sep_of_push result : at_sep_of (push_sep result) = true.
Proof.
  rewrite push_sep_spec. unfold sep.
  destruct (at_sep_of result) eqn:E; [rewrite app_nil_r; exact E|].
  apply at_sep_of_snoc.
Qed.

(** A word between two separators. *)
Lemma push_word result w :
  w <> [] -> back_is "_" w = false ->
  push_sep (push_sep result ++ w) = result ++ sep (at_sep_of result) ++ w ++ ["_"] /\
  at_sep_of (push_sep (push_sep result ++ w)) = true.
Proof.
  intros Hw Hb. split; [|apply at_sep_of_push].
  rewrite (push_sep_spec (push_sep result ++ w)).
  assert (E : at_sep_of (push_sep result ++ w) = false).
  { unfold at_sep_of.
    destruct (exists_last Hw) as (w' & x & ->).
    rewrite app_assoc, is_empty_snoc, back_is_snoc.
    rewrite back_is_snoc in Hb. exact Hb. }
  rewrite E. simpl. rewrite push_sep_spec. rewrite <- !app_assoc. reflexivity.
Qed.

(** The loop of the sanitizer, from any buffer, appends the rendering of
    the rest of the token. *)
Lemma fold_sanitize_char token : forall result,
  fold_left sanitize_char token result
    = result ++ render (at_sep_of result) (map classify token).
Proof.
  induction token as [|c token IH]; intros result; simpl; [rewrite app_nil_r; reflexivity|].
  rewrite IH. unfold sanitize_char, classify.
  destruct (is_alnum c || Ascii.eqb c "_").
  { simpl. rewrite at_sep_of_snoc, <- app_assoc. reflexivity. }
  assert (W : forall w, w <> [] -> back_is "_" w = false ->
            push_sep (push_sep result ++ w)
              ++ render (at_sep_of (push_sep (push_sep result ++ w))) (map classify token)
            = result ++ render (at_sep_of result) (Word w :: map classify token)).
  { intros w Hw Hb. destruct (push_word result w Hw Hb) as [-> ->].
    simpl. rewrite <- !app_assoc. reflexivity. }
  assert (S : push_sep result ++ render (at_sep_of (push_sep result)) (map classify token)
              = result ++ render (at_sep_of result) (Sep :: map classify token)).
  { rewrite at_sep_of_push, push_sep_spec. simpl. rewrite <- app_assoc. reflexivity. }
  destruct (Ascii.eqb c "*"); [apply W; [discriminate|reflexivity]|].
  destruct (Ascii.eqb c "&"); [apply W; [discriminate|reflexivity]|].
  destruct (Ascii.eqb c "[" || Ascii.eqb c "]"); [apply W; [discriminate|reflexivity]|].
  destruct (Ascii.eqb c ":") eqn:Ecolon.
  { apply Ascii.eqb_eq in Ecolon. subst c. exact S. }
  destruct (Ascii.eqb c "<"); [apply W; [discriminate|reflexivity]|].
  destruct (Ascii.eqb c ">"); [apply W; [discriminate|reflexivity]|].
  destruct (Ascii.eqb c ",") eqn:Ecomma.
  { apply Ascii.eqb_eq in Ecomma. subst c. exact S. }
  destruct (Ascii.eqb c ".").
  { destruct (push_word result ["."] ltac:(discriminate) eq_refl) as [-> ->].
    simpl. rewrite <- !app_assoc. reflexivity. }
  destruct (is_space c); exact S.
Qed.

End Sanitizer.

(** On [a.b] the sanitizer gives [a___b]: the dot is not collapsed into
    one separator, as it would be were it punctuation like any other. *)
Lemma sanitizer_dot_not_collapsed :
  sanitize_token (str "a.b") = str "a___b" /\
  Sanitizer.sanitize_claimed (str "a.b") = str "a_b".
Proof. vm_compute. split; reflexivity. Qed.

(** C3 (amended).  The sanitizer is the rendering of the pieces of the
    token: letters, digits and [_] pass through; [*], [&], brackets, [<]
    and [>] become [ptr], [ref], [arr], [lt] and [gt] between separators;
    [:], [,], white space and any other punctuation but [.] collapse into
    one [_] separator; [.] becomes a [_] of its own between separators.
    Then one leading [_] that does not stand for a dot is stripped, a
    leading digit gets a [_] before it, and the empty result becomes [T]. *)
Theorem sanitize_token_spec (token : text) :
  sanitize_token token = Sanitizer.sanitize_spec token.
Proof.
  unfold sanitize_token, Sanitizer.sanitize_spec, Sanitizer.finish.
  rewrite Sanitizer.fold_sanitize_char. reflexivity.
Qed.

(** ** Names of specializations *)

Definition parsed_box : TemplateDefinition :=
  {| m_keyword := str "struct";
     m_name := str "Box";
     m_parameters := [mkParam (str "T") Type_];
     m_between := str " ";
     m_body := str " T value; ";
     m_closing := str "};";
     m_indentation := [];
     m_scope_path := [];
     m_start := 0;
     m_end := 36;
     m_placeholder_generated := true;
     m_specializations := [];
     m_specialization_index := [] |}.

(** [int*] and [int *] are two argument tuples with two cache entries
    and one sanitized name.  So are [a_b] and the pair [a], [b]; so are
    an empty argument and [T]; and once an empty argument was
    registered, so are no argument at all and [T]. *)
Lemma sanitized_names_collide :
  parse_template_definition (str "struct Box<typename T> { T value; };") 0
    = Some (Some (mkDef (str "struct") (str "Box") [mkParam (str "T") Type_] (str " ")
                    (str " T value; ") (str "};") [] [] 0 36 false [] [])) /\
  trim (str "int*") = str "int*" /\ trim (str "int *") = str "int *" /\
  [str "int*"] <> [str "int *"] /\
  exists def1 spec1 def2 spec2,
    register_specialization parsed_box [str "int*"] [] [] = Some (def1, spec1) /\
    register_specialization def1 [str "int *"] [] [] = Some (def2, spec2) /\
    length (m_specializations def2) = 2 /\
    s_sanitized_name spec1 = str "Box_int_ptr_" /\
    s_sanitized_name spec2 = str "Box_int_ptr_" /\
    exists def3 spec3 def4 spec4,
      register_specialization def2 [str "a_b"] [] [] = Some (def3, spec3) /\
      register_specialization def3 [str "a"; str "b"] [] [] = Some (def4, spec4) /\
      s_sanitized_name spec3 = str "Box_a_b" /\
      s_sanitized_name spec4 = str "Box_a_b" /\
      exists def5 spec5 def6 spec6 def7 spec7,
        register_specialization def4 [[]] [] [] = Some (def5, spec5) /\
        register_specialization def5 [] [] [] = Some (def6, spec6) /\
        register_specialization def6 [str "T"] [] [] = Some (def7, spec7) /\
        s_sanitized_name spec5 = str "Box_T" /\
        s_sanitized_name spec6 = str "Box_T" /\
        s_sanitized_name spec7 = str "Box_T" /\
        length (m_specializations def7) = 6.
Proof.
  split; [vm_compute; reflexivity|].
  split; [reflexivity|]. split; [reflexivity|]. split; [discriminate|].
  eexists _, _, _, _. split; [vm_compute; reflexivity|].
  split; [vm_compute; reflexivity|]. split; [reflexivity|].
  split; [reflexivity|]. split; [reflexivity|].
  eexists _, _, _, _. split; [vm_compute; reflexivity|].
  split; [vm_compute; reflexivity|]. split; [reflexivity|]. split; [reflexivity|].
  eexists _, _, _, _, _, _. split; [vm_compute; reflexivity|].
  split; [vm_compute; reflexivity|]. split; [vm_compute; reflexivity|].
  repeat split.
Qed.

Module Names.

(** An argument made of letters and digits only. *)
Definition plain (a : text) : Prop := a <> [] /\ forallb is_alnum a = true.

Lemma alnum_not_underscore c : is_alnum c = true -> Ascii.eqb c "_" = false.
Proof. char_fact (fun c => implb (is_alnum c) (negb (Ascii.eqb c "_"))) c. Qed.

Lemma alnum_not_dot c : is_alnum c = true -> Ascii.eqb c "." = false.
Proof. char_fact (fun c => implb (is_alnum c) (negb (Ascii.eqb c "."))) c. Qed.

Lemma alnum_not_sep c : is_alnum c = true -> Ascii.eqb c SEP = false.
Proof. char_fact (fun c => implb (is_alnum c) (negb (Ascii.eqb c SEP))) c. Qed.

Lemma digit_alnum c : is_digit c = true -> is_alnum c = true.
Proof. char_fact (fun c => implb (is_digit c) (is_alnum c)) c. Qed.

Lemma fold_plain a : forall result,
  forallb is_alnum a = true -> fold_left sanitize_char a result = result ++ a.
Proof.
  induction a as [|c a IH]; intros result H; simpl; [rewrite app_nil_r; reflexivity|].
  simpl in H. apply andb_true_iff in H as [Hc Ha].
  rewrite IH by exact Ha. unfold sanitize_char. rewrite Hc. simpl.
  rewrite <- app_assoc. reflexivity.
Qed.

Lemma map_dot_plain a :
  forallb is_alnum a = true ->
  map (fun c => if Ascii.eqb c "." then "_" else c) a = a.
Proof.
  induction a as [|c a IH]; simpl; intros H; [reflexivity|].
  apply andb_true_iff in H as [Hc Ha]. rewrite (alnum_not_dot c Hc), IH by exact Ha.
  reflexivity.
Qed.

(** A plain argument is its own sanitized form, after a [_] when it
    starts with a digit. *)
Lemma sanitize_plain a :
  plain a ->
  sanitize_token a = (if is_digit (hd zero a) then ["_"] else []) ++ a.
Proof.
  intros [Hne Ha]. unfold sanitize_token. rewrite fold_plain by exact Ha.
  destruct a as [|c a]; [congruence|]. simpl app.
  simpl in Ha. apply andb_true_iff in Ha as [Hc Ha].
  unfold front_is. rewrite (alnum_not_underscore c Hc). simpl hd.
  destruct (is_digit c); simpl is_empty; cbv iota.
  - simpl. rewrite (alnum_not_dot c Hc), map_dot_plain by exact Ha. reflexivity.
  - simpl. rewrite (alnum_not_dot c Hc), map_dot_plain by exact Ha. reflexivity.
Qed.

(** The part of the name made from the arguments. *)
Definition suffix (args : list text) : text :=
  concat (map (fun a => "_" :: sanitize_token a) args).

Lemma fold_name args : forall name,
  fold_left (fun name arg => name ++ str "_" ++ sanitize_token arg) args name
    = name ++ suffix args.
Proof.
  induction args as [|a args IH]; intros name; simpl; [rewrite app_nil_r; reflexivity|].
  rewrite IH. unfold suffix. simpl. rewrite <- !app_assoc. reflexivity.
Qed.

(** Two runs of letters and digits, each followed by the end or by
    something else, are equal when the texts are. *)
Lemma run_unique a1 : forall a2 t1 t2,
  forallb is_alnum a1 = true -> forallb is_alnum a2 = true ->
  GrammarFacts.hd_fails is_alnum t1 -> GrammarFacts.hd_fails is_alnum t2 ->
  a1 ++ t1 = a2 ++ t2 -> a1 = a2 /\ t1 = t2.
Proof.
  induction a1 as [|c a1 IH]; intros a2 t1 t2 H1 H2 F1 F2 E.
  - destruct a2 as [|d a2]; [auto|].
    simpl in *. subst t1. simpl in F1. apply andb_true_iff in H2 as [Hd _]. congruence.
  - destruct a2 as [|d a2].
    + simpl in *. subst t2. simpl in F2. apply andb_true_iff in H1 as [Hc _]. congruence.
    + simpl in *. injection E as -> E.
      apply andb_true_iff in H1 as [_ H1]. apply andb_true_iff in H2 as [_ H2].
      destruct (IH a2 t1 t2 H1 H2 F1 F2 E) as [-> ->]. auto.
Qed.

Lemma suffix_fails args : GrammarFacts.hd_fails is_alnum (suffix args).
Proof. destruct args; simpl; reflexivity. Qed.

Lemma suffix_injective args1 : forall args2,
  Forall plain args1 -> Forall plain args2 ->
  suffix args1 = suffix args2 -> args1 = args2.
Proof.
  induction args1 as [|a1 args1 IH]; intros args2 H1 H2 E.
  - destruct args2; [reflexivity|discriminate].
  - destruct args2 as [|a2 args2]; [discriminate|].
    inversion H1 as [|? ? P1 H1']; subst. inversion H2 as [|? ? P2 H2']; subst.
    unfold suffix in E. simpl in E. fold (suffix args1) in E. fold (suffix args2) in E.
    injection E as E.
    rewrite (sanitize_plain a1 P1), (sanitize_plain a2 P2) in E.
    destruct P1 as [N1 A1]. destruct P2 as [N2 A2].
    destruct a1 as [|c1 a1]; [congruence|]. destruct a2 as [|c2 a2]; [congruence|].
    simpl hd in E.
    assert (C1 : is_alnum c1 = true) by (simpl in A1; apply andb_true_iff in A1; tauto).
    assert (C2 : is_alnum c2 = true) by (simpl in A2; apply andb_true_iff in A2; tauto).
    assert (R : c1 :: a1 = c2 :: a2 /\ suffix args1 = suffix args2).
    { destruct (is_digit c1), (is_digit c2); simpl in E.
      - assert (E' : (c1 :: a1) ++ suffix args1 = (c2 :: a2) ++ suffix args2)
          by (simpl; congruence).
        apply (run_unique (c1 :: a1) (c2 :: a2)); auto using suffix_fails.
      - injection E as E1 _. subst c2. discriminate.
      - injection E as E1 _. subst c1. discriminate.
      - apply (run_unique (c1 :: a1) (c2 :: a2)); auto using suffix_fails. }
    destruct R as [-> R]. f_equal. apply IH; assumption.
Qed.

Lemma make_signature_plain args1 : forall args2,
  Forall plain args1 -> Forall plain args2 ->
  make_signature args1 = make_signature args2 -> args1 = args2.
Proof.
  assert (Hsep : forall rest : list text,
            GrammarFacts.hd_fails is_alnum
              (match rest with [] => [] | _ => SEP :: make_signature rest end)).
  { intros [|? ?]; reflexivity. }
  assert (Hform : forall a rest,
            make_signature (a :: rest)
            = a ++ match rest with [] => [] | _ => SEP :: make_signature rest end).
  { intros a [|b rest]; simpl; [rewrite app_nil_r|]; reflexivity. }
  induction args1 as [|a1 args1 IH]; intros args2 H1 H2 E.
  - destruct args2 as [|a2 args2]; [reflexivity|].
    inversion H2 as [|? ? [N2 _] _]; subst. rewrite Hform in E.
    destruct a2; [congruence|discriminate].
  - inversion H1 as [|? ? [N1 A1] H1']; subst.
    destruct args2 as [|a2 args2].
    + rewrite Hform in E. destruct a1; [congruence|discriminate].
    + inversion H2 as [|? ? [N2 A2] H2']; subst.
      rewrite !Hform in E.
      apply run_unique in E as [-> E]; auto.
      f_equal. destruct args1 as [|b1 args1], args2 as [|b2 args2];
        try reflexivity; try discriminate.
      injection E as E. apply IH; assumption.
Qed.

End Names.


(** ** Bracket reduction *)

Module Brackets.

(** The bracket at [open] is closed [k] characters after the next one. *)
Definition pair_at (t : text) (open k : nat) : Prop :=
  open < length t /\ at_ t open = "[" /\ close_offset (skipn (open + 1) t) 1 = Some k.

(** Neither neighbour of the bracket at [open] is an opening bracket. *)
Definition lone (t : text) (open : nat) : bool :=
  negb (((0 <? open) && Ascii.eqb (at_ t (open - 1)) "[")
        || ((open + 1 <? length t) && Ascii.eqb (at_ t (open + 1)) "[")).

Definition inner (t : text) (open k : nat) : text := substr t (open + 1) k.

(** One rewriting: the inner text of a pair with a lone opening bracket,
    which evaluates to [v] as a whole, is replaced by the decimal form of
    [v]. *)
Inductive reduces : text -> text -> Prop :=
| reduces_pair t open k v :
    pair_at t open k -> lone t open = true ->
    evaluate_constant_expression (inner t open k) = Some (Some v) ->
    reduces t (replace t (open + 1) k (to_string v)).

(** Any number of rewritings. *)
Inductive reduces_star : text -> text -> Prop :=
| reduces_refl t : reduces_star t t
| reduces_then t u v : reduces t u -> reduces_star u v -> reduces_star t v.

Lemma index_from_spec P s k d : index_from P s = Some k -> P (nth k s d) = true.
Proof.
  revert k. induction s as [|c r IH]; intros k; simpl; [discriminate|].
  destruct (P c) eqn:E.
  - intros H. injection H as <-. exact E.
  - destruct (index_from P r) as [j|]; [|discriminate].
    intros H. injection H as <-. apply IH. reflexivity.
Qed.

Lemma nth_skipn_at (t : text) from k : nth k (skipn from t) zero = at_ t (from + k).
Proof.
  unfold at_. revert t. induction from as [|from IH]; intros t; [reflexivity|].
  destruct t as [|c t]; simpl; [destruct k; reflexivity|]. apply IH.
Qed.

Lemma find_char_at c t from open : find_char c t from = Some open -> at_ t open = c.
Proof.
  unfold find_char. destruct (index_from _ _) as [k|] eqn:E; [|discriminate].
  intros H. injection H as <-. apply (index_from_spec _ _ _ zero) in E.
  rewrite nth_skipn_at in E. apply Ascii.eqb_eq in E. auto.
Qed.

(** What one trip through the loop does. *)
Inductive trip (t : text) (search_pos : nat) : ctl (text * nat) text -> Prop :=
| trip_end : trip t search_pos (Exit t)
| trip_skip open :
    search_pos <= open -> open < length t -> lone t open = false ->
    trip t search_pos (Next (t, open + 1))
| trip_unmatched open :
    search_pos <= open -> open < length t ->
    trip t search_pos (Next (t, open + 1))
| trip_keep open k :
    search_pos <= open -> pair_at t open k -> lone t open = true ->
    k = 0 \/ evaluate_constant_expression (inner t open k) = Some None ->
    trip t search_pos (Next (t, open + k + 2))
| trip_reduce open k v :
    search_pos <= open -> pair_at t open k -> lone t open = true ->
    evaluate_constant_expression (inner t open k) = Some (Some v) ->
    trip t search_pos
      (Next (replace t (open + 1) k (to_string v), open + 1 + length (to_string v))).

Lemma is_empty_substr (t : text) pos n :
  pos + n <= length t -> is_empty (substr t pos n) = (n =? 0).
Proof.
  intros H. pose proof (substr_length t pos n H) as L.
  destruct (substr t pos n); destruct n; simpl in *; try reflexivity; discriminate.
Qed.

Lemma bracket_step_trip t search_pos c :
  bracket_step (t, search_pos) = Some c -> trip t search_pos c.
Proof.
  unfold bracket_step. cbv beta iota.
  destruct (length t <=? search_pos); [intros H; injection H as <-; constructor|].
  destruct (find_char "[" t search_pos) as [open|] eqn:Eo;
    [|intros H; injection H as <-; constructor].
  pose proof (find_char_at _ _ _ _ Eo) as Hat.
  apply find_char_bound in Eo as [Ho1 Ho2].
  destruct (((0 <? open) && Ascii.eqb (at_ t (open - 1)) "[")
            || ((open + 1 <? length t) && Ascii.eqb (at_ t (open + 1)) "[")) eqn:El.
  { intros H. injection H as <-. apply trip_skip; auto. unfold lone. rewrite El. reflexivity. }
  assert (Hl : lone t open = true) by (unfold lone; rewrite El; reflexivity).
  destruct (close_offset (skipn (open + 1) t) 1) as [k|] eqn:Ek;
    [|intros H; injection H as <-; apply trip_unmatched; auto].
  assert (Hp : pair_at t open k) by (repeat split; auto).
  apply close_offset_lt in Ek. rewrite length_skipn in Ek. cbv zeta.
  replace (open + 1 + k - open - 1) with k by lia.
  rewrite is_empty_substr by lia.
  destruct (k =? 0) eqn:Ek0.
  { apply Nat.eqb_eq in Ek0. subst k. intros H. injection H as <-.
    replace (open + 1 + 0 + 1) with (open + 0 + 2) by lia. apply trip_keep; auto. }
  destruct (evaluate_constant_expression (substr t (open + 1) k)) as [[v|]|] eqn:Ev;
    simpl; [| |discriminate].
  - intros H. injection H as <-. rewrite substr_length by lia.
    apply trip_reduce; auto.
  - intros H. injection H as <-.
    replace (open + 1 + k + 1) with (open + k + 2) by lia. apply trip_keep; auto.
Qed.

Lemma trip_forward t search_pos t' search_pos' :
  trip t search_pos (Next (t', search_pos')) ->
  search_pos <= search_pos' /\ firstn search_pos t' = firstn search_pos t.
Proof.
  inversion 1; subst; try (split; [lia|reflexivity]).
  split; [lia|]. unfold replace. rewrite firstn_app.
  rewrite firstn_firstn. replace (Nat.min search_pos (open + 1)) with search_pos by lia.
  match goal with H : pair_at _ _ _ |- _ => destruct H as (Hlt & _ & _) end.
  rewrite length_firstn.
  replace (search_pos - Nat.min (open + 1) (length t)) with 0 by lia.
  simpl. rewrite app_nil_r. reflexivity.
Qed.

Lemma firstn_weaken {A : Type} n m (a b : list A) :
  n <= m -> firstn m a = firstn m b -> firstn n a = firstn n b.
Proof.
  intros H E. rewrite <- (Nat.min_l n m H), <- !firstn_firstn, E. reflexivity.
Qed.

(** The text before the cursor is final. *)
Lemma prefix_final fuel : forall t search_pos t',
  loop bracket_step fuel (t, search_pos) = Some t' ->
  firstn search_pos t' = firstn search_pos t.
Proof.
  induction fuel as [|fuel IH]; intros t sp t'; cbn [loop]; [discriminate|].
  destruct (bracket_step (t, sp)) as [c|] eqn:E; [|discriminate].
  apply bracket_step_trip in E. destruct c as [[u p]|r].
  - intros H. apply IH in H. apply trip_forward in E as [Hle Hu].
    rewrite <- Hu. apply (firstn_weaken sp p); assumption.
  - inversion E; subst. intros H. injection H as <-. reflexivity.
Qed.

Lemma loop_reduces fuel : forall t search_pos t',
  loop bracket_step fuel (t, search_pos) = Some t' -> reduces_star t t'.
Proof.
  induction fuel as [|fuel IH]; intros t sp t'; cbn [loop]; [discriminate|].
  destruct (bracket_step (t, sp)) as [c|] eqn:E; [|discriminate].
  apply bracket_step_trip in E. intros H.
  inversion E; subst; try (apply IH in H; exact H).
  - injection H as <-. constructor.
  - apply IH in H. eapply reduces_then; [|exact H]. econstructor; eassumption.
Qed.

End Brackets.

Definition attribute_like : text := str "[[1]+[2+2]]".

(** The pair that spans [[[1]+[2+2]]] has an opening bracket next to
    another and a content that does not evaluate; yet its content is not
    what it was: the scan went on inside it and reduced [[2+2]]. *)
Lemma attribute_like_pair_changed :
  Brackets.pair_at attribute_like 0 9 /\
  Brackets.lone attribute_like 0 = false /\
  evaluate_constant_expression (Brackets.inner attribute_like 0 9) = Some None /\
  evaluate_bracket_expressions attribute_like = Some (str "[[1]+[4]]") /\
  str "[[1]+[4]]" <> attribute_like.
Proof.
  split; [repeat split; simpl; lia|].
  split; [reflexivity|]. split; [vm_compute; reflexivity|].
  split; [vm_compute; reflexivity|]. discriminate.
Qed.

(** C7 (amended).  Bracket reduction returns a text obtained by
    rewritings only, each of the whole inner text of a pair that
    evaluates and whose opening bracket has no bracket beside it.  At any
    point of the scan, a pair the scan examines whose content is empty or
    does not evaluate (division or modulo by zero included) stays as it
    is in the output, up to its closing bracket; a bracket with another
    bracket beside it is passed over and stays, but the scan goes on
    right after it, inside the pair it opens. *)
Theorem bracket_reduction_sound (t t' : text) :
  evaluate_bracket_expressions t = Some t' ->
  Brackets.reduces_star t t' /\
  (forall fuel u search_pos u' open k,
     find_char "[" u search_pos = Some open ->
     Brackets.lone u open = true ->
     close_offset (skipn (open + 1) u) 1 = Some k ->
     k = 0 \/ evaluate_constant_expression (Brackets.inner u open k) = Some None ->
     loop bracket_step fuel (u, search_pos) = Some u' ->
     firstn (open + k + 2) u' = firstn (open + k + 2) u) /\
  (forall fuel u search_pos u' open,
     find_char "[" u search_pos = Some open ->
     Brackets.lone u open = false ->
     loop bracket_step (S fuel) (u, search_pos) = Some u' ->
     loop bracket_step fuel (u, open + 1) = Some u' /\
     firstn (open + 1) u' = firstn (open + 1) u).
Proof.
  intros H. split; [apply (Brackets.loop_reduces _ _ _ _ H)|]. split.
  - intros fuel u sp u' open k Ho Hl Hk Hv Hloop.
    destruct fuel as [|fuel]; [discriminate|]. cbn [loop] in Hloop.
    assert (E : bracket_step (u, sp) = Some (Next (u, open + k + 2))).
    { unfold bracket_step. cbv beta iota. pose proof Ho as Hb. apply find_char_bound in Hb as [Hb1 Hb2].
      replace (length u <=? sp) with false by (symmetry; apply Nat.leb_gt; lia).
      rewrite Ho. unfold Brackets.lone in Hl. apply negb_true_iff in Hl. rewrite Hl.
      rewrite Hk. cbv zeta. apply close_offset_lt in Hk. rewrite length_skipn in Hk.
      replace (open + 1 + k - open - 1) with k by lia.
      rewrite Brackets.is_empty_substr by lia.
      replace (open + 1 + k + 1) with (open + k + 2) by lia.
      destruct Hv as [->|Hv]; [reflexivity|].
      destruct (k =? 0); [reflexivity|].
      unfold Brackets.inner in Hv. rewrite Hv. reflexivity. }
    rewrite E in Hloop. apply Brackets.prefix_final in Hloop. exact Hloop.
  - intros fuel u sp u' open Ho Hl Hloop. cbn [loop] in Hloop.
    assert (E : bracket_step (u, sp) = Some (Next (u, open + 1))).
    { unfold bracket_step. cbv beta iota. pose proof Ho as Hb. apply find_char_bound in Hb as [Hb1 Hb2].
      replace (length u <=? sp) with false by (symmetry; apply Nat.leb_gt; lia).
      rewrite Ho. unfold Brackets.lone in Hl. apply negb_false_iff in Hl. rewrite Hl.
      reflexivity. }
    rewrite E in Hloop. split; [exact Hloop|].
    apply Brackets.prefix_final in Hloop. exact Hloop.
Qed.

Definition mixed_brackets : text := str "a[1/0] b[2+3] [[x]]".

Lemma bracket_reduction_sound_witness :
  evaluate_bracket_expressions mixed_brackets = Some (str "a[1/0] b[5] [[x]]") /\
  Brackets.reduces_star mixed_brackets (str "a[1/0] b[5] [[x]]") /\
  firstn 6 (str "a[1/0] b[5] [[x]]") = firstn 6 mixed_brackets.
Proof.
  assert (E : evaluate_bracket_expressions mixed_brackets = Some (str "a[1/0] b[5] [[x]]"))
    by (vm_compute; reflexivity).
  destruct (bracket_reduction_sound mixed_brackets _ E) as (H1 & H2 & _).
  split; [exact E|]. split; [exact H1|].
  apply (H2 (S (length mixed_brackets)) mixed_brackets 0 _ 1 3).
  - reflexivity.
  - reflexivity.
  - reflexivity.
  - right. vm_compute. reflexivity.
  - exact E.
Defined.

(** ** The tree driver *)

Module Tree.

Lemma loop_post {A R : Type} (body : A -> option (ctl A R))
    (Inv : A -> Prop) (Q : R -> Prop) :
  (forall a c, Inv a -> body a = Some c ->
     match c with Next a' => Inv a' | Exit r => Q r end) ->
  forall fuel a r, Inv a -> loop body fuel a = Some r -> Q r.
Proof.
  intros Hbody. induction fuel as [|fuel IH]; intros a r Ha; simpl; [discriminate|].
  destruct (body a) as [c|] eqn:E; [|discriminate].
  specialize (Hbody a c Ha E). destruct c as [a'|r'].
  - apply IH. exact Hbody.
  - intros H. injection H as <-. exact Hbody.
Qed.

Lemma path_eqb_eq a b : path_eqb a b = true <-> a = b.
Proof.
  unfold path_eqb. destruct (list_eq_dec (list_eq_dec ascii_dec) a b); split; congruence.
Qed.

Lemma path_eqb_refl a : path_eqb a a = true.
Proof. apply path_eqb_eq. reflexivity. Qed.

(** *** The bound on the trips of the traversal *)

(** The imports that files not yet visited may still bring. *)
Definition pending (f : path -> nat) (files : list (path * text)) (visited : list path) : nat :=
  fold_right (fun entry n => (if in_paths (fst entry) visited then 0 else f (fst entry)) + n)
    0 files.

Definition potential (w : World) (s : Traversal) : nat :=
  length (queue s) + pending (visible_import_count w) (w_files w) (visited s).

Lemma pending_mono f files visited p :
  pending f files (p :: visited) <= pending f files visited.
Proof.
  induction files as [|[k v] files IH]; simpl; [lia|].
  destruct (path_eqb k p); simpl; [lia|].
  destruct (in_paths k visited); lia.
Qed.

Lemma pending_visit f files visited p content :
  file_find p files = Some content -> in_paths p visited = false ->
  pending f files (p :: visited) + f p <= pending f files visited.
Proof.
  induction files as [|[k v] files IH]; simpl; [discriminate|].
  intros Hf Hv. destruct (path_eqb p k) eqn:E.
  - apply path_eqb_eq in E. subst k. rewrite path_eqb_refl, Hv. simpl.
    pose proof (pending_mono f files visited p). lia.
  - assert (E' : path_eqb k p = false).
    { destruct (path_eqb k p) eqn:E'; [|reflexivity].
      apply path_eqb_eq in E'. subst k. rewrite path_eqb_refl in E. discriminate. }
    rewrite E'. simpl. specialize (IH Hf Hv). lia.
Qed.

Lemma pending_initial f files :
  pending f files [] = fold_right (fun entry n => f (fst entry) + n) 0 files.
Proof. induction files as [|[k v] files IH]; simpl; [reflexivity|]. rewrite IH. reflexivity. Qed.

Lemma push_imports_length (imports : list path) : forall rest,
  length (fold_left (fun q import => lexically_normal import :: q) imports rest)
    = length imports + length rest.
Proof.
  induction imports as [|i imports IH]; intros rest; simpl; [reflexivity|].
  rewrite IH. simpl. lia.
Qed.

(** Every trip of the traversal that goes on lowers the potential. *)
Lemma tree_step_lowers w temp_dir base_dir s s' :
  tree_step w temp_dir base_dir s = Some (Next s') -> potential w s' < potential w s.
Proof.
  unfold tree_step. destruct (queue s) as [|current rest] eqn:Eq; [discriminate|].
  cbv zeta. set (cc := lexically_normal current).
  unfold potential. rewrite Eq.
  destruct (in_paths cc (visited s)) eqn:Ev.
  { intros H. injection H as <-. simpl. lia. }
  pose proof (pending_mono (visible_import_count w) (w_files w) (visited s) cc) as Hm.
  destruct (file_find cc (w_files w)) as [content|] eqn:Ef.
  2:{ intros H. injection H as <-. simpl. lia. }
  pose proof (pending_visit (visible_import_count w) _ _ _ _ Ef Ev) as Hvisit.
  destruct (process_file_content cc content) as [processed|] eqn:Hp; [|discriminate].
  assert (Hcount : visible_import_count w cc = length (m_imports processed)).
  { unfold visible_import_count, import_count. rewrite Ef, Hp. reflexivity. }
  cbn [bind].
  destruct (w_mkdir_fails w _); [intros H; injection H as <-; simpl; lia|].
  destruct (w_open_fails w _); [intros H; injection H as <-; simpl; lia|].
  intros H. injection H as <-. simpl. rewrite push_imports_length. lia.
Qed.

(** *** What the traversal keeps true *)

(** A file that was read had templates. *)
Definition saw_templates (ev : list event) : Prop :=
  exists p content r,
    In (ReadFile p content) ev /\ process_file_content p content = Some r /\
    m_had_templates r = true.

Record invariant (temp_dir : path) (s : Traversal) : Prop := {
  inv_had : t_had_templates s = true <-> saw_templates (events s);
  inv_first : exists rest, events s = CreateDirectories temp_dir :: rest;
  inv_no_removal : forall p, ~ In (RemoveAll p) (events s);
  inv_back : forall proc orig,
    map_find proc (processed_to_original s) = Some orig ->
    map_find orig (original_to_processed s) = Some proc;
  inv_keys : forall orig proc,
    map_find orig (original_to_processed s) = Some proc -> In orig (visited s)
}.

Lemma saw_templates_app ev ev' :
  saw_templates (ev ++ ev') <-> saw_templates ev \/ saw_templates ev'.
Proof.
  unfold saw_templates. split.
  - intros (p & c & r & Hin & H1 & H2). apply in_app_or in Hin as [Hin|Hin];
      [left|right]; eauto 6.
  - intros [(p & c & r & Hin & H1 & H2)|(p & c & r & Hin & H1 & H2)];
      exists p, c, r; (split; [apply in_or_app; auto|auto]).
Qed.

Lemma saw_templates_read p content r :
  process_file_content p content = Some r ->
  (saw_templates [ReadFile p content] <-> m_had_templates r = true).
Proof.
  intros Hp. unfold saw_templates. split.
  - intros (p' & c' & r' & [Hin|[]] & H1 & H2). injection Hin as <- <-. congruence.
  - intros H. exists p, content, r. simpl. auto.
Qed.

Lemma saw_templates_other e :
  (forall p c, e <> ReadFile p c) -> ~ saw_templates [e].
Proof. intros He (p & c & r & [Hin|[]] & _). apply (He p c). exact Hin. Qed.

Lemma map_find_emplace_new k v m k' :
  map_find k m = None ->
  map_find k' (emplace k v m) = if path_eqb k' k then Some v else map_find k' m.
Proof.
  intros Hn. unfold emplace. rewrite Hn.
  induction m as [|[a b] m IH]; simpl.
  - reflexivity.
  - simpl in Hn. destruct (path_eqb k a) eqn:Eka; [discriminate|].
    destruct (path_eqb k' a) eqn:Ek'a.
    + apply path_eqb_eq in Ek'a. subst a.
      destruct (path_eqb k' k) eqn:E; [|reflexivity].
      apply path_eqb_eq in E. subst k'. rewrite path_eqb_refl in Eka. discriminate.
    + apply IH. exact Hn.
Qed.

Lemma map_find_emplace_old k v m w' :
  map_find k m = Some w' -> emplace k v m = m.
Proof. intros H. unfold emplace. rewrite H. reflexivity. Qed.

Lemma in_paths_In p l : in_paths p l = true <-> In p l.
Proof.
  unfold in_paths. rewrite existsb_exists. split.
  - intros (x & Hin & E). apply path_eqb_eq in E. subst. exact Hin.
  - intros H. exists p. split; [exact H|apply path_eqb_refl].
Qed.

Lemma tree_step_invariant w temp_dir base_dir s c :
  invariant temp_dir s -> tree_step w temp_dir base_dir s = Some c ->
  match c with Next s' => invariant temp_dir s' | Exit s' => invariant temp_dir s' end.
Proof.
  intros Hinv. unfold tree_step.
  destruct (queue s) as [|current rest] eqn:Eq; [intros H; injection H as <-; exact Hinv|].
  cbv zeta. set (cc := lexically_normal current).
  destruct Hinv as [Hhad Hfirst Hnorm Hback Hkeys].
  destruct (in_paths cc (visited s)) eqn:Ev.
  { intros H. injection H as <-. constructor; assumption. }
  assert (Hfresh : map_find cc (original_to_processed s) = None).
  { destruct (map_find cc (original_to_processed s)) as [x|] eqn:E; [|reflexivity].
    apply Hkeys in E. apply in_paths_In in E. congruence. }
  destruct (file_find cc (w_files w)) as [content|] eqn:Ef.
  2:{ intros H. injection H as <-. constructor; simpl; try assumption.
      intros orig proc H. right. eapply Hkeys. exact H. }
  destruct (process_file_content cc content) as [processed|] eqn:Hp; [|discriminate].
  cbn [bind].
  assert (Hhad' : forall tail,
            (forall e, In e tail -> forall p c, e <> ReadFile p c) ->
            t_had_templates s || m_had_templates processed = true
            <-> saw_templates ((events s ++ [ReadFile cc content]) ++ tail)).
  { intros tail Htail. rewrite !saw_templates_app, orb_true_iff, Hhad.
    rewrite (saw_templates_read cc content processed Hp).
    split; [tauto|]. intros [[H|H]|(p0 & c0 & r0 & Hin & _)]; auto.
    exfalso. apply (Htail _ Hin p0 c0). reflexivity. }
  assert (Hfirst' : forall tail,
            exists rest0, (events s ++ [ReadFile cc content]) ++ tail
                          = CreateDirectories temp_dir :: rest0).
  { intros tail. destruct Hfirst as (rest0 & ->). simpl. eauto. }
  assert (Hkeys' : forall orig proc,
            map_find orig (original_to_processed s) = Some proc ->
            In orig (cc :: visited s)).
  { intros orig proc H. right. eapply Hkeys. exact H. }
  destruct (w_mkdir_fails w _).
  { intros H. injection H as <-. constructor; simpl.
    - rewrite <- (app_nil_r (events s ++ _)). apply Hhad'. intros e [].
    - rewrite <- (app_nil_r (events s ++ _)). apply Hfirst'.
    - intros p Hin. apply in_app_or in Hin as [Hin|[Hin|[]]]; [|discriminate].
      apply (Hnorm p Hin).
    - exact Hback.
    - exact Hkeys'. }
  destruct (w_open_fails w _).
  { intros H. injection H as <-. constructor; simpl.
    - apply Hhad'. intros e [<-|[]]; discriminate.
    - apply Hfirst'.
    - intros p Hin. apply in_app_or in Hin as [Hin|[Hin|[]]]; [|discriminate].
      apply in_app_or in Hin as [Hin|[Hin|[]]]; [|discriminate].
      apply (Hnorm p Hin).
    - exact Hback.
    - exact Hkeys'. }
  intros H. injection H as <-. constructor; simpl.
  - rewrite <- app_assoc. apply Hhad'. intros e [<-|[<-|[]]]; discriminate.
  - rewrite <- app_assoc. apply Hfirst'.
  - intros p Hin. apply in_app_or in Hin as [Hin|[Hin|[]]]; [|discriminate].
    apply in_app_or in Hin as [Hin|[Hin|[]]]; [|discriminate].
    apply in_app_or in Hin as [Hin|[Hin|[]]]; [|discriminate].
    apply (Hnorm p Hin).
  - intros proc orig.
    set (pp := lexically_normal _).
    destruct (map_find pp (processed_to_original s)) as [o|] eqn:Epp.
    + rewrite (map_find_emplace_old _ _ _ _ Epp). intros H.
      rewrite map_find_emplace_new by exact Hfresh.
      destruct (path_eqb orig cc) eqn:E.
      * apply path_eqb_eq in E. subst orig. apply Hback in H. congruence.
      * apply Hback. exact H.
    + rewrite map_find_emplace_new by exact Epp.
      rewrite map_find_emplace_new by exact Hfresh.
      destruct (path_eqb proc pp) eqn:E.
      * intros H. injection H as <-. rewrite path_eqb_refl.
        apply path_eqb_eq in E. subst proc. reflexivity.
      * intros H. destruct (path_eqb orig cc) eqn:E'; [|apply Hback; exact H].
        apply path_eqb_eq in E'. subst orig. apply Hback in H. congruence.
  - intros orig proc. rewrite map_find_emplace_new by exact Hfresh.
    destruct (path_eqb orig cc) eqn:E.
    + apply path_eqb_eq in E. subst orig. intros _. left. reflexivity.
    + intros H. right. eapply Hkeys. exact H.
Qed.

Lemma invariant_initial temp_dir root :
  invariant temp_dir (mkTraversal [root] [] [] [] false [CreateDirectories temp_dir]).
Proof.
  constructor; simpl.
  - split; [discriminate|]. intros (p & c & r & [Hin|[]] & _). discriminate.
  - eauto.
  - intros p [H|[]]. discriminate.
  - discriminate.
  - discriminate.
Qed.

(** The bound of the traversal is never exhausted: when the traversal
    has no result, the transformer had none for a file that was opened. *)
Lemma traversal_stops w temp_dir root :
  loop (tree_step w temp_dir (parent_path root)) (traversal_bound w)
    (mkTraversal [root] [] [] [] false [CreateDirectories temp_dir]) = None ->
  exists p content,
    file_find p (w_files w) = Some content /\ process_file_content p content = None.
Proof.
  intros H.
  apply (loop_stops (tree_step w temp_dir (parent_path root)) (potential w)
           (fun _ => True)) in H.
  - destruct H as (a & _ & E). unfold tree_step in E.
    destruct (queue a) as [|current rest]; [discriminate|]. cbv zeta in E.
    destruct (in_paths _ _); [discriminate|].
    destruct (file_find (lexically_normal current) (w_files w)) as [content|] eqn:Ef;
      [|discriminate].
    destruct (process_file_content (lexically_normal current) content) eqn:Ep.
    + cbn [bind] in E. destruct (w_mkdir_fails w _); [discriminate|].
      destruct (w_open_fails w _); discriminate.
    + eauto.
  - intros a a' _ E. split; [exact I|]. exact (tree_step_lowers _ _ _ _ _ E).
  - exact I.
  - unfold potential, traversal_bound. cbn [queue visited length].
    rewrite pending_initial. lia.
Qed.

(** *** Directories *)



End Tree.

Module Hex.

Definition is_lower_hex (c : ascii) : bool := is_digit c || in_range 97 102 c.

Definition hex_value (c : ascii) : N :=
  if is_digit c then (N_of_ascii c - 48)%N else (N_of_ascii c - 87)%N.

(** The number a text of hexadecimal digits denotes. *)
Definition of_hex (s : text) : N :=
  fold_left (fun acc c => (acc * 16 + hex_value c)%N) s 0%N.

Lemma hex_digit_ok d :
  (d < 16)%N -> is_lower_hex (hex_digit d) = true /\ hex_value (hex_digit d) = d.
Proof.
  intros H.
  assert (C : In d (map N.of_nat (seq 0 16))).
  { rewrite <- (N2Nat.id d). apply in_map. apply in_seq. lia. }
  simpl in C. repeat (destruct C as [<-|C]; [split; reflexivity|]). destruct C.
Qed.

Lemma hex_digits_lower fuel : forall n acc,
  forallb is_lower_hex acc = true -> forallb is_lower_hex (hex_digits fuel n acc) = true.
Proof.
  induction fuel as [|fuel IH]; intros n acc Hacc; simpl; [exact Hacc|].
  assert (Hd : is_lower_hex (hex_digit (n mod 16)) = true).
  { apply hex_digit_ok. apply N.mod_lt. discriminate. }
  destruct (n <? 16)%N.
  - simpl. rewrite Hd. exact Hacc.
  - apply IH. simpl. rewrite Hd. exact Hacc.
Qed.

Lemma hex_digits_value fuel : forall n acc,
  (n < 16 ^ N.of_nat fuel)%N ->
  fold_left (fun acc c => (acc * 16 + hex_value c)%N) (hex_digits fuel n acc) 0%N
    = fold_left (fun acc c => (acc * 16 + hex_value c)%N) acc n.
Proof.
  induction fuel as [|fuel IH]; intros n acc Hn.
  - simpl in *. replace n with 0%N by lia. reflexivity.
  - cbn [hex_digits]. cbv zeta.
    assert (Hd : hex_value (hex_digit (n mod 16)) = (n mod 16)%N).
    { apply hex_digit_ok. apply N.mod_lt. discriminate. }
    destruct (n <? 16)%N eqn:E.
    + apply N.ltb_lt in E. cbn [fold_left]. rewrite Hd.
      rewrite N.mod_small by exact E. reflexivity.
    + apply N.ltb_ge in E. rewrite IH.
      * cbn [fold_left]. rewrite Hd. f_equal.
        pose proof (N.div_mod n 16 ltac:(discriminate)). lia.
      * rewrite Nat2N.inj_succ, N.pow_succ_r' in Hn.
        apply N.Div0.div_lt_upper_bound. lia.
Qed.

(** The text of a 64-bit value is made of lowercase hexadecimal digits
    and denotes the value. *)
Lemma to_hex_spec n :
  (n < 2 ^ 64)%N ->
  forallb is_lower_hex (to_hex n) = true /\ of_hex (to_hex n) = n.
Proof.
  intros H. split.
  - apply hex_digits_lower. reflexivity.
  - unfold of_hex, to_hex. rewrite hex_digits_value; [reflexivity|].
    replace (16 ^ N.of_nat 16)%N with (2 ^ 64)%N by reflexivity. exact H.
Qed.

(** The digits start with the most significant one, which is [0] for the
    value [0] only. *)
Lemma hex_digits_head fuel : forall n acc,
  fuel <> 0 -> (n < 16 ^ N.of_nat fuel)%N ->
  exists m rest,
    hex_digits fuel n acc = hex_digit m :: rest /\ (m < 16)%N /\
    (m = 0%N -> n = 0%N /\ rest = acc).
Proof.
  induction fuel as [|fuel IH]; intros n acc Hf Hn; [congruence|].
  cbn [hex_digits]. cbv zeta. destruct (n <? 16)%N eqn:E.
  - apply N.ltb_lt in E. exists (n mod 16)%N, acc.
    split; [reflexivity|]. rewrite N.mod_small by exact E.
    split; [exact E|]. auto.
  - apply N.ltb_ge in E.
    assert (Hfuel : fuel <> 0).
    { intros ->. simpl in Hn. lia. }
    assert (Hdiv : (n / 16 < 16 ^ N.of_nat fuel)%N).
    { rewrite Nat2N.inj_succ, N.pow_succ_r' in Hn.
      apply N.Div0.div_lt_upper_bound. lia. }
    destruct (IH (n / 16)%N (hex_digit (n mod 16) :: acc) Hfuel Hdiv)
      as (m & rest & Hd & Hm & Hz).
    exists m, rest. split; [exact Hd|]. split; [exact Hm|].
    intros H0. destruct (Hz H0) as [Hq _]. exfalso.
    assert (1 <= n / 16)%N by (apply N.div_le_lower_bound; lia). lia.
Qed.

(** The text of a value has no padding: it is not empty, has at most 16
    digits, and starts with [0] only when it is [0]. *)
Lemma to_hex_unpadded n :
  (n < 2 ^ 64)%N ->
  to_hex n <> [] /\ (forall r, to_hex n = "0"%char :: r -> r = []).
Proof.
  intros H. unfold to_hex.
  destruct (hex_digits_head 16 n [] ltac:(discriminate)) as (m & rest & E & Hm & Hz).
  { replace (16 ^ N.of_nat 16)%N with (2 ^ 64)%N by reflexivity. exact H. }
  rewrite E. split; [discriminate|].
  intros r Hr. injection Hr as Hd <-.
  destruct (hex_digit_ok m Hm) as [_ Hv]. rewrite Hd in Hv.
  destruct (Hz (eq_sym Hv)) as [_ ->]. reflexivity.
Qed.

End Hex.

Module TreeFacts.
Import Tree.

Lemma traversal_invariant w temp_dir root s :
  loop (tree_step w temp_dir (parent_path root)) (traversal_bound w)
    (mkTraversal [root] [] [] [] false [CreateDirectories temp_dir]) = Some s ->
  invariant temp_dir s.
Proof.
  intros Hs.
  apply (loop_post (tree_step w temp_dir (parent_path root))
           (invariant temp_dir) (invariant temp_dir)) with (2 := invariant_initial _ _)
    (3 := Hs).
  intros a c Ha Hc. apply (tree_step_invariant _ _ _ _ _ Ha Hc).
Qed.

Lemma staging_directory_not_empty w : is_empty (staging_directory w) = false.
Proof. unfold staging_directory. destruct (w_temp w); reflexivity. Qed.


(** In every result, the original a staged path is mapped back to is
    mapped to that staged path. *)
Lemma processed_to_original_inverse w root_path r ev proc orig :
  process_tree w root_path = Some (Some r, ev) ->
  map_find proc (m_processed_to_original r) = Some orig ->
  map_find orig (m_original_to_processed r) = Some proc.
Proof.
  unfold process_tree. destruct (is_empty root_path); [discriminate|]. cbv zeta.
  destruct (w_temp_fails w); [discriminate|].
  destruct (w_mkdir_fails w (staging_directory w)); [discriminate|].
  destruct (loop _ _ _) as [s|] eqn:Hs; [|discriminate]. cbn [bind].
  apply traversal_invariant in Hs.
  destruct (negb (t_had_templates s)); [discriminate|].
  intros H. injection H as <- _. simpl. apply (inv_back _ _ Hs).
Qed.


(** An exception of [temp_directory_path()] leaves [process_tree]
    whatever the root. *)
Lemma process_tree_throws (w : World) (root_path : text) :
  root_path <> [] -> w_temp_fails w = true -> process_tree w root_path = None.
Proof.
  intros Hr Hw. unfold process_tree.
  destruct root_path; [congruence|]. cbn [is_empty]. cbv zeta. rewrite Hw. reflexivity.
Qed.

End TreeFacts.

(** ** The outcome of [process_tree] *)

(** A process whose temporary directory cannot be determined (the
    directory named by [TMPDIR] does not exist): [temp_directory_path()]
    throws. *)
Definition no_temp_world : World :=
  {| w_cwd := split_path (str "/home/u/proj");
     w_temp := [];
     w_temp_fails := true;
     w_random := 1;
     w_files := [(split_path (str "/home/u/proj/main.h"),
                  str "struct Box<typename T> { T v; };")];
     w_mkdir_fails := fun _ => false;
     w_open_fails := fun _ => false;
     w_relative_fails := fun _ => false |}.

(** The same project with its temporary directory. *)
Definition temp_world : World :=
  {| w_cwd := w_cwd no_temp_world;
     w_temp := split_path (str "/tmp");
     w_temp_fails := false;
     w_random := w_random no_temp_world;
     w_files := w_files no_temp_world;
     w_mkdir_fails := w_mkdir_fails no_temp_world;
     w_open_fails := w_open_fails no_temp_world;
     w_relative_fails := w_relative_fails no_temp_world |}.

(** The same project with the division of [INT64_MIN] by [-1] in the
    body of its definition. *)
Definition overflowing_world : World :=
  {| w_cwd := w_cwd temp_world;
     w_temp := w_temp temp_world;
     w_temp_fails := false;
     w_random := w_random temp_world;
     w_files := [(split_path (str "/home/u/proj/main.h"), overflowing_definition)];
     w_mkdir_fails := w_mkdir_fails temp_world;
     w_open_fails := w_open_fails temp_world;
     w_relative_fails := w_relative_fails temp_world |}.

(** C5.  With a root path that is not empty and a temporary directory
    that cannot be determined, the staging directory cannot be created,
    and [process_tree] does not return nothing: it does not return, the
    exception of [temp_directory_path()] leaves it.  With the temporary
    directory in place the same call returns a result.  Nor does
    [process_tree] return when the transformer is stopped on a file. *)
Theorem process_tree_leaves_by_exception :
  w_temp_fails no_temp_world = true /\
  process_tree no_temp_world (str "main.h") = None /\
  (exists r ev, process_tree temp_world (str "main.h") = Some (Some r, ev)) /\
  process_tree overflowing_world (str "main.h") = None.
Proof.
  split; [reflexivity|]. split; [reflexivity|].
  split; [eexists _, _; vm_compute; reflexivity|].
  vm_compute. reflexivity.
Qed.

(** ** The name of the staging directory *)

Definition demo_world : World :=
  {| w_cwd := split_path (str "/home/u/proj");
     w_temp := split_path (str "/tmp");
     w_temp_fails := false;
     w_random := 48879;
     w_files := [(split_path (str "/home/u/proj/main.h"),
                  str "struct Box<typename T> { T v; };")];
     w_mkdir_fails := fun _ => false;
     w_open_fails := fun _ => false;
     w_relative_fails := fun _ => false |}.

(** With the generator yielding [0xbeef], the staging directory is
    [/tmp/regenny_tmpl_beef]: its name is not [tmpl_beef]. *)
Lemma staging_directory_has_prefix :
  exists r ev,
    process_tree demo_world (str "main.h") = Some (Some r, ev) /\
    m_temp_directory r = [str "tmp"; str "regenny_tmpl_beef"] /\
    to_hex 48879 = str "beef" /\
    str "regenny_tmpl_beef" <> str "tmpl_" ++ to_hex 48879.
Proof.
  eexists _, _. split; [vm_compute; reflexivity|].
  split; [reflexivity|]. split; [reflexivity|]. discriminate.
Qed.

(** C8 (amended).  The staging directory is the subdirectory of the
    temporary directory named [regenny_tmpl_] followed by the 64-bit
    value of the generator in lowercase hexadecimal digits, without
    padding (the text is not empty and does not start with [0], unless
    it is [0]): it is the first thing [process_tree] creates, and the
    [m_temp_directory] of the result. *)
Theorem staging_directory_name (w : World) (root_path : text)
    (res : option PreprocessResult) (ev : list event) :
  process_tree w root_path = Some (res, ev) -> ev <> [] ->
  let hex := to_hex (w_random w mod 2 ^ 64)%N in
  let dir := w_temp w ++ [str "regenny_tmpl_" ++ hex] in
  (exists tail, ev = CreateDirectories dir :: tail) /\
  (forall r, res = Some r -> m_temp_directory r = dir) /\
  forallb Hex.is_lower_hex hex = true /\
  Hex.of_hex hex = (w_random w mod 2 ^ 64)%N /\
  hex <> [] /\ (forall rest, hex = "0"%char :: rest -> rest = []).
Proof.
  intros H Hev hex dir.
  assert (Hhex : forallb Hex.is_lower_hex hex = true
                 /\ Hex.of_hex hex = (w_random w mod 2 ^ 64)%N
                 /\ hex <> [] /\ (forall rest, hex = "0"%char :: rest -> rest = [])).
  { assert (Hlt : (w_random w mod 2 ^ 64 < 2 ^ 64)%N) by (apply N.mod_lt; discriminate).
    destruct (Hex.to_hex_spec _ Hlt) as [H1 H2].
    destruct (Hex.to_hex_unpadded _ Hlt) as [H3 H4]. auto. }
  unfold process_tree in H.
  destruct (is_empty root_path); [injection H as <- <-; congruence|].
  cbv zeta in H.
  destruct (w_temp_fails w); [discriminate|].
  destruct (w_mkdir_fails w (staging_directory w)); [injection H as <- <-; congruence|].
  destruct (loop _ _ _) as [s|] eqn:Hs; [|discriminate]. cbn [bind] in H.
  apply TreeFacts.traversal_invariant in Hs.
  destruct (Tree.inv_first _ _ Hs) as (rest & Hfirst).
  destruct (negb (t_had_templates s)); injection H as <- <-.
  - split; [|split; [discriminate|exact Hhex]].
    rewrite Hfirst. simpl. eauto.
  - split; [|split; [|exact Hhex]].
    + rewrite Hfirst. eauto.
    + intros r Hr. injection Hr as <-. reflexivity.
Qed.

Lemma staging_directory_name_witness :
  exists r ev,
    process_tree demo_world (str "main.h") = Some (Some r, ev) /\
    (exists tail, ev = CreateDirectories [str "tmp"; str "regenny_tmpl_beef"] :: tail) /\
    m_temp_directory r = [str "tmp"; str "regenny_tmpl_beef"] /\
    Hex.of_hex (str "beef") = 48879%N.
Proof.
  assert (E : exists r ev, process_tree demo_world (str "main.h") = Some (Some r, ev))
    by (eexists _, _; vm_compute; reflexivity).
  destruct E as (r & ev & E). exists r, ev. split; [exact E|].
  assert (Hev : ev <> []).
  { intros ->. vm_compute in E. discriminate. }
  destruct (staging_directory_name demo_world (str "main.h") (Some r) ev E Hev)
    as (H1 & H2 & _ & H4 & _).
  split; [exact H1|]. split; [apply H2; reflexivity|exact H4].
Defined.

(** ** The two path maps *)

(** A project in [/home/u/proj] whose root file imports
    [../shared/a.h] and [../../tmp/shared/a.h]: with the staging
    directory two levels under the root directory, both imports are
    staged at [/tmp/shared/a.h]. *)
Definition colliding_world : World :=
  {| w_cwd := split_path (str "/home/u/proj");
     w_temp := split_path (str "/tmp");
     w_temp_fails := false;
     w_random := 48879;
     w_files :=
       [(split_path (str "/home/u/proj/main.h"),
         str "import " ++ QUOTE :: str "../shared/a.h" ++ QUOTE :: str "
import " ++ QUOTE :: str "../../tmp/shared/a.h" ++ QUOTE :: str "
struct Box<typename T> { T v; };");
        (split_path (str "/home/u/shared/a.h"), str "int x;");
        (split_path (str "/home/tmp/shared/a.h"), str "int y;")];
     w_mkdir_fails := fun _ => false;
     w_open_fails := fun _ => false;
     w_relative_fails := fun _ => false |}.

(** C6, on the colliding world: [original_to_processed] maps
    [/home/u/shared/a.h] to [/tmp/shared/a.h], which
    [processed_to_original] maps back to [/home/tmp/shared/a.h]. *)
Theorem staging_collision_breaks_round_trip :
  exists r ev,
    process_tree colliding_world (str "main.h") = Some (Some r, ev) /\
    map_find (split_path (str "/home/u/shared/a.h")) (m_original_to_processed r)
      = Some (split_path (str "/tmp/shared/a.h")) /\
    map_find (split_path (str "/tmp/shared/a.h")) (m_processed_to_original r)
      = Some (split_path (str "/home/tmp/shared/a.h")) /\
    split_path (str "/home/tmp/shared/a.h") <> split_path (str "/home/u/shared/a.h").
Proof.
  eexists _, _. split; [vm_compute; reflexivity|].
  split; [reflexivity|]. split; [reflexivity|]. discriminate.
Qed.

(** * Further properties of the lexical primitives *)

Module Lexical.

Lemma drop_while_decomp P s :
  exists l, s = l ++ drop_while P s /\ forallb P l = true.
Proof.
  induction s as [|c s (l & E & Hl)]; simpl.
  - exists []. split; reflexivity.
  - destruct (P c) eqn:Hc.
    + exists (c :: l). simpl. rewrite Hc, Hl. split; [congruence|reflexivity].
    + exists []. split; reflexivity.
Qed.

Lemma drop_while_hd P s c r : drop_while P s = c :: r -> P c = false.
Proof.
  induction s as [|x s IH]; simpl; [discriminate|].
  destruct (P x) eqn:Hx; [exact IH|]. intros H. injection H as <- _. exact Hx.
Qed.

Lemma drop_while_fixed P c r : P c = false -> drop_while P (c :: r) = c :: r.
Proof. intros H. simpl. rewrite H. reflexivity. Qed.

Lemma forallb_rev {A : Type} (P : A -> bool) l :
  forallb P l = true -> forallb P (rev l) = true.
Proof.
  rewrite !forallb_forall. intros H x Hx. apply H. apply in_rev. exact Hx.
Qed.

(** The text between the first and the last character that is not white
    space. *)
Lemma trim_decomp sv :
  exists l r, sv = l ++ trim sv ++ r /\
    forallb is_space l = true /\ forallb is_space r = true.
Proof.
  unfold trim.
  destruct (drop_while_decomp is_space sv) as (l & E & Hl).
  destruct (drop_while_decomp is_space (rev (drop_while is_space sv))) as (r' & E' & Hr').
  exists l, (rev r'). split; [|split; [exact Hl|apply forallb_rev, Hr']].
  rewrite <- rev_app_distr, <- E', rev_involutive. exact E.
Qed.

Lemma trim_ends sv c rest :
  trim sv = c :: rest ->
  is_space c = false /\ is_space (last (c :: rest) c) = false.
Proof.
  unfold trim. intros H.
  destruct (drop_while is_space (rev (drop_while is_space sv))) as [|y d'] eqn:E';
    [discriminate|].
  pose proof (drop_while_hd _ _ _ _ E') as Hy.
  assert (Hlast : last (c :: rest) c = y).
  { rewrite <- H. simpl. rewrite last_last. reflexivity. }
  split; [|rewrite Hlast; exact Hy].
  destruct (drop_while_decomp is_space (rev (drop_while is_space sv))) as (r' & E2 & _).
  rewrite E' in E2. apply (f_equal (@rev ascii)) in E2.
  rewrite rev_involutive, rev_app_distr, H in E2.
  destruct (drop_while is_space sv) as [|z d] eqn:E; [discriminate|].
  injection E2 as -> _. apply (drop_while_hd _ _ _ _ E).
Qed.

Lemma trim_fixed c rest :
  is_space c = false -> is_space (last (c :: rest) c) = false ->
  trim (c :: rest) = c :: rest.
Proof.
  intros Hc Hl. unfold trim. rewrite (drop_while_fixed _ _ _ Hc).
  destruct (rev (c :: rest)) as [|y r] eqn:E.
  { apply (f_equal (@rev ascii)) in E. rewrite rev_involutive in E. discriminate. }
  assert (Hy : y = last (c :: rest) c).
  { apply (f_equal (@rev ascii)) in E. rewrite rev_involutive in E. rewrite E.
    simpl. rewrite last_last. reflexivity. }
  rewrite drop_while_fixed by (rewrite Hy; exact Hl).
  rewrite <- E. apply rev_involutive.
Qed.

Lemma trim_idem sv : trim (trim sv) = trim sv.
Proof.
  destruct (trim sv) as [|c rest] eqn:E; [reflexivity|].
  destruct (trim_ends sv c rest E) as [Hc Hl].
  apply trim_fixed; assumption.
Qed.

End Lexical.

(** X1.  [trim] removes white space at both ends and nothing else: the
    text is white space, then the result, then white space; a result that
    is not empty starts and ends with a character that is not white space;
    and trimming twice is trimming once. *)
Theorem trim_spec (sv : text) :
  (exists l r, sv = l ++ trim sv ++ r /\
     forallb is_space l = true /\ forallb is_space r = true) /\
  (forall c rest, trim sv = c :: rest ->
     is_space c = false /\ is_space (last (c :: rest) c) = false) /\
  trim (trim sv) = trim sv.
Proof.
  split; [apply Lexical.trim_decomp|]. split; [apply Lexical.trim_ends|].
  apply Lexical.trim_idem.
Qed.

(** The body of a literal: characters other than the backslash and the
    delimiter, and backslashes each followed by one character. *)
Inductive literal_body (delimiter : ascii) : text -> Prop :=
| body_end : literal_body delimiter []
| body_char c b :
    c <> BACKSLASH -> c <> delimiter -> literal_body delimiter b ->
    literal_body delimiter (c :: b)
| body_escape x b :
    literal_body delimiter b -> literal_body delimiter (BACKSLASH :: x :: b).

Lemma string_body_len_body delimiter body tail :
  literal_body delimiter body ->
  string_body_len delimiter (body ++ tail) = length body + string_body_len delimiter tail.
Proof.
  induction 1 as [|c b Hc Hd _ IH|x b _ IH]; simpl.
  - reflexivity.
  - apply Ascii.eqb_neq in Hc, Hd. rewrite Hc, Hd, IH. reflexivity.
  - rewrite IH. reflexivity.
Qed.

Lemma skipn_app_cons {A : Type} (pre : list A) x l :
  skipn (length pre + 1) (pre ++ x :: l) = l.
Proof.
  replace (length pre + 1) with (length (pre ++ [x])) by (rewrite length_app; reflexivity).
  replace (pre ++ x :: l) with ((pre ++ [x]) ++ l) by (rewrite <- app_assoc; reflexivity).
  rewrite skipn_app, skipn_all, Nat.sub_diag. reflexivity.
Qed.

(** X2.  [skip_string_literal], called on the opening delimiter of a
    literal, leaves the cursor right after the closing delimiter, escaped
    delimiters in the body not closing it; on a literal that is not closed
    it leaves the cursor at the end of the text, and one past the end when
    the text ends with a lone backslash. *)
Theorem skip_string_literal_spec (delimiter opening : ascii) (pre body rest : text) :
  delimiter <> BACKSLASH -> literal_body delimiter body ->
  skip_string_literal (pre ++ opening :: body ++ delimiter :: rest) (length pre) delimiter
    = length pre + 1 + length body + 1 /\
  skip_string_literal (pre ++ opening :: body) (length pre) delimiter
    = length (pre ++ opening :: body) /\
  skip_string_literal (pre ++ opening :: body ++ [BACKSLASH]) (length pre) delimiter
    = length (pre ++ opening :: body ++ [BACKSLASH]) + 1.
Proof.
  intros Hd Hb. unfold skip_string_literal. rewrite !skipn_app_cons.
  pose proof (string_body_len_body _ _ [] Hb) as E0. rewrite app_nil_r in E0.
  rewrite !(string_body_len_body _ _ _ Hb), E0.
  rewrite !length_app. cbn [length]. rewrite length_app. cbn [length string_body_len].
  rewrite Ascii.eqb_refl.
  replace (Ascii.eqb delimiter BACKSLASH) with false
    by (symmetry; apply Ascii.eqb_neq; exact Hd).
  change (Ascii.eqb BACKSLASH BACKSLASH) with true. cbv iota.
  repeat split; lia.
Qed.

Lemma skip_string_literal_spec_witness :
  skip_string_literal (str "x = " ++ QUOTE :: (str "a" ++ BACKSLASH :: QUOTE :: str "b")
                         ++ QUOTE :: str ";") 4 QUOTE = 10.
Proof.
  apply (skip_string_literal_spec QUOTE QUOTE (str "x = ")
           (str "a" ++ BACKSLASH :: QUOTE :: str "b") (str ";")).
  - discriminate.
  - simpl. apply body_char; [discriminate|discriminate|].
    apply body_escape. apply body_char; [discriminate|discriminate|]. apply body_end.
Defined.

(** X3.  [skip_whitespace_and_comments] returns a cursor at or after the
    one it was given, within the text when that one was; a second call
    there does not move it; and the character there, if any, is not white
    space. *)
Theorem skip_whitespace_and_comments_spec (t : text) (pos : nat) :
  exists p,
    skip_whitespace_and_comments t pos = Some p /\
    pos <= p /\ (pos <= length t -> p <= length t) /\
    skip_whitespace_and_comments t p = Some p /\
    (p < length t -> is_space (at_ t p) = false).
Proof.
  destruct (skip_whitespace_and_comments_total t pos) as (p & Hp & Hle).
  exists p. split; [exact Hp|]. split; [exact Hle|].
  unfold skip_whitespace_and_comments in *.
  match type of Hp with loop ?b ?f ?a = _ => set (body := b) in * end.
  assert (Hin : pos <= length t -> p <= length t).
  { intros H0. revert Hp.
    apply (Tree.loop_post body (fun a => a <= length t) (fun r => r <= length t));
      [|exact H0].
    intros a c Ha. unfold body.
    destruct (length t <=? a) eqn:E; [intros H; injection H as <-; exact Ha|].
    apply Nat.leb_gt in E.
    destruct (is_space (at_ t a)); [intros H; injection H as <-; lia|].
    destruct (Ascii.eqb (at_ t a) "/" && (a + 1 <? length t)) eqn:E2;
      [|intros H; injection H as <-; exact Ha].
    apply andb_true_iff in E2 as [_ E2]. apply Nat.ltb_lt in E2.
    destruct (Ascii.eqb (at_ t (a + 1)) "/").
    { intros H. injection H as <-. unfold skip_line. apply advance_while_le. lia. }
    destruct (Ascii.eqb (at_ t (a + 1)) "*"); intros H; injection H as <-; [|exact Ha].
    unfold skip_block. lia. }
  split; [exact Hin|].
  assert (Hexit : body p = Some (Exit p)).
  { revert Hp.
    apply (Tree.loop_post body (fun _ => True) (fun r => body r = Some (Exit r)));
      [|exact I].
    intros a c _. unfold body.
    destruct (length t <=? a) eqn:E.
    { intros H. injection H as <-. rewrite E. reflexivity. }
    destruct (is_space (at_ t a)) eqn:Es; [intros H; injection H as <-; exact I|].
    destruct (Ascii.eqb (at_ t a) "/" && (a + 1 <? length t)) eqn:E2.
    - destruct (Ascii.eqb (at_ t (a + 1)) "/") eqn:E3; [intros H; injection H as <-; exact I|].
      destruct (Ascii.eqb (at_ t (a + 1)) "*") eqn:E4; intros H; injection H as <-; [exact I|].
      rewrite E, Es, E2, E3, E4. reflexivity.
    - intros H. injection H as <-. rewrite E, Es, E2. reflexivity. }
  split.
  - cbn [loop]. rewrite Hexit. reflexivity.
  - intros Hlt. unfold body in Hexit.
    replace (length t <=? p) with false in Hexit by (symmetry; apply Nat.leb_gt; exact Hlt).
    destruct (is_space (at_ t p)); [discriminate|reflexivity].
Qed.

(** ** Whole-word search *)

Module Search.

Lemma prefixb_firstn a : forall b, prefixb a b = true <-> firstn (length a) b = a.
Proof.
  induction a as [|x a IH]; intros b; simpl; [split; reflexivity|].
  destruct b as [|y b]; [split; discriminate|].
  rewrite andb_true_iff, IH, Ascii.eqb_eq. split.
  - intros [-> ->]. reflexivity.
  - intros H. injection H as -> H. auto.
Qed.

Lemma prefixb_nil_r a : a <> [] -> prefixb a [] = false.
Proof. destruct a; [congruence|reflexivity]. Qed.

(** [find_sub] returns the first position where the token starts. *)
Lemma find_sub_some token : forall s k,
  find_sub token s = Some k ->
  prefixb token (skipn k s) = true /\
  forall j, j < k -> prefixb token (skipn j s) = false.
Proof.
  induction s as [|c s IH]; intros k.
  - cbn [find_sub]. destruct (prefixb token []) eqn:E; [|discriminate].
    intros H. injection H as <-. split; [exact E|]. intros j Hj. lia.
  - cbn [find_sub]. destruct (prefixb token (c :: s)) eqn:E.
    + intros H. injection H as <-. split; [exact E|]. intros j Hj. lia.
    + destruct (find_sub token s) as [k'|] eqn:F; [|discriminate].
      intros H. injection H as <-. destruct (IH k' eq_refl) as [H1 H2].
      split; [exact H1|]. intros [|j] Hj; [exact E|]. apply H2. lia.
Qed.

Lemma find_sub_none token : forall s,
  find_sub token s = None -> forall j, prefixb token (skipn j s) = false.
Proof.
  induction s as [|c s IH].
  - cbn [find_sub]. destruct (prefixb token []) eqn:E; [discriminate|].
    intros _ j. rewrite skipn_nil. exact E.
  - cbn [find_sub]. destruct (prefixb token (c :: s)) eqn:E; [discriminate|].
    destruct (find_sub token s) eqn:F; [discriminate|].
    intros _ [|j]; [exact E|]. apply IH. reflexivity.
Qed.

(** The token stands at [p], within the text. *)
Definition occurs_at (t token : text) (p : nat) : Prop :=
  p + length token <= length t /\ substr t p (length token) = token.

Lemma occurs_prefixb t token p :
  occurs_at t token p -> prefixb token (skipn p t) = true.
Proof. intros [_ H]. apply prefixb_firstn. exact H. Qed.

Lemma prefixb_occurs t token p :
  token <> [] -> prefixb token (skipn p t) = true -> occurs_at t token p.
Proof.
  intros Hne H. split; [|apply prefixb_firstn; exact H].
  apply prefixb_length in H. rewrite length_skipn in H.
  destruct token; [congruence|]. simpl in *. lia.
Qed.

(** The token stands at [p] as a word: the characters around it are not
    identifier characters. *)
Definition whole_word (t token : text) (p : nat) : Prop :=
  occurs_at t token p /\
  (p = 0 \/ is_identifier_char (at_ t (p - 1)) = false) /\
  (length t <= p + length token \/ is_identifier_char (at_ t (p + length token)) = false).

Lemma zero_not_identifier : is_identifier_char zero = false.
Proof. reflexivity. Qed.

Lemma occurs_char t token p i :
  occurs_at t token p -> i < length token -> at_ t (p + i) = at_ token i.
Proof.
  intros [Hle H] Hi. unfold at_.
  replace (nth i token zero) with (nth i (substr t p (length token)) zero)
    by (rewrite H; reflexivity).
  unfold substr.
  rewrite nth_firstn. replace (i <? length token) with true by (symmetry; apply Nat.ltb_lt; lia).
  rewrite nth_skipn. reflexivity.
Qed.

Lemma forallb_at P (s : text) i : forallb P s = true -> i < length s -> P (at_ s i) = true.
Proof.
  intros H Hi. rewrite forallb_forall in H. apply H. apply nth_In. exact Hi.
Qed.

Lemma find_identifier_first (t token : text) (position : nat) (r : option nat) :
  token <> [] -> forallb is_identifier_char token = true ->
  find_identifier t token position = Some r ->
  match r with
  | Some found =>
      position <= found /\ whole_word t token found /\
      forall q, position <= q -> q < found -> ~ whole_word t token q
  | None => forall q, position <= q -> ~ whole_word t token q
  end.
Proof.
  intros Hne Hid. unfold find_identifier.
  match goal with |- loop ?b ?f ?a = _ -> _ => set (body := b) end.
  apply (Tree.loop_post body
           (fun p => position <= p /\
                     forall q, position <= q -> q < p -> ~ whole_word t token q)
           (fun r =>
              match r with
              | Some found =>
                  position <= found /\ whole_word t token found /\
                  forall q, position <= q -> q < found -> ~ whole_word t token q
              | None => forall q, position <= q -> ~ whole_word t token q
              end)).
  2:{ split; [lia|]. intros q H1 H2. lia. }
  intros p c [Hp Hnone]. unfold body. unfold find_str.
  destruct (length t <? p) eqn:Elen.
  { intros H. injection H as <-. apply Nat.ltb_lt in Elen.
    intros q Hq Hw.
    destruct (Nat.lt_ge_cases q p) as [Hlt|Hge]; [exact (Hnone q Hq Hlt Hw)|].
    destruct Hw as [[Hle _] _]. destruct token; [congruence|]. simpl in Hle. lia. }
  apply Nat.ltb_ge in Elen.
  destruct (find_sub token (skipn p t)) as [k|] eqn:F; cbn [option_map].
  2:{ intros H. injection H as <-. intros q Hq Hw.
      destruct (Nat.lt_ge_cases q p) as [Hlt|Hge]; [exact (Hnone q Hq Hlt Hw)|].
      pose proof (find_sub_none _ _ F (q - p)) as Hn.
      rewrite skipn_skipn in Hn. replace (q - p + p) with q in Hn by lia.
      destruct Hw as [Ho _]. apply occurs_prefixb in Ho. congruence. }
  destruct (find_sub_some _ _ _ F) as [Hk Hfirst].
  rewrite skipn_skipn in Hk. replace (k + p) with (p + k) in Hk by lia.
  pose proof (prefixb_occurs _ _ _ Hne Hk) as Hocc.
  assert (Hbefore : forall q, position <= q -> q < p + k -> ~ whole_word t token q).
  { intros q Hq Hlt Hw.
    destruct (Nat.lt_ge_cases q p) as [Hlt'|Hge]; [exact (Hnone q Hq Hlt' Hw)|].
    pose proof (Hfirst (q - p) ltac:(lia)) as Hn.
    rewrite skipn_skipn in Hn. replace (q - p + p) with q in Hn by lia.
    destruct Hw as [Ho _]. apply occurs_prefixb in Ho. congruence. }
  match goal with |- context [negb (is_identifier_char ?b) && negb (is_identifier_char ?a)] =>
    set (before := b); set (after := a) end.
  destruct (negb (is_identifier_char before) && negb (is_identifier_char after)) eqn:Ew.
  - intros H. injection H as <-. split; [lia|]. split; [|exact Hbefore].
    apply andb_true_iff in Ew as [Eb Ea]. apply negb_true_iff in Eb, Ea.
    split; [exact Hocc|]. split.
    + subst before. destruct (p + k =? 0) eqn:E0; [apply Nat.eqb_eq in E0; auto|auto].
    + subst after. destruct (length t <=? p + k + length token) eqn:E1;
        [apply Nat.leb_le in E1; auto|auto].
  - intros H. injection H as <-. split; [lia|].
    intros q Hq Hlt Hw.
    destruct (Nat.lt_ge_cases q (p + k)) as [Hlt'|Hge]; [exact (Hbefore q Hq Hlt' Hw)|].
    destruct (Nat.eq_dec q (p + k)) as [->|Hneq].
    + (* the occurrence that was found is not a whole word *)
      destruct Hw as (_ & Hb & Ha).
      apply andb_false_iff in Ew as [Eb|Ea].
      * apply negb_false_iff in Eb. subst before.
        destruct (p + k =? 0) eqn:E0; [rewrite zero_not_identifier in Eb; discriminate|].
        apply Nat.eqb_neq in E0. destruct Hb as [Hb|Hb]; [lia|congruence].
      * apply negb_false_iff in Ea. subst after.
        destruct (length t <=? p + k + length token) eqn:E1;
          [rewrite zero_not_identifier in Ea; discriminate|].
        apply Nat.leb_gt in E1. destruct Ha as [Ha|Ha]; [lia|congruence].
    + (* an occurrence that overlaps it starts after one of its characters *)
      destruct Hw as (_ & Hb & _). destruct Hb as [Hb|Hb]; [lia|].
      replace (q - 1) with (p + k + (q - 1 - (p + k))) in Hb by lia.
      rewrite (occurs_char _ _ _ _ Hocc) in Hb by lia.
      rewrite (forallb_at _ _ _ Hid) in Hb by lia. discriminate.
Qed.

End Search.

(** X4.  For a token made of identifier characters, [find_identifier]
    returns the first position at or after [position] where the token
    stands as a whole word, and [npos] when there is none. *)
Theorem find_identifier_spec (t token : text) (position : nat) (r : option nat) :
  token <> [] -> forallb is_identifier_char token = true ->
  find_identifier t token position = Some r ->
  match r with
  | Some found =>
      position <= found /\ Search.whole_word t token found /\
      forall q, position <= q -> q < found -> ~ Search.whole_word t token q
  | None => forall q, position <= q -> ~ Search.whole_word t token q
  end.
Proof. apply Search.find_identifier_first. Qed.

Lemma find_identifier_spec_witness :
  find_identifier (str "Type T; T* p") (str "T") 0 = Some (Some 5) /\
  Search.whole_word (str "Type T; T* p") (str "T") 5 /\
  ~ Search.whole_word (str "Type T; T* p") (str "T") 0.
Proof.
  assert (E : find_identifier (str "Type T; T* p") (str "T") 0 = Some (Some 5))
    by (vm_compute; reflexivity).
  destruct (find_identifier_spec (str "Type T; T* p") (str "T") 0 (Some 5)
              ltac:(discriminate) eq_refl E) as (_ & Hw & Hn).
  split; [exact E|]. split; [exact Hw|]. apply Hn; lia.
Defined.

(** * Names of specializations *)

(** A C identifier: a letter or [_], then letters, digits and [_]. *)
Definition is_identifier (s : text) : bool :=
  match s with
  | c :: _ => is_identifier_start c && forallb is_identifier_char s
  | [] => false
  end.

Module Identifiers.

(** What the sanitizer keeps in its buffer. *)
Definition buffered (c : ascii) : bool := is_identifier_char c || Ascii.eqb c ".".

Lemma forallb_snoc {A : Type} (P : A -> bool) l x :
  forallb P (l ++ [x]) = forallb P l && P x.
Proof. rewrite forallb_app. simpl. rewrite andb_true_r. reflexivity. Qed.

Lemma push_sep_buffered result :
  forallb buffered result = true -> forallb buffered (push_sep result) = true.
Proof.
  intros H. unfold push_sep.
  destruct (negb (is_empty result) && negb (back_is "_" result)); [|exact H].
  rewrite forallb_snoc, H. reflexivity.
Qed.

Lemma push_word_buffered result w :
  forallb buffered result = true -> forallb buffered w = true ->
  forallb buffered (push_sep (push_sep result ++ w)) = true.
Proof.
  intros H Hw. apply push_sep_buffered. rewrite forallb_app, Hw, push_sep_buffered; auto.
Qed.

Lemma kept_buffered c : is_alnum c || Ascii.eqb c "_" = true -> buffered c = true.
Proof. intros H. unfold buffered, is_identifier_char. rewrite H. reflexivity. Qed.

Lemma sanitize_char_buffered result c :
  forallb buffered result = true -> forallb buffered (sanitize_char result c) = true.
Proof.
  intros H. unfold sanitize_char.
  destruct (is_alnum c || Ascii.eqb c "_") eqn:E.
  { rewrite forallb_snoc, H, (kept_buffered c E). reflexivity. }
  repeat match goal with
         | |- context [if ?b then _ else _] => destruct b
         end;
    first [apply push_sep_buffered; exact H
          |apply push_word_buffered; [exact H|reflexivity]].
Qed.

Lemma fold_sanitize_buffered token : forall result,
  forallb buffered result = true ->
  forallb buffered (fold_left sanitize_char token result) = true.
Proof.
  induction token as [|c token IH]; intros result H; simpl; [exact H|].
  apply IH, sanitize_char_buffered, H.
Qed.

Lemma undot_char c :
  buffered c = true -> is_identifier_char (if Ascii.eqb c "." then "_" else c) = true.
Proof.
  char_fact (fun c => implb (buffered c)
                        (is_identifier_char (if Ascii.eqb c "." then "_" else c))) c.
Qed.

Lemma undot_start c :
  buffered c = true -> is_digit c = false ->
  is_identifier_start (if Ascii.eqb c "." then "_" else c) = true.
Proof.
  char_fact (fun c => implb (buffered c && negb (is_digit c))
                        (is_identifier_start (if Ascii.eqb c "." then "_" else c))) c.
Qed.

Lemma undot_buffered result :
  forallb buffered result = true ->
  forallb is_identifier_char
    (map (fun c => if Ascii.eqb c "." then "_" else c) result) = true.
Proof.
  induction result as [|c r IH]; simpl; [reflexivity|].
  intros H. apply andb_true_iff in H as [Hc Hr].
  rewrite (undot_char c Hc), IH; auto.
Qed.

Lemma scope_char c :
  is_identifier_char
    (if is_alnum c || Ascii.eqb c "_" then c else if Ascii.eqb c "." then "_" else "_")
  = true.
Proof.
  unfold is_identifier_char.
  destruct (is_alnum c || Ascii.eqb c "_") eqn:E; [exact E|].
  destruct (Ascii.eqb c "."); reflexivity.
Qed.

Lemma sanitize_scope_name_chars path :
  forallb is_identifier_char (sanitize_scope_name path) = true.
Proof.
  unfold sanitize_scope_name. induction path as [|c r IH]; simpl; [reflexivity|].
  rewrite scope_char, IH. reflexivity.
Qed.

Lemma is_identifier_chars s : is_identifier s = true -> forallb is_identifier_char s = true.
Proof.
  destruct s as [|c s]; [discriminate|]. unfold is_identifier.
  intros H. apply andb_true_iff in H as [_ H]. exact H.
Qed.

Lemma is_identifier_app a b :
  is_identifier a = true -> forallb is_identifier_char b = true ->
  is_identifier (a ++ b) = true.
Proof.
  destruct a as [|c a]; [discriminate|]. unfold is_identifier. simpl.
  intros H Hb. apply andb_true_iff in H as [H1 H2]. apply andb_true_iff in H2 as [H2 H3].
  rewrite H1, H2, forallb_app, H3, Hb. reflexivity.
Qed.

Lemma sanitize_token_ok (token : text) :
  is_identifier (sanitize_token token) = true.
Proof.
  unfold sanitize_token.
  pose proof (fold_sanitize_buffered token [] eq_refl) as H.
  set (r0 := fold_left sanitize_char token []) in *.
  assert (H1 : forallb buffered (if front_is "_" r0 then tl r0 else r0) = true).
  { destruct (front_is "_" r0); [|exact H].
    destruct r0 as [|c r]; [reflexivity|]. simpl in H.
    apply andb_true_iff in H as [_ H]. exact H. }
  set (r1 := if front_is "_" r0 then tl r0 else r0) in *. clearbody r1. clear H r0.
  cbv zeta.
  destruct r1 as [|c r]; [reflexivity|].
  simpl in H1. apply andb_true_iff in H1 as [Hc Hr].
  destruct (is_digit c) eqn:Ed.
  - cbn [is_empty map is_identifier forallb].
    rewrite (undot_char c Hc), (undot_buffered r Hr). reflexivity.
  - cbn [is_empty map is_identifier forallb].
    rewrite (undot_start c Hc Ed), (undot_char c Hc),
      (undot_buffered r Hr). reflexivity.
Qed.

End Identifiers.

(** X5.  Whatever the token, [sanitize_token] returns a C identifier: it
    is not empty, starts with a letter or [_], and is made of letters,
    digits and [_]. *)
Theorem sanitize_token_identifier (token : text) :
  is_identifier (sanitize_token token) = true.
Proof. apply Identifiers.sanitize_token_ok. Qed.

(** The name of the definition is an identifier, the cache points into
    the vector of specializations, and every specialization has an
    identifier for name. *)
Definition specializations_ok (def : TemplateDefinition) : Prop :=
  is_identifier (m_name def) = true /\
  Forall (fun e => snd e < length (m_specializations def)) (m_specialization_index def) /\
  Forall (fun s => is_identifier (s_sanitized_name s) = true) (m_specializations def).

Module SpecNames.

Lemma assoc_find_In {V : Type} k (m : list (text * V)) v :
  assoc_find k m = Some v -> exists k', In (k', v) m /\ k' = k.
Proof.
  induction m as [|[k' v'] m IH]; simpl; [discriminate|].
  destruct (text_eqb k k') eqn:E.
  - intros H. injection H as <-. apply text_eqb_eq in E. eauto.
  - intros H. destruct (IH H) as (k'' & Hin & Hk). eauto.
Qed.

Lemma suffix_chars args : forallb is_identifier_char (Names.suffix args) = true.
Proof.
  unfold Names.suffix. induction args as [|a args IH]; simpl; [reflexivity|].
  rewrite forallb_app, IH, andb_true_r.
  apply Identifiers.is_identifier_chars, Identifiers.sanitize_token_ok.
Qed.

Lemma new_name_identifier def args hint :
  is_identifier (m_name def) = true ->
  forallb is_identifier_char hint = true ->
  is_identifier
    (fold_left (fun name arg => name ++ str "_" ++ sanitize_token arg) args
       (m_name def ++ (if negb (is_empty hint) then str "_" ++ hint else []))) = true.
Proof.
  intros Hn Hh. rewrite Names.fold_name, <- app_assoc.
  apply Identifiers.is_identifier_app; [exact Hn|].
  rewrite forallb_app, suffix_chars, andb_true_r.
  destruct (negb (is_empty hint)); [exact Hh|reflexivity].
Qed.

Lemma scope_hint_chars def prefix current_scope :
  forallb is_identifier_char (scope_hint_of def prefix current_scope) = true.
Proof.
  unfold scope_hint_of.
  destruct (negb (is_empty prefix)); [apply Identifiers.sanitize_scope_name_chars|].
  destruct (negb (is_empty (m_scope_path def))); apply Identifiers.sanitize_scope_name_chars.
Qed.

Lemma register_names (def def' : TemplateDefinition) (args : list text)
    (prefix current_scope : text) (spec : Specialization) :
  specializations_ok def ->
  register_specialization def args prefix current_scope = Some (def', spec) ->
  specializations_ok def' /\
  In spec (m_specializations def') /\
  is_identifier (s_sanitized_name spec) = true.
Proof.
  intros (Hn & Hi & Hs). unfold register_specialization. cbv zeta.
  destruct (assoc_find _ (m_specialization_index def)) as [i|] eqn:Ef.
  - intros H. injection H as <- <-.
    destruct (assoc_find_In _ _ _ Ef) as (k & Hin & _).
    pose proof Hi as Hi'. rewrite Forall_forall in Hi'.
    specialize (Hi' _ Hin). simpl in Hi'.
    pose proof (nth_In _ default_spec Hi') as Hnth.
    split; [exact (conj Hn (conj Hi Hs))|]. split; [exact Hnth|].
    rewrite Forall_forall in Hs. apply Hs, Hnth.
  - destruct (replace_parameters (m_between def) _ _) as [between|]; [|discriminate].
    destruct (replace_parameters (m_body def) _ _) as [body|]; [|discriminate].
    cbn [bind].
    destruct (evaluate_bracket_expressions body) as [body'|]; [|discriminate].
    destruct (replace_parameters (m_closing def) _ _) as [closing|]; [|discriminate].
    cbn [bind]. intros H. injection H as <- <-.
    pose proof (new_name_identifier def args _ Hn
                  (scope_hint_chars def prefix current_scope)) as Hnew.
    split; [|split; [simpl; apply in_or_app; right; left; reflexivity|exact Hnew]].
    unfold specializations_ok, with_specialization. simpl.
    split; [exact Hn|]. split.
    + apply Forall_app. split.
      * eapply Forall_impl; [|exact Hi]. intros e He. rewrite length_app. simpl in *. lia.
      * constructor; [|constructor]. simpl. rewrite length_app. simpl. lia.
    + apply Forall_app. split; [exact Hs|]. constructor; [exact Hnew|constructor].
Qed.

End SpecNames.

(** X6.  [register_specialization] keeps the cache of a definition sound,
    and the specialization it returns, new or cached, is one of the
    definition's and has a C identifier for name. *)
Theorem register_specialization_names (def def' : TemplateDefinition) (args : list text)
    (prefix current_scope : text) (spec : Specialization) :
  specializations_ok def ->
  register_specialization def args prefix current_scope = Some (def', spec) ->
  specializations_ok def' /\
  In spec (m_specializations def') /\
  is_identifier (s_sanitized_name spec) = true.
Proof. apply SpecNames.register_names. Qed.

(** * Invariants of the file transformer *)

(** What one trip through the main loop does to the state: it copies a
    piece of the text, or handles a brace, a definition or a use site. *)
Inductive step_shape (t : text) (s s' : State) : Prop :=
| shape_copy p ps :
    pos s < p ->
    s' = mkState (output s ++ substr t (pos s) (p - pos s)) p (brace_depth s)
           (scope_stack s) ps (definitions s) (lookup s) (had_templates s) ->
    step_shape t s s'
| shape_open :
    at_ t (pos s) = "{" -> s' = on_open_brace s -> step_shape t s s'
| shape_close :
    at_ t (pos s) = "}" -> s' = on_close_brace s -> step_shape t s s'
| shape_definition def :
    parse_template_definition t (pos s) = Some (Some def) ->
    on_definition s def = Some s' -> step_shape t s s'
| shape_use ps token lookahead args args_end :
    is_type_char (at_ t (pos s)) = true ->
    token = substr t (pos s) (advance_while is_type_char t (pos s) - pos s) ->
    parse_template_arguments t lookahead = Some (args, args_end) ->
    on_use_site (with_pending s ps) token args args_end = Some (Some s') ->
    step_shape t s s'.

Module Steps.

Lemma substr_one t p : p < length t -> substr t p 1 = [at_ t p].
Proof.
  intros H. unfold substr. rewrite (skipn_at t p H). reflexivity.
Qed.

Lemma copy_char t s ps :
  pos s < length t ->
  step_shape t s
    (mkState (output s ++ [at_ t (pos s)]) (pos s + 1) (brace_depth s) (scope_stack s) ps
       (definitions s) (lookup s) (had_templates s)).
Proof.
  intros H. apply (shape_copy t s _ (pos s + 1) ps); [lia|].
  replace (pos s + 1 - pos s) with 1 by lia. rewrite (substr_one t _ H). reflexivity.
Qed.

Lemma on_token_shape t s s' :
  pos s < length t -> is_type_char (at_ t (pos s)) = true ->
  on_token t s = Some s' -> step_shape t s s'.
Proof.
  intros Hp Hc. unfold on_token. cbv zeta.
  pose proof (type_char_at t (pos s) Hp Hc) as Ha.
  set (p := advance_while is_type_char t (pos s)) in *.
  match goal with |- context [if ?b then Some (mkState _ _ _ _ _ _ _ _) else _] =>
    destruct b end.
  { intros H. injection H as <-. eapply shape_copy; [exact Ha|reflexivity]. }
  destruct (skip_whitespace_and_comments_total t p) as (la & -> & Hla). cbn [bind].
  destruct ((la <? length t) && Ascii.eqb (at_ t la) "<") eqn:E.
  - apply andb_true_iff in E as [E1 E2]. apply Nat.ltb_lt in E1. apply Ascii.eqb_eq in E2.
    destruct (parse_template_arguments_total t la) as (args & args_end & Hargs & Hend).
    rewrite Hargs. specialize (Hend E1 E2). cbn [bind].
    destruct (on_use_site _ _ args args_end) as [[s1|]|] eqn:Eu; cbn [bind];
      [| |discriminate].
    + intros H. injection H as <-.
      eapply shape_use; [exact Hc|reflexivity|exact Hargs|exact Eu].
    + intros H. injection H as <-. eapply shape_copy; [|reflexivity]. simpl. lia.
  - intros H. injection H as <-. eapply shape_copy; [exact Ha|reflexivity].
Qed.

Lemma on_other_shape t s s' :
  pos s < length t -> on_other t s = Some s' -> step_shape t s s'.
Proof.
  intros Hp. unfold on_other. cbv zeta.
  destruct (Ascii.eqb (at_ t (pos s)) "{") eqn:E1.
  { intros H. injection H as <-. apply Ascii.eqb_eq in E1.
    apply shape_open; [exact E1|reflexivity]. }
  destruct (Ascii.eqb (at_ t (pos s)) "}") eqn:E2.
  { intros H. injection H as <-. apply Ascii.eqb_eq in E2.
    apply shape_close; [exact E2|reflexivity]. }
  destruct (Ascii.eqb (at_ t (pos s)) ";") eqn:E3.
  { intros H. injection H as <-. apply Ascii.eqb_eq in E3.
    rewrite <- E3. apply (copy_char t s no_pending Hp). }
  destruct (is_space (at_ t (pos s))).
  { intros H. injection H as <-. apply (copy_char t s (pending_scope s) Hp). }
  destruct (is_type_char (at_ t (pos s))) eqn:E5.
  { apply on_token_shape; assumption. }
  intros H. injection H as <-. apply (copy_char t s (pending_scope s) Hp).
Qed.

Lemma process_step_shape t s s' :
  pos s < length t -> process_step t s = Some s' -> step_shape t s s'.
Proof.
  intros Hp. unfold process_step. cbv zeta.
  destruct (skip_quoted_or_comment 2 t (pos s)) as [p|] eqn:Eq.
  { apply skip_quoted_or_comment_gt in Eq; [|exact Hp].
    intros H. injection H as <-. eapply shape_copy; [exact Eq|reflexivity]. }
  destruct (is_alpha (at_ t (pos s)) || Ascii.eqb (at_ t (pos s)) "_");
    [|apply on_other_shape; exact Hp].
  destruct (parse_template_definition t (pos s)) as [[def|]|] eqn:Ed; cbn [bind];
    [| |discriminate].
  - intros H. eapply shape_definition; [exact Ed|exact H].
  - apply on_other_shape; exact Hp.
Qed.

End Steps.

(** ** Texts without templates *)

(** The text has no [<], or has neither [struct] nor [class]. *)
Definition template_free (t : text) : Prop :=
  forallb (fun c => negb (Ascii.eqb c "<")) t = true \/
  (find_sub (str "struct") t = None /\ find_sub (str "class") t = None).

Module Identity.

Lemma firstn_plus {A : Type} (l : list A) n : forall a,
  firstn a l ++ firstn n (skipn a l) = firstn (a + n) l.
Proof.
  induction l as [|x l IH]; intros a.
  - rewrite skipn_nil, !firstn_nil. reflexivity.
  - destruct a as [|a]; [reflexivity|]. simpl. rewrite IH. reflexivity.
Qed.

Lemma firstn_substr (t : text) a b : a <= b -> firstn a t ++ substr t a (b - a) = firstn b t.
Proof.
  intros H. unfold substr. rewrite firstn_plus. f_equal. lia.
Qed.

Lemma firstn_snoc_at (t : text) p : p < length t -> firstn p t ++ [at_ t p] = firstn (p + 1) t.
Proof.
  intros H. rewrite <- (Steps.substr_one t p H).
  replace 1 with (p + 1 - p) at 1 by lia. apply firstn_substr. lia.
Qed.

Lemma match_keyword_occurs t p keyword :
  match_keyword t p keyword = true -> prefixb keyword (skipn p t) = true.
Proof.
  unfold match_keyword. destruct (length t <? p + length keyword); [discriminate|].
  destruct (_ || _); [discriminate|].
  intros H. apply text_eqb_eq in H. apply Search.prefixb_firstn. exact H.
Qed.

(** In a text without templates no definition is parsed, wherever the
    parser is started. *)
Lemma no_definition t p def :
  template_free t -> parse_template_definition t p <> Some (Some def).
Proof.
  intros Hfree. unfold parse_template_definition. cbv zeta.
  destruct (skip_whitespace_and_comments t p) as [c0|]; [|discriminate]. cbn [bind].
  destruct (negb (match_keyword t c0 (str "struct"))
            && negb (match_keyword t c0 (str "class"))) eqn:Ek; [discriminate|].
  destruct (skip_whitespace_and_comments t _) as [c2|]; [|discriminate]. cbn [bind].
  match goal with |- context [if ?b then Some None else _] => destruct b end;
    [discriminate|].
  destruct (skip_whitespace_and_comments t _) as [c4|]; [|discriminate]. cbn [bind].
  destruct ((length t <=? c4) || negb (Ascii.eqb (at_ t c4) "<")) eqn:Elt; [discriminate|].
  exfalso. apply orb_false_iff in Elt as [E1 E2].
  apply Nat.leb_gt in E1. apply negb_false_iff in E2.
  destruct Hfree as [Hno|[Hs Hc]].
  - pose proof (Search.forallb_at _ _ _ Hno E1) as H. simpl in H. rewrite E2 in H. discriminate.
  - apply andb_false_iff in Ek as [Ek|Ek]; apply negb_false_iff in Ek;
      apply match_keyword_occurs in Ek.
    + rewrite (Search.find_sub_none _ _ Hs c0) in Ek. discriminate.
    + rewrite (Search.find_sub_none _ _ Hc c0) in Ek. discriminate.
Qed.

Lemma no_use_site s token args args_end :
  lookup s = mkLookup [] [] ->
  on_use_site s token args args_end = Some None.
Proof.
  intros Hl. unfold on_use_site. destruct args as [|a args]; [reflexivity|].
  cbv zeta. unfold resolve. rewrite Hl. cbn [m_by_full m_by_name assoc_find].
  destruct (rfind_char_all "." token); reflexivity.
Qed.

(** The state of a run in which nothing was recognized. *)
Definition verbatim (t : text) (s : State) : Prop :=
  output s = firstn (pos s) t /\ lookup s = mkLookup [] [] /\ had_templates s = false.

Lemma verbatim_step t s s' :
  template_free t -> pos s < length t -> verbatim t s ->
  process_step t s = Some s' -> verbatim t s'.
Proof.
  intros Hfree Hp (Ho & Hl & Hh) Hs.
  destruct (Steps.process_step_shape t s s' Hp Hs)
    as [p ps Hlt ->|Hc ->|Hc ->|def Hd _|ps token la args args_end _ _ _ Hu].
  - repeat split; simpl; auto. rewrite Ho. apply firstn_substr. lia.
  - unfold on_open_brace. cbv zeta.
    destruct (m_expect_brace (pending_scope s)); repeat split; simpl; auto;
      rewrite Ho, <- Hc; apply (firstn_snoc_at t _ Hp).
  - repeat split; simpl; auto. rewrite Ho, <- Hc. apply (firstn_snoc_at t _ Hp).
  - exfalso. exact (no_definition t _ def Hfree Hd).
  - rewrite no_use_site in Hu by exact Hl. discriminate.
Qed.

(** Such a state is never one in which the transformer stops. *)
Lemma verbatim_token t s :
  lookup s = mkLookup [] [] -> on_token t s <> None.
Proof.
  intros Hl. unfold on_token. cbv zeta.
  match goal with |- context [if ?b then Some (mkState _ _ _ _ _ _ _ _) else _] =>
    destruct b end; [discriminate|].
  match goal with |- context [skip_whitespace_and_comments t ?p] =>
    destruct (skip_whitespace_and_comments_total t p) as (la & -> & _) end.
  cbn [bind]. destruct ((la <? length t) && Ascii.eqb (at_ t la) "<"); [|discriminate].
  destruct (parse_template_arguments_total t la) as (args & args_end & -> & _).
  cbn [bind]. rewrite no_use_site by exact Hl. discriminate.
Qed.

Lemma verbatim_returns t s :
  template_free t -> verbatim t s -> process_step t s <> None.
Proof.
  intros Hfree (_ & Hl & _).
  assert (Hother : on_other t s <> None).
  { unfold on_other. cbv zeta.
    repeat match goal with
           | |- (if ?b then Some _ else _) <> None => destruct b; [discriminate|]
           end.
    destruct (is_type_char _); [apply verbatim_token; exact Hl|discriminate]. }
  unfold process_step. cbv zeta.
  destruct (skip_quoted_or_comment 2 t (pos s)); [discriminate|].
  destruct (is_alpha (at_ t (pos s)) || Ascii.eqb (at_ t (pos s)) "_"); [|exact Hother].
  destruct (parse_template_definition_total t (pos s)) as (r & E & _).
  rewrite E. cbn [bind]. destruct r as [def|]; [|exact Hother].
  exfalso. exact (no_definition t _ def Hfree E).
Qed.

End Identity.

(** X7.  A text that has no [<], or that has neither [struct] nor
    [class], goes through the file transformer unchanged, and is reported
    as having no templates; its imports are those of the text. *)
Theorem transformer_identity (file_path : path) (t : text) :
  template_free t ->
  exists imports,
    process_file_content file_path t
      = Some {| m_processed_content := t; m_had_templates := false; m_imports := imports |} /\
    extract_imports t file_path = Some imports.
Proof.
  intros Hfree. unfold process_file_content.
  assert (Hinit : Identity.verbatim t initial_state) by (repeat split).
  destruct (process_loop t (S (length t)) initial_state) as [s|] eqn:Hs.
  2:{ exfalso.
      apply (process_loop_stops t (Identity.verbatim t)) in Hs; [|..|exact Hinit].
      - destruct Hs as (a & Ha & _ & E). exact (Identity.verbatim_returns t a Hfree Ha E).
      - intros a a' Ha Hp E. exact (Identity.verbatim_step t a a' Hfree Hp Ha E). }
  cbn [bind].
  assert (H : output s = t /\ had_templates s = false).
  { revert Hs. unfold process_loop.
    apply (Tree.loop_post _ (Identity.verbatim t)
             (fun r => output r = t /\ had_templates r = false)).
    - intros a c Ha. destruct (length t <=? pos a) eqn:E.
      + intros H. injection H as <-. apply Nat.leb_le in E.
        destruct Ha as (Ho & _ & Hh). split; [|exact Hh].
        rewrite Ho. apply firstn_all2. exact E.
      + apply Nat.leb_gt in E.
        destruct (process_step t a) as [a'|] eqn:Ea; [|discriminate].
        intros H. injection H as <-.
        exact (Identity.verbatim_step t a a' Hfree E Ha Ea).
    - repeat split. }
  destruct H as [-> ->].
  destruct (extract_imports_total t file_path) as (imports & Hi).
  rewrite Hi. exists imports. split; reflexivity.
Qed.

Definition plain_header : text :=
  str "enum Color { Red, Green };
int table[2 + 2];
bool less = 1 < 2;".

Lemma transformer_identity_witness :
  exists imports,
    process_file_content [] plain_header
      = Some {| m_processed_content := plain_header;
                m_had_templates := false; m_imports := imports |} /\
    extract_imports plain_header [] = Some imports.
Proof.
  apply (transformer_identity [] plain_header).
  right. split; reflexivity.
Defined.

(** ** What the transformer keeps true of its state *)

(** The frames from the back of the stack to its bottom: the depths
    decrease strictly, none is over [bound], and the bottom frame is the
    global scope, at depth 0 with an empty path. *)
Fixpoint stack_sorted (bound : nat) (stack : list ScopeFrame) : Prop :=
  match stack with
  | [] => False
  | [f] => f_path f = [] /\ f_depth f = 0
  | f :: rest => 0 < f_depth f /\ f_depth f <= bound /\ stack_sorted (f_depth f - 1) rest
  end.

(** The entries of the lookup are definitions of the vector, filed under
    their own names. *)
Definition lookup_ok (definitions : list TemplateDefinition) (lookup : DefinitionLookup)
  : Prop :=
  Forall (fun e => exists d, nth_error definitions (snd e) = Some d /\ full_name d = fst e)
         (m_by_full lookup) /\
  Forall (fun e => Forall (fun i => exists d, nth_error definitions i = Some d
                                              /\ m_name d = fst e) (snd e))
         (m_by_name lookup).

Record state_ok (s : State) : Prop := {
  ok_stack : stack_sorted (brace_depth s) (scope_stack s);
  ok_names : Forall specializations_ok (definitions s);
  ok_lookup : lookup_ok (definitions s) (lookup s)
}.

Module Invariants.

Lemma stack_sorted_weaken stack : forall b b',
  b <= b' -> stack_sorted b stack -> stack_sorted b' stack.
Proof.
  destruct stack as [|f [|g r]]; intros b b' Hb; simpl; auto.
  intros (H1 & H2 & H3). repeat split; auto. lia.
Qed.

Lemma pop_frames_sorted depth : forall stack b,
  stack_sorted b stack -> stack_sorted depth (pop_frames stack depth).
Proof.
  induction stack as [|f rest IH]; intros b H; [exact H|].
  destruct rest as [|g r]; [exact H|].
  destruct H as (H1 & H2 & H3). cbn [pop_frames].
  destruct (depth <? f_depth f) eqn:E.
  - apply (IH _ H3).
  - apply Nat.ltb_ge in E. cbn [stack_sorted]. repeat split; auto.
Qed.

Lemma stack_sorted_back b stack scope :
  stack_sorted b stack ->
  f_path scope = f_path (back stack) -> f_depth scope = f_depth (back stack) ->
  stack_sorted b (scope :: tl stack).
Proof.
  destruct stack as [|f [|g r]]; simpl; [tauto| |].
  - intros [H1 H2] -> ->. auto.
  - intros (H1 & H2 & H3) _ ->. auto.
Qed.

Lemma span_len_forallb P s : forallb P (firstn (span_len P s) s) = true.
Proof.
  induction s as [|c r IH]; simpl; [reflexivity|].
  destruct (P c) eqn:E; [simpl; rewrite E; exact IH|reflexivity].
Qed.

Lemma identifier_run t p :
  p < length t -> is_identifier_start (at_ t p) = true ->
  is_identifier (substr t p (advance_while is_identifier_char t p - p)) = true.
Proof.
  intros Hp Hs. unfold advance_while, substr.
  replace (p + span_len is_identifier_char (skipn p t) - p)
    with (span_len is_identifier_char (skipn p t)) by lia.
  pose proof (span_len_forallb is_identifier_char (skipn p t)) as H.
  rewrite (skipn_at t p Hp) in *. simpl in *.
  rewrite (identifier_start_char _ Hs) in *. simpl in *. rewrite Hs. exact H.
Qed.

(** A definition that was just parsed has an identifier for name and an
    empty cache. *)
Lemma parse_template_definition_fresh t p def :
  parse_template_definition t p = Some (Some def) ->
  is_identifier (m_name def) = true /\
  m_specializations def = [] /\ m_specialization_index def = [].
Proof.
  unfold parse_template_definition. cbv zeta.
  destruct (skip_whitespace_and_comments t p) as [c0|]; [|discriminate]. cbn [bind].
  match goal with |- context [if ?b then Some None else _] => destruct b end;
    [discriminate|].
  destruct (skip_whitespace_and_comments t _) as [c2|]; [|discriminate]. cbn [bind].
  destruct ((length t <=? c2) || negb (is_identifier_start (at_ t c2))) eqn:E2;
    [discriminate|].
  apply orb_false_iff in E2 as [E2 E3]. apply Nat.leb_gt in E2. apply negb_false_iff in E3.
  destruct (skip_whitespace_and_comments t _) as [c4|]; [|discriminate]. cbn [bind].
  match goal with |- context [if ?b then Some None else _] => destruct b end;
    [discriminate|].
  destruct (scan_balanced "<" ">" t _ 1) as [[c5 d5]|]; [|discriminate]. cbn [bind].
  match goal with |- context [if ?b then Some None else _] => destruct b end;
    [discriminate|].
  destruct (split_template_parameters _); [discriminate|].
  destruct (scan_to_brace t _) as [c6|]; [|discriminate]. cbn [bind].
  match goal with |- context [if ?b then Some None else _] => destruct b end;
    [discriminate|].
  destruct (scan_balanced "{" "}" t _ 1) as [[c7 d7]|]; [|discriminate]. cbn [bind].
  match goal with |- context [if ?b then Some None else _] => destruct b end;
    [discriminate|].
  intros H. injection H as <-. simpl.
  split; [apply identifier_run; assumption|]. split; reflexivity.
Qed.

Lemma register_specialization_same def args prefix current_scope def' spec :
  register_specialization def args prefix current_scope = Some (def', spec) ->
  m_name def' = m_name def /\ m_scope_path def' = m_scope_path def.
Proof.
  unfold register_specialization. cbv zeta.
  destruct (assoc_find _ _); [intros H; injection H as <- _; split; reflexivity|].
  destruct (replace_parameters (m_between def) _ _); [|discriminate].
  destruct (replace_parameters (m_body def) _ _) as [body|]; [|discriminate]. cbn [bind].
  destruct (evaluate_bracket_expressions body); [|discriminate].
  destruct (replace_parameters (m_closing def) _ _); [|discriminate]. cbn [bind].
  intros H. injection H as <- _. split; reflexivity.
Qed.

Lemma nth_error_set_nth {A : Type} (x : A) : forall l i j,
  nth_error (set_nth i x l) j
    = if (j =? i) && (i <? length l) then Some x else nth_error l j.
Proof.
  induction l as [|y l IH]; intros i j.
  - destruct i; simpl; rewrite andb_false_r; reflexivity.
  - destruct i as [|i], j as [|j]; simpl; try reflexivity.
    rewrite IH. reflexivity.
Qed.

Lemma assoc_set_Forall {V : Type} (P : text * V -> Prop) k v : forall m,
  P (k, v) -> Forall P m -> Forall P (assoc_set k v m).
Proof.
  induction m as [|[k' v'] m IH]; intros Hk Hm; simpl.
  - constructor; [exact Hk|constructor].
  - inversion Hm; subst. destruct (text_eqb k k'); constructor; auto.
Qed.

Lemma assoc_find_Forall {V : Type} (P : text * V -> Prop) k (m : list (text * V)) v :
  Forall P m -> assoc_find k m = Some v -> P (k, v).
Proof.
  induction m as [|[k' v'] m IH]; intros Hm; simpl; [discriminate|].
  inversion Hm; subst. destruct (text_eqb k k') eqn:E.
  - intros H. injection H as <-. apply text_eqb_eq in E. subst. assumption.
  - apply IH. assumption.
Qed.

(** The lookup stays sound when a definition of the vector is replaced by
    one of the same names. *)
Lemma lookup_ok_replace definitions lookup i def def' :
  lookup_ok definitions lookup ->
  nth_error definitions i = Some def ->
  m_name def' = m_name def -> m_scope_path def' = m_scope_path def ->
  lookup_ok (set_nth i def' definitions) lookup.
Proof.
  intros [Hf Hn] Hi Hname Hpath.
  assert (Hfull : full_name def' = full_name def).
  { unfold full_name. rewrite Hname, Hpath. reflexivity. }
  assert (Hstep : forall j d, nth_error definitions j = Some d ->
            exists d', nth_error (set_nth i def' definitions) j = Some d'
                       /\ m_name d' = m_name d /\ full_name d' = full_name d).
  { intros j d Hj. rewrite nth_error_set_nth.
    destruct ((j =? i) && (i <? length definitions)) eqn:E.
    - apply andb_true_iff in E as [E _]. apply Nat.eqb_eq in E. subst j.
      rewrite Hi in Hj. injection Hj as <-. eauto.
    - eauto. }
  split.
  - eapply Forall_impl; [|exact Hf]. intros e (d & Hd & He).
    destruct (Hstep _ _ Hd) as (d' & Hd' & _ & Hf'). exists d'. split; [exact Hd'|congruence].
  - eapply Forall_impl; [|exact Hn]. intros e He.
    eapply Forall_impl; [|exact He]. intros j (d & Hd & Hm).
    destruct (Hstep _ _ Hd) as (d' & Hd' & Hn' & _). exists d'. split; [exact Hd'|congruence].
Qed.

(** The lookup stays sound when a definition is appended and registered. *)
Lemma lookup_ok_register definitions lookup def :
  lookup_ok definitions lookup ->
  lookup_ok (definitions ++ [def]) (register_definition lookup def (length definitions)).
Proof.
  intros [Hf Hn].
  assert (Hold : forall j d, nth_error definitions j = Some d ->
                             nth_error (definitions ++ [def]) j = Some d).
  { intros j d Hj. rewrite nth_error_app1; [exact Hj|].
    apply nth_error_Some. congruence. }
  assert (Hnew : nth_error (definitions ++ [def]) (length definitions) = Some def).
  { rewrite nth_error_app2, Nat.sub_diag by lia. reflexivity. }
  assert (Hn' : Forall (fun e => Forall (fun i => exists d,
                   nth_error (definitions ++ [def]) i = Some d /\ m_name d = fst e) (snd e))
                  (m_by_name lookup)).
  { eapply Forall_impl; [|exact Hn]. intros e He.
    eapply Forall_impl; [|exact He]. intros j (d & Hd & Hm). eauto. }
  split; unfold register_definition; cbn [m_by_full m_by_name].
  - apply assoc_set_Forall; [simpl; eauto|].
    eapply Forall_impl; [|exact Hf]. intros e (d & Hd & He). eauto.
  - apply assoc_set_Forall; [|exact Hn']. cbn [fst snd].
    destruct (assoc_find (m_name def) (m_by_name lookup)) as [l|] eqn:E.
    + apply Forall_app. split.
      * apply (assoc_find_Forall _ _ _ _ Hn' E).
      * constructor; [eauto|constructor].
    + constructor; [eauto|constructor].
Qed.

Lemma state_ok_initial : state_ok initial_state.
Proof.
  constructor; simpl.
  - split; reflexivity.
  - constructor.
  - split; constructor.
Qed.

Lemma state_ok_step t s s' :
  pos s < length t -> state_ok s -> process_step t s = Some s' -> state_ok s'.
Proof.
  intros Hp [Hst Hna Hlo] Hs.
  destruct (Steps.process_step_shape t s s' Hp Hs)
    as [p ps Hlt ->|Hc ->|Hc ->|def Hd Hon|ps token la args args_end _ _ _ Hu].
  - constructor; assumption.
  - unfold on_open_brace. cbv zeta.
    destruct (m_expect_brace (pending_scope s)); constructor; simpl; auto.
    + destruct (scope_stack s) as [|f r] eqn:E; [destruct Hst|].
      split; [lia|]. split; [lia|].
      replace (brace_depth s + 1 - 1) with (brace_depth s) by lia. exact Hst.
    + apply (stack_sorted_weaken _ (brace_depth s)); [lia|exact Hst].
  - constructor; simpl; auto. apply (pop_frames_sorted _ _ _ Hst).
  - destruct (parse_template_definition_fresh _ _ _ Hd) as (Hn & Hsp & Hix).
    unfold on_definition in Hon.
    destruct (generate_placeholder_definition _); [|discriminate]. cbn [bind] in Hon.
    injection Hon as <-. constructor; simpl.
    + exact Hst.
    + apply Forall_app. split; [exact Hna|]. constructor; [|constructor].
      unfold specializations_ok. simpl. rewrite Hsp, Hix. repeat split; auto.
    + match goal with |- lookup_ok (_ ++ [?d]) _ =>
        apply (lookup_ok_register _ _ d Hlo) end.
  - unfold on_use_site in Hu. destruct args as [|a args]; [discriminate|].
    cbv zeta in Hu. cbn [scope_stack definitions lookup with_pending output brace_depth] in Hu.
    destruct (resolve _ _ _ _) as [i|]; [|discriminate].
    destruct (nth_error (definitions s) i) as [def|] eqn:En; [|discriminate].
    destruct (register_specialization def _ _ _) as [[def' spec]|] eqn:Er; [|discriminate].
    cbn [bind] in Hu. injection Hu as <-.
    assert (Hdef : specializations_ok def).
    { rewrite Forall_forall in Hna. apply Hna. apply (nth_error_In _ _ En). }
    destruct (SpecNames.register_names _ _ _ _ _ _ Hdef Er) as (Hdef' & _ & _).
    destruct (register_specialization_same _ _ _ _ _ _ Er) as (Hname & Hpath).
    constructor; simpl.
    + apply stack_sorted_back; [exact Hst| |];
        destruct (negb (mem _ _)); reflexivity.
    + apply set_nth_Forall; assumption.
    + apply (lookup_ok_replace _ _ _ def def' Hlo En Hname Hpath).
Qed.

Lemma reachable_state_ok t s : reachable t s -> state_ok s.
Proof.
  induction 1 as [|s s' _ IH Hp Hs]; [exact state_ok_initial|].
  exact (state_ok_step t s s' Hp IH Hs).
Qed.

End Invariants.

(** [n] trips through the main loop from [s]. *)
Fixpoint steps (t : text) (n : nat) (s : State) : option State :=
  match n with
  | O => Some s
  | S k => if pos s <? length t then s' <- process_step t s ;; steps t k s' else None
  end.

Lemma steps_reachable t n : forall s s',
  reachable t s -> steps t n s = Some s' -> reachable t s'.
Proof.
  induction n as [|n IH]; intros s s' Hr; simpl.
  - intros H. injection H as <-. exact Hr.
  - destruct (pos s <? length t) eqn:E; [|discriminate]. apply Nat.ltb_lt in E.
    destruct (process_step t s) as [s1|] eqn:E1; [|discriminate]. cbn [bind].
    apply IH. exact (reach_step t s s1 Hr E E1).
Qed.

Definition sample_unit : text :=
  str "namespace n { struct Box<typename T> { T v; }; Box<int*> b; }".

(** X8.  At every point of a run of the file transformer in which the
    vector of definitions has not outgrown the 16 places reserved for it
    (so that the addresses kept in the lookup are those of its elements),
    every stored definition has a C identifier for name, and so has every
    specialization that was registered for it. *)
Theorem transformer_names (t : text) (s : State) :
  reachable t s -> length (definitions s) <= 16 ->
  Forall (fun def =>
            is_identifier (m_name def) = true /\
            Forall (fun spec => is_identifier (s_sanitized_name spec) = true)
                   (m_specializations def))
         (definitions s).
Proof.
  intros Hr _. destruct (Invariants.reachable_state_ok t s Hr) as [_ Hn _].
  eapply Forall_impl; [|exact Hn]. intros def (H1 & _ & H3). split; assumption.
Qed.

Lemma transformer_names_witness :
  exists s def spec,
    steps sample_unit 12 initial_state = Some s /\
    definitions s = [def] /\ m_specializations def = [spec] /\
    s_sanitized_name spec = str "Box_n_int_ptr_" /\
    is_identifier (s_sanitized_name spec) = true.
Proof.
  destruct (steps sample_unit 12 initial_state) as [s|] eqn:E;
    [|vm_compute in E; discriminate].
  assert (Hd : exists def spec, definitions s = [def] /\ m_specializations def = [spec]
                 /\ s_sanitized_name spec = str "Box_n_int_ptr_").
  { vm_compute in E. injection E as <-. eexists _, _. repeat split. }
  destruct Hd as (def & spec & Hd & Hs & Hname).
  assert (Hlen : length (definitions s) <= 16) by (rewrite Hd; simpl; lia).
  pose proof (transformer_names sample_unit s
                (steps_reachable _ _ _ _ (reach_initial _) E) Hlen) as H.
  exists s, def, spec. split; [reflexivity|]. split; [exact Hd|]. split; [exact Hs|].
  split; [exact Hname|].
  rewrite Hd in H. inversion H as [|? ? [_ H2] _]. subst.
  rewrite Hs in H2. inversion H2. assumption.
Defined.

(** X9.  At every point of a run of the file transformer in which the
    vector of definitions has not outgrown the 16 places reserved for it,
    the scope stack is not empty; its bottom frame is the global scope,
    at depth 0 with an empty path; the depths of the frames above it are
    positive, increase strictly towards the back, and never exceed the
    current brace depth. *)
Theorem scope_stack_discipline (t : text) (s : State) :
  reachable t s -> length (definitions s) <= 16 ->
  scope_stack s <> [] /\ stack_sorted (brace_depth s) (scope_stack s).
Proof.
  intros Hr _. destruct (Invariants.reachable_state_ok t s Hr) as [Hst _ _].
  split; [|exact Hst]. destruct (scope_stack s); [destruct Hst|discriminate].
Qed.

Lemma scope_stack_discipline_witness :
  exists s,
    steps sample_unit 7 initial_state = Some s /\
    brace_depth s = 1 /\ map f_path (scope_stack s) = [str "n"; []] /\
    stack_sorted 1 (scope_stack s).
Proof.
  destruct (steps sample_unit 7 initial_state) as [s|] eqn:E;
    [|vm_compute in E; discriminate].
  assert (Hd : brace_depth s = 1 /\ map f_path (scope_stack s) = [str "n"; []]
               /\ length (definitions s) <= 16).
  { vm_compute in E. injection E as <-. repeat split. simpl. lia. }
  destruct Hd as (Hb & Hp & Hlen).
  destruct (scope_stack_discipline sample_unit s
              (steps_reachable _ _ _ _ (reach_initial _) E) Hlen) as [_ H].
  exists s. split; [reflexivity|].
  split; [exact Hb|]. split; [exact Hp|]. rewrite <- Hb. exact H.
Defined.

Module Resolution.

(** The part of a token after its last dot: the [base] of [resolve]. *)
Definition base_of (token : text) : text :=
  match rfind_char_all "." token with
  | None => token
  | Some dot => skipn (dot + 1) token
  end.

Lemma resolve_loop_In definitions prefix current_scope candidates : forall best best_score i,
  resolve_loop definitions prefix current_scope candidates best best_score = Some i ->
  best = Some i \/ In i candidates.
Proof.
  induction candidates as [|c cs IH]; intros best bs i; cbn [resolve_loop]; [auto|].
  cbv zeta.
  set (score := match nth_error definitions c with
                | Some def => score_candidate prefix current_scope def
                | None => 0
                end).
  destruct (bs <? score); cbv beta iota.
  - destruct (1000 <=? score).
    + intros H. injection H as <-. right. left. reflexivity.
    + intros H. destruct (IH _ _ _ H) as [H'|H'];
        [injection H' as <-; right; left; reflexivity|right; right; exact H'].
  - destruct (1000 <=? score); [auto|].
    intros H. destruct (IH _ _ _ H); [auto|right; right; assumption].
Qed.

Lemma resolve_sound definitions lookup token current_scope i :
  lookup_ok definitions lookup ->
  resolve lookup definitions token current_scope = Some i ->
  exists def, nth_error definitions i = Some def /\
              (full_name def = token \/ m_name def = base_of token).
Proof.
  intros [Hf Hn]. unfold resolve, base_of. cbv zeta.
  set (hit := match rfind_char_all "." token with
              | Some _ => assoc_find token (m_by_full lookup)
              | None => None
              end).
  destruct hit as [j|] eqn:Eh.
  - intros H. injection H as <-. subst hit.
    destruct (rfind_char_all "." token); [|discriminate].
    destruct (Invariants.assoc_find_Forall _ _ _ _ Hf Eh) as (d & Hd & Hfull).
    exists d. split; [exact Hd|left; exact Hfull].
  - clear Eh hit.
    set (base := match rfind_char_all "." token with
                 | Some dot => skipn (dot + 1) token
                 | None => token
                 end).
    destruct (assoc_find base (m_by_name lookup)) as [candidates|] eqn:Ec; [|discriminate].
    intros H. apply resolve_loop_In in H as [H|H]; [discriminate|].
    pose proof (Invariants.assoc_find_Forall _ _ _ _ Hn Ec) as Hc. simpl in Hc.
    rewrite Forall_forall in Hc. destruct (Hc i H) as (d & Hd & Hname).
    exists d. split; [exact Hd|right; exact Hname].
Qed.

End Resolution.

(** X10.  At every point of a run in which the vector of definitions has
    not outgrown the 16 places reserved for it (so that no stored
    definition has moved), what [resolve] returns for a token is a
    definition of the vector, registered under the token as its full
    name, or under the part of the token after its last dot as its
    name. *)
Theorem resolve_registered (t : text) (s : State) (token current_scope : text) (i : nat) :
  reachable t s -> length (definitions s) <= 16 ->
  resolve (lookup s) (definitions s) token current_scope = Some i ->
  exists def,
    nth_error (definitions s) i = Some def /\
    (full_name def = token \/ m_name def = Resolution.base_of token).
Proof.
  intros Hr _ H. destruct (Invariants.reachable_state_ok t s Hr) as [_ _ Hl].
  exact (Resolution.resolve_sound _ _ _ _ _ Hl H).
Qed.

Lemma resolve_registered_witness :
  exists s def,
    steps sample_unit 8 initial_state = Some s /\
    resolve (lookup s) (definitions s) (str "n.Box") [] = Some 0 /\
    nth_error (definitions s) 0 = Some def /\
    (full_name def = str "n.Box" \/ m_name def = str "Box").
Proof.
  destruct (steps sample_unit 8 initial_state) as [s|] eqn:E;
    [|vm_compute in E; discriminate].
  assert (Hd : length (definitions s) <= 16 /\
               resolve (lookup s) (definitions s) (str "n.Box") [] = Some 0).
  { vm_compute in E. injection E as <-. split; [simpl; lia|reflexivity]. }
  destruct Hd as [Hlen Hres].
  destruct (resolve_registered sample_unit s (str "n.Box") [] 0
              (steps_reachable _ _ _ _ (reach_initial _) E) Hlen Hres) as (def & Hn & Hf).
  exists s, def. split; [reflexivity|]. split; [exact Hres|]. split; [exact Hn|exact Hf].
Defined.

(** * The definition parser *)

Module Definitions.

Lemma substr_split (t : text) a b c :
  a <= b -> b <= c -> substr t a (c - a) = substr t a (b - a) ++ substr t b (c - b).
Proof.
  intros H1 H2. unfold substr.
  replace (c - a) with ((b - a) + (c - b)) by lia.
  rewrite <- Identity.firstn_plus, skipn_skipn.
  replace (b - a + a) with b by lia. reflexivity.
Qed.

Lemma space_run_len_le s : space_run_len s <= length s.
Proof.
  induction s as [|c r IH]; simpl; [lia|].
  destruct (is_space c); [|lia]. destruct (Ascii.eqb c NL); lia.
Qed.

Lemma skip_space_run_le t p : p <= length t -> skip_space_run t p <= length t.
Proof.
  intros H. unfold skip_space_run. pose proof (space_run_len_le (skipn p t)) as Hs.
  rewrite length_skipn in Hs. lia.
Qed.

(** The scan to a closing bracket, when it comes out at depth 0, is on
    that bracket. *)
Lemma scan_balanced_closed open close t pos depth p :
  depth <> 0 -> scan_balanced open close t pos depth = Some (p, 0) ->
  p < length t /\ at_ t p = close.
Proof.
  intros Hd Hs. unfold scan_balanced in Hs.
  match type of Hs with loop ?b0 ?f0 ?a0 = Some ?r0 =>
    assert (HQ : (fun x => snd x = 0 -> fst x < length t /\ at_ t (fst x) = close) r0);
      [apply (Tree.loop_post b0 (fun x => snd x <> 0)
                (fun x => snd x = 0 -> fst x < length t /\ at_ t (fst x) = close))
         with (fuel := f0) (a := a0); [|exact Hd|exact Hs]
      |apply HQ; reflexivity]
  end.
  intros [c d] r Ha. simpl in Ha.
    destruct ((length t <=? c) || (d =? 0)) eqn:E.
    { intros H. injection H as <-. simpl. intros ->. congruence. }
    apply orb_false_iff in E as [E _]. apply Nat.leb_gt in E.
    destruct (skip_quoted_or_comment 0 t c); [intros H; injection H as <-; exact Ha|].
    cbv zeta. destruct (Ascii.eqb (at_ t c) open).
    { intros H. injection H as <-. simpl. lia. }
    destruct (Ascii.eqb (at_ t c) close) eqn:Ec.
    + destruct (d - 1 =? 0) eqn:E0; intros H; injection H as <-; simpl.
      * intros _. apply Ascii.eqb_eq in Ec. auto.
      * apply Nat.eqb_neq in E0. exact E0.
    + intros H. injection H as <-. exact Ha.
Qed.

Lemma keyword_text t c0 :
  match_keyword t c0 (str "struct") = true \/ match_keyword t c0 (str "class") = true ->
  let keyword := substr t c0 (if Ascii.eqb (at_ t c0) "s" then 6 else 5) in
  keyword = str "struct" \/ keyword = str "class".
Proof.
  assert (Hat : forall kw k, substr t c0 (S k) = kw -> at_ t c0 = hd zero kw).
  { intros kw k <-. unfold substr. rewrite <- (Nat.add_0_r c0) at 1.
    rewrite <- Brackets.nth_skipn_at. destruct (skipn c0 t); reflexivity. }
  unfold match_keyword. intros [H|H];
    destruct (length t <? _); try discriminate;
    destruct (_ || _); try discriminate;
    apply text_eqb_eq in H; pose proof (Hat _ _ H) as Hc; simpl in Hc;
    rewrite Hc; cbn [Ascii.eqb Bool.eqb andb]; cbv zeta; auto.
Qed.

End Definitions.

(** X11.  A definition that [parse_template_definition] finds at [pos]
    ends within the text; its keyword is [struct] or [class], its name an
    identifier, its parameters not empty and named; and the text from
    [pos] to its end is a header, then [m_between], the opening brace,
    [m_body] and [m_closing], which starts with the closing brace. *)
Theorem parse_template_definition_shape (t : text) (pos : nat) (def : TemplateDefinition) :
  parse_template_definition t pos = Some (Some def) ->
  m_start def = pos /\ pos < m_end def /\ m_end def <= length t /\
  (m_keyword def = str "struct" \/ m_keyword def = str "class") /\
  is_identifier (m_name def) = true /\
  m_parameters def <> [] /\ named (m_parameters def) /\
  front_is "}" (m_closing def) = true /\
  exists header,
    substr t pos (m_end def - pos)
      = header ++ m_between def ++ "{" :: m_body def ++ m_closing def.
Proof.
  intros Hparse.
  destruct (Invariants.parse_template_definition_fresh _ _ _ Hparse) as (Hname & _ & _).
  destruct (parse_template_definition_total t pos) as (r & Hr & Hpost).
  rewrite Hparse in Hr. injection Hr as <-. destruct Hpost as [Hend Hnamed].
  revert Hparse Hend Hnamed Hname.
  unfold parse_template_definition. cbv zeta.
  destruct (skip_whitespace_and_comments_total t pos) as (c0 & -> & H0). cbn [bind].
  destruct (negb (match_keyword t c0 (str "struct"))
            && negb (match_keyword t c0 (str "class"))) eqn:Ek; [discriminate|].
  set (c1 := c0 + length _).
  destruct (skip_whitespace_and_comments_total t c1) as (c2 & -> & H2). cbn [bind].
  match goal with |- context [if ?b then Some None else _] => destruct b end;
    [discriminate|].
  pose proof (advance_while_ge is_identifier_char t c2) as H3.
  set (c3 := advance_while is_identifier_char t c2) in *.
  destruct (skip_whitespace_and_comments_total t c3) as (c4 & -> & H4). cbn [bind].
  match goal with |- context [if ?b then Some None else _] => destruct b end;
    [discriminate|].
  destruct (scan_balanced_total "<" ">" t (c4 + 1) 1) as (c5 & d5 & -> & H5). cbn [bind].
  match goal with |- context [if ?b then Some None else _] => destruct b end;
    [discriminate|].
  destruct (split_template_parameters _) as [|param params] eqn:Eparams; [discriminate|].
  destruct (scan_to_brace_total t (c5 + 1)) as (c6 & -> & H6). cbn [bind].
  destruct ((length t <=? c6) || negb (Ascii.eqb (at_ t c6) "{")) eqn:E6; [discriminate|].
  apply orb_false_iff in E6 as [E6 E6']. apply Nat.leb_gt in E6.
  apply negb_false_iff, Ascii.eqb_eq in E6'.
  destruct (scan_balanced "{" "}" t (c6 + 1) 1) as [[c7 d7]|] eqn:E7; [|discriminate].
  cbn [bind].
  destruct (negb (d7 =? 0) || (length t <=? c7)) eqn:E8; [discriminate|].
  apply orb_false_iff in E8 as [E8 E8']. apply negb_false_iff, Nat.eqb_eq in E8.
  apply Nat.leb_gt in E8'. subst d7.
  destruct (scan_balanced_total "{" "}" t (c6 + 1) 1) as (c7' & d7' & E7' & H7).
  rewrite E7 in E7'. injection E7' as <- <-.
  destruct (Definitions.scan_balanced_closed _ _ _ _ _ _ (Nat.neq_succ_0 0) E7)
    as [_ Hclose].
  replace ((c7 <? length t) && Ascii.eqb (at_ t c7) "}") with true
    by (symmetry; apply andb_true_iff; split;
        [apply Nat.ltb_lt; exact E8'|rewrite Hclose; reflexivity]).
  pose proof (skip_space_run_ge t (c7 + 1)) as He2.
  pose proof (Definitions.skip_space_run_le t (c7 + 1) ltac:(lia)) as He2'.
  set (e2 := skip_space_run t (c7 + 1)) in *.
  set (e3 := if (e2 <? length t) && Ascii.eqb (at_ t e2) ";"
             then skip_space_run t (e2 + 1) else e2).
  assert (He3 : e2 <= e3 /\ e3 <= length t).
  { unfold e3. destruct ((e2 <? length t) && Ascii.eqb (at_ t e2) ";") eqn:E; [|lia].
    apply andb_true_iff in E as [E _]. apply Nat.ltb_lt in E.
    pose proof (skip_space_run_ge t (e2 + 1)).
    pose proof (Definitions.skip_space_run_le t (e2 + 1) ltac:(lia)). lia. }
  clearbody e3 e2.
  intros H Hend Hnamed Hname. injection H as <-. simpl in *.
  assert (Hc1 : c0 <= c1) by (unfold c1; lia).
  split; [reflexivity|]. split; [exact Hend|]. split; [lia|].
  split.
  { apply (Definitions.keyword_text t c0).
    apply andb_false_iff in Ek as [Ek|Ek]; apply negb_false_iff in Ek; auto. }
  split; [exact Hname|]. split; [discriminate|]. split; [exact Hnamed|].
  split.
  { unfold substr. rewrite (skipn_at t c7 E8'), Hclose.
    destruct (e3 - c7) eqn:En; [lia|]. reflexivity. }
  exists (substr t pos (c5 + 1 - pos)).
  rewrite (Definitions.substr_split t pos (c5 + 1) e3) by lia. f_equal.
  rewrite (Definitions.substr_split t (c5 + 1) c6 e3) by lia. f_equal.
  rewrite (Definitions.substr_split t c6 (c6 + 1) e3) by lia.
  replace (c6 + 1 - c6) with 1 by lia. rewrite (Steps.substr_one t c6 E6), E6'.
  cbn [app]. f_equal.
  apply (Definitions.substr_split t (c6 + 1) c7 e3); lia.
Qed.

Definition sample_definition_text : text :=
  str "  class Pair<typename A, int N = 4> : Base { A a[N]; }  ;
rest".

Lemma parse_template_definition_shape_witness :
  exists def,
    parse_template_definition sample_definition_text 2 = Some (Some def) /\
    m_keyword def = str "class" /\ m_name def = str "Pair" /\
    m_between def = str " : Base " /\ m_body def = str " A a[N]; " /\
    m_closing def = str "}  ;
" /\
    m_end def <= length sample_definition_text.
Proof.
  destruct (parse_template_definition sample_definition_text 2) as [[def|]|] eqn:E;
    [|vm_compute in E; discriminate|vm_compute in E; discriminate].
  pose proof (parse_template_definition_shape _ _ _ E) as (_ & _ & Hle & _).
  exists def. split; [reflexivity|].
  vm_compute in E. injection E as <-. repeat split; try reflexivity. exact Hle.
Defined.

(** * Template arguments *)

Module Arguments.

(** A character that the argument scanner passes over. *)
Definition ordinary (c : ascii) : bool :=
  negb (Ascii.eqb c QUOTE || Ascii.eqb c APOSTROPHE || Ascii.eqb c "/"
        || Ascii.eqb c "<" || Ascii.eqb c ">" || Ascii.eqb c ",").

(** An argument as written: white space, the argument, white space. *)
Record item := mkItem { before : text; argument : text; after : text }.

Definition written (x : item) : text := before x ++ argument x ++ after x.

(** The argument is not empty, has no white space at its ends, and has no
    bracket, comma, quote or slash. *)
Definition plain_item (x : item) : Prop :=
  forallb is_space (before x) = true /\ forallb is_space (after x) = true /\
  argument x <> [] /\ trim (argument x) = argument x /\
  forallb ordinary (argument x) = true.

(** The items separated by commas. *)
Fixpoint join (items : list item) : text :=
  match items with
  | [] => []
  | [x] => written x
  | x :: rest => written x ++ "," :: join rest
  end.

(** The body of the loop of [parse_template_arguments]. *)
Definition body (t : text) (st : nat * nat * nat * list text)
  : option (ctl (nat * nat * nat * list text) (list text * nat)) :=
  let '(pos, depth, token_start, result) := st in
  if (length t <=? pos) || (depth =? 0) then Some (Exit (result, pos))
  else
    match skip_quoted_or_comment 0 t pos with
    | Some p => Some (Next (p, depth, token_start, result))
    | None =>
        let c := at_ t pos in
        if Ascii.eqb c "<" then Some (Next (pos + 1, depth + 1, token_start, result))
        else if Ascii.eqb c ">" then
          if depth - 1 =? 0 then
            Some (Exit (push_token (trim (substr t token_start (pos - token_start))) result,
                        pos + 1))
          else Some (Next (pos + 1, depth - 1, token_start, result))
        else if Ascii.eqb c "," && (depth =? 1) then
          Some (Next (pos + 1, depth, pos + 1,
                      push_token (trim (substr t token_start (pos - token_start))) result))
        else Some (Next (pos + 1, depth, token_start, result))
    end.

Lemma parse_template_arguments_body t lt_pos :
  lt_pos < length t -> at_ t lt_pos = "<" ->
  parse_template_arguments t lt_pos
    = loop (body t) (S (length t)) (lt_pos + 1, 1, lt_pos + 1, []).
Proof.
  intros H1 H2. unfold parse_template_arguments. cbv zeta.
  replace (length t <=? lt_pos) with false by (symmetry; apply Nat.leb_gt; exact H1).
  rewrite H2. reflexivity.
Qed.

Lemma at_middle (pre : text) c rest : at_ (pre ++ c :: rest) (length pre) = c.
Proof. unfold at_. rewrite app_nth2, Nat.sub_diag by lia. reflexivity. Qed.

Lemma space_ordinary c : is_space c = true -> ordinary c = true.
Proof. char_fact (fun c => implb (is_space c) (ordinary c)) c. Qed.

Lemma ordinary_step t pos token_start result :
  pos < length t -> ordinary (at_ t pos) = true ->
  body t (pos, 1, token_start, result) = Some (Next (pos + 1, 1, token_start, result)).
Proof.
  intros Hp Ho. unfold body, skip_quoted_or_comment. cbv zeta.
  replace (length t <=? pos) with false by (symmetry; apply Nat.leb_gt; exact Hp).
  unfold ordinary in Ho. apply negb_true_iff in Ho.
  repeat (apply orb_false_iff in Ho as [Ho ?]).
  cbn [orb Nat.eqb].
  repeat match goal with H : Ascii.eqb _ _ = false |- _ => rewrite H; clear H end.
  reflexivity.
Qed.

(** The scanner passes over a run of ordinary characters. *)
Lemma run_ordinary seg : forall pre rest fuel token_start result,
  forallb ordinary seg = true ->
  loop (body (pre ++ seg ++ rest)) (length seg + fuel)
       (length pre, 1, token_start, result)
  = loop (body (pre ++ seg ++ rest)) fuel
       (length pre + length seg, 1, token_start, result).
Proof.
  induction seg as [|c seg IH]; intros pre rest fuel ts res Ho.
  - simpl. rewrite Nat.add_0_r. reflexivity.
  - simpl in Ho. apply andb_true_iff in Ho as [Hc Ho].
    cbn [length Nat.add loop].
    rewrite ordinary_step.
    + replace (pre ++ (c :: seg) ++ rest) with ((pre ++ [c]) ++ seg ++ rest)
        by (rewrite <- app_assoc; reflexivity).
      replace (length pre + 1) with (length (pre ++ [c]))
        by (rewrite length_app; reflexivity).
      rewrite IH by exact Ho. rewrite length_app. cbn [length].
      f_equal. f_equal. f_equal. f_equal. lia.
    + rewrite length_app. simpl. lia.
    + cbn [app]. rewrite at_middle. exact Hc.
Qed.

Lemma written_ordinary x : plain_item x -> forallb ordinary (written x) = true.
Proof.
  intros (Hb & Ha & _ & _ & Ho). unfold written. rewrite !forallb_app, Ho.
  assert (H : forall l, forallb is_space l = true -> forallb ordinary l = true).
  { induction l as [|c l IH]; simpl; [reflexivity|].
    intros H. apply andb_true_iff in H as [H1 H2].
    rewrite (space_ordinary c H1), IH; auto. }
  rewrite (H _ Hb), (H _ Ha). reflexivity.
Qed.

Lemma drop_while_app_spaces l s :
  forallb is_space l = true -> drop_while is_space (l ++ s) = drop_while is_space s.
Proof.
  induction l as [|c l IH]; simpl; [reflexivity|].
  intros H. apply andb_true_iff in H as [-> H]. auto.
Qed.

(** Trimming an argument as written gives the argument. *)
Lemma trim_written x : plain_item x -> trim (written x) = argument x.
Proof.
  intros (Hb & Ha & Hne & Ht & _). unfold written.
  destruct (argument x) as [|c a] eqn:E; [congruence|].
  destruct (Lexical.trim_ends _ _ _ Ht) as [Hc Hl].
  unfold trim. rewrite drop_while_app_spaces by exact Hb.
  cbn [app]. rewrite (Lexical.drop_while_fixed _ _ _ Hc).
  change (c :: a ++ after x) with ((c :: a) ++ after x).
  rewrite rev_app_distr.
  rewrite drop_while_app_spaces by (apply Lexical.forallb_rev; exact Ha).
  destruct (rev (c :: a)) as [|y r] eqn:Er.
  { apply (f_equal (@rev ascii)) in Er. rewrite rev_involutive in Er. discriminate. }
  assert (Hy : y = last (c :: a) c).
  { apply (f_equal (@rev ascii)) in Er. rewrite rev_involutive in Er. rewrite Er.
    simpl. rewrite last_last. reflexivity. }
  rewrite Lexical.drop_while_fixed by (rewrite Hy; exact Hl).
  rewrite <- Er. apply rev_involutive.
Qed.

Lemma substr_middle (pre seg rest : text) :
  substr (pre ++ seg ++ rest) (length pre) (length seg) = seg.
Proof.
  unfold substr. rewrite skipn_app, skipn_all, Nat.sub_diag. cbn [app skipn].
  rewrite firstn_app, firstn_all, Nat.sub_diag. simpl. apply app_nil_r.
Qed.

(** From the start of an item, the scanner collects the arguments up to
    the closing bracket. *)
Lemma scan_items items : forall x pre rest fuel result,
  Forall plain_item (x :: items) ->
  length (join (x :: items)) < fuel ->
  loop (body (pre ++ join (x :: items) ++ ">" :: rest)) fuel
       (length pre, 1, length pre, result)
  = Some (result ++ map argument (x :: items),
          length pre + length (join (x :: items)) + 1).
Proof.
  induction items as [|y items IH]; intros x pre rest fuel result Hall Hfuel;
    inversion Hall as [|? ? Hx Hrest]; subst.
  - cbn [join] in *.
    replace fuel with (length (written x) + (fuel - length (written x))) by lia.
    rewrite run_ordinary by (apply written_ordinary; exact Hx).
    destruct (fuel - length (written x)) as [|fuel'] eqn:Ef; [lia|].
    cbn [loop]. unfold body.
    replace (length (pre ++ written x ++ ">" :: rest) <=? length pre + length (written x))
      with false by (symmetry; apply Nat.leb_gt; rewrite !length_app; simpl; lia).
    cbn [orb Nat.eqb].
    assert (Hat : at_ (pre ++ written x ++ ">" :: rest) (length pre + length (written x))
                  = ">").
    { rewrite app_assoc, <- length_app. apply at_middle. }
    unfold skip_quoted_or_comment. rewrite Hat.
    change (Ascii.eqb ">" QUOTE) with false. change (Ascii.eqb ">" APOSTROPHE) with false.
    cbn [Ascii.eqb Bool.eqb andb orb]. cbv zeta. rewrite ?Hat.
    cbn [Ascii.eqb Bool.eqb andb orb Nat.sub Nat.eqb].
    replace (length pre + length (written x) - length pre) with (length (written x)) by lia.
    rewrite substr_middle, (trim_written x Hx).
    assert (Hpush : push_token (argument x) result = result ++ [argument x]).
    { destruct Hx as (_ & _ & Hne & _). unfold push_token.
      destruct (argument x); [congruence|]. reflexivity. }
    rewrite Hpush. reflexivity.
  - change (join (x :: y :: items)) with (written x ++ "," :: join (y :: items)) in *.
    rewrite length_app in Hfuel. cbn [length] in Hfuel.
    replace fuel with (length (written x) + (fuel - length (written x))) by lia.
    rewrite <- app_assoc.
    rewrite run_ordinary by (apply written_ordinary; exact Hx).
    destruct (fuel - length (written x)) as [|fuel'] eqn:Ef; [lia|].
    cbn [loop]. unfold body at 1.
    set (t := pre ++ written x ++ ("," :: join (y :: items)) ++ ">" :: rest).
    assert (Hlen : length pre + length (written x) < length t).
    { unfold t. rewrite !length_app. simpl. lia. }
    replace (length t <=? length pre + length (written x))
      with false by (symmetry; apply Nat.leb_gt; exact Hlen).
    cbn [orb Nat.eqb].
    assert (Hat : at_ t (length pre + length (written x)) = ",").
    { unfold t. rewrite app_assoc, <- length_app. cbn [app]. apply at_middle. }
    unfold skip_quoted_or_comment. rewrite Hat.
    change (Ascii.eqb "," QUOTE) with false. change (Ascii.eqb "," APOSTROPHE) with false.
    cbn [Ascii.eqb Bool.eqb andb orb]. cbv zeta. rewrite ?Hat.
    cbn [Ascii.eqb Bool.eqb andb orb Nat.eqb].
    replace (length pre + length (written x) - length pre) with (length (written x)) by lia.
    assert (Hsub : substr t (length pre) (length (written x)) = written x).
    { unfold t. apply substr_middle. }
    rewrite Hsub, (trim_written x Hx).
    assert (Hpush : push_token (argument x) result = result ++ [argument x]).
    { destruct Hx as (_ & _ & Hne & _). unfold push_token.
      destruct (argument x); [congruence|]. reflexivity. }
    rewrite Hpush.
    assert (Ht : t = (pre ++ written x ++ [","]) ++ join (y :: items) ++ ">" :: rest).
    { unfold t. rewrite <- !app_assoc. reflexivity. }
    assert (Hp : length pre + length (written x) + 1 = length (pre ++ written x ++ [","])).
    { rewrite !length_app. simpl. lia. }
    rewrite Ht, Hp, (IH y _ rest fuel' _ Hrest) by lia.
    rewrite <- Hp, <- app_assoc. cbn [map app length].
    f_equal. f_equal. rewrite length_app. cbn [length]. lia.
Qed.

End Arguments.

(** X12.  [parse_template_arguments] reads back a list of arguments
    written between [<] and [>] and separated by commas: for arguments
    that are not empty and have no bracket, comma, quote or slash, with
    any white space around each, it returns the arguments without that
    white space, and the position after the closing bracket. *)
Theorem parse_template_arguments_written (pre rest : text) (items : list Arguments.item) :
  Forall Arguments.plain_item items ->
  parse_template_arguments (pre ++ "<" :: Arguments.join items ++ ">" :: rest) (length pre)
    = Some (map Arguments.argument items,
            length pre + 1 + length (Arguments.join items) + 1).
Proof.
  intros Hall.
  rewrite Arguments.parse_template_arguments_body;
    [|rewrite length_app; simpl; lia|apply Arguments.at_middle].
  replace (pre ++ "<" :: Arguments.join items ++ ">" :: rest)
    with ((pre ++ ["<"]) ++ Arguments.join items ++ ">" :: rest)
    by (rewrite <- app_assoc; reflexivity).
  replace (length pre + 1) with (length (pre ++ ["<"])) by (rewrite length_app; reflexivity).
  destruct items as [|x items].
  - cbn [Arguments.join app map loop]. unfold Arguments.body.
    replace (length ((pre ++ ["<"]) ++ ">" :: rest) <=? length (pre ++ ["<"]))
      with false by (symmetry; apply Nat.leb_gt; rewrite !length_app; simpl; lia).
    cbn [orb Nat.eqb]. unfold skip_quoted_or_comment.
    rewrite Arguments.at_middle.
    change (Ascii.eqb ">" QUOTE) with false. change (Ascii.eqb ">" APOSTROPHE) with false.
    cbn [Ascii.eqb Bool.eqb andb orb Nat.sub Nat.eqb]. cbv zeta.
    rewrite ?Arguments.at_middle.
    cbn [Ascii.eqb Bool.eqb andb orb Nat.sub Nat.eqb].
    rewrite Nat.sub_diag. unfold substr. cbn [firstn trim drop_while rev push_token].
    f_equal. f_equal. rewrite length_app. simpl. lia.
  - rewrite (Arguments.scan_items items x _ rest _ [] Hall).
    + rewrite length_app. cbn [app length]. f_equal.
    + rewrite !length_app. simpl. lia.
Qed.

Lemma parse_template_arguments_written_witness :
  parse_template_arguments (str "Map< unsigned int ,Key* > m;") 3
    = Some ([str "unsigned int"; str "Key*"], 25).
Proof.
  apply (parse_template_arguments_written (str "Map") (str " m;")
           [Arguments.mkItem (str " ") (str "unsigned int") (str " ");
            Arguments.mkItem [] (str "Key*") (str " ")]).
  repeat constructor; simpl; discriminate.
Defined.

(** X13.  [parse_template_arguments] always returns; when there is no [<]
    at the position it is given, it returns no argument and that
    position; and it never returns an argument that is empty or has
    white space at either end. *)
Theorem parse_template_arguments_tokens (t : text) (lt_pos : nat) :
  exists args out_pos,
    parse_template_arguments t lt_pos = Some (args, out_pos) /\
    (length t <= lt_pos \/ at_ t lt_pos <> "<" -> args = [] /\ out_pos = lt_pos) /\
    Forall (fun a => a <> [] /\ trim a = a) args.
Proof.
  destruct (parse_template_arguments_total t lt_pos) as (args & out_pos & Hp & _).
  exists args, out_pos. split; [exact Hp|].
  assert (Hpush : forall x result,
            Forall (fun a => a <> [] /\ trim a = a) result ->
            Forall (fun a => a <> [] /\ trim a = a) (push_token (trim x) result)).
  { intros x result Hr. unfold push_token. destruct (trim x) as [|c r] eqn:E; [exact Hr|].
    apply Forall_app. split; [exact Hr|]. constructor; [|constructor].
    split; [discriminate|]. rewrite <- E. apply Lexical.trim_idem. }
  revert Hp. unfold parse_template_arguments. cbv zeta.
  destruct ((length t <=? lt_pos) || negb (Ascii.eqb (at_ t lt_pos) "<")) eqn:E.
  { intros H. injection H as <- <-. split; [auto|constructor]. }
  intros Hloop. split.
  { intros [H|H]; exfalso; apply orb_false_iff in E as [E1 E2].
    - apply Nat.leb_gt in E1. lia.
    - apply negb_false_iff, Ascii.eqb_eq in E2. contradiction. }
  change (Forall (fun a => a <> [] /\ trim a = a) (fst (args, out_pos))).
  revert Hloop.
  apply (Tree.loop_post _
           (fun st : nat * nat * nat * list text =>
              Forall (fun a => a <> [] /\ trim a = a) (snd st))
           (fun r : list text * nat => Forall (fun a => a <> [] /\ trim a = a) (fst r)));
    [|constructor].
  intros [[[p d] ts] res] c Ha. simpl in Ha.
  destruct ((length t <=? p) || (d =? 0)); [intros H; injection H as <-; exact Ha|].
  destruct (skip_quoted_or_comment 0 t p); [intros H; injection H as <-; exact Ha|].
  cbv zeta. destruct (Ascii.eqb (at_ t p) "<"); [intros H; injection H as <-; exact Ha|].
  destruct (Ascii.eqb (at_ t p) ">").
  { destruct (d - 1 =? 0); intros H; injection H as <-; simpl; auto. }
  destruct (Ascii.eqb (at_ t p) "," && (d =? 1)); intros H; injection H as <-; simpl; auto.
Qed.

(** * Template parameters *)

Module Parameters.

Lemma retreat_while_run P s : forall e i,
  retreat_while P s e <= i -> i < e -> P (at_ s i) = true.
Proof.
  induction e as [|k IH]; intros i H1 H2; [lia|].
  cbn [retreat_while] in H1. destruct (P (at_ s k)) eqn:E; [|lia].
  destruct (Nat.eq_dec i k) as [->|Hne]; [exact E|]. apply IH; lia.
Qed.

Lemma forallb_substr P (s : text) b e :
  e <= length s -> (forall i, b <= i -> i < e -> P (at_ s i) = true) ->
  forallb P (substr s b (e - b)) = true.
Proof.
  intros He H. apply forallb_forall. intros x Hx.
  destruct (In_nth _ _ zero Hx) as (n & Hn & <-).
  unfold substr in *. rewrite length_firstn, length_skipn in Hn.
  rewrite nth_firstn. replace (n <? e - b) with true by (symmetry; apply Nat.ltb_lt; lia).
  rewrite Brackets.nth_skipn_at. apply H; lia.
Qed.

Definition name_ok (p : TemplateParameter) : Prop :=
  p_name p <> [] /\ forallb is_identifier_char (p_name p) = true.

Lemma parameter_of_token_ok token p : parameter_of_token token = Some p -> name_ok p.
Proof.
  intros H. split; [exact (parameter_of_token_named _ _ H)|].
  revert H. unfold parameter_of_token. cbv zeta.
  match goal with |- context [match ?c with [] => None | _ => _ end] =>
    destruct c as [|x c']; [discriminate|] end.
  match goal with |- context [retreat_while is_space ?c (length ?c)] =>
    set (cleaned := c) end.
  pose proof (retreat_while_le is_space cleaned (length cleaned)) as He.
  set (end_ := retreat_while is_space cleaned (length cleaned)) in *.
  destruct (retreat_while is_identifier_char cleaned end_ <? end_); [|discriminate].
  intros H. injection H as <-. cbn [p_name].
  apply forallb_substr; [exact He|]. apply retreat_while_run.
Qed.

Lemma add_parameter_ok token result :
  Forall name_ok result -> Forall name_ok (add_parameter token result).
Proof.
  intros Hr. unfold add_parameter. destruct token as [|c r]; [exact Hr|].
  destruct (parameter_of_token (c :: r)) as [p|] eqn:E; [|exact Hr].
  apply Forall_app. split; [exact Hr|].
  constructor; [exact (parameter_of_token_ok _ _ E)|constructor].
Qed.

Lemma split_loop_ok params s : forall i depth token_start result,
  Forall name_ok result -> Forall name_ok (split_loop params s i depth token_start result).
Proof.
  induction s as [|c s IH]; intros i depth ts result Hr; cbn [split_loop].
  - apply add_parameter_ok, Hr.
  - destruct (Ascii.eqb c "<"); [apply IH, Hr|].
    destruct (Ascii.eqb c ">"); [apply IH, Hr|].
    destruct (Ascii.eqb c "," && (depth =? 0)); [|apply IH, Hr].
    apply IH, add_parameter_ok, Hr.
Qed.

End Parameters.

(** X14.  Every parameter that [split_template_parameters] returns has a
    name that is not empty and is made of letters, digits and [_]: the
    names are tokens for which the whole-word search is exact. *)
Theorem split_template_parameters_names (params : text) :
  Forall (fun p => p_name p <> [] /\ forallb is_identifier_char (p_name p) = true)
         (split_template_parameters params).
Proof. apply Parameters.split_loop_ok. constructor. Qed.

(** * Decimal texts and the evaluator *)

Module Decimal.

Local Open Scope Z_scope.

Definition step (acc : Z) (c : ascii) : Z := acc * 10 + digit_value c.

Lemma digit_ok m :
  0 <= m < 10 ->
  is_digit (ascii_of_nat (Z.to_nat (48 + m))) = true /\
  digit_value (ascii_of_nat (Z.to_nat (48 + m))) = m.
Proof.
  intros H.
  assert (C : In m (map Z.of_nat (seq 0 10))).
  { rewrite <- (Z2Nat.id m) by lia. apply in_map. apply in_seq. lia. }
  simpl in C. repeat (destruct C as [<-|C]; [split; reflexivity|]). destruct C.
Qed.

Lemma dec_digits_app fuel : forall n acc,
  dec_digits fuel n acc = dec_digits fuel n [] ++ acc.
Proof.
  induction fuel as [|fuel IH]; intros n acc; cbn [dec_digits]; [reflexivity|].
  cbv zeta. destruct (n <? 10); [reflexivity|].
  rewrite IH, (IH _ [_]), <- app_assoc. reflexivity.
Qed.

Lemma dec_digits_digits fuel : forall n acc,
  0 <= n -> forallb is_digit acc = true -> forallb is_digit (dec_digits fuel n acc) = true.
Proof.
  induction fuel as [|fuel IH]; intros n acc Hn Hacc; cbn [dec_digits]; [exact Hacc|].
  cbv zeta.
  assert (Hd : is_digit (ascii_of_nat (Z.to_nat (48 + n mod 10))) = true).
  { apply digit_ok. apply Z.mod_pos_bound. lia. }
  destruct (n <? 10).
  - cbn [forallb]. rewrite Hd. exact Hacc.
  - apply IH; [apply Z.div_pos; lia|]. cbn [forallb]. rewrite Hd. exact Hacc.
Qed.

Lemma dec_digits_value fuel : forall n acc,
  0 <= n < 10 ^ Z.of_nat fuel ->
  fold_left step (dec_digits fuel n acc) 0 = fold_left step acc n.
Proof.
  induction fuel as [|fuel IH]; intros n acc Hn.
  - cbn [dec_digits]. simpl in Hn. replace n with 0 by lia. reflexivity.
  - cbn [dec_digits]. cbv zeta.
    assert (Hd : digit_value (ascii_of_nat (Z.to_nat (48 + n mod 10))) = n mod 10).
    { apply digit_ok. apply Z.mod_pos_bound. lia. }
    destruct (n <? 10) eqn:E.
    + apply Z.ltb_lt in E. cbn [fold_left]. unfold step at 2. rewrite Hd.
      rewrite Z.mod_small by lia. reflexivity.
    + apply Z.ltb_ge in E. rewrite IH.
      * cbn [fold_left]. unfold step at 2. rewrite Hd. f_equal.
        pose proof (Z.div_mod n 10 ltac:(lia)). lia.
      * rewrite Nat2Z.inj_succ, Z.pow_succ_r in Hn by lia.
        split; [apply Z.div_pos; lia|]. apply Z.div_lt_upper_bound; lia.
Qed.

Lemma dec_digits_nonempty fuel n : dec_digits (S fuel) n [] <> [].
Proof.
  cbn [dec_digits]. cbv zeta. destruct (n <? 10); [discriminate|].
  rewrite dec_digits_app. intros H. apply app_eq_nil in H as [_ H]. discriminate.
Qed.

(** The decimal text of a number up to [INT64_MAX] is a literal of the
    grammar with that value. *)
Lemma literal_of n :
  0 <= n <= INT64_MAX ->
  let e := Grammar.ELit [] (Grammar.mkLit None (dec_digits 20 n []) []) in
  Grammar.wf e = true /\ Grammar.print e = dec_digits 20 n [] /\ Grammar.denote e = Some n.
Proof.
  intros Hn e.
  assert (Hv : digits_value 10 (dec_digits 20 n []) = n).
  { apply (dec_digits_value 20 n []). unfold INT64_MAX in Hn.
    change (10 ^ Z.of_nat 20) with 100000000000000000000.
    change (2 ^ 63 - 1) with 9223372036854775807 in Hn. lia. }
  split; [|split].
  - unfold e. cbn [Grammar.wf forallb andb]. unfold Grammar.wf_literal.
    cbn [Grammar.lit_digits Grammar.lit_suffix Grammar.lit_hex forallb].
    rewrite dec_digits_digits by (auto; lia).
    pose proof (dec_digits_nonempty 19 n) as Hne.
    destruct (dec_digits 20 n []); [congruence|reflexivity].
  - unfold e. cbn [Grammar.print Grammar.literal_text Grammar.lit_hex Grammar.lit_digits
                   Grammar.lit_suffix app]. apply app_nil_r.
  - unfold e. cbn [Grammar.denote]. unfold Grammar.literal_value.
    cbn [Grammar.lit_hex Grammar.lit_digits]. rewrite Hv.
    replace (n <=? INT64_MAX) with true by (symmetry; apply Z.leb_le; lia). reflexivity.
Qed.

Lemma wrap64_small v : INT64_MIN <= v <= INT64_MAX -> wrap64 v = v.
Proof.
  unfold INT64_MIN, INT64_MAX, wrap64. intros H.
  change (2 ^ 63) with 9223372036854775808 in *.
  change (2 ^ 64) with 18446744073709551616.
  rewrite Z.mod_small by lia. lia.
Qed.

Lemma evaluate_decimal v :
  INT64_MIN < v <= INT64_MAX -> evaluate_constant_expression (to_string v) = Some (Some v).
Proof.
  intros Hv. unfold to_string. destruct (v <? 0) eqn:E.
  - apply Z.ltb_lt in E.
    assert (Hn : 0 <= - v <= INT64_MAX).
    { unfold INT64_MIN, INT64_MAX in *. lia. }
    destruct (literal_of (- v) Hn) as (Hwf & Hp & Hd).
    set (lit := Grammar.ELit [] (Grammar.mkLit None (dec_digits 20 (- v) []) [])) in *.
    pose proof (GrammarFacts.evaluate_print (Grammar.EUn [] Grammar.UNeg lit) [] v) as H.
    cbn [Grammar.print Grammar.unop_char app] in H. rewrite Hp, app_nil_r in H.
    apply H; [|reflexivity|].
    + cbn [Grammar.wf forallb andb]. rewrite Hwf. reflexivity.
    + cbn [Grammar.denote]. rewrite Hd. cbn [option_map Grammar.unop_fun].
      unfold CEP.op_neg. rewrite Z.opp_involutive, wrap64_small; [reflexivity|lia].
  - apply Z.ltb_ge in E.
    destruct (literal_of v ltac:(lia)) as (Hwf & Hp & Hd).
    pose proof (GrammarFacts.evaluate_print _ [] v Hwf eq_refl Hd) as H.
    rewrite Hp, app_nil_r in H. exact H.
Qed.

End Decimal.

(** X15.  The evaluator reads back what [std::to_string] writes: the
    decimal text of a 64-bit value evaluates to that value, except the
    text of [INT64_MIN], whose digits exceed [INT64_MAX] and which does
    not evaluate. *)
Theorem evaluate_to_string (v : Z) :
  (INT64_MIN <= v <= INT64_MAX)%Z ->
  evaluate_constant_expression (to_string v)
    = Some (if (v =? INT64_MIN)%Z then None else Some v).
Proof.
  intros Hv. destruct (v =? INT64_MIN)%Z eqn:E.
  - apply Z.eqb_eq in E. subst v. vm_compute. reflexivity.
  - apply Z.eqb_neq in E. apply Decimal.evaluate_decimal. lia.
Qed.

Lemma evaluate_to_string_witness :
  to_string (-1234)%Z = str "-1234" /\
  evaluate_constant_expression (str "-1234") = Some (Some (-1234)%Z).
Proof.
  split; [reflexivity|].
  apply (evaluate_to_string (-1234)%Z). vm_compute. split; discriminate.
Defined.

(** * The tree driver, file by file *)

(** Where the traversal stages the file [p]. *)
Definition staged_path (w : World) (temp_dir base_dir p : path) : path :=
  lexically_normal
    (temp_dir ++ (if w_relative_fails w p then filename p else relative p base_dir)).

(** What one trip through the loop of [process_tree] does. *)
Inductive tree_shape (w : World) (temp_dir base_dir : path) (s : Traversal)
  : ctl Traversal Traversal -> Prop :=
| tree_done :
    queue s = [] -> tree_shape w temp_dir base_dir s (Exit s)
| tree_seen current rest :
    queue s = current :: rest ->
    in_paths (lexically_normal current) (visited s) = true ->
    tree_shape w temp_dir base_dir s
      (Next (mkTraversal rest (visited s) (original_to_processed s)
               (processed_to_original s) (t_had_templates s) (events s)))
| tree_unreadable current rest :
    queue s = current :: rest ->
    in_paths (lexically_normal current) (visited s) = false ->
    file_find (lexically_normal current) (w_files w) = None ->
    tree_shape w temp_dir base_dir s
      (Next (mkTraversal rest (lexically_normal current :: visited s)
               (original_to_processed s) (processed_to_original s)
               (t_had_templates s) (events s)))
| tree_unstaged current rest content processed tail :
    queue s = current :: rest ->
    in_paths (lexically_normal current) (visited s) = false ->
    file_find (lexically_normal current) (w_files w) = Some content ->
    process_file_content (lexically_normal current) content = Some processed ->
    tail = [] \/
    tail = [CreateDirectories
              (parent_path (staged_path w temp_dir base_dir (lexically_normal current)))] ->
    tree_shape w temp_dir base_dir s
      (Next (mkTraversal rest (lexically_normal current :: visited s)
               (original_to_processed s) (processed_to_original s)
               (t_had_templates s || m_had_templates processed)
               (events s ++ ReadFile (lexically_normal current) content :: tail)))
| tree_staged current rest content processed :
    queue s = current :: rest ->
    in_paths (lexically_normal current) (visited s) = false ->
    file_find (lexically_normal current) (w_files w) = Some content ->
    process_file_content (lexically_normal current) content = Some processed ->
    tree_shape w temp_dir base_dir s
      (Next (mkTraversal
               (fold_left (fun q import => lexically_normal import :: q)
                  (m_imports processed) rest)
               (lexically_normal current :: visited s)
               (emplace (lexically_normal current)
                  (staged_path w temp_dir base_dir (lexically_normal current))
                  (original_to_processed s))
               (emplace (staged_path w temp_dir base_dir (lexically_normal current))
                  (lexically_normal current) (processed_to_original s))
               (t_had_templates s || m_had_templates processed)
               (events s
                ++ [ReadFile (lexically_normal current) content;
                    CreateDirectories
                      (parent_path
                         (staged_path w temp_dir base_dir (lexically_normal current)));
                    WriteFile (staged_path w temp_dir base_dir (lexically_normal current))
                      (m_processed_content processed)]))).

Module Traversals.
Import Tree.

Lemma tree_step_shape w temp_dir base_dir s c :
  tree_step w temp_dir base_dir s = Some c -> tree_shape w temp_dir base_dir s c.
Proof.
  unfold tree_step.
  destruct (queue s) as [|current rest] eqn:Eq.
  { intros H. injection H as <-. apply tree_done. exact Eq. }
  cbv zeta.
  destruct (in_paths (lexically_normal current) (visited s)) eqn:Ev.
  { intros H. injection H as <-. eapply tree_seen; eassumption. }
  destruct (file_find (lexically_normal current) (w_files w)) as [content|] eqn:Ef.
  2:{ intros H. injection H as <-. eapply tree_unreadable; eassumption. }
  destruct (process_file_content (lexically_normal current) content) as [processed|] eqn:Ep;
    [|discriminate].
  cbn [bind]. fold (staged_path w temp_dir base_dir (lexically_normal current)).
  destruct (w_mkdir_fails w _).
  { intros H. injection H as <-. eapply tree_unstaged; eauto. }
  destruct (w_open_fails w _).
  { intros H. injection H as <-. rewrite <- app_assoc.
    eapply tree_unstaged; eauto. }
  intros H. injection H as <-. rewrite <- !app_assoc.
  eapply tree_staged; eauto.
Qed.

(** The paths of the files that were read, in order. *)
Fixpoint reads (ev : list event) : list path :=
  match ev with
  | [] => []
  | ReadFile p _ :: ev' => p :: reads ev'
  | _ :: ev' => reads ev'
  end.

Lemma reads_app ev ev' : reads (ev ++ ev') = reads ev ++ reads ev'.
Proof.
  induction ev as [|e ev IH]; [reflexivity|]. destruct e; simpl; rewrite IH; reflexivity.
Qed.

Lemma reads_In p content ev : In (ReadFile p content) ev -> In p (reads ev).
Proof.
  induction ev as [|e ev IH]; [intros []|].
  intros [->|H]; [left; reflexivity|]. destruct e; simpl; auto.
Qed.

(** What the traversal keeps true of the files it has handled. *)
Record handled (w : World) (s : Traversal) : Prop := {
  handled_once : NoDup (reads (events s));
  handled_visited : forall p, In p (reads (events s)) -> In p (visited s);
  handled_keys : forall orig proc,
    map_find orig (original_to_processed s) = Some proc -> In orig (visited s);
  handled_staged : forall orig proc,
    map_find orig (original_to_processed s) = Some proc ->
    exists content r,
      file_find orig (w_files w) = Some content /\
      process_file_content orig content = Some r /\
      In (ReadFile orig content) (events s) /\
      In (WriteFile proc (m_processed_content r)) (events s)
}.

Lemma handled_step w temp_dir base_dir s c :
  handled w s -> tree_step w temp_dir base_dir s = Some c ->
  match c with Next s' => handled w s' | Exit s' => handled w s' end.
Proof.
  intros [Honce Hvis Hkeys Hst] Hc.
  destruct (tree_step_shape _ _ _ _ _ Hc)
    as [Hq|current rest Hq Hseen|current rest Hq Hnew Hfile
        |current rest content processed tail Hq Hnew Hfile Hp Htail
        |current rest content processed Hq Hnew Hfile Hp].
  - constructor; assumption.
  - constructor; assumption.
  - constructor; simpl; auto.
    intros orig proc H. right. eapply Hkeys. exact H.
  - assert (Hr : reads (events s ++ ReadFile (lexically_normal current) content :: tail)
                 = reads (events s) ++ [lexically_normal current]).
    { rewrite reads_app. destruct Htail as [->| ->]; reflexivity. }
    assert (Hfresh : ~ In (lexically_normal current) (reads (events s))).
    { intros H. apply Hvis, in_paths_In in H. congruence. }
    constructor; simpl.
    + rewrite Hr. apply NoDup_app; [exact Honce|repeat constructor; intros []|].
      intros x Hx [<-|[]]. exact (Hfresh Hx).
    + rewrite Hr. intros p Hin. apply in_app_or in Hin as [Hin|[<-|[]]]; auto.
    + intros orig proc H. right. eapply Hkeys. exact H.
    + intros orig proc H. destruct (Hst _ _ H) as (c0 & r0 & H1 & H2 & H3 & H4).
      exists c0, r0. repeat split; auto; apply in_or_app; auto.
  - set (cc := lexically_normal current) in *.
    set (pp := staged_path w temp_dir base_dir cc) in *.
    assert (Hfresh : ~ In cc (reads (events s))).
    { intros H. apply Hvis, in_paths_In in H. congruence. }
    assert (Hnone : map_find cc (original_to_processed s) = None).
    { destruct (map_find cc (original_to_processed s)) eqn:E; [|reflexivity].
      apply Hkeys, in_paths_In in E. congruence. }
    constructor; simpl.
    + rewrite reads_app. simpl.
      apply NoDup_app; [exact Honce|repeat constructor; intros []|].
      intros x Hx [<-|[]]. exact (Hfresh Hx).
    + rewrite reads_app. simpl. intros p Hin.
      apply in_app_or in Hin as [Hin|[<-|[]]]; auto.
    + intros orig proc. rewrite map_find_emplace_new by exact Hnone.
      destruct (path_eqb orig cc) eqn:E.
      * apply path_eqb_eq in E. subst orig. intros _. left. reflexivity.
      * intros H. right. eapply Hkeys. exact H.
    + intros orig proc. rewrite map_find_emplace_new by exact Hnone.
      destruct (path_eqb orig cc) eqn:E.
      * apply path_eqb_eq in E. subst orig. intros H. injection H as <-.
        exists content, processed. repeat split; auto; apply in_or_app; right; simpl; auto.
      * intros H. destruct (Hst _ _ H) as (c0 & r0 & H1 & H2 & H3 & H4).
        exists c0, r0. repeat split; auto; apply in_or_app; auto.
Qed.

Lemma handled_initial w temp_dir root :
  handled w (mkTraversal [root] [] [] [] false [CreateDirectories temp_dir]).
Proof.
  constructor; simpl.
  - constructor.
  - intros p [].
  - discriminate.
  - discriminate.
Qed.

Lemma traversal_handled w temp_dir root s :
  loop (tree_step w temp_dir (parent_path root)) (traversal_bound w)
    (mkTraversal [root] [] [] [] false [CreateDirectories temp_dir]) = Some s ->
  handled w s.
Proof.
  intros Hs.
  apply (loop_post (tree_step w temp_dir (parent_path root)) (handled w) (handled w))
    with (2 := handled_initial _ _ _) (3 := Hs).
  intros a c Ha Hc. apply (handled_step _ _ _ _ _ Ha Hc).
Qed.

(** The state in which [process_tree] leaves its loop. *)
Lemma process_tree_run w root_path res ev :
  process_tree w root_path = Some (res, ev) -> ev <> [] ->
  exists s,
    loop (tree_step w (staging_directory w)
            (parent_path (canonicalize_path w root_path))) (traversal_bound w)
      (mkTraversal [canonicalize_path w root_path] [] [] [] false
         [CreateDirectories (staging_directory w)]) = Some s /\
    (t_had_templates s = false ->
       res = None /\ ev = events s ++ [RemoveAll (staging_directory w)]) /\
    (t_had_templates s = true ->
       ev = events s /\
       res = Some {| m_original_root := canonicalize_path w root_path;
                     m_processed_root :=
                       match map_find (canonicalize_path w root_path)
                               (original_to_processed s) with
                       | Some p => p
                       | None => canonicalize_path w root_path
                       end;
                     m_temp_directory := staging_directory w;
                     m_original_to_processed := original_to_processed s;
                     m_processed_to_original := processed_to_original s;
                     r_had_templates := t_had_templates s |}).
Proof.
  unfold process_tree. destruct (is_empty root_path); [intros H; injection H as <- <-; congruence|].
  cbv zeta.
  destruct (w_temp_fails w); [discriminate|].
  destruct (w_mkdir_fails w (staging_directory w)); [intros H; injection H as <- <-; congruence|].
  destruct (loop _ _ _) as [s|] eqn:Hs; [|discriminate]. cbn [bind].
  rewrite TreeFacts.staging_directory_not_empty.
  intros H _. exists s. split; [reflexivity|].
  destruct (t_had_templates s); cbn [negb] in H; injection H as <- <-;
    split; intros E; try discriminate; split; reflexivity.
Qed.

End Traversals.

(** X16.  In a run of [process_tree] no file is read twice, whatever the
    imports (a file that imports itself, two files that import each
    other, one file imported by several). *)
Theorem process_tree_reads_once (w : World) (root_path : text)
    (res : option PreprocessResult) (ev : list event) :
  process_tree w root_path = Some (res, ev) -> NoDup (Traversals.reads ev).
Proof.
  intros H. destruct ev as [|e ev'] eqn:Eev; [constructor|].
  destruct (Traversals.process_tree_run w root_path res _ H ltac:(discriminate))
    as (s & Hs & Hno & Hyes).
  pose proof (Traversals.traversal_handled _ _ _ _ Hs) as [Honce _ _ _].
  destruct (t_had_templates s) eqn:Eh.
  - destruct (Hyes eq_refl) as [-> _]. exact Honce.
  - destruct (Hno eq_refl) as [_ ->]. rewrite Traversals.reads_app. simpl.
    rewrite app_nil_r. exact Honce.
Qed.

(** Two files that import each other. *)
Definition cyclic_world : World :=
  {| w_cwd := split_path (str "/p");
     w_temp := split_path (str "/tmp");
     w_temp_fails := false;
     w_random := 1;
     w_files :=
       [(split_path (str "/p/a.h"),
         str "import " ++ QUOTE :: str "b.h" ++ QUOTE :: str "
struct Box<typename T> { T v; };");
        (split_path (str "/p/b.h"),
         str "import " ++ QUOTE :: str "a.h" ++ QUOTE :: str "
import " ++ QUOTE :: str "b.h" ++ QUOTE :: str "
")];
     w_mkdir_fails := fun _ => false;
     w_open_fails := fun _ => false;
     w_relative_fails := fun _ => false |}.

Lemma process_tree_reads_once_witness :
  exists r ev,
    process_tree cyclic_world (str "a.h") = Some (Some r, ev) /\
    Traversals.reads ev = [split_path (str "/p/a.h"); split_path (str "/p/b.h")] /\
    NoDup (Traversals.reads ev).
Proof.
  destruct (process_tree cyclic_world (str "a.h")) as [[[r|] ev]|] eqn:E;
    [|vm_compute in E; discriminate|vm_compute in E; discriminate].
  exists r, ev. split; [reflexivity|].
  split; [vm_compute in E; injection E as <- <-; reflexivity|].
  exact (process_tree_reads_once _ _ _ _ E).
Defined.

(** X17.  In every result of [process_tree], each pair of
    [m_original_to_processed] is a file that was read once, from the
    snapshot, and whose transformed content was written at the staged
    path. *)
Theorem process_tree_staged_content (w : World) (root_path : text)
    (r : PreprocessResult) (ev : list event) (orig proc : path) :
  process_tree w root_path = Some (Some r, ev) ->
  map_find orig (m_original_to_processed r) = Some proc ->
  exists content processed,
    file_find orig (w_files w) = Some content /\
    process_file_content orig content = Some processed /\
    In (ReadFile orig content) ev /\
    In (WriteFile proc (m_processed_content processed)) ev.
Proof.
  intros H Hm.
  assert (Hev : ev <> []).
  { intros ->. unfold process_tree in H. destruct (is_empty root_path); [discriminate|].
    cbv zeta in H. destruct (w_temp_fails w); [discriminate|].
    destruct (w_mkdir_fails w _); [discriminate|].
    destruct (loop _ _ _) as [s|] eqn:Hs; [|discriminate]. cbn [bind] in H.
    apply TreeFacts.traversal_invariant in Hs. destruct (Tree.inv_first _ _ Hs) as (x & Hx).
    destruct (negb (t_had_templates s)); [discriminate|].
    injection H as _ H. rewrite Hx in H. discriminate. }
  destruct (Traversals.process_tree_run w root_path _ _ H Hev) as (s & Hs & Hno & Hyes).
  pose proof (Traversals.traversal_handled _ _ _ _ Hs) as [_ _ _ Hst].
  destruct (t_had_templates s) eqn:Eh.
  - destruct (Hyes eq_refl) as [-> Hr]. injection Hr as ->. simpl in Hm.
    exact (Hst _ _ Hm).
  - destruct (Hno eq_refl) as [Hr _]. discriminate.
Qed.

Lemma process_tree_staged_content_witness :
  exists r ev content processed,
    process_tree cyclic_world (str "a.h") = Some (Some r, ev) /\
    map_find (split_path (str "/p/b.h")) (m_original_to_processed r)
      = Some (split_path (str "/tmp/regenny_tmpl_1/b.h")) /\
    process_file_content (split_path (str "/p/b.h")) content = Some processed /\
    In (WriteFile (split_path (str "/tmp/regenny_tmpl_1/b.h"))
          (m_processed_content processed)) ev.
Proof.
  destruct (process_tree cyclic_world (str "a.h")) as [[[r|] ev]|] eqn:E;
    [|vm_compute in E; discriminate|vm_compute in E; discriminate].
  assert (Hm : map_find (split_path (str "/p/b.h")) (m_original_to_processed r)
               = Some (split_path (str "/tmp/regenny_tmpl_1/b.h"))).
  { vm_compute in E. injection E as <- <-. reflexivity. }
  destruct (process_tree_staged_content _ _ _ _ _ _ E Hm)
    as (content & processed & _ & Hp & _ & Hw).
  exists r, ev, content, processed. repeat split; assumption.
Defined.

(** ** Paths of the result *)

(** A path without [.] and [..] components. *)
Definition clean (p : list text) : Prop := Forall (fun c => c <> DOT /\ c <> DOTDOT) p.

Module Paths.
Import Tree.

Lemma text_eqb_neq a b : a <> b -> text_eqb a b = false.
Proof. intros H. unfold text_eqb. destruct (list_eq_dec ascii_dec a b); congruence. Qed.

Lemma removelast_clean p : clean p -> clean (removelast p).
Proof.
  induction p as [|c p IH]; intros H; [exact H|].
  inversion H as [|? ? Hc Hp]; subst. destruct p as [|d p]; [constructor|].
  change (removelast (c :: d :: p)) with (c :: removelast (d :: p)).
  constructor; [exact Hc|apply IH; exact Hp].
Qed.

Lemma fold_normal_clean p : forall acc, clean acc -> clean (fold_left normal_step p acc).
Proof.
  induction p as [|c p IH]; intros acc H; simpl; [exact H|].
  apply IH. unfold normal_step.
  destruct (text_eqb c DOT) eqn:E1; [exact H|].
  destruct (text_eqb c DOTDOT) eqn:E2; [apply removelast_clean, H|].
  apply Forall_app. split; [exact H|]. constructor; [|constructor].
  split; intros ->; [rewrite text_eqb_refl in E1|rewrite text_eqb_refl in E2]; discriminate.
Qed.

Lemma lexically_normal_clean p : clean (lexically_normal p).
Proof. apply fold_normal_clean. constructor. Qed.

Lemma fold_normal_id p : forall acc, clean p -> fold_left normal_step p acc = acc ++ p.
Proof.
  induction p as [|c p IH]; intros acc H; simpl; [rewrite app_nil_r; reflexivity|].
  inversion H as [|? ? [H1 H2] Hp]; subst.
  unfold normal_step at 2. rewrite (text_eqb_neq _ _ H1), (text_eqb_neq _ _ H2).
  rewrite IH by exact Hp. rewrite <- app_assoc. reflexivity.
Qed.

(** Normalizing a path that is normal changes nothing. *)
Lemma lexically_normal_id p : clean p -> lexically_normal p = p.
Proof. intros H. apply (fold_normal_id p [] H). Qed.

Lemma lexically_normal_idem p : lexically_normal (lexically_normal p) = lexically_normal p.
Proof. apply lexically_normal_id, lexically_normal_clean. Qed.

Lemma canonicalize_path_normal w s :
  lexically_normal (canonicalize_path w s) = canonicalize_path w s.
Proof. apply lexically_normal_idem. Qed.

Lemma map_find_emplace_keep k v m k' x :
  map_find k' m = Some x -> map_find k' (emplace k v m) = Some x.
Proof.
  intros H. unfold emplace. destruct (map_find k m); [exact H|].
  induction m as [|[a b] m IH]; simpl in *; [discriminate|].
  destruct (path_eqb k' a); [exact H|]. apply IH. exact H.
Qed.

(** The fate of the root file. *)
Definition root_state (root : path) (s : Traversal) : Prop :=
  (queue s = [root] /\ visited s = []
   /\ original_to_processed s = [] /\ processed_to_original s = []) \/
  (exists p, map_find root (original_to_processed s) = Some p) \/
  (queue s = [] /\ original_to_processed s = [] /\ processed_to_original s = []).

Lemma root_state_step w temp_dir base_dir root s c :
  lexically_normal root = root ->
  root_state root s -> tree_step w temp_dir base_dir s = Some c ->
  match c with Next s' => root_state root s' | Exit s' => root_state root s' end.
Proof.
  intros Hroot Hs Hc.
  destruct (Traversals.tree_step_shape _ _ _ _ _ Hc)
    as [Hq|current rest Hq Hseen|current rest Hq Hnew Hfile
        |current rest content processed tail Hq Hnew Hfile Hp Htail
        |current rest content processed Hq Hnew Hfile Hp].
  - exact Hs.
  - destruct Hs as [(Hq' & Hv & _)|[Hs|(Hq' & _)]].
    + rewrite Hv in Hseen. discriminate.
    + right. left. exact Hs.
    + congruence.
  - destruct Hs as [(Hq' & Hv & Ho & Hp)|[Hs|(Hq' & _)]].
    + right. right. simpl. rewrite Hq in Hq'. injection Hq' as _ <-. auto.
    + right. left. exact Hs.
    + congruence.
  - destruct Hs as [(Hq' & Hv & Ho & Hp')|[Hs|(Hq' & _)]].
    + right. right. simpl. rewrite Hq in Hq'. injection Hq' as _ <-. auto.
    + right. left. exact Hs.
    + congruence.
  - destruct Hs as [(Hq' & Hv & Ho & Hp')|[(p & Hs)|(Hq' & _)]].
    + right. left. simpl. rewrite Hq in Hq'. injection Hq' as -> _.
      rewrite Hroot, Ho. eexists. unfold emplace. simpl. rewrite path_eqb_refl. reflexivity.
    + right. left. simpl. exists p. apply map_find_emplace_keep. exact Hs.
    + congruence.
Qed.

Lemma traversal_root w temp_dir root s :
  lexically_normal root = root ->
  loop (tree_step w temp_dir (parent_path root)) (traversal_bound w)
    (mkTraversal [root] [] [] [] false [CreateDirectories temp_dir]) = Some s ->
  (exists p, map_find root (original_to_processed s) = Some p) \/
  (original_to_processed s = [] /\ processed_to_original s = []).
Proof.
  intros Hroot Hs.
  assert (H : root_state root s /\ queue s = []).
  { revert Hs.
    apply (loop_post (tree_step w temp_dir (parent_path root)) (root_state root)
             (fun r => root_state root r /\ queue r = [])).
    - intros a c Ha Hc. pose proof (root_state_step _ _ _ _ _ _ Hroot Ha Hc) as H.
      destruct c as [a'|r]; [exact H|]. split; [exact H|].
      unfold tree_step in Hc. destruct (queue a) eqn:E.
      + injection Hc as <-. exact E.
      + cbv zeta in Hc.
        repeat match type of Hc with
               | (if ?b then _ else _) = _ => destruct b
               | match ?x with Some _ => _ | None => _ end = _ => destruct x
               | bind ?x _ = _ => destruct x; cbn [bind] in Hc
               end; discriminate.
    - left. repeat split. }
  destruct H as [[(Hq & _)|[H|(_ & H)]] Hq']; auto. congruence.
Qed.

(** *** Directories *)



End Paths.

(** X18.  A result of [process_tree] names the canonical root, the
    staging directory and [m_had_templates = true]; its
    [m_processed_root] is the staged copy of the root when the root was
    staged; when it was not (its output could not be created), both maps
    are empty and [m_processed_root] is the original root. *)
Theorem process_tree_root (w : World) (root_path : text)
    (r : PreprocessResult) (ev : list event) :
  process_tree w root_path = Some (Some r, ev) ->
  m_original_root r = canonicalize_path w root_path /\
  m_temp_directory r = staging_directory w /\
  r_had_templates r = true /\
  (map_find (m_original_root r) (m_original_to_processed r) = Some (m_processed_root r) \/
   (m_original_to_processed r = [] /\ m_processed_to_original r = [] /\
    m_processed_root r = m_original_root r)).
Proof.
  unfold process_tree. destruct (is_empty root_path); [discriminate|]. cbv zeta.
  destruct (w_temp_fails w); [discriminate|].
  destruct (w_mkdir_fails w _); [discriminate|].
  destruct (loop _ _ _) as [s|] eqn:Hs; [|discriminate]. cbn [bind].
  destruct (t_had_templates s) eqn:Eh; cbn [negb]; [|discriminate].
  intros H. injection H as <- _. cbn.
  split; [reflexivity|]. split; [reflexivity|]. split; [reflexivity|].
  destruct (Paths.traversal_root _ _ _ _ (Paths.canonicalize_path_normal w root_path) Hs)
    as [(p & Hp)|[Ho Hpo]].
  - left. rewrite Hp. reflexivity.
  - right. rewrite Ho. auto.
Qed.

(** The root has templates, and its staged copy cannot be created. *)
Definition read_only_world : World :=
  {| w_cwd := split_path (str "/p");
     w_temp := split_path (str "/tmp");
     w_temp_fails := false;
     w_random := 1;
     w_files := [(split_path (str "/p/a.h"), str "struct Box<typename T> { T v; };")];
     w_mkdir_fails := fun _ => false;
     w_open_fails := fun _ => true;
     w_relative_fails := fun _ => false |}.

Lemma process_tree_root_witness :
  exists r ev,
    process_tree read_only_world (str "a.h") = Some (Some r, ev) /\
    m_original_to_processed r = [] /\
    m_processed_root r = split_path (str "/p/a.h") /\
    r_had_templates r = true.
Proof.
  destruct (process_tree read_only_world (str "a.h")) as [[[r|] ev]|] eqn:E;
    [|vm_compute in E; discriminate|vm_compute in E; discriminate].
  destruct (process_tree_root _ _ _ _ E) as (_ & _ & Hh & _).
  exists r, ev. split; [reflexivity|].
  vm_compute in E. injection E as <- <-. repeat split.
Defined.



(** ** Projects that stay under the directory of their root *)

Module Contained.
Import Tree.

Lemma lexically_relative_under base : forall suffix,
  lexically_relative (base ++ suffix) base = suffix.
Proof.
  induction base as [|x base IH]; intros suffix.
  - destruct suffix; reflexivity.
  - cbn [app lexically_relative]. rewrite text_eqb_refl. apply IH.
Qed.

Lemma is_prefix_split base p : is_prefix base p = true -> p = base ++ skipn (length base) p.
Proof.
  unfold is_prefix. intros H. apply path_eqb_eq in H.
  rewrite H at 1. symmetry. apply firstn_skipn.
Qed.

Lemma clean_skipn n p : clean p -> clean (skipn n p).
Proof.
  unfold clean. rewrite !Forall_forall. intros H x Hx. apply H.
  rewrite <- (firstn_skipn n p). apply in_or_app. right. exact Hx.
Qed.

(** A file under the directory of the root is staged at the same place
    under the staging directory. *)
Lemma staged_under w temp_dir base p :
  clean temp_dir -> clean p -> w_relative_fails w p = false ->
  is_prefix base p = true ->
  staged_path w temp_dir base p = temp_dir ++ skipn (length base) p.
Proof.
  intros Ht Hp Hrel Hpre. unfold staged_path, relative. rewrite Hrel.
  rewrite (is_prefix_split _ _ Hpre) at 1. rewrite lexically_relative_under.
  pose proof (clean_skipn (length base) p Hp) as Hs.
  destruct (skipn (length base) p) as [|c suffix] eqn:E.
  - unfold lexically_normal. rewrite fold_left_app. cbn [fold_left].
    fold (lexically_normal temp_dir). rewrite (Paths.lexically_normal_id _ Ht).
    unfold normal_step. rewrite text_eqb_refl, app_nil_r. reflexivity.
  - apply Paths.lexically_normal_id. apply Forall_app. split; assumption.
Qed.

Lemma staging_directory_clean w : clean (w_temp w) -> clean (staging_directory w).
Proof.
  intros H. unfold staging_directory. apply Forall_app. split; [exact H|].
  constructor; [|constructor]. split; discriminate.
Qed.

(** Every pair of [original_to_processed] is mirrored in
    [processed_to_original], and maps a file under the base directory to
    the same place under the staging directory. *)
Definition mirrored (temp_dir base : path) (s : Traversal) : Prop :=
  forall orig proc,
    map_find orig (original_to_processed s) = Some proc ->
    map_find proc (processed_to_original s) = Some orig /\
    is_prefix base orig = true /\
    proc = temp_dir ++ skipn (length base) orig.

Section Step.

Variable w : World.
Variables temp_dir base : path.
Hypothesis temp_clean : clean temp_dir.
Hypothesis relative_works : forall p, w_relative_fails w p = false.
Hypothesis files_under : forall p content,
  file_find p (w_files w) = Some content -> is_prefix base p = true.

Lemma mirrored_step s c :
  invariant temp_dir s -> mirrored temp_dir base s ->
  tree_step w temp_dir base s = Some c ->
  match c with Next s' => mirrored temp_dir base s' | Exit s' => mirrored temp_dir base s' end.
Proof.
  intros [_ _ _ Hback Hkeys] Hm Hc.
  destruct (Traversals.tree_step_shape _ _ _ _ _ Hc)
    as [Hq|current rest Hq Hseen|current rest Hq Hnew Hfile
        |current rest content processed tail Hq Hnew Hfile Hp Htail
        |current rest content processed Hq Hnew Hfile Hp];
    try exact Hm.
  set (cc := lexically_normal current) in *.
  assert (Hnone : map_find cc (original_to_processed s) = None).
  { destruct (map_find cc (original_to_processed s)) eqn:E; [|reflexivity].
    apply Hkeys, in_paths_In in E. congruence. }
  pose proof (files_under _ _ Hfile) as Hunder.
  assert (Hpp : staged_path w temp_dir base cc = temp_dir ++ skipn (length base) cc).
  { apply staged_under; auto. apply Paths.lexically_normal_clean. }
  set (pp := staged_path w temp_dir base cc) in *.
  assert (Hfresh : map_find pp (processed_to_original s) = None).
  { destruct (map_find pp (processed_to_original s)) as [o|] eqn:E; [|reflexivity].
    exfalso. pose proof (Hback _ _ E) as Ho.
    destruct (Hm _ _ Ho) as (_ & Hpre & Hproc).
    rewrite Hpp in Hproc. apply app_inv_head in Hproc.
    assert (o = cc).
    { rewrite (is_prefix_split _ _ Hpre), (is_prefix_split _ _ Hunder). congruence. }
    subst o. congruence. }
  intros orig proc. cbn [original_to_processed processed_to_original].
  rewrite map_find_emplace_new by exact Hnone.
  destruct (path_eqb orig cc) eqn:E.
  - apply path_eqb_eq in E. subst orig. intros H. injection H as <-.
    rewrite map_find_emplace_new by exact Hfresh. rewrite path_eqb_refl. auto.
  - intros H. destruct (Hm _ _ H) as (H1 & H2 & H3).
    rewrite map_find_emplace_new by exact Hfresh.
    destruct (path_eqb proc pp) eqn:E'; [|auto].
    apply path_eqb_eq in E'. congruence.
Qed.

End Step.

Lemma traversal_mirrored w temp_dir root s :
  clean temp_dir -> (forall p, w_relative_fails w p = false) ->
  (forall p content,
     file_find p (w_files w) = Some content -> is_prefix (parent_path root) p = true) ->
  loop (tree_step w temp_dir (parent_path root)) (traversal_bound w)
    (mkTraversal [root] [] [] [] false [CreateDirectories temp_dir]) = Some s ->
  invariant temp_dir s /\ mirrored temp_dir (parent_path root) s.
Proof.
  intros Ht Hrel Hunder Hs.
  apply (loop_post (tree_step w temp_dir (parent_path root))
           (fun a => invariant temp_dir a /\ mirrored temp_dir (parent_path root) a)
           (fun a => invariant temp_dir a /\ mirrored temp_dir (parent_path root) a))
    with (3 := Hs).
  - intros a c [Ha Hm] Hc.
    pose proof (tree_step_invariant _ _ _ _ _ Ha Hc) as H1.
    pose proof (mirrored_step w temp_dir (parent_path root) Ht Hrel Hunder a c Ha Hm Hc)
      as H2.
    destruct c; split; assumption.
  - split; [apply invariant_initial|]. intros orig proc. discriminate.
Qed.

End Contained.

(** X20.  When the temporary directory is a normal path, [relative]
    never fails, and every file that can be opened lies under the
    directory of the root file, the two maps of a result are inverses of
    each other, and every staged path is the path of the original
    relative to the directory of the root, under the staging directory. *)
Theorem process_tree_round_trip (w : World) (root_path : text)
    (r : PreprocessResult) (ev : list event) :
  clean (w_temp w) ->
  (forall p, w_relative_fails w p = false) ->
  (forall p content,
     file_find p (w_files w) = Some content ->
     is_prefix (parent_path (canonicalize_path w root_path)) p = true) ->
  process_tree w root_path = Some (Some r, ev) ->
  forall orig proc,
    (map_find orig (m_original_to_processed r) = Some proc <->
     map_find proc (m_processed_to_original r) = Some orig) /\
    (map_find orig (m_original_to_processed r) = Some proc ->
     proc = m_temp_directory r
            ++ skipn (length (parent_path (m_original_root r))) orig).
Proof.
  intros Ht Hrel Hunder. unfold process_tree.
  destruct (is_empty root_path); [discriminate|]. cbv zeta.
  destruct (w_temp_fails w); [discriminate|].
  destruct (w_mkdir_fails w _); [discriminate|].
  destruct (loop _ _ _) as [s|] eqn:Hs; [|discriminate]. cbn [bind].
  destruct (t_had_templates s) eqn:Eh; cbn [negb]; [|discriminate].
  intros H. injection H as <- _. cbn.
  destruct (Contained.traversal_mirrored _ _ _ _
              (Contained.staging_directory_clean w Ht) Hrel Hunder Hs) as [Hinv Hm].
  intros orig proc. split; [split|].
  - intros H. apply (Hm _ _ H).
  - apply (Tree.inv_back _ _ Hinv).
  - intros H. apply (Hm _ _ H).
Qed.

Definition nested_world : World :=
  {| w_cwd := split_path (str "/p");
     w_temp := split_path (str "/tmp");
     w_temp_fails := false;
     w_random := 1;
     w_files :=
       [(split_path (str "/p/a.h"),
         str "import " ++ QUOTE :: str "sub/b.h" ++ QUOTE :: str "
struct Box<typename T> { T v; };");
        (split_path (str "/p/sub/b.h"),
         str "import " ++ QUOTE :: str "../a.h" ++ QUOTE :: str "
")];
     w_mkdir_fails := fun _ => false;
     w_open_fails := fun _ => false;
     w_relative_fails := fun _ => false |}.

Lemma process_tree_round_trip_witness :
  exists r ev,
    process_tree nested_world (str "a.h") = Some (Some r, ev) /\
    map_find (split_path (str "/p/sub/b.h")) (m_original_to_processed r)
      = Some (split_path (str "/tmp/regenny_tmpl_1/sub/b.h")) /\
    map_find (split_path (str "/tmp/regenny_tmpl_1/sub/b.h")) (m_processed_to_original r)
      = Some (split_path (str "/p/sub/b.h")).
Proof.
  destruct (process_tree nested_world (str "a.h")) as [[[r|] ev]|] eqn:E;
    [|vm_compute in E; discriminate|vm_compute in E; discriminate].
  assert (Hm : map_find (split_path (str "/p/sub/b.h")) (m_original_to_processed r)
               = Some (split_path (str "/tmp/regenny_tmpl_1/sub/b.h"))).
  { vm_compute in E. injection E as <- <-. reflexivity. }
  exists r, ev. split; [reflexivity|]. split; [exact Hm|].
  apply (process_tree_round_trip nested_world (str "a.h") r ev); [| | |exact E|exact Hm].
  - repeat constructor; discriminate.
  - reflexivity.
  - intros p content. unfold nested_world. cbn [w_files file_find].
    destruct (path_eqb p (split_path (str "/p/a.h"))) eqn:E1.
    { apply Tree.path_eqb_eq in E1. subst p. intros _. vm_compute. reflexivity. }
    destruct (path_eqb p (split_path (str "/p/sub/b.h"))) eqn:E2; [|discriminate].
    apply Tree.path_eqb_eq in E2. subst p. intros _. vm_compute. reflexivity.
Defined.

(** * Registering and resolving definitions *)

Module Registry.

Lemma assoc_find_set_same {V : Type} k (v : V) : forall m,
  assoc_find k (assoc_set k v m) = Some v.
Proof.
  induction m as [|[k' v'] m IH]; simpl.
  - rewrite text_eqb_refl. reflexivity.
  - destruct (text_eqb k k') eqn:E; simpl; [rewrite text_eqb_refl; reflexivity|].
    rewrite E. exact IH.
Qed.

Lemma rindex_upto_found c t : forall n k,
  k < n -> k < length t -> at_ t k = c -> exists j, rindex_upto c t n = Some j.
Proof.
  induction n as [|n IH]; intros k Hk Hl Hc; [lia|].
  cbn [rindex_upto].
  destruct ((n <? length t) && Ascii.eqb (at_ t n) c) eqn:E; [eauto|].
  destruct (Nat.eq_dec k n) as [->|Hne].
  - replace (n <? length t) with true in E by (symmetry; apply Nat.ltb_lt; exact Hl).
    rewrite Hc, Ascii.eqb_refl in E. discriminate.
  - apply (IH k); [lia|exact Hl|exact Hc].
Qed.

Lemma rindex_upto_spec c t : forall n k,
  rindex_upto c t n = Some k -> k < length t /\ at_ t k = c.
Proof.
  induction n as [|n IH]; intros k; cbn [rindex_upto]; [discriminate|].
  destruct ((n <? length t) && Ascii.eqb (at_ t n) c) eqn:E; [|apply IH].
  intros H. injection H as <-. apply andb_true_iff in E as [E1 E2].
  apply Nat.ltb_lt in E1. apply Ascii.eqb_eq in E2. auto.
Qed.

(** A qualified name has a last dot. *)
Lemma full_name_dot def :
  m_scope_path def <> [] -> exists dot, rfind_char_all "." (full_name def) = Some dot.
Proof.
  intros H. unfold full_name, rfind_char_all.
  destruct (m_scope_path def) as [|c scope] eqn:E; [congruence|].
  apply (rindex_upto_found _ _ _ (length (c :: scope))).
  - rewrite !length_app. simpl. lia.
  - rewrite !length_app. simpl. lia.
  - change (str ".") with ["."]. cbn [app]. apply (Arguments.at_middle (c :: scope)).
Qed.

(** An identifier has no dot. *)
Lemma identifier_no_dot s :
  forallb is_identifier_char s = true -> rfind_char_all "." s = None.
Proof.
  intros H. unfold rfind_char_all.
  destruct (rindex_upto "." s (length s)) as [k|] eqn:E; [|reflexivity].
  apply rindex_upto_spec in E as [Hk Hc].
  pose proof (Search.forallb_at _ _ _ H Hk) as Hi. rewrite Hc in Hi. discriminate.
Qed.

Definition score (definitions : list TemplateDefinition) (prefix current_scope : text)
    (i : nat) : nat :=
  match nth_error definitions i with
  | Some def => score_candidate prefix current_scope def
  | None => 0
  end.

(** The search ends with a candidate as soon as one has a positive
    score. *)
Lemma resolve_loop_found definitions prefix current_scope candidates :
  forall best best_score,
    (0 < best_score -> best <> None) ->
    0 < best_score
    \/ (exists i, In i candidates /\ 0 < score definitions prefix current_scope i) ->
    resolve_loop definitions prefix current_scope candidates best best_score <> None.
Proof.
  induction candidates as [|c cs IH]; intros best bs Hinv Hex; cbn [resolve_loop].
  - destruct Hex as [H|(i & [] & _)]. auto.
  - cbv zeta. fold (score definitions prefix current_scope c).
    set (sc := score definitions prefix current_scope c) in *.
    destruct (bs <? sc) eqn:E; cbv beta iota.
    + apply Nat.ltb_lt in E. destruct (1000 <=? sc); [discriminate|].
      apply IH; [discriminate|left; lia].
    + apply Nat.ltb_ge in E. destruct (1000 <=? sc) eqn:E1.
      * apply Nat.leb_le in E1. apply Hinv. lia.
      * apply IH; [exact Hinv|].
        destruct Hex as [H|(i & [<-|Hi] & Hs)]; [auto|left; fold sc in Hs; lia|eauto].
Qed.

Lemma global_score current_scope def :
  m_scope_path def = [] -> 0 < score_candidate [] current_scope def.
Proof.
  intros H. unfold score_candidate. rewrite H. cbn [is_empty negb andb].
  destruct (text_eqb [] current_scope); cbn; lia.
Qed.

End Registry.

(** X21.  While the vector of definitions has a reserved place left (so
    that appending moves no element) and the lookup holds definitions of
    the vector, a definition that has just been appended and registered
    is found again: under its full name when it is in a scope, whatever
    the current scope; and when it is global and its name is an
    identifier, its name resolves, from any scope, to a definition of
    the vector that is registered under that name. *)
Theorem register_then_resolve (lookup : DefinitionLookup)
    (definitions : list TemplateDefinition) (def : TemplateDefinition)
    (current_scope : text) :
  length definitions < 16 -> lookup_ok definitions lookup ->
  let lookup' := register_definition lookup def (length definitions) in
  let definitions' := definitions ++ [def] in
  (m_scope_path def <> [] ->
   resolve lookup' definitions' (full_name def) current_scope = Some (length definitions)) /\
  (m_scope_path def = [] -> is_identifier (m_name def) = true ->
   exists i d,
     resolve lookup' definitions' (m_name def) current_scope = Some i /\
     nth_error definitions' i = Some d /\
     (full_name d = m_name def \/ m_name d = m_name def)).
Proof.
  intros _ Hok lookup' definitions'. split.
  - intros Hscope. destruct (Registry.full_name_dot def Hscope) as (dot & Hdot).
    unfold resolve. cbv zeta. rewrite Hdot. unfold lookup', register_definition.
    cbn [m_by_full]. rewrite Registry.assoc_find_set_same. reflexivity.
  - intros Hscope Hid.
    pose proof (Registry.identifier_no_dot _ (Identifiers.is_identifier_chars _ Hid)) as Hdot.
    enough (Hres : exists i, resolve lookup' definitions' (m_name def) current_scope = Some i).
    { destruct Hres as (i & Hi). exists i.
      destruct (Resolution.resolve_sound definitions' lookup' _ _ _
                  (Invariants.lookup_ok_register _ _ def Hok) Hi) as (d & Hd & Hname).
      unfold Resolution.base_of in Hname. rewrite Hdot in Hname. eauto. }
    unfold resolve, token_prefix. cbv zeta. rewrite Hdot.
    unfold lookup', register_definition. cbn [m_by_name].
    rewrite Registry.assoc_find_set_same.
    set (candidates := match assoc_find (m_name def) (m_by_name lookup) with
                       | Some l => l ++ [length definitions]
                       | None => [length definitions]
                       end).
    destruct (resolve_loop definitions' [] current_scope candidates None 0) as [i|] eqn:E;
      [eauto|].
    exfalso. revert E. apply Registry.resolve_loop_found; [lia|]. right.
    exists (length definitions). split.
    + unfold candidates. destruct (assoc_find _ _); [apply in_or_app; right|]; left; reflexivity.
    + unfold Registry.score, definitions'.
      rewrite nth_error_app2, Nat.sub_diag by lia. cbn [nth_error].
      apply Registry.global_score. exact Hscope.
Qed.

(** * The cache of specializations *)

(** X22.  Registering the same arguments twice returns the same
    specialization, and the second call leaves the definition as the
    first one left it. *)
Theorem register_specialization_cached (def def' : TemplateDefinition) (args : list text)
    (prefix current_scope : text) (spec : Specialization) :
  register_specialization def args prefix current_scope = Some (def', spec) ->
  register_specialization def' args prefix current_scope = Some (def', spec) /\
  (m_specializations def' = m_specializations def \/
   m_specializations def' = m_specializations def ++ [spec]).
Proof.
  unfold register_specialization at 1. cbv zeta.
  fold (signature_of def args prefix current_scope).
  destruct (assoc_find _ (m_specialization_index def)) as [i|] eqn:Ef.
  - intros H. injection H as <- <-. split; [|left; reflexivity].
    unfold register_specialization. cbv zeta.
    fold (signature_of def args prefix current_scope). rewrite Ef. reflexivity.
  - destruct (replace_parameters (m_between def) _ _) as [between|]; [|discriminate].
    destruct (replace_parameters (m_body def) _ _) as [body|]; [|discriminate].
    cbn [bind].
    destruct (evaluate_bracket_expressions body) as [body'|]; [|discriminate].
    destruct (replace_parameters (m_closing def) _ _) as [closing|]; [|discriminate].
    cbn [bind]. intros H. injection H as <- <-. split; [|right; reflexivity].
    unfold register_specialization, with_specialization. cbv zeta.
    unfold scope_hint_of. cbn [m_scope_path m_specialization_index m_specializations].
    fold (scope_hint_of def prefix current_scope).
    fold (signature_of def args prefix current_scope).
    rewrite (assoc_find_app_new _ _ _ Ef). rewrite nth_middle_default. reflexivity.
Qed.

Definition pair_definition : TemplateDefinition :=
  {| m_keyword := str "struct";
     m_name := str "Pair";
     m_parameters := [mkParam (str "A") Type_; mkParam (str "N") NonType];
     m_between := str " ";
     m_body := str " A a[N + 1]; ";
     m_closing := str "};";
     m_indentation := [];
     m_scope_path := [];
     m_start := 0;
     m_end := 0;
     m_placeholder_generated := true;
     m_specializations := [];
     m_specialization_index := [] |}.

Lemma register_then_resolve_witness :
  exists i d,
    resolve (register_definition (mkLookup [] []) pair_definition 0) [pair_definition]
      (str "Pair") (str "n") = Some i /\
    nth_error [pair_definition] i = Some d /\
    (full_name d = str "Pair" \/ m_name d = str "Pair").
Proof.
  assert (Hok : lookup_ok [] (mkLookup [] [])) by (split; constructor).
  assert (Hlen : @length TemplateDefinition [] < 16) by (simpl; lia).
  exact (proj2 (register_then_resolve (mkLookup [] []) [] pair_definition (str "n") Hlen Hok)
           eq_refl eq_refl).
Defined.

Lemma register_specialization_cached_witness :
  exists def' spec,
    register_specialization pair_definition [str "int"; str "3"] [] [] = Some (def', spec) /\
    s_body spec = str " int a[4]; " /\
    register_specialization def' [str "int"; str "3"] [] [] = Some (def', spec).
Proof.
  destruct (register_specialization pair_definition [str "int"; str "3"] [] [])
    as [[def' spec]|] eqn:E; [|vm_compute in E; discriminate].
  destruct (register_specialization_cached _ _ _ _ _ _ E) as [H _].
  exists def', spec. split; [reflexivity|]. split; [|exact H].
  vm_compute in E. injection E as _ <-. reflexivity.
Defined.

Lemma register_specialization_names_witness :
  exists def' spec,
    register_specialization pair_definition [str "int*"; str "3"] [] [] = Some (def', spec) /\
    s_sanitized_name spec = str "Pair_int_ptr___3" /\
    is_identifier (s_sanitized_name spec) = true.
Proof.
  destruct (register_specialization pair_definition [str "int*"; str "3"] [] [])
    as [[def' spec]|] eqn:E; [|vm_compute in E; discriminate].
  assert (Hok : specializations_ok pair_definition).
  { split; [reflexivity|]. split; constructor. }
  destruct (register_specialization_names _ _ _ _ _ _ Hok E) as (_ & _ & H).
  exists def', spec. split; [reflexivity|]. split; [|exact H].
  vm_compute in E. injection E as _ <-. reflexivity.
Defined.

(** * Imports *)

Module Imports.

(** The body of the loop of [extract_imports]. *)
Definition body (t : text) (file_path : path) (st : nat * list path)
  : option (ctl (nat * list path) (list path)) :=
  let '(pos, imports) := st in
  if length t <=? pos then Some (Exit imports)
  else
    match skip_quoted_or_comment 2 t pos with
    | Some p => Some (Next (p, imports))
    | None =>
        let c := at_ t pos in
        if negb (is_identifier_start c) then Some (Next (pos + 1, imports))
        else
          let id_start := pos in
          let pos := advance_while is_identifier_char t pos in
          let identifier := substr t id_start (pos - id_start) in
          if negb (text_eqb identifier (str "import")) then Some (Next (pos, imports))
          else
            pos <- skip_whitespace_and_comments t pos ;;
            if (length t <=? pos) || negb (Ascii.eqb (at_ t pos) QUOTE)
            then Some (Next (pos, imports))
            else
              let pos := pos + 1 in
              let path_start := pos in
              let pos := pos + import_body_len (skipn pos t) in
              let imports :=
                if path_start <? pos then
                  imports ++ [resolve_path (parent_path file_path)
                                (substr t path_start (pos - path_start))]
                else imports in
              let pos :=
                if (pos <? length t) && Ascii.eqb (at_ t pos) QUOTE then pos + 1 else pos in
              Some (Next (pos, imports))
    end.

Lemma extract_imports_body t file_path :
  extract_imports t file_path = loop (body t file_path) (S (length t)) (0, []).
Proof. reflexivity. Qed.

(** An import that was found: the text of a quoted path, resolved
    against the directory of the file. *)
Definition quoted_in (t : text) (file_path p : path) : Prop :=
  exists start n,
    0 < start /\ 0 < n /\ at_ t (start - 1) = QUOTE /\
    p = resolve_path (parent_path file_path) (substr t start n).

Lemma import_word_occurs (t : text) id_start n :
  substr t id_start n = str "import" -> prefixb (str "import") (skipn id_start t) = true.
Proof.
  unfold substr. intros H. apply Search.prefixb_firstn.
  assert (Hn : 6 <= n).
  { apply (f_equal (@length ascii)) in H. rewrite length_firstn in H. simpl in H. lia. }
  change (length (str "import")) with 6.
  replace 6 with (Nat.min 6 n) at 1 by lia.
  rewrite <- firstn_firstn, H. reflexivity.
Qed.

Lemma body_sound t file_path st c :
  (find_sub (str "import") t = None -> snd st = []) /\
  Forall (quoted_in t file_path) (snd st) ->
  body t file_path st = Some c ->
  match c with
  | Next st' => (find_sub (str "import") t = None -> snd st' = []) /\
                Forall (quoted_in t file_path) (snd st')
  | Exit r => (find_sub (str "import") t = None -> r = []) /\
              Forall (quoted_in t file_path) r
  end.
Proof.
  destruct st as [pos imports]. intros Ha. unfold body. cbn [snd] in Ha.
  destruct (length t <=? pos); [intros H; injection H as <-; exact Ha|].
  destruct (skip_quoted_or_comment 2 t pos); [intros H; injection H as <-; exact Ha|].
  cbv zeta.
  destruct (negb (is_identifier_start (at_ t pos))); [intros H; injection H as <-; exact Ha|].
  destruct (negb (text_eqb _ (str "import"))) eqn:Eid; [intros H; injection H as <-; exact Ha|].
  apply negb_false_iff, text_eqb_eq in Eid. apply import_word_occurs in Eid.
  destruct (skip_whitespace_and_comments t _) as [p1|]; [|discriminate]. cbn [bind].
  destruct ((length t <=? p1) || negb (Ascii.eqb (at_ t p1) QUOTE)) eqn:Eq;
    [intros H; injection H as <-; exact Ha|].
  apply orb_false_iff in Eq as [_ Eq]. apply negb_false_iff, Ascii.eqb_eq in Eq.
  intros H. injection H as <-. cbn [snd]. split.
  - intros Hnone. rewrite (Search.find_sub_none _ _ Hnone) in Eid. discriminate.
  - destruct (p1 + 1 <? p1 + 1 + import_body_len (skipn (p1 + 1) t)) eqn:El;
      [|exact (proj2 Ha)].
    apply Nat.ltb_lt in El. apply Forall_app. split; [exact (proj2 Ha)|].
    constructor; [|constructor].
    exists (p1 + 1), (p1 + 1 + import_body_len (skipn (p1 + 1) t) - (p1 + 1)).
    split; [lia|]. split; [lia|]. split; [|reflexivity].
    replace (p1 + 1 - 1) with p1 by lia. exact Eq.
Qed.

End Imports.

(** X23.  [extract_imports] always returns; a text in which the word
    [import] does not occur has no import; and each import it returns is
    the text of a quoted path, not empty, resolved against the directory
    of the file. *)
Theorem extract_imports_sound (t : text) (file_path : path) :
  exists imports,
    extract_imports t file_path = Some imports /\
    (find_sub (str "import") t = None -> imports = []) /\
    Forall (Imports.quoted_in t file_path) imports.
Proof.
  destruct (extract_imports_total t file_path) as (imports & H).
  exists imports. split; [exact H|].
  rewrite Imports.extract_imports_body in H. revert H.
  apply (Tree.loop_post (Imports.body t file_path)
           (fun st => (find_sub (str "import") t = None -> snd st = []) /\
                      Forall (Imports.quoted_in t file_path) (snd st))
           (fun r => (find_sub (str "import") t = None -> r = []) /\
                     Forall (Imports.quoted_in t file_path) r)).
  - intros a c Ha Hc. exact (Imports.body_sound t file_path a c Ha Hc).
  - split; [reflexivity|constructor].
Qed.

Module Written.

Definition ws_body (t : text) (pos : nat) : option (ctl nat nat) :=
  if length t <=? pos then Some (Exit pos)
  else
    let c := at_ t pos in
    if is_space c then Some (Next (pos + 1))
    else if Ascii.eqb c "/" && (pos + 1 <? length t) then
      if Ascii.eqb (at_ t (pos + 1)) "/" then Some (Next (skip_line t (pos + 2)))
      else if Ascii.eqb (at_ t (pos + 1)) "*" then Some (Next (skip_block t (pos + 2)))
      else Some (Exit pos)
    else Some (Exit pos).

(** White space, then a character that is neither white space nor a
    slash: the cursor stops on that character. *)
Lemma skip_spaces ws : forall pre c rest fuel,
  forallb is_space ws = true -> is_space c = false -> Ascii.eqb c "/" = false ->
  length ws < fuel ->
  loop (ws_body (pre ++ ws ++ c :: rest)) fuel (length pre) = Some (length pre + length ws).
Proof.
  induction ws as [|x ws IH]; intros pre c rest fuel Hws Hc Hs Hfuel;
    (destruct fuel as [|fuel]; [simpl in Hfuel; lia|]); cbn [loop]; unfold ws_body at 1.
  - cbn [app]. rewrite Arguments.at_middle, Hc, Hs.
    replace (length (pre ++ c :: rest) <=? length pre) with false
      by (symmetry; apply Nat.leb_gt; rewrite length_app; simpl; lia).
    cbn [andb length]. rewrite Nat.add_0_r. reflexivity.
  - simpl in Hws. apply andb_true_iff in Hws as [Hx Hws].
    cbn [app]. rewrite Arguments.at_middle, Hx.
    replace (length (pre ++ x :: ws ++ c :: rest) <=? length pre) with false
      by (symmetry; apply Nat.leb_gt; rewrite length_app; simpl; lia).
    replace (pre ++ x :: ws ++ c :: rest) with ((pre ++ [x]) ++ ws ++ c :: rest)
      by (rewrite <- app_assoc; reflexivity).
    replace (length pre + 1) with (length (pre ++ [x])) by (rewrite length_app; reflexivity).
    rewrite IH by (auto; simpl in Hfuel; lia).
    rewrite length_app. cbn [length]. f_equal. lia.
Qed.

Lemma skip_whitespace_to pre ws c rest :
  forallb is_space ws = true -> is_space c = false -> Ascii.eqb c "/" = false ->
  skip_whitespace_and_comments (pre ++ ws ++ c :: rest) (length pre)
    = Some (length pre + length ws).
Proof.
  intros Hws Hc Hs.
  change (skip_whitespace_and_comments (pre ++ ws ++ c :: rest) (length pre))
    with (loop (ws_body (pre ++ ws ++ c :: rest))
            (S (length (pre ++ ws ++ c :: rest))) (length pre)).
  apply skip_spaces; auto. rewrite !length_app. simpl. lia.
Qed.

(** A character of a path between quotes: no quote and no backslash. *)
Definition path_char (c : ascii) : bool :=
  negb (Ascii.eqb c QUOTE) && negb (Ascii.eqb c BACKSLASH).

Lemma import_body_len_path p rest :
  forallb path_char p = true -> import_body_len (p ++ QUOTE :: rest) = length p.
Proof.
  induction p as [|c p IH]; intros H; [reflexivity|].
  simpl in H. apply andb_true_iff in H as [Hc Hp]. unfold path_char in Hc.
  apply andb_true_iff in Hc as [H1 H2]. apply negb_true_iff in H1, H2.
  cbn [app import_body_len]. rewrite H1, H2, IH by exact Hp. reflexivity.
Qed.

Lemma span_import rest :
  match rest with c :: _ => is_identifier_char c = false | [] => True end ->
  span_len is_identifier_char (str "import" ++ rest) = 6.
Proof.
  intros H. change (str "import" ++ rest) with ("i" :: "m" :: "p" :: "o" :: "r" :: "t" :: rest).
  cbn [span_len].
  change (is_identifier_char "i") with true. change (is_identifier_char "m") with true.
  change (is_identifier_char "p") with true. change (is_identifier_char "o") with true.
  change (is_identifier_char "r") with true. change (is_identifier_char "t") with true.
  cbv iota. destruct rest as [|c rest]; [reflexivity|]. cbn [span_len]. rewrite H. reflexivity.
Qed.

Lemma space_not_identifier c : is_space c = true -> is_identifier_char c = false.
Proof. char_fact (fun c => implb (is_space c) (negb (is_identifier_char c))) c. Qed.

End Written.

(** X24.  An import written as the word [import], any white space, and
    a path between quotes that is not empty and has no quote and no
    backslash, is extracted: the result is that path, resolved against
    the directory of the file. *)
Theorem extract_imports_written (ws p : text) (file_path : path) :
  forallb is_space ws = true -> p <> [] -> forallb Written.path_char p = true ->
  extract_imports (str "import" ++ ws ++ QUOTE :: p ++ [QUOTE]) file_path
    = Some [resolve_path (parent_path file_path) p].
Proof.
  intros Hws Hne Hp.
  set (t := str "import" ++ ws ++ QUOTE :: p ++ [QUOTE]).
  assert (Hlen : length t = 8 + length ws + length p).
  { unfold t. rewrite !length_app. cbn [length]. rewrite length_app. simpl. lia. }
  assert (H1 : at_ t 0 = "i") by reflexivity.
  assert (H2 : advance_while is_identifier_char t 0 = 6).
  { unfold advance_while, t. cbn [skipn Nat.add]. apply Written.span_import.
    destruct ws as [|c ws']; [reflexivity|]. simpl in Hws.
    apply andb_true_iff in Hws as [Hc _]. apply (Written.space_not_identifier c Hc). }
  assert (H3 : substr t 0 6 = str "import") by reflexivity.
  assert (H4 : skip_whitespace_and_comments t 6 = Some (6 + length ws)).
  { apply (Written.skip_whitespace_to (str "import") ws QUOTE (p ++ [QUOTE]) Hws);
      reflexivity. }
  assert (Ht : t = (str "import" ++ ws) ++ QUOTE :: p ++ [QUOTE])
    by (unfold t; rewrite <- app_assoc; reflexivity).
  assert (Hl6 : length (str "import" ++ ws) = 6 + length ws)
    by (rewrite length_app; reflexivity).
  assert (H5 : at_ t (6 + length ws) = QUOTE).
  { rewrite Ht, <- Hl6. apply Arguments.at_middle. }
  assert (Ht' : t = ((str "import" ++ ws) ++ [QUOTE]) ++ p ++ [QUOTE])
    by (unfold t; rewrite <- !app_assoc; reflexivity).
  assert (Hl7 : length ((str "import" ++ ws) ++ [QUOTE]) = 6 + length ws + 1)
    by (rewrite length_app, Hl6; reflexivity).
  assert (H6 : skipn (6 + length ws + 1) t = p ++ [QUOTE]).
  { rewrite Ht', <- Hl7, skipn_app, skipn_all, Nat.sub_diag. reflexivity. }
  assert (H7 : substr t (6 + length ws + 1) (length p) = p).
  { rewrite Ht', <- Hl7. apply Arguments.substr_middle. }
  assert (H8 : at_ t (6 + length ws + 1 + length p) = QUOTE).
  { rewrite Ht', app_assoc, <- Hl7, <- length_app. apply Arguments.at_middle. }
  assert (Hpos : 0 < length p) by (destruct p; [congruence|simpl; lia]).
  assert (Hbody : Imports.body t file_path (0, [])
                  = Some (Next (length t, [resolve_path (parent_path file_path) p]))).
  { unfold Imports.body, skip_quoted_or_comment. cbv zeta. rewrite H1.
    replace (length t <=? 0) with false by (symmetry; apply Nat.leb_gt; lia).
    change (Ascii.eqb "i" QUOTE) with false. change (Ascii.eqb "i" APOSTROPHE) with false.
    change (Ascii.eqb "i" "/") with false. change (is_identifier_start "i") with true.
    cbn [andb negb]. rewrite H2. replace (6 - 0) with 6 by lia. rewrite H3.
    rewrite text_eqb_refl. cbn [negb]. rewrite H4. cbn [bind]. rewrite H5.
    replace (length t <=? 6 + length ws) with false by (symmetry; apply Nat.leb_gt; lia).
    change (Ascii.eqb QUOTE QUOTE) with true. cbn [negb orb].
    rewrite H6, (Written.import_body_len_path p [] Hp).
    replace (6 + length ws + 1 <? 6 + length ws + 1 + length p) with true
      by (symmetry; apply Nat.ltb_lt; lia).
    replace (6 + length ws + 1 + length p - (6 + length ws + 1)) with (length p) by lia.
    rewrite H7, H8.
    replace (6 + length ws + 1 + length p <? length t) with true
      by (symmetry; apply Nat.ltb_lt; lia).
    change (Ascii.eqb QUOTE QUOTE) with true. cbn [andb app].
    do 3 f_equal. lia. }
  rewrite Imports.extract_imports_body. fold t.
  rewrite Hlen. cbn [Nat.add loop]. rewrite Hbody.
  unfold Imports.body. rewrite Nat.leb_refl. reflexivity.
Qed.

Lemma extract_imports_written_witness :
  extract_imports (str "import  " ++ QUOTE :: str "../types/vec.h" ++ [QUOTE])
    (split_path (str "/p/src/main.h"))
  = Some [split_path (str "/p/types/vec.h")].
Proof.
  apply (extract_imports_written (str "  ") (str "../types/vec.h")
           (split_path (str "/p/src/main.h"))).
  - reflexivity.
  - discriminate.
  - reflexivity.
Defined.

(** ** Files that are reported without templates *)

Module Untouched.

(** While nothing was recognized, the output is the text read so far. *)
Definition quiet (t : text) (s : State) : Prop :=
  had_templates s = false ->
  output s = firstn (pos s) t /\ lookup s = mkLookup [] [].

Lemma on_use_site_had s token args args_end s' :
  on_use_site s token args args_end = Some (Some s') -> had_templates s' = true.
Proof.
  unfold on_use_site. destruct args; [discriminate|]. cbv zeta.
  destruct (resolve _ _ _ _); [|discriminate].
  destruct (nth_error _ _); [|discriminate].
  destruct (register_specialization _ _ _ _) as [[d sp]|]; [|discriminate]. cbn [bind].
  intros H. injection H as <-. reflexivity.
Qed.

Lemma on_definition_had s def s' : on_definition s def = Some s' -> had_templates s' = true.
Proof.
  unfold on_definition. destruct (generate_placeholder_definition _); [|discriminate].
  cbn [bind]. intros H. injection H as <-. reflexivity.
Qed.

Lemma quiet_step t s s' :
  pos s < length t -> quiet t s -> process_step t s = Some s' -> quiet t s'.
Proof.
  intros Hp Hq Hs.
  destruct (Steps.process_step_shape t s s' Hp Hs)
    as [p ps Hlt ->|Hc ->|Hc ->|def Hd Hon|ps token la args args_end _ _ _ Hu].
  - intros Hh. destruct (Hq Hh) as [Ho Hl]. split; [|exact Hl].
    simpl. rewrite Ho. apply Identity.firstn_substr. lia.
  - unfold on_open_brace. cbv zeta.
    destruct (m_expect_brace (pending_scope s)); intros Hh; destruct (Hq Hh) as [Ho Hl];
      (split; [|exact Hl]); simpl; rewrite Ho, <- Hc; apply (Identity.firstn_snoc_at t _ Hp).
  - intros Hh. destruct (Hq Hh) as [Ho Hl]. split; [|exact Hl].
    simpl. rewrite Ho, <- Hc. apply (Identity.firstn_snoc_at t _ Hp).
  - intros Hh. rewrite (on_definition_had _ _ _ Hon) in Hh. discriminate.
  - intros Hh. rewrite (on_use_site_had _ _ _ _ _ Hu) in Hh. discriminate.
Qed.

End Untouched.

(** X25.  When the file transformer reports that a text had no
    templates, the content it returns is the text, byte for byte. *)
Theorem transformer_unchanged_without_templates (file_path : path) (t : text)
    (r : FileProcessResult) :
  process_file_content file_path t = Some r ->
  m_had_templates r = false -> m_processed_content r = t.
Proof.
  unfold process_file_content.
  destruct (process_loop t (S (length t)) initial_state) as [s|] eqn:Hs; [|discriminate].
  cbn [bind]. destruct (extract_imports (output s) file_path); [|discriminate].
  cbn [bind]. intros H. injection H as <-. cbn. revert Hs. unfold process_loop.
  apply (Tree.loop_post _ (Untouched.quiet t)
           (fun r => had_templates r = false -> output r = t)).
  - intros a c Ha. destruct (length t <=? pos a) eqn:E.
    + intros H. injection H as <-. apply Nat.leb_le in E. intros Hh.
      destruct (Ha Hh) as [Ho _]. rewrite Ho. apply firstn_all2. exact E.
    + apply Nat.leb_gt in E.
      destruct (process_step t a) as [a'|] eqn:Ea; [|discriminate].
      intros H. injection H as <-. exact (Untouched.quiet_step t a a' E Ha Ea).
  - intros _. split; reflexivity.
Qed.

Definition unused_template_syntax : text :=
  str "int f(vector<int> v) { return v.size() < 3; }".

Lemma transformer_unchanged_without_templates_witness :
  exists r,
    process_file_content [] unused_template_syntax = Some r /\
    m_had_templates r = false /\
    m_processed_content r = unused_template_syntax.
Proof.
  destruct (process_file_content [] unused_template_syntax) as [r|] eqn:E;
    [|vm_compute in E; discriminate].
  assert (Hh : m_had_templates r = false)
    by (vm_compute in E; injection E as <-; reflexivity).
  exists r. split; [reflexivity|]. split; [exact Hh|].
  exact (transformer_unchanged_without_templates _ _ _ E Hh).
Defined.

(** * Substituting a parameter *)

Module Substitution.
Import Search.

(** An occurrence, character by character. *)
Lemma occurs_at_chars t token p :
  occurs_at t token p <->
  p + length token <= length t /\ forall j, j < length token -> at_ t (p + j) = at_ token j.
Proof.
  split.
  - intros H. split; [exact (proj1 H)|]. intros j Hj. apply (occurs_char _ _ _ _ H Hj).
  - intros [Hle H]. split; [exact Hle|].
    apply (nth_ext _ _ zero zero).
    + apply substr_length. exact Hle.
    + intros j Hj. rewrite substr_length in Hj by exact Hle.
      unfold substr. rewrite nth_firstn.
      replace (j <? length token) with true by (symmetry; apply Nat.ltb_lt; exact Hj).
      rewrite Brackets.nth_skipn_at. apply H. exact Hj.
Qed.

Section Replace.

Variables t repl : text.
Variables found n : nat.
Hypothesis in_range : found + n <= length t.

Let t' := replace t found n repl.

Lemma replace_at_before i : i < found -> at_ t' i = at_ t i.
Proof.
  intros H. unfold t', replace, at_.
  rewrite app_nth1 by (rewrite length_firstn; lia).
  rewrite nth_firstn. replace (i <? found) with true by (symmetry; apply Nat.ltb_lt; exact H).
  reflexivity.
Qed.

Lemma replace_at_inside i :
  found <= i -> i < found + length repl -> at_ t' i = at_ repl (i - found).
Proof.
  intros H1 H2. unfold t', replace, at_.
  rewrite app_nth2 by (rewrite length_firstn; lia).
  rewrite length_firstn. replace (Nat.min found (length t)) with found by lia.
  rewrite app_nth1 by lia. reflexivity.
Qed.

Lemma replace_at_after i :
  found + length repl <= i -> at_ t' i = at_ t (i - length repl + n).
Proof.
  intros H. unfold t', replace, at_.
  rewrite app_nth2 by (rewrite length_firstn; lia).
  rewrite length_firstn. replace (Nat.min found (length t)) with found by lia.
  rewrite app_nth2 by lia. rewrite Brackets.nth_skipn_at. unfold at_. f_equal. lia.
Qed.

Lemma replace_length' : length t' = length t - n + length repl.
Proof. unfold t'. apply replace_length. exact in_range. Qed.

End Replace.

(** After the replacement of a whole-word occurrence by a text in which
    the parameter does not stand as a word, the parameter does not stand
    as a word before the end of the replacement. *)
Lemma replace_clears t param repl found :
  param <> [] -> forallb is_identifier_char param = true ->
  (forall k, ~ whole_word repl param k) ->
  whole_word t param found ->
  (forall q, q < found -> ~ whole_word t param q) ->
  forall q, q < found + length repl ->
    ~ whole_word (replace t found (length param) repl) param q.
Proof.
  intros Hne Hid Hrepl [Hocc [Hbefore Hafter]] Hnone q Hq [Hoq [Hbq Haq]].
  pose proof (proj1 Hocc) as Hin.
  assert (Hlen : 0 < length param) by (destruct param; [congruence|simpl; lia]).
  pose proof (replace_length' t repl found (length param) Hin) as Hl'.
  set (t' := replace t found (length param) repl) in *.
  apply occurs_at_chars in Hoq as [Hqle Hqc].
  assert (Hident : forall i, q <= i -> i < q + length param ->
                             is_identifier_char (at_ t' i) = true).
  { intros i H1 H2. replace i with (q + (i - q)) by lia.
    rewrite Hqc by lia. apply forallb_at; [exact Hid|lia]. }
  destruct (Nat.lt_ge_cases q found) as [Hlt|Hge].
  - (* the occurrence starts before the replacement *)
    destruct (Nat.lt_ge_cases (q + length param) found) as [Hshort|Hlong].
    + apply (Hnone q Hlt). split; [|split].
      * apply occurs_at_chars. split; [lia|]. intros j Hj.
        rewrite <- (replace_at_before t repl found (length param) Hin) by lia.
        apply Hqc. exact Hj.
      * destruct Hbq as [Hb|Hb]; [auto|right].
        rewrite <- (replace_at_before t repl found (length param) Hin) by lia. exact Hb.
      * right. destruct Haq as [Ha|Ha]; [lia|].
        rewrite <- (replace_at_before t repl found (length param) Hin) by lia. exact Ha.
    + destruct Hbefore as [H0|Hb]; [lia|].
      pose proof (Hident (found - 1) ltac:(lia) ltac:(lia)) as Hi.
      unfold t' in Hi.
      rewrite (replace_at_before t repl found (length param) Hin) in Hi by lia. congruence.
  - (* the occurrence starts inside the replacement *)
    destruct (Nat.le_gt_cases (q + length param) (found + length repl)) as [Hfit|Hover].
    + apply (Hrepl (q - found)). split; [|split].
      * apply occurs_at_chars. split; [lia|]. intros j Hj.
        rewrite <- (Hqc j Hj). unfold t'.
        rewrite (replace_at_inside t repl found (length param) Hin) by lia.
        f_equal. lia.
      * destruct (Nat.eq_dec q found) as [->|Hneq]; [left; lia|right].
        destruct Hbq as [Hb|Hb]; [lia|]. unfold t' in Hb.
        rewrite (replace_at_inside t repl found (length param) Hin) in Hb by lia.
        replace (q - found - 1) with (q - 1 - found) by lia. exact Hb.
      * destruct (Nat.eq_dec (q + length param) (found + length repl)) as [Heq|Hneq];
          [left; lia|right].
        destruct Haq as [Ha|Ha]; [lia|]. unfold t' in Ha.
        rewrite (replace_at_inside t repl found (length param) Hin) in Ha by lia.
        replace (q - found + length param) with (q + length param - found) by lia. exact Ha.
    + destruct Hafter as [Hend|Ha]; [lia|].
      pose proof (Hident (found + length repl) ltac:(lia) ltac:(lia)) as Hi.
      unfold t' in Hi.
      rewrite (replace_at_after t repl found (length param) Hin) in Hi by lia.
      replace (found + length repl - length repl + length param)
        with (found + length param) in Hi by lia.
      congruence.
Qed.

Lemma replace_identifier_clears t param repl r :
  param <> [] -> forallb is_identifier_char param = true ->
  (forall k, ~ whole_word repl param k) ->
  replace_identifier t param repl = Some r ->
  forall q, ~ whole_word r param q.
Proof.
  intros Hne Hid Hrepl. unfold replace_identifier.
  apply (Tree.loop_post _
           (fun st : text * nat => forall q, q < snd st -> ~ whole_word (fst st) param q)
           (fun r => forall q, ~ whole_word r param q)).
  - intros [u pos] c Ha. cbn [fst snd] in Ha.
    destruct (find_identifier u param pos) as [found|] eqn:Ef; [|discriminate].
    cbn [bind]. pose proof (find_identifier_first _ _ _ _ Hne Hid Ef) as Hspec.
    destruct found as [p|]; intros H; injection H as <-.
    + destruct Hspec as (Hle & Hw & Hfirst). cbn [fst snd].
      apply (replace_clears u param repl p Hne Hid Hrepl Hw).
      intros q Hq. destruct (Nat.lt_ge_cases q pos); [apply Ha; assumption|].
      apply Hfirst; assumption.
    + intros q. destruct (Nat.lt_ge_cases q pos); [apply Ha; assumption|].
      apply Hspec; assumption.
  - intros q Hq. cbn in Hq. lia.
Qed.

End Substitution.

(** X26.  After the substitution of a parameter whose name is made of
    identifier characters by a text in which the name does not stand as a
    word, the name no longer stands as a word anywhere in the result. *)
Theorem replace_identifier_complete (t param replacement r : text) :
  param <> [] -> forallb is_identifier_char param = true ->
  (forall k, ~ Search.whole_word replacement param k) ->
  replace_identifier t param replacement = Some r ->
  forall q, ~ Search.whole_word r param q.
Proof. apply Substitution.replace_identifier_clears. Qed.

Lemma replace_identifier_complete_witness :
  exists r,
    replace_identifier (str "T a; T* b; Tx c;") (str "T") (str "int") = Some r /\
    r = str "int a; int* b; Tx c;" /\
    ~ Search.whole_word r (str "T") 16.
Proof.
  destruct (replace_identifier (str "T a; T* b; Tx c;") (str "T") (str "int")) as [r|] eqn:E;
    [|vm_compute in E; discriminate].
  exists r. split; [reflexivity|].
  split; [vm_compute in E; injection E as <-; reflexivity|].
  apply (replace_identifier_complete (str "T a; T* b; Tx c;") (str "T") (str "int") r);
    [discriminate|reflexivity| |exact E].
  intros k [[Hle Hs] _]. simpl in Hle.
  destruct k as [|[|[|k]]]; try discriminate. lia.
Defined.

(** * Folding one bracket pair *)

Module Folding.

(** A character that is not a square bracket. *)
Definition unbracketed (c : ascii) : bool :=
  negb (Ascii.eqb c "[") && negb (Ascii.eqb c "]").

Lemma unbracketed_open c : unbracketed c = true -> Ascii.eqb c "[" = false.
Proof. unfold unbracketed. destruct (Ascii.eqb c "["); [discriminate|reflexivity]. Qed.

Lemma unbracketed_close c : unbracketed c = true -> Ascii.eqb c "]" = false.
Proof.
  unfold unbracketed. destruct (Ascii.eqb c "]"); [rewrite andb_false_r; discriminate|].
  reflexivity.
Qed.

Lemma index_from_none s :
  forallb unbracketed s = true -> index_from (Ascii.eqb "[") s = None.
Proof.
  induction s as [|c s IH]; cbn [index_from forallb]; [reflexivity|].
  intros H. apply andb_true_iff in H as [Hc Hs].
  rewrite Ascii.eqb_sym, (unbracketed_open c Hc), IH by exact Hs. reflexivity.
Qed.

Lemma index_from_first pre rest :
  forallb unbracketed pre = true ->
  index_from (Ascii.eqb "[") (pre ++ "[" :: rest) = Some (length pre).
Proof.
  induction pre as [|c pre IH]; cbn [index_from forallb app length].
  { intros _. rewrite Ascii.eqb_refl. reflexivity. }
  intros H. apply andb_true_iff in H as [Hc Hs].
  rewrite Ascii.eqb_sym, (unbracketed_open c Hc), IH by exact Hs. reflexivity.
Qed.

Lemma close_offset_plain e post :
  forallb unbracketed e = true -> close_offset (e ++ "]" :: post) 1 = Some (length e).
Proof.
  induction e as [|c e IH]; [reflexivity|].
  intros H. simpl in H. apply andb_true_iff in H as [Hc Hs].
  cbn [app close_offset length].
  rewrite (unbracketed_open c Hc), (unbracketed_close c Hc), IH by exact Hs. reflexivity.
Qed.

Lemma at_before (pre rest : text) i : i < length pre -> at_ (pre ++ rest) i = at_ pre i.
Proof. intros H. unfold at_. apply app_nth1. exact H. Qed.

End Folding.

(** X27.  A bracket pair whose content has no bracket and evaluates, in a
    text that has no other bracket, is folded: bracket reduction replaces
    the content by the decimal text of its value and changes nothing
    else. *)
Theorem bracket_pair_folded (pre e post : text) (v : Z) :
  forallb Folding.unbracketed pre = true ->
  forallb Folding.unbracketed e = true ->
  forallb Folding.unbracketed post = true ->
  evaluate_constant_expression e = Some (Some v) ->
  evaluate_bracket_expressions (pre ++ "[" :: e ++ "]" :: post)
    = Some (pre ++ "[" :: to_string v ++ "]" :: post).
Proof.
  intros Hpre He Hpost Hv.
  assert (Hne : e <> []) by (intros ->; vm_compute in Hv; discriminate).
  set (t := pre ++ "[" :: e ++ "]" :: post).
  assert (Hlen : length t = length pre + 1 + length e + 1 + length post).
  { unfold t. rewrite length_app. cbn [length]. rewrite length_app. simpl. lia. }
  assert (Hfind : find_char "[" t 0 = Some (length pre)).
  { unfold find_char, t. cbn [skipn]. rewrite (Folding.index_from_first _ _ Hpre).
    reflexivity. }
  assert (Hleft : (0 <? length pre) && Ascii.eqb (at_ t (length pre - 1)) "[" = false).
  { destruct (0 <? length pre) eqn:E; [|reflexivity]. apply Nat.ltb_lt in E.
    assert (Hi : length pre - 1 < length pre) by lia.
    pose proof (Search.forallb_at _ _ _ Hpre Hi) as Hc.
    unfold t. rewrite Folding.at_before by lia.
    rewrite (Folding.unbracketed_open _ Hc). reflexivity. }
  assert (Hskip : skipn (length pre + 1) t = e ++ "]" :: post).
  { unfold t. apply skipn_app_cons. }
  assert (Hright : (length pre + 1 <? length t)
                   && Ascii.eqb (at_ t (length pre + 1)) "[" = false).
  { rewrite <- (Nat.add_0_r (length pre + 1)) at 2.
    rewrite <- Brackets.nth_skipn_at, Hskip.
    destruct e as [|c e']; [congruence|]. simpl in He.
    apply andb_true_iff in He as [Hc _]. cbn [app nth].
    rewrite (Folding.unbracketed_open c Hc). apply andb_false_r. }
  assert (Hsub : substr t (length pre + 1) (length e) = e).
  { unfold substr. rewrite Hskip. rewrite firstn_app, firstn_all, Nat.sub_diag.
    simpl. apply app_nil_r. }
  assert (Hrep : replace t (length pre + 1) (length e) (to_string v)
                 = pre ++ "[" :: to_string v ++ "]" :: post).
  { unfold replace.
    replace (skipn (length pre + 1 + length e) t) with ("]" :: post).
    2:{ replace (length pre + 1 + length e) with (length e + (length pre + 1)) by lia.
        rewrite <- skipn_skipn, Hskip, skipn_app, skipn_all, Nat.sub_diag. reflexivity. }
    unfold t.
    replace (pre ++ "[" :: e ++ "]" :: post) with ((pre ++ ["["]) ++ e ++ "]" :: post)
      by (rewrite <- app_assoc; reflexivity).
    replace (length pre + 1) with (length (pre ++ ["["])) by (rewrite length_app; reflexivity).
    rewrite firstn_app, firstn_all, Nat.sub_diag. cbn [firstn].
    rewrite app_nil_r, <- app_assoc. reflexivity. }
  assert (Hstep1 : bracket_step (t, 0)
                   = Some (Next (pre ++ "[" :: to_string v ++ "]" :: post,
                                 length pre + 1 + length (to_string v)))).
  { unfold bracket_step.
    replace (length t <=? 0) with false by (symmetry; apply Nat.leb_gt; lia).
    rewrite Hfind, Hleft, Hright, Hskip. cbn [orb].
    rewrite (Folding.close_offset_plain e post He). cbv zeta.
    replace (length pre + 1 + length e - length pre - 1) with (length e) by lia.
    rewrite Hsub. destruct e as [|c e'] eqn:Ee; [congruence|]. cbn [is_empty].
    rewrite <- Ee in *. rewrite Hv. cbn [bind]. rewrite Hrep. reflexivity. }
  set (t' := pre ++ "[" :: to_string v ++ "]" :: post) in *.
  assert (Hstep2 : bracket_step (t', length pre + 1 + length (to_string v)) = Some (Exit t')).
  { unfold bracket_step.
    assert (Hl' : length t' = length pre + 1 + length (to_string v) + 1 + length post).
    { unfold t'. rewrite length_app. cbn [length]. rewrite length_app. simpl. lia. }
    replace (length t' <=? length pre + 1 + length (to_string v)) with false
      by (symmetry; apply Nat.leb_gt; lia).
    assert (Hs : skipn (length pre + 1 + length (to_string v)) t' = "]" :: post).
    { unfold t'.
      replace (pre ++ "[" :: to_string v ++ "]" :: post)
        with ((pre ++ "[" :: to_string v) ++ "]" :: post)
        by (rewrite <- app_assoc; reflexivity).
      replace (length pre + 1 + length (to_string v))
        with (length (pre ++ "[" :: to_string v))
        by (rewrite length_app; simpl; lia).
      rewrite skipn_app, skipn_all, Nat.sub_diag. reflexivity. }
    unfold find_char. rewrite Hs. cbn [index_from].
    change (Ascii.eqb "[" "]") with false. cbv iota.
    rewrite (Folding.index_from_none post Hpost). reflexivity. }
  unfold evaluate_bracket_expressions. fold t.
  rewrite Hlen.
  replace (S (length pre + 1 + length e + 1 + length post))
    with (S (S (length pre + length e + 1 + length post))) by lia.
  cbn [loop]. rewrite Hstep1. rewrite Hstep2. reflexivity.
Qed.

Lemma bracket_pair_folded_witness :
  evaluate_bracket_expressions (str "char buf[(1 << 4) + 0x10];")
    = Some (str "char buf[32];").
Proof.
  apply (bracket_pair_folded (str "char buf") (str "(1 << 4) + 0x10") (str ";") 32%Z);
    vm_compute; reflexivity.
Defined.

(** * The keys of the cache *)

(** An argument that is not empty and has no unit separator. *)
Definition separable (a : text) : Prop :=
  a <> [] /\ forallb (fun c => negb (Ascii.eqb c SEP)) a = true.

(** Every entry of the cache was filed under the signature of the
    arguments of the specialization it points to. *)
Definition cache_sound (def : TemplateDefinition) : Prop :=
  Forall (fun e =>
            exists spec hint,
              nth_error (m_specializations def) (snd e) = Some spec /\
              Forall separable (s_arguments spec) /\
              forallb is_identifier_char hint = true /\
              fst e = hint ++ str "|" ++ make_signature (s_arguments spec))
         (m_specialization_index def).

Module Keys.

(** Two texts without [c], each followed by nothing or by [c]: equal
    wholes have equal parts. *)
Lemma split_unique (c : ascii) : forall a1 a2 t1 t2 : text,
  forallb (fun x => negb (Ascii.eqb x c)) a1 = true ->
  forallb (fun x => negb (Ascii.eqb x c)) a2 = true ->
  (t1 = [] \/ exists r, t1 = c :: r) -> (t2 = [] \/ exists r, t2 = c :: r) ->
  a1 ++ t1 = a2 ++ t2 -> a1 = a2 /\ t1 = t2.
Proof.
  assert (Hhead : forall x (a t : text),
            negb (Ascii.eqb x c) = true -> (t = [] \/ exists r, t = c :: r) ->
            t <> x :: a).
  { intros x a t Hx [->|(r & ->)]; [discriminate|].
    intros H. injection H as -> _. rewrite Ascii.eqb_refl in Hx. discriminate. }
  induction a1 as [|x a1 IH]; intros a2 t1 t2 H1 H2 Ht1 Ht2 E.
  - destruct a2 as [|y a2]; [auto|]. exfalso. simpl in H2, E.
    apply andb_true_iff in H2 as [Hy _]. exact (Hhead y (a2 ++ t2) t1 Hy Ht1 E).
  - simpl in H1. apply andb_true_iff in H1 as [Hx H1].
    destruct a2 as [|y a2].
    + exfalso. simpl in E. symmetry in E. exact (Hhead x (a1 ++ t1) t2 Hx Ht2 E).
    + simpl in H2. apply andb_true_iff in H2 as [_ H2].
      simpl in E. injection E as -> E.
      destruct (IH a2 t1 t2 H1 H2 Ht1 Ht2 E) as [-> ->]. auto.
Qed.

Lemma make_signature_cons a rest :
  make_signature (a :: rest)
    = a ++ match rest with [] => [] | _ => SEP :: make_signature rest end.
Proof. destruct rest; simpl; [rewrite app_nil_r|]; reflexivity. Qed.

(** The signature determines the arguments. *)
Lemma make_signature_inj : forall args1 args2,
  Forall separable args1 -> Forall separable args2 ->
  make_signature args1 = make_signature args2 -> args1 = args2.
Proof.
  induction args1 as [|a1 r1 IH]; intros args2 H1 H2 E.
  - destruct args2 as [|a2 r2]; [reflexivity|]. exfalso.
    inversion H2 as [|? ? [Hne _] _]; subst. rewrite make_signature_cons in E.
    simpl in E. destruct a2; [congruence|discriminate].
  - inversion H1 as [|? ? [Hne1 Hs1] Hr1]; subst.
    destruct args2 as [|a2 r2].
    + exfalso. rewrite make_signature_cons in E. simpl in E.
      destruct a1; [congruence|discriminate].
    + inversion H2 as [|? ? [Hne2 Hs2] Hr2]; subst.
      rewrite !make_signature_cons in E.
      apply (split_unique SEP) in E; auto.
      2:{ destruct r1; [left; reflexivity|right; eauto]. }
      2:{ destruct r2; [left; reflexivity|right; eauto]. }
      destruct E as [-> E]. f_equal.
      destruct r1 as [|b1 r1], r2 as [|b2 r2]; try discriminate; [reflexivity|].
      injection E as E. apply IH; assumption.
Qed.

Lemma identifier_not_bar c : is_identifier_char c = true -> negb (Ascii.eqb c "|") = true.
Proof. char_fact (fun c => implb (is_identifier_char c) (negb (Ascii.eqb c "|"))) c. Qed.

Lemma hint_free hint :
  forallb is_identifier_char hint = true ->
  forallb (fun x => negb (Ascii.eqb x "|")) hint = true.
Proof.
  induction hint as [|c h IH]; simpl; [reflexivity|].
  intros H. apply andb_true_iff in H as [Hc Hh].
  rewrite (identifier_not_bar c Hc), IH; auto.
Qed.

(** A key determines the scope hint and the arguments. *)
Lemma key_inj hint1 hint2 args1 args2 :
  forallb is_identifier_char hint1 = true -> forallb is_identifier_char hint2 = true ->
  Forall separable args1 -> Forall separable args2 ->
  hint1 ++ str "|" ++ make_signature args1 = hint2 ++ str "|" ++ make_signature args2 ->
  hint1 = hint2 /\ args1 = args2.
Proof.
  intros Hh1 Hh2 Ha1 Ha2 E.
  apply (split_unique "|") in E; [|apply hint_free; assumption..|right; simpl; eauto
                                  |right; simpl; eauto].
  destruct E as [-> E]. split; [reflexivity|].
  simpl in E. injection E as E. apply make_signature_inj; assumption.
Qed.

Lemma register_arguments def args prefix current_scope def' spec :
  cache_sound def -> Forall separable args ->
  register_specialization def args prefix current_scope = Some (def', spec) ->
  s_arguments spec = args /\ cache_sound def'.
Proof.
  intros Hcache Hargs. unfold register_specialization. cbv zeta.
  pose proof (SpecNames.scope_hint_chars def prefix current_scope) as Hhint.
  set (hint := scope_hint_of def prefix current_scope) in *.
  destruct (assoc_find _ (m_specialization_index def)) as [i|] eqn:Ef.
  - intros H. injection H as <- <-. split; [|exact Hcache].
    destruct (SpecNames.assoc_find_In _ _ _ Ef) as (k & Hin & Hk).
    unfold cache_sound in Hcache. rewrite Forall_forall in Hcache.
    destruct (Hcache _ Hin) as (spec0 & hint0 & Hnth & Hsep & Hh0 & Hkey).
    cbn [fst snd] in *. rewrite Hk in Hkey.
    destruct (key_inj _ _ _ _ Hhint Hh0 Hargs Hsep Hkey) as [_ ->].
    rewrite (nth_error_nth _ _ default_spec Hnth). reflexivity.
  - destruct (replace_parameters (m_between def) _ _) as [between|]; [|discriminate].
    destruct (replace_parameters (m_body def) _ _) as [body|]; [|discriminate].
    cbn [bind].
    destruct (evaluate_bracket_expressions body) as [body'|]; [|discriminate].
    destruct (replace_parameters (m_closing def) _ _) as [closing|]; [|discriminate].
    cbn [bind]. intros H. injection H as <- <-. split; [reflexivity|].
    unfold cache_sound, with_specialization. cbn [m_specializations m_specialization_index].
    apply Forall_app. split.
    + eapply Forall_impl; [|exact Hcache].
      intros e (spec0 & hint0 & Hnth & Hrest). exists spec0, hint0. split; [|exact Hrest].
      rewrite nth_error_app1; [exact Hnth|]. apply nth_error_Some. congruence.
    + constructor; [|constructor]. eexists _, hint. cbn [fst snd].
      split; [rewrite nth_error_app2, Nat.sub_diag by lia; reflexivity|].
      cbn [s_arguments]. auto.
Qed.

End Keys.

(** X28.  When no argument is empty or contains the unit separator
    ([0x1f]), the cache never confuses two uses: the specialization that
    [register_specialization] returns, new or cached, was made for the
    arguments it was called with, and the cache stays sound. *)
Theorem register_specialization_arguments (def def' : TemplateDefinition)
    (args : list text) (prefix current_scope : text) (spec : Specialization) :
  cache_sound def -> Forall separable args ->
  register_specialization def args prefix current_scope = Some (def', spec) ->
  s_arguments spec = args /\ cache_sound def'.
Proof. apply Keys.register_arguments. Qed.

Lemma register_specialization_arguments_witness :
  exists def1 spec1 def2 spec2,
    register_specialization pair_definition [str "int"; str "3"] [] [] = Some (def1, spec1) /\
    register_specialization def1 [str "int"; str "4"] [] [] = Some (def2, spec2) /\
    s_arguments spec2 = [str "int"; str "4"] /\
    length (m_specializations def2) = 2.
Proof.
  destruct (register_specialization pair_definition [str "int"; str "3"] [] [])
    as [[def1 spec1]|] eqn:E1; [|vm_compute in E1; discriminate].
  assert (H3 : Forall separable [str "int"; str "3"]).
  { repeat constructor; discriminate. }
  assert (H4 : Forall separable [str "int"; str "4"]).
  { repeat constructor; discriminate. }
  destruct (register_specialization_arguments pair_definition def1 _ [] [] spec1
              (Forall_nil _) H3 E1) as [_ Hc1].
  destruct (register_specialization def1 [str "int"; str "4"] [] [])
    as [[def2 spec2]|] eqn:E2.
  2:{ vm_compute in E1. injection E1 as <- <-. vm_compute in E2. discriminate. }
  destruct (register_specialization_arguments def1 def2 _ [] [] spec2 Hc1 H4 E2) as [Ha _].
  exists def1, spec1, def2, spec2. split; [reflexivity|]. split; [exact E2|].
  split; [exact Ha|].
  vm_compute in E1. injection E1 as <- <-. vm_compute in E2. injection E2 as <- _.
  reflexivity.
Defined.

(** * Placeholders *)

Module Placeholders.
Import Search.

(** The token does not stand as a word anywhere in the text. *)
Definition clear (t token : text) : Prop := forall q, ~ whole_word t token q.

(** A parameter name the placeholder can get rid of: an identifier other
    than [void]. *)
Definition replaceable (name : text) : Prop :=
  is_identifier name = true /\ name <> str "void".

Lemma replaceable_chars name :
  replaceable name -> name <> [] /\ forallb is_identifier_char name = true.
Proof.
  intros [H _]. split; [destruct name; [discriminate|discriminate]|].
  apply Identifiers.is_identifier_chars. exact H.
Qed.

(** The replacement of a region between two characters that are not
    identifier characters, by a text in which the token does not stand as
    a word, keeps a text clear of the token. *)
Lemma replace_region_clear t n repl p found :
  p <> [] -> forallb is_identifier_char p = true ->
  found + n <= length t ->
  (found = 0 \/ is_identifier_char (at_ t (found - 1)) = false) ->
  (length t <= found + n \/ is_identifier_char (at_ t (found + n)) = false) ->
  clear t p -> clear repl p -> clear (replace t found n repl) p.
Proof.
  intros Hne Hid Hin Hbefore Hafter Hclear Hrepl q [Hoq [Hbq Haq]].
  assert (Hlen : 0 < length p) by (destruct p; [congruence|simpl; lia]).
  pose proof (Substitution.replace_length' t repl found n Hin) as Hl'.
  set (t' := replace t found n repl) in *.
  apply Substitution.occurs_at_chars in Hoq as [Hqle Hqc].
  assert (Hident : forall i, q <= i -> i < q + length p ->
                             is_identifier_char (at_ t' i) = true).
  { intros i H1 H2. replace i with (q + (i - q)) by lia.
    rewrite Hqc by lia. apply forallb_at; [exact Hid|lia]. }
  destruct (Nat.lt_ge_cases q found) as [Hlt|Hge].
  - destruct (Nat.lt_ge_cases (q + length p) found) as [Hshort|Hlong].
    + apply (Hclear q). split; [|split].
      * apply Substitution.occurs_at_chars. split; [lia|]. intros j Hj.
        rewrite <- (Substitution.replace_at_before t repl found n Hin) by lia.
        apply Hqc. exact Hj.
      * destruct Hbq as [Hb|Hb]; [auto|right].
        rewrite <- (Substitution.replace_at_before t repl found n Hin) by lia. exact Hb.
      * right. destruct Haq as [Ha|Ha]; [lia|].
        rewrite <- (Substitution.replace_at_before t repl found n Hin) by lia. exact Ha.
    + destruct Hbefore as [H0|Hb]; [lia|].
      pose proof (Hident (found - 1) ltac:(lia) ltac:(lia)) as Hi. unfold t' in Hi.
      rewrite (Substitution.replace_at_before t repl found n Hin) in Hi by lia. congruence.
  - destruct (Nat.lt_ge_cases q (found + length repl)) as [Hinside|Hpast].
    + destruct (Nat.le_gt_cases (q + length p) (found + length repl)) as [Hfit|Hover].
      * apply (Hrepl (q - found)). split; [|split].
        -- apply Substitution.occurs_at_chars. split; [lia|]. intros j Hj.
           rewrite <- (Hqc j Hj). unfold t'.
           rewrite (Substitution.replace_at_inside t repl found n Hin) by lia.
           f_equal. lia.
        -- destruct (Nat.eq_dec q found) as [->|Hneq]; [left; lia|right].
           destruct Hbq as [Hb|Hb]; [lia|]. unfold t' in Hb.
           rewrite (Substitution.replace_at_inside t repl found n Hin) in Hb by lia.
           replace (q - found - 1) with (q - 1 - found) by lia. exact Hb.
        -- destruct (Nat.eq_dec (q + length p) (found + length repl)) as [Heq|Hneq];
             [left; lia|right].
           destruct Haq as [Ha|Ha]; [lia|]. unfold t' in Ha.
           rewrite (Substitution.replace_at_inside t repl found n Hin) in Ha by lia.
           replace (q - found + length p) with (q + length p - found) by lia. exact Ha.
      * destruct Hafter as [Hend|Ha]; [lia|].
        pose proof (Hident (found + length repl) ltac:(lia) ltac:(lia)) as Hi.
        unfold t' in Hi.
        rewrite (Substitution.replace_at_after t repl found n Hin) in Hi by lia.
        replace (found + length repl - length repl + n) with (found + n) in Hi by lia.
        congruence.
    + (* the occurrence lies after the replacement *)
      assert (Hchars : forall i, found + length repl <= i ->
                                 at_ t' i = at_ t (i - length repl + n)).
      { intros i Hi. apply (Substitution.replace_at_after t repl found n Hin). exact Hi. }
      destruct (Nat.eq_dec q (found + length repl)) as [Heq|Hneq].
      * destruct Hafter as [Hend|Ha]; [lia|].
        pose proof (Hident q ltac:(lia) ltac:(lia)) as Hi.
        rewrite Hchars in Hi by lia.
        replace (q - length repl + n) with (found + n) in Hi by lia. congruence.
      * apply (Hclear (q - length repl + n)). split; [|split].
        -- apply Substitution.occurs_at_chars. split; [lia|]. intros j Hj.
           rewrite <- (Hqc j Hj), Hchars by lia. f_equal. lia.
        -- right. destruct Hbq as [Hb|Hb]; [lia|]. rewrite Hchars in Hb by lia.
           replace (q - length repl + n - 1) with (q - 1 - length repl + n) by lia. exact Hb.
        -- destruct Haq as [Ha|Ha]; [left; lia|right]. rewrite Hchars in Ha by lia.
           replace (q - length repl + n + length p) with (q + length p - length repl + n)
             by lia.
           exact Ha.
Qed.

(** What the placeholder writes for a parameter. *)
Definition written (repl : text) : Prop :=
  repl = str "void" \/ repl = str "void*" \/ repl = str "1".

Lemma written_clear repl name : written repl -> replaceable name -> clear repl name.
Proof.
  intros Hw [Hid Hvoid] k [[Hle Hs] [Hb Ha]].
  pose proof (Identifiers.is_identifier_chars _ Hid) as Hc.
  assert (Hn : length name <> 0) by (destruct name; [discriminate|simpl; lia]).
  remember (length name) as n eqn:En. clear En.
  assert (Hk : k = 0).
  { destruct Hb as [Hb|Hb]; [exact Hb|]. exfalso.
    destruct Hw as [->|[->| ->]]; cbn [length str list_ascii_of_string] in Hle;
      do 6 (destruct k as [|k]; [try (vm_compute in Hb; discriminate); try lia|]); lia. }
  subst k. cbn [Nat.add] in *. unfold substr in Hs. cbn [skipn] in Hs.
  destruct Hw as [->|[->| ->]]; cbn [length str list_ascii_of_string] in Hle;
    do 6 (try (destruct n as [|n]; [try congruence; try lia;
                                    try (destruct Ha as [Ha|Ha];
                                         [cbn [length str list_ascii_of_string] in Ha; lia
                                         |vm_compute in Ha; discriminate])|]));
    try lia;
    cbn [firstn str list_ascii_of_string] in Hs; subst name;
    first [exact (Hvoid eq_refl)|vm_compute in Hc; discriminate|vm_compute in Hid; discriminate].
Qed.

Lemma placeholder_parameter_clears result param r :
  replaceable (p_name param) ->
  placeholder_parameter result param = Some r -> clear r (p_name param).
Proof.
  intros Hrep. destruct (replaceable_chars _ Hrep) as [Hne Hid].
  unfold placeholder_parameter.
  apply (Tree.loop_post _
           (fun st : text * nat =>
              forall q, q < snd st -> ~ whole_word (fst st) (p_name param) q)
           (fun r => clear r (p_name param))).
  - intros [u pos] c Ha. cbn [fst snd] in Ha.
    destruct (length u <=? pos) eqn:El.
    { intros H. injection H as <-. apply Nat.leb_le in El. intros q Hw.
      destruct (Nat.lt_ge_cases q pos) as [Hlt|Hge]; [exact (Ha q Hlt Hw)|].
      destruct Hw as [[Hle _] _]. destruct (p_name param); [congruence|simpl in Hle; lia]. }
    destruct (find_identifier u (p_name param) pos) as [found|] eqn:Ef; [|discriminate].
    cbn [bind]. pose proof (find_identifier_first _ _ _ _ Hne Hid Ef) as Hspec.
    destruct found as [p|].
    2:{ intros H. injection H as <-. intros q.
        destruct (Nat.lt_ge_cases q pos); [apply Ha; assumption|apply Hspec; assumption]. }
    destruct Hspec as (Hle & Hw & Hfirst).
    assert (Hbefore : forall q, q < p -> ~ whole_word u (p_name param) q).
    { intros q Hq. destruct (Nat.lt_ge_cases q pos); [apply Ha; assumption|].
      apply Hfirst; assumption. }
    destruct (p_kind param).
    + cbv zeta. destruct (skip_qualifiers u _) as [la|]; [|discriminate]. cbn [bind].
      intros H. injection H as <-. cbn [fst snd].
      match goal with |- context [replace u p _ ?rp] => set (repl := rp) end.
      apply (Substitution.replace_clears u (p_name param) repl p Hne Hid); auto.
      apply written_clear; [|exact Hrep]. unfold repl, written.
      destruct (_ && _); auto.
    + intros H. injection H as <-. cbn [fst snd].
      change (p + 1) with (p + length (str "1")).
      apply (Substitution.replace_clears u (p_name param) (str "1") p Hne Hid); auto.
      apply written_clear; [right; right; reflexivity|exact Hrep].
  - intros q Hq. cbn in Hq. lia.
Qed.

Lemma placeholder_parameter_keeps result param r name :
  p_name param <> [] -> forallb is_identifier_char (p_name param) = true ->
  replaceable name -> clear result name ->
  placeholder_parameter result param = Some r -> clear r name.
Proof.
  intros Hne Hid Hrep. destruct (replaceable_chars _ Hrep) as [Hne' Hid'].
  intros Hclear. revert Hclear. unfold placeholder_parameter.
  intros Hclear.
  apply (Tree.loop_post _ (fun st : text * nat => clear (fst st) name)
           (fun r => clear r name)); [|exact Hclear].
  intros [u pos] c Ha. cbn [fst] in Ha.
  destruct (length u <=? pos); [intros H; injection H as <-; exact Ha|].
  destruct (find_identifier u (p_name param) pos) as [found|] eqn:Ef; [|discriminate].
  cbn [bind]. pose proof (find_identifier_first _ _ _ _ Hne Hid Ef) as Hspec.
  destruct found as [p|]; [|intros H; injection H as <-; exact Ha].
  destruct Hspec as (_ & [[Hin _] [Hb Hafter]] & _).
  destruct (p_kind param).
  - cbv zeta. destruct (skip_qualifiers u _) as [la|]; [|discriminate]. cbn [bind].
    intros H. injection H as <-. cbn [fst].
    apply replace_region_clear; auto.
    apply written_clear; [|exact Hrep]. unfold written. destruct (_ && _); auto.
  - intros H. injection H as <-. cbn [fst].
    apply replace_region_clear; auto.
    apply written_clear; [right; right; reflexivity|exact Hrep].
Qed.

Lemma placeholder_each_clears params : forall result r,
  Forall (fun p => replaceable (p_name p)) params ->
  placeholder_each result params = Some r ->
  (forall name, replaceable name -> clear result name -> clear r name) /\
  Forall (fun p => clear r (p_name p)) params.
Proof.
  induction params as [|p ps IH]; intros result r Hall; cbn [placeholder_each].
  - intros H. injection H as <-. split; [auto|constructor].
  - inversion Hall as [|? ? Hp Hps]; subst.
    destruct (placeholder_parameter result p) as [result'|] eqn:E; [|discriminate].
    cbn [bind]. intros H. destruct (IH _ _ Hps H) as [Hkeep Hrest].
    destruct (replaceable_chars _ Hp) as [Hne Hid].
    split.
    + intros name Hn Hc. apply Hkeep; [exact Hn|].
      exact (placeholder_parameter_keeps _ _ _ _ Hne Hid Hn Hc E).
    + constructor; [|exact Hrest].
      apply Hkeep; [exact Hp|]. exact (placeholder_parameter_clears _ _ _ Hp E).
Qed.

(** *** Bracket reduction keeps a text clear *)

Lemma close_offset_at s : forall depth k,
  close_offset s depth = Some k -> nth k s zero = "]".
Proof.
  induction s as [|ch r IH]; intros depth k; cbn [close_offset]; [discriminate|].
  destruct (Ascii.eqb ch "[").
  { destruct (close_offset r (S depth)) as [j|] eqn:E; [|discriminate].
    intros H. injection H as <-. apply (IH _ _ E). }
  destruct (Ascii.eqb ch "]") eqn:Ec.
  { destruct (depth - 1 =? 0).
    - intros H. injection H as <-. apply Ascii.eqb_eq in Ec. exact Ec.
    - destruct (close_offset r (depth - 1)) as [j|] eqn:E; [|discriminate].
      intros H. injection H as <-. apply (IH _ _ E). }
  destruct (close_offset r depth) as [j|] eqn:E; [|discriminate].
  intros H. injection H as <-. apply (IH _ _ E).
Qed.

Definition decimal_char (c : ascii) : bool := is_digit c || Ascii.eqb c "-".

Lemma to_string_chars v : forallb decimal_char (to_string v) = true.
Proof.
  assert (H : forall n, (0 <= n)%Z -> forallb decimal_char (dec_digits 20 n []) = true).
  { intros n Hn. pose proof (Decimal.dec_digits_digits 20 n [] Hn eq_refl) as Hd.
    rewrite forallb_forall in *. intros x Hx. unfold decimal_char. rewrite (Hd x Hx).
    reflexivity. }
  unfold to_string. destruct (v <? 0)%Z eqn:E.
  - apply Z.ltb_lt in E. cbn [forallb]. rewrite H by lia. reflexivity.
  - apply Z.ltb_ge in E. apply H. exact E.
Qed.

Lemma decimal_not_start c : decimal_char c = true -> is_identifier_start c = false.
Proof. char_fact (fun c => implb (decimal_char c) (negb (is_identifier_start c))) c. Qed.

Lemma to_string_clear v name : replaceable name -> clear (to_string v) name.
Proof.
  intros [Hid _] k [Hocc _].
  destruct name as [|c name]; [discriminate|].
  pose proof (occurs_char _ _ _ 0 Hocc ltac:(simpl; lia)) as Hc.
  rewrite Nat.add_0_r in Hc. change (at_ (c :: name) 0) with c in Hc.
  assert (Hk : k < length (to_string v)) by (destruct Hocc as [Hle _]; simpl in Hle; lia).
  pose proof (forallb_at _ _ _ (to_string_chars v) Hk) as Hd.
  rewrite Hc in Hd. apply decimal_not_start in Hd.
  unfold is_identifier in Hid. rewrite Hd in Hid. discriminate.
Qed.

Lemma reduces_clear t t' name :
  replaceable name -> Brackets.reduces t t' -> clear t name -> clear t' name.
Proof.
  intros Hrep Hred Hclear. destruct (replaceable_chars _ Hrep) as [Hne Hid].
  destruct Hred as [t open k v (Hopen & Hat & Hclose) _ _].
  pose proof (close_offset_lt _ _ _ Hclose) as Hk. rewrite length_skipn in Hk.
  pose proof (close_offset_at _ _ _ Hclose) as Hc.
  rewrite Brackets.nth_skipn_at in Hc.
  apply replace_region_clear; auto.
  - lia.
  - right. replace (open + 1 - 1) with open by lia. rewrite Hat. reflexivity.
  - right. rewrite Hc. reflexivity.
  - apply to_string_clear. exact Hrep.
Qed.

Lemma reduces_star_clear t t' name :
  replaceable name -> Brackets.reduces_star t t' -> clear t name -> clear t' name.
Proof.
  intros Hrep Hred. induction Hred as [|t u v H _ IH]; [auto|].
  intros Hc. apply IH. exact (reduces_clear _ _ _ Hrep H Hc).
Qed.

Lemma convert_clears def body :
  Forall (fun p => replaceable (p_name p)) (m_parameters def) ->
  convert_template_body_placeholder def = Some body ->
  Forall (fun p => clear body (p_name p)) (m_parameters def).
Proof.
  intros Hall. unfold convert_template_body_placeholder.
  destruct (placeholder_each (m_body def) (m_parameters def)) as [r|] eqn:E; [|discriminate].
  cbn [bind]. intros H. unfold evaluate_bracket_expressions in H.
  apply Brackets.loop_reduces in H.
  destruct (placeholder_each_clears _ _ _ Hall E) as [_ Hclear].
  rewrite Forall_forall in *. intros p Hp.
  apply (reduces_star_clear r body); auto.
Qed.

End Placeholders.

(** X29.  In the body of a placeholder no parameter of the definition is
    left standing as a word, when the names of the parameters are
    identifiers other than [void]: each was replaced by [void*], [void]
    or [1], and neither the later replacements nor the reduction of
    brackets bring one back. *)
Theorem placeholder_without_parameters (def : TemplateDefinition) (body : text) :
  Forall (fun p => is_identifier (p_name p) = true /\ p_name p <> str "void")
         (m_parameters def) ->
  convert_template_body_placeholder def = Some body ->
  Forall (fun p => forall q, ~ Search.whole_word body (p_name p) q) (m_parameters def).
Proof. apply Placeholders.convert_clears. Qed.

Lemma placeholder_without_parameters_witness :
  exists body,
    convert_template_body_placeholder pair_definition = Some body /\
    body = str " void* a[2]; " /\
    ~ Search.whole_word body (str "A") 1.
Proof.
  destruct (convert_template_body_placeholder pair_definition) as [body|] eqn:E;
    [|vm_compute in E; discriminate].
  exists body. split; [reflexivity|].
  split; [vm_compute in E; injection E as <-; reflexivity|].
  assert (Hall : Forall (fun p => is_identifier (p_name p) = true /\ p_name p <> str "void")
                   (m_parameters pair_definition)).
  { repeat constructor; discriminate. }
  pose proof (placeholder_without_parameters pair_definition body Hall E) as H.
  inversion H as [|? ? HA _]. apply HA.
Defined.

(** * The cache and the number of arguments *)

(** [spec] is what [register_specialization] makes of [def] for the
    arguments [s_arguments spec]. *)
Definition made_by (def : TemplateDefinition) (spec : Specialization) : Prop :=
  replace_parameters (m_between def) (m_parameters def) (s_arguments spec)
    = Some (s_between spec) /\
  (exists body,
     replace_parameters (m_body def) (m_parameters def) (s_arguments spec) = Some body /\
     evaluate_bracket_expressions body = Some (s_body spec)) /\
  replace_parameters (m_closing def) (m_parameters def) (s_arguments spec)
    = Some (s_closing spec).

(** The cache of a definition whose uses so far had arguments that are
    not empty and hold no unit separator: every entry is filed under the
    signature of its specialization, and every specialization was made
    for its own arguments. *)
Definition cache_made (def : TemplateDefinition) : Prop :=
  cache_sound def /\ Forall (made_by def) (m_specializations def).

(** One argument that holds a unit separator. *)
Definition joined_argument : text := str "a" ++ SEP :: str "b".

(** A use of [Box] with the one argument [a], [0x1f], [b] and the use
    [Box<a,b>] (two arguments for the one parameter of [Box]) have the
    same key: the second use gets the specialization of the first, made
    for one argument, in which [T] was substituted.  So does a call with
    no argument after a call with one empty argument. *)
Lemma arity_mismatch_cache_collision :
  parse_template_arguments ("<" :: joined_argument ++ [">"]) 0
    = Some ([joined_argument], 5) /\
  parse_template_arguments (str "<a,b>") 0 = Some ([str "a"; str "b"], 5) /\
  make_signature [joined_argument] = make_signature [str "a"; str "b"] /\
  length [str "a"; str "b"] <> length (m_parameters box_definition) /\
  exists def1 spec1,
    register_specialization box_definition [joined_argument] [] [] = Some (def1, spec1) /\
    register_specialization def1 [str "a"; str "b"] [] [] = Some (def1, spec1) /\
    m_body def1 = m_body box_definition /\
    evaluate_bracket_expressions (m_body def1) = Some (str " T value; char pad[8]; ") /\
    s_body spec1 = str " a" ++ SEP :: str "b value; char pad[8]; " /\
    s_arguments spec1 = [joined_argument] /\
    exists def2 spec2,
      register_specialization box_definition [[]] [] [] = Some (def2, spec2) /\
      register_specialization def2 [] [] [] = Some (def2, spec2) /\
      s_body spec2 = str "  value; char pad[8]; ".
Proof.
  split; [vm_compute; reflexivity|]. split; [vm_compute; reflexivity|].
  split; [reflexivity|]. split; [simpl; lia|].
  eexists _, _. split; [vm_compute; reflexivity|].
  split; [vm_compute; reflexivity|]. split; [reflexivity|].
  split; [vm_compute; reflexivity|]. split; [reflexivity|]. split; [reflexivity|].
  eexists _, _. split; [vm_compute; reflexivity|].
  split; [vm_compute; reflexivity|]. reflexivity.
Qed.

Module Made.

Lemma replace_parameters_mismatch t params args :
  length args <> length params -> replace_parameters t params args = Some t.
Proof.
  intros H. unfold replace_parameters.
  replace (length params =? length args) with false; [reflexivity|].
  symmetry. apply Nat.eqb_neq. congruence.
Qed.

End Made.

(** C9 (amended).  When no argument, of this use or of an earlier one of
    the definition, is empty or holds a unit separator, and bracket
    reduction of the body of the definition returns, a use whose number
    of arguments is not the number of parameters gets a specialization
    (new, or the one the cache holds for these arguments): it was made
    for these arguments, no parameter is substituted in it, its body is
    the body of the definition after bracket reduction, it is in the
    cache under the key of the use, and the next use of the same
    arguments gets it again. *)
Theorem arity_mismatch_specialization (def : TemplateDefinition) (args : list text)
    (prefix current_scope body : text) :
  cache_made def -> Forall separable args ->
  length args <> length (m_parameters def) ->
  evaluate_bracket_expressions (m_body def) = Some body ->
  exists def' spec i,
    register_specialization def args prefix current_scope = Some (def', spec) /\
    s_arguments spec = args /\
    s_between spec = m_between def /\
    s_body spec = body /\
    s_closing spec = m_closing def /\
    assoc_find (signature_of def args prefix current_scope) (m_specialization_index def')
      = Some i /\
    nth_error (m_specializations def') i = Some spec /\
    register_specialization def' args prefix current_scope = Some (def', spec) /\
    cache_made def'.
Proof.
  intros [Hsound Hmade] Hsep Hlen Hbody.
  destruct (assoc_find (signature_of def args prefix current_scope)
              (m_specialization_index def)) as [i|] eqn:Ef.
  - (* the key is in the cache *)
    assert (Hreg : register_specialization def args prefix current_scope
                   = Some (def, nth i (m_specializations def) default_spec)).
    { unfold register_specialization. cbv zeta.
      fold (signature_of def args prefix current_scope). rewrite Ef. reflexivity. }
    destruct (Keys.register_arguments _ _ _ _ _ _ Hsound Hsep Hreg) as [Hargs _].
    destruct (SpecNames.assoc_find_In _ _ _ Ef) as (k & Hin & Hk).
    pose proof Hsound as Hs. unfold cache_sound in Hs. rewrite Forall_forall in Hs.
    destruct (Hs _ Hin) as (spec0 & _ & Hnth & _). cbn [snd] in Hnth.
    rewrite (nth_error_nth _ _ default_spec Hnth) in Hreg, Hargs.
    pose proof Hmade as Hm. rewrite Forall_forall in Hm.
    destruct (Hm spec0 (nth_error_In _ _ Hnth)) as (Hb & (body0 & Hbody0 & Hred) & Hc).
    rewrite Hargs in Hb, Hbody0, Hc.
    rewrite Made.replace_parameters_mismatch in Hb, Hbody0, Hc by exact Hlen.
    injection Hb as Hb. injection Hbody0 as <-. injection Hc as Hc.
    exists def, spec0, i. split; [exact Hreg|]. split; [exact Hargs|].
    split; [congruence|]. split; [congruence|]. split; [congruence|].
    split; [exact Ef|]. split; [exact Hnth|]. split; [exact Hreg|].
    split; assumption.
  - (* a new specialization *)
    assert (Hreg : exists def' spec,
              register_specialization def args prefix current_scope = Some (def', spec) /\
              def' = with_specialization def (signature_of def args prefix current_scope) spec /\
              spec = mkSpec args (s_sanitized_name spec) (m_between def) body (m_closing def)).
    { unfold register_specialization. cbv zeta.
      fold (signature_of def args prefix current_scope). rewrite Ef.
      rewrite !Made.replace_parameters_mismatch by exact Hlen. cbn [bind].
      rewrite Hbody. cbn [bind]. eexists _, _. split; [reflexivity|].
      split; reflexivity. }
    destruct Hreg as (def' & spec & Hreg & Hdef' & Hspec).
    destruct (Keys.register_arguments _ _ _ _ _ _ Hsound Hsep Hreg) as [Hargs Hsound'].
    exists def', spec, (length (m_specializations def)).
    split; [exact Hreg|]. split; [exact Hargs|].
    split; [rewrite Hspec; reflexivity|]. split; [rewrite Hspec; reflexivity|].
    split; [rewrite Hspec; reflexivity|].
    assert (Hfind : assoc_find (signature_of def args prefix current_scope)
                      (m_specialization_index def')
                    = Some (length (m_specializations def))).
    { rewrite Hdef'. unfold with_specialization. cbn [m_specialization_index].
      apply assoc_find_app_new. exact Ef. }
    assert (Hnth : nth_error (m_specializations def') (length (m_specializations def))
                   = Some spec).
    { rewrite Hdef'. unfold with_specialization. cbn [m_specializations].
      rewrite nth_error_app2, Nat.sub_diag by lia. reflexivity. }
    split; [exact Hfind|]. split; [exact Hnth|]. split.
    + unfold register_specialization. cbv zeta.
      replace (scope_hint_of def' prefix current_scope)
        with (scope_hint_of def prefix current_scope) by (rewrite Hdef'; reflexivity).
      fold (signature_of def args prefix current_scope). rewrite Hfind.
      rewrite (nth_error_nth _ _ default_spec Hnth). reflexivity.
    + split; [exact Hsound'|]. rewrite Hdef'. unfold with_specialization.
      cbn [m_specializations]. apply Forall_app. split.
      * eapply Forall_impl; [|exact Hmade]. intros s0 H0. exact H0.
      * constructor; [|constructor]. rewrite Hspec.
        unfold made_by. cbn [s_arguments s_between s_body s_closing m_between m_body
                             m_closing m_parameters].
        rewrite !Made.replace_parameters_mismatch by exact Hlen.
        split; [reflexivity|]. split; [|reflexivity]. exists (m_body def). auto.
Qed.

Lemma arity_mismatch_specialization_witness :
  exists def' spec,
    register_specialization box_definition [str "int"; str "long"] [] []
      = Some (def', spec) /\
    s_arguments spec = [str "int"; str "long"] /\
    s_between spec = str " " /\
    s_body spec = str " T value; char pad[8]; " /\
    s_closing spec = str "};" /\
    register_specialization def' [str "int"; str "long"] [] [] = Some (def', spec).
Proof.
  assert (Hc : cache_made box_definition) by (split; constructor).
  assert (Hs : Forall separable [str "int"; str "long"]).
  { repeat constructor; discriminate. }
  assert (Hl : length [str "int"; str "long"] <> length (m_parameters box_definition))
    by (simpl; lia).
  assert (Hb : evaluate_bracket_expressions (m_body box_definition)
               = Some (str " T value; char pad[8]; ")) by (vm_compute; reflexivity).
  destruct (arity_mismatch_specialization box_definition [str "int"; str "long"] [] []
              _ Hc Hs Hl Hb)
    as (def' & spec & i & H1 & H2 & H3 & H4 & H5 & _ & _ & H8 & _).
  exists def', spec. repeat split; assumption.
Defined.

(** * The names of the specializations of a definition *)

(** The name [register_specialization] gives to a new specialization. *)
Definition spec_name (def : TemplateDefinition) (hint : text) (args : list text) : text :=
  (m_name def ++ (if negb (is_empty hint) then str "_" ++ hint else []))
  ++ Names.suffix args.

(** Every entry of the cache is filed under the scope hint and the
    signature of the arguments its specialization was named from.  This
    holds of an empty cache and [register_specialization] keeps it,
    whatever the arguments. *)
Definition cache_named (def : TemplateDefinition) : Prop :=
  Forall (fun e =>
            exists spec hint,
              nth_error (m_specializations def) (snd e) = Some spec /\
              forallb is_identifier_char hint = true /\
              fst e = hint ++ str "|" ++ make_signature (s_arguments spec) /\
              s_sanitized_name spec = spec_name def hint (s_arguments spec))
         (m_specialization_index def).

(** The maximal runs of letters and digits of a text: [current] is the
    run being read. *)
Fixpoint words_from (s current : text) : list text :=
  match s with
  | [] => match current with [] => [] | _ => [current] end
  | c :: r =>
      if is_alnum c then words_from r (current ++ [c])
      else match current with
           | [] => words_from r []
           | _ => current :: words_from r []
           end
  end.

Definition words (s : text) : list text := words_from s [].

(** The tokens of a group, with [_] between them. *)
Fixpoint underscored (g : list text) : text :=
  match g with
  | [] => []
  | [a] => a
  | a :: rest => a ++ "_" :: underscored rest
  end.

Module Regroup.
Import GrammarFacts.

Lemma words_from_run a : forall s current,
  forallb is_alnum a = true -> words_from (a ++ s) current = words_from s (current ++ a).
Proof.
  induction a as [|c a IH]; intros s current H; cbn [app].
  - rewrite app_nil_r. reflexivity.
  - cbn [forallb] in H. apply andb_true_iff in H as [Hc Ha].
    cbn [words_from]. rewrite Hc, IH by exact Ha. rewrite <- app_assoc. reflexivity.
Qed.

Lemma words_from_stop s current :
  hd_fails is_alnum s -> current <> [] -> words_from s current = current :: words s.
Proof.
  intros Hs Hc. destruct s as [|c r].
  - destruct current; [congruence|reflexivity].
  - simpl in Hs. unfold words. cbn [words_from]. rewrite Hs.
    destruct current; [congruence|reflexivity].
Qed.

Lemma words_token a s :
  Names.plain a -> hd_fails is_alnum s -> words (a ++ s) = a :: words s.
Proof.
  intros [Hne Ha] Hs. unfold words at 1. rewrite words_from_run by exact Ha.
  apply words_from_stop; assumption.
Qed.

Lemma words_skip c s : is_alnum c = false -> words (c :: s) = words s.
Proof. intros H. unfold words. cbn [words_from]. rewrite H. reflexivity. Qed.

Lemma underscored_cons a g :
  underscored (a :: g) = a ++ match g with [] => [] | _ => "_" :: underscored g end.
Proof. destruct g; cbn [underscored]; [rewrite app_nil_r|]; reflexivity. Qed.

Lemma words_underscored g : forall rest,
  Forall Names.plain g -> hd_fails is_alnum rest ->
  words (underscored g ++ rest) = g ++ words rest.
Proof.
  induction g as [|a g IH]; intros rest Hg Hrest; [reflexivity|].
  inversion Hg as [|? ? Ha Hg']; subst.
  rewrite underscored_cons, <- app_assoc. rewrite words_token; [|exact Ha|].
  - cbn [app]. f_equal. destruct g as [|b g]; [reflexivity|].
    cbn [app]. rewrite words_skip by reflexivity. apply IH; assumption.
  - destruct g; [exact Hrest|reflexivity].
Qed.

(** *** The sanitized form of a group *)

Lemma sanitize_char_sep result : sanitize_char result SEP = push_sep result.
Proof. reflexivity. Qed.

Lemma push_sep_plain result a :
  Names.plain a -> push_sep (result ++ a) = (result ++ a) ++ ["_"].
Proof.
  intros [Hne Ha]. destruct (exists_last Hne) as (a' & c & ->).
  rewrite forallb_app in Ha. apply andb_true_iff in Ha as [_ Hc].
  cbn [forallb] in Hc. rewrite andb_true_r in Hc.
  unfold push_sep. rewrite app_assoc.
  rewrite Sanitizer.back_is_snoc, (Names.alnum_not_underscore c Hc).
  destruct (result ++ a'); reflexivity.
Qed.

Lemma fold_group g : forall result,
  Forall Names.plain g ->
  fold_left sanitize_char (make_signature g) result = result ++ underscored g.
Proof.
  induction g as [|a g IH]; intros result Hg; [cbn; rewrite app_nil_r; reflexivity|].
  inversion Hg as [|? ? Ha Hg']; subst.
  rewrite Keys.make_signature_cons, underscored_cons.
  rewrite fold_left_app. rewrite (Names.fold_plain a _ (proj2 Ha)).
  destruct g as [|b g]; [cbn [fold_left]; rewrite app_nil_r; reflexivity|].
  cbn [fold_left]. rewrite sanitize_char_sep, push_sep_plain by exact Ha.
  rewrite IH by exact Hg'. rewrite <- !app_assoc. reflexivity.
Qed.

Lemma underscored_chars g :
  Forall Names.plain g ->
  forallb (fun c => negb (Ascii.eqb c ".")) (underscored g) = true.
Proof.
  induction g as [|a g IH]; intros Hg; [reflexivity|].
  inversion Hg as [|? ? [_ Ha] Hg']; subst.
  rewrite underscored_cons, forallb_app. apply andb_true_iff. split.
  - rewrite forallb_forall in *. intros c Hc.
    rewrite (Names.alnum_not_dot c (Ha c Hc)). reflexivity.
  - destruct g; [reflexivity|]. cbn [forallb]. rewrite IH by exact Hg'. reflexivity.
Qed.

Lemma map_dot_free (s : text) :
  forallb (fun c => negb (Ascii.eqb c ".")) s = true ->
  map (fun c => if Ascii.eqb c "." then "_"%char else c) s = s.
Proof.
  induction s as [|c s IH]; cbn [forallb map]; intros H; [reflexivity|].
  apply andb_true_iff in H as [Hc Hs]. apply negb_true_iff in Hc.
  rewrite Hc, IH by exact Hs. reflexivity.
Qed.

(** A group of plain tokens joined by unit separators is sanitized to
    the tokens joined by [_], after a [_] when the first starts with a
    digit. *)
Lemma sanitize_group a g :
  Forall Names.plain (a :: g) ->
  exists lead,
    sanitize_token (make_signature (a :: g)) = lead ++ underscored (a :: g) /\
    (lead = [] \/ lead = ["_"%char]).
Proof.
  intros Hg. unfold sanitize_token. rewrite fold_group by exact Hg. cbn [app].
  pose proof (underscored_chars _ Hg) as Hdots.
  inversion Hg as [|? ? [Hne Ha] _]; subst.
  rewrite underscored_cons in *.
  destruct a as [|c a]; [congruence|]. cbn [app] in *.
  cbn [forallb] in Ha. apply andb_true_iff in Ha as [Hc _].
  unfold front_is. rewrite (Names.alnum_not_underscore c Hc).
  set (r := a ++ match g with [] => [] | _ => "_"%char :: underscored g end) in *.
  destruct (is_digit c); cbn [is_empty].
  - exists ["_"%char]. split; [|right; reflexivity].
    change (map ?f ("_"%char :: c :: r)) with ("_"%char :: map f (c :: r)).
    rewrite map_dot_free by exact Hdots. reflexivity.
  - exists []. split; [|left; reflexivity].
    rewrite map_dot_free by exact Hdots. reflexivity.
Qed.

Definition group_ok (g : list text) : Prop := g <> [] /\ Forall Names.plain g.

(** The words of a name are the tokens of the groups it was made from. *)
Lemma words_suffix_groups groups :
  Forall group_ok groups ->
  words (Names.suffix (map make_signature groups)) = concat groups.
Proof.
  induction groups as [|g groups IH]; intros H; [reflexivity|].
  inversion H as [|? ? [Hne Hg] H']; subst.
  destruct g as [|a g]; [congruence|].
  destruct (sanitize_group a g Hg) as (lead & Hs & Hlead).
  unfold Names.suffix. cbn [map concat].
  fold (Names.suffix (map make_signature groups)).
  rewrite Hs. cbn [app]. rewrite words_skip by reflexivity.
  rewrite <- app_assoc.
  assert (Hw : words (underscored (a :: g) ++ Names.suffix (map make_signature groups))
               = (a :: g) ++ concat groups).
  { rewrite words_underscored; [|exact Hg|apply Names.suffix_fails].
    rewrite IH by exact H'. reflexivity. }
  destruct Hlead as [->| ->]; cbn [app]; [exact Hw|].
  rewrite words_skip by reflexivity. exact Hw.
Qed.

(** *** Arguments with the signature of a plain tuple *)

Lemma plain_no_sep a :
  Names.plain a -> forallb (fun x => negb (Ascii.eqb x SEP)) a = true.
Proof.
  intros [_ Ha]. rewrite forallb_forall in *. intros c Hc.
  rewrite (Names.alnum_not_sep c (Ha c Hc)). reflexivity.
Qed.

(** A text is a piece without unit separator, followed by nothing or by
    a separator and the rest. *)
Lemma cut_at_sep (a : text) :
  exists h, forallb (fun x => negb (Ascii.eqb x SEP)) h = true /\
            (a = h \/ exists a', a = h ++ SEP :: a').
Proof.
  induction a as [|c a IH].
  - exists []. split; [reflexivity|left; reflexivity].
  - destruct (Ascii.eqb c SEP) eqn:E.
    + apply Ascii.eqb_eq in E. subst c. exists []. split; [reflexivity|].
      right. exists a. reflexivity.
    + destruct IH as (h & Hh & [->|(a' & ->)]).
      * exists (c :: h). split; [|left; reflexivity]. cbn [forallb]. rewrite E, Hh.
        reflexivity.
      * exists (c :: h). split; [|right; exists a'; reflexivity].
        cbn [forallb]. rewrite E, Hh. reflexivity.
Qed.

Definition tail_of (rest : list text) : text :=
  match rest with [] => [] | _ => SEP :: make_signature rest end.

Lemma tail_of_shape rest : tail_of rest = [] \/ exists r, tail_of rest = SEP :: r.
Proof. destruct rest; [left; reflexivity|right; eexists; reflexivity]. Qed.

(** Arguments that have the signature of a tuple of plain tokens are
    groups of consecutive tokens of the tuple, each group joined by unit
    separators. *)
Lemma regroup T : forall A,
  Forall Names.plain T -> T <> [] ->
  make_signature A = make_signature T ->
  exists groups,
    A = map make_signature groups /\ concat groups = T /\ Forall group_ok groups.
Proof.
  induction T as [|t T IH]; intros A HT Hne E; [congruence|].
  inversion HT as [|? ? Ht HT']; subst.
  rewrite Keys.make_signature_cons in E. fold (tail_of T) in E.
  destruct A as [|a A].
  { exfalso. destruct Ht as [Ht _]. destruct t; [congruence|discriminate]. }
  rewrite Keys.make_signature_cons in E. fold (tail_of A) in E.
  destruct (cut_at_sep a) as (h & Hh & [->|(a' & ->)]).
  - (* the first argument is the first token *)
    apply (Keys.split_unique SEP) in E;
      [|exact Hh|apply plain_no_sep; exact Ht|apply tail_of_shape..].
    destruct E as [-> E].
    destruct T as [|t' T].
    + destruct A as [|b A]; [|discriminate].
      exists [[t]]. split; [reflexivity|]. split; [reflexivity|].
      constructor; [|constructor]. split; [discriminate|exact HT].
    + destruct A as [|b A]; [discriminate|].
      cbn [tail_of] in E. injection E as E.
      destruct (IH (b :: A) HT' ltac:(discriminate) E) as (groups & HA & HC & HG).
      exists ([t] :: groups). split; [cbn [map]; rewrite <- HA; reflexivity|].
      split; [cbn [concat app]; rewrite HC; reflexivity|].
      constructor; [|exact HG]. split; [discriminate|]. constructor; [exact Ht|constructor].
  - (* the first argument holds the first token and more *)
    rewrite <- app_assoc in E. cbn [app] in E.
    apply (Keys.split_unique SEP) in E;
      [|exact Hh|apply plain_no_sep; exact Ht| |apply tail_of_shape].
    2:{ right. eexists. reflexivity. }
    destruct E as [-> E].
    destruct T as [|t' T]; [discriminate|].
    cbn [tail_of] in E. injection E as E.
    assert (E' : make_signature (a' :: A) = make_signature (t' :: T)).
    { rewrite Keys.make_signature_cons. exact E. }
    destruct (IH (a' :: A) HT' ltac:(discriminate) E') as (groups & HA & HC & HG).
    destruct groups as [|g groups]; [discriminate|].
    cbn [map] in HA. injection HA as Ha' HA.
    inversion HG as [|? ? [Hgne Hg] HG']; subst.
    exists ((t :: g) :: groups). split.
    + cbn [map]. f_equal. rewrite Keys.make_signature_cons.
      destruct g; [congruence|reflexivity].
    + split; [cbn [concat app] in *; rewrite HC; reflexivity|].
      constructor; [|exact HG']. split; [discriminate|]. constructor; assumption.
Qed.

(** The words of a name made from arguments that have the signature of a
    plain tuple are the tokens of the tuple. *)
Lemma name_words T A :
  Forall Names.plain T -> T <> [] ->
  make_signature A = make_signature T -> words (Names.suffix A) = T.
Proof.
  intros HT Hne E. destruct (regroup T A HT Hne E) as (groups & -> & <- & HG).
  apply words_suffix_groups. exact HG.
Qed.

(** What [register_specialization] returns was named from arguments that
    have the signature of those of the call, with the scope hint of the
    call; and the cache stays filed. *)
Lemma register_named def args prefix current_scope def' spec :
  cache_named def ->
  register_specialization def args prefix current_scope = Some (def', spec) ->
  (exists A,
     make_signature A = make_signature args /\
     s_sanitized_name spec = spec_name def (scope_hint_of def prefix current_scope) A) /\
  cache_named def'.
Proof.
  intros Hcache. unfold register_specialization. cbv zeta.
  pose proof (SpecNames.scope_hint_chars def prefix current_scope) as Hhint.
  set (hint := scope_hint_of def prefix current_scope) in *.
  destruct (assoc_find _ (m_specialization_index def)) as [i|] eqn:Ef.
  - intros H. injection H as <- <-. split; [|exact Hcache].
    destruct (SpecNames.assoc_find_In _ _ _ Ef) as (k & Hin & Hk).
    pose proof Hcache as Hc. unfold cache_named in Hc. rewrite Forall_forall in Hc.
    destruct (Hc _ Hin) as (spec0 & hint0 & Hnth & Hh0 & Hkey & Hname).
    cbn [fst snd] in *. rewrite Hk in Hkey.
    apply (Keys.split_unique "|") in Hkey;
      [|apply Keys.hint_free; assumption..|right; simpl; eauto|right; simpl; eauto].
    destruct Hkey as [<- Hkey]. simpl in Hkey. injection Hkey as Hkey.
    rewrite (nth_error_nth _ _ default_spec Hnth).
    exists (s_arguments spec0). split; [symmetry; exact Hkey|exact Hname].
  - destruct (replace_parameters (m_between def) _ _) as [between|]; [|discriminate].
    destruct (replace_parameters (m_body def) _ _) as [body|]; [|discriminate].
    cbn [bind].
    destruct (evaluate_bracket_expressions body) as [body'|]; [|discriminate].
    destruct (replace_parameters (m_closing def) _ _) as [closing|]; [|discriminate].
    cbn [bind]. intros H. injection H as <- <-.
    split.
    { exists args. split; [reflexivity|]. cbn [s_sanitized_name].
      rewrite Names.fold_name. reflexivity. }
    unfold cache_named, with_specialization. cbn [m_specializations m_specialization_index].
    apply Forall_app. split.
    + eapply Forall_impl; [|exact Hcache].
      intros e (spec0 & hint0 & Hnth & Hh0 & Hkey & Hname).
      exists spec0, hint0. split; [|auto].
      rewrite nth_error_app1; [exact Hnth|]. apply nth_error_Some. congruence.
    + constructor; [|constructor]. eexists _, hint. cbn [fst snd].
      split; [rewrite nth_error_app2, Nat.sub_diag by lia; reflexivity|].
      cbn [s_arguments s_sanitized_name]. split; [exact Hhint|]. split; [reflexivity|].
      rewrite Names.fold_name. reflexivity.
Qed.

End Regroup.

(** C4 (amended).  For a definition and a fixed scope hint, two
    different tuples of one or more arguments made of letters and digits
    only get different sanitized names, whatever the cache holds when
    each is registered ([def1] and [def2] are two states of the
    definition, whose caches were filled by [register_specialization]),
    and whether the specialization is new or comes from the cache. *)
Theorem plain_arguments_distinct_names (def1 def2 def1' def2' : TemplateDefinition)
    (args1 args2 : list text) (prefix current_scope : text)
    (spec1 spec2 : Specialization) :
  cache_named def1 -> cache_named def2 ->
  m_name def2 = m_name def1 -> m_scope_path def2 = m_scope_path def1 ->
  args1 <> [] -> args2 <> [] ->
  Forall Names.plain args1 -> Forall Names.plain args2 ->
  args1 <> args2 ->
  register_specialization def1 args1 prefix current_scope = Some (def1', spec1) ->
  register_specialization def2 args2 prefix current_scope = Some (def2', spec2) ->
  s_sanitized_name spec1 <> s_sanitized_name spec2 /\
  cache_named def1' /\ cache_named def2'.
Proof.
  intros Hc1 Hc2 Hname Hscope Hn1 Hn2 P1 P2 Hne R1 R2.
  destruct (Regroup.register_named _ _ _ _ _ _ Hc1 R1) as [(A1 & E1 & N1) Hc1'].
  destruct (Regroup.register_named _ _ _ _ _ _ Hc2 R2) as [(A2 & E2 & N2) Hc2'].
  split; [|split; assumption].
  rewrite N1, N2. unfold spec_name, scope_hint_of. rewrite Hname, Hscope.
  intros E. apply app_inv_head in E. apply Hne.
  rewrite <- (Regroup.name_words args1 A1 P1 Hn1 E1).
  rewrite <- (Regroup.name_words args2 A2 P2 Hn2 E2).
  rewrite E. reflexivity.
Qed.

Lemma plain_arguments_distinct_names_witness :
  exists def1 spec1 def2 spec2 def3 spec3,
    register_specialization parsed_box [str "int"] [] [] = Some (def1, spec1) /\
    register_specialization def1 [str "u8"] [] [] = Some (def2, spec2) /\
    register_specialization def2 [str "int"] [] [] = Some (def3, spec3) /\
    s_sanitized_name spec1 <> s_sanitized_name spec2 /\
    s_sanitized_name spec2 <> s_sanitized_name spec3 /\
    length (m_specializations def3) = 2.
Proof.
  assert (Hint : Forall Names.plain [str "int"]) by (repeat constructor; discriminate).
  assert (Hu8 : Forall Names.plain [str "u8"]) by (repeat constructor; discriminate).
  assert (H0 : cache_named parsed_box) by constructor.
  destruct (register_specialization parsed_box [str "int"] [] [])
    as [[def1 spec1]|] eqn:R1; [|vm_compute in R1; discriminate].
  assert (S1 : m_name def1 = m_name parsed_box /\ m_scope_path def1 = m_scope_path parsed_box).
  { vm_compute in R1. injection R1 as <- _. split; reflexivity. }
  destruct S1 as [S1n S1s].
  destruct (register_specialization def1 [str "u8"] [] [])
    as [[def2 spec2]|] eqn:R2.
  2:{ vm_compute in R1. injection R1 as <- <-. vm_compute in R2. discriminate. }
  assert (S2 : m_name def2 = m_name def1 /\ m_scope_path def2 = m_scope_path def1).
  { vm_compute in R1. injection R1 as <- <-. vm_compute in R2. injection R2 as <- _.
    split; reflexivity. }
  destruct S2 as [S2n S2s].
  destruct (register_specialization def2 [str "int"] [] [])
    as [[def3 spec3]|] eqn:R3.
  2:{ vm_compute in R1. injection R1 as <- <-. vm_compute in R2. injection R2 as <- <-.
      vm_compute in R3. discriminate. }
  assert (S3 : length (m_specializations def3) = 2).
  { vm_compute in R1. injection R1 as <- <-. vm_compute in R2. injection R2 as <- <-.
    vm_compute in R3. injection R3 as <- _. reflexivity. }
  destruct (Regroup.register_named _ _ _ _ _ _ H0 R1) as [_ Hc1].
  destruct (plain_arguments_distinct_names parsed_box def1 def1 def2
              [str "int"] [str "u8"] [] [] spec1 spec2 H0 Hc1 S1n S1s
              ltac:(discriminate) ltac:(discriminate) Hint Hu8 ltac:(discriminate) R1 R2)
    as (D12 & _ & Hc2).
  destruct (plain_arguments_distinct_names def1 def2 def2 def3
              [str "u8"] [str "int"] [] [] spec2 spec3 Hc1 Hc2 S2n S2s
              ltac:(discriminate) ltac:(discriminate) Hu8 Hint ltac:(discriminate) R2 R3)
    as (D23 & _ & _).
  exists def1, spec1, def2, spec2, def3, spec3. repeat split; assumption.
Defined.

(** * The outcome of the tree driver *)



